(** * Bracket tournament controller and rating ladder: a shallow embedding

  The development follows [server/bracket-manager.ts] (the class
  [BracketManager]) and the ladder store (the class [LadderStore]).

  - [JS] holds the few string builtins of the host language that the
    persistence code relies on ([split], [trim], [parseInt], ...).
  - [Bracket] embeds the tournament controller.  The [matches] array is a
    list; the references that [playerMatches] keeps to the match objects are
    indices into that list, so that a mutation of a match is seen through
    every alias, as in the source.
  - [Ladder] embeds the rating store.  JS numbers that hold ratings are read
    as real numbers; counters are integers. *)

From Stdlib Require Import ZArith List String Ascii Bool Lia.
From Stdlib Require Import Permutation Sorted.
From Stdlib Require Import DecimalString DecimalPos.
From Stdlib Require Import Reals Lra.
From stdpp Require Import gmap strings list fin_maps.

Local Open Scope string_scope.

(* ===================================================================== *)
(** * Host-language string builtins *)
(* ===================================================================== *)

Module JS.

(** ASCII part of the WhiteSpace and LineTerminator classes. *)
Definition is_space (c : ascii) : bool :=
  match nat_of_ascii c with
  | 9 | 10 | 11 | 12 | 13 | 32 => true
  | _ => false
  end.

Fixpoint trimStart (s : string) : string :=
  match s with
  | String c s' => if is_space c then trimStart s' else s
  | EmptyString => EmptyString
  end.

(** [trimEnd] drops the maximal suffix of blanks. *)
Fixpoint trimEnd (s : string) : string :=
  match s with
  | String c s' =>
      match trimEnd s' with
      | EmptyString => if is_space c then EmptyString else String c EmptyString
      | t => String c t
      end
  | EmptyString => EmptyString
  end.

Definition trim (s : string) : string := trimEnd (trimStart s).

(** [s.split(sep)] for a one-character separator. *)
Fixpoint split (sep : ascii) (s : string) : list string :=
  match s with
  | EmptyString => [EmptyString]
  | String c s' =>
      if Ascii.eqb c sep then EmptyString :: split sep s'
      else match split sep s' with
           | w :: ws => String c w :: ws
           | [] => [String c EmptyString]
           end
  end.

(** [l.join(sep)]. *)
Definition join (sep : string) (l : list string) : string :=
  String.concat sep l.

Definition startsWith (s p : string) : bool := String.prefix p s.

(** [s.substring(1)]. *)
Definition substring1 (s : string) : string :=
  match s with
  | String _ s' => s'
  | EmptyString => EmptyString
  end.

(** Truthiness of a string: only the empty string is falsy. *)
Definition truthy (s : string) : bool :=
  match s with
  | EmptyString => false
  | _ => true
  end.

Definition digit_of (radix : Z) (c : ascii) : option Z :=
  let n := Z.of_nat (nat_of_ascii c) in
  let v :=
    if ((48 <=? n) && (n <=? 57))%Z then Some (n - 48)%Z
    else if ((97 <=? n) && (n <=? 122))%Z then Some (n - 87)%Z
    else if ((65 <=? n) && (n <=? 90))%Z then Some (n - 55)%Z
    else None in
  match v with
  | Some d => if (d <? radix)%Z then Some d else None
  | None => None
  end.

(** Longest prefix of digits, read in [radix]; [acc] is [None] until the
    first digit has been seen. *)
Fixpoint digits_prefix (radix : Z) (s : string) (acc : option Z) : option Z :=
  match s with
  | String c s' =>
      match digit_of radix c with
      | Some d =>
          digits_prefix radix s'
            (Some (radix * match acc with Some a => a | None => 0 end + d)%Z)
      | None => acc
      end
  | EmptyString => acc
  end.

(** [parseInt(s)]; [None] stands for NaN. *)
Definition parseInt (s : string) : option Z :=
  let s0 := trimStart s in
  let '(neg, s1) :=
    match s0 with
    | String "-" r => (true, r)
    | String "+" r => (false, r)
    | _ => (false, s0)
    end in
  let '(radix, s2) :=
    match s1 with
    | String "0" (String "x" r) => (16%Z, r)
    | String "0" (String "X" r) => (16%Z, r)
    | _ => (10%Z, s1)
    end in
  match digits_prefix radix s2 None with
  | Some v => Some (if neg then (- v)%Z else v)
  | None => None
  end.

(** Template-literal rendering of an integer-valued number. *)
Definition string_of_Z (z : Z) : string :=
  NilZero.string_of_int (Z.to_int z).

Definition string_of_bool (b : bool) : string :=
  if b then "true" else "false".

(** Line feed, the separator of the persisted file. *)
Definition LF : ascii := ascii_of_nat 10.

End JS.

(* ===================================================================== *)
(** * The identity canonicalizer *)
(* ===================================================================== *)

Module Dex.

Definition toLowerCase_ascii (c : ascii) : ascii :=
  let n := nat_of_ascii c in
  if ((65 <=? n) && (n <=? 90))%nat then ascii_of_nat (n + 32) else c.

Definition is_id_char (c : ascii) : bool :=
  let n := nat_of_ascii c in
  (((48 <=? n) && (n <=? 57)) || ((97 <=? n) && (n <=? 122)))%nat.

(** Modelled from the spec: [toID] of [sim/dex], the identity canonicalizer
    (lowercase, then strip every non-alphanumeric character). *)
Fixpoint toID (s : string) : string :=
  match s with
  | EmptyString => EmptyString
  | String c s' =>
      let c' := toLowerCase_ascii c in
      if is_id_char c' then String c' (toID s') else toID s'
  end.

End Dex.

(* ===================================================================== *)
(** * The bracket controller *)
(* ===================================================================== *)

Module Bracket.

Import Dex.

Local Open Scope Z_scope.

(** Identities are strings; the empty string is the empty slot of a
    match. *)

Inductive Status := pending | waiting | active | complete.

#[export] Instance Status_eq_dec : EqDecision Status.
Proof. solve_decision. Defined.

(** The optional [startTime] of the source is never written and is left
    out. *)
Record BracketMatch := mkMatch {
  round : Z;
  matchId : Z;
  player1 : string;
  player2 : string;
  player1Display : string;
  player2Display : string;
  p1wins : Z;
  p2wins : Z;
  status : Status;
  winner : option string;
  winnerDisplay : option string;
}.

#[export] Instance BracketMatch_eq_dec : EqDecision BracketMatch.
Proof. solve_decision. Defined.

(** [playerMatches] maps an identity to (the index in [matches] of) its
    current match. *)
Record BracketState := mkState {
  format : string;
  participants : Z;
  bestOf : Z;
  currentRound : Z;
  matches : list BracketMatch;
  playerMatches : gmap string nat;
  displayNames : gmap string string;
  initialized : bool;
  frozen : bool;
}.

(** The state built by the constructor, and by [reset]. *)
Definition empty_state : BracketState :=
  mkState "" 0 0 0 [] ∅ ∅ false false.

(** ** Field updates (the source mutates the objects in place) *)

Definition set_p1wins (m : BracketMatch) (v : Z) : BracketMatch :=
  mkMatch (round m) (matchId m) (player1 m) (player2 m) (player1Display m)
    (player2Display m) v (p2wins m) (status m) (winner m) (winnerDisplay m).

Definition set_p2wins (m : BracketMatch) (v : Z) : BracketMatch :=
  mkMatch (round m) (matchId m) (player1 m) (player2 m) (player1Display m)
    (player2Display m) (p1wins m) v (status m) (winner m) (winnerDisplay m).

Definition set_status (m : BracketMatch) (v : Status) : BracketMatch :=
  mkMatch (round m) (matchId m) (player1 m) (player2 m) (player1Display m)
    (player2Display m) (p1wins m) (p2wins m) v (winner m) (winnerDisplay m).

Definition set_winner (m : BracketMatch) (w : option string)
    (d : option string) : BracketMatch :=
  mkMatch (round m) (matchId m) (player1 m) (player2 m) (player1Display m)
    (player2Display m) (p1wins m) (p2wins m) (status m) w d.

Definition set_player1 (m : BracketMatch) (id d : string) : BracketMatch :=
  mkMatch (round m) (matchId m) id (player2 m) d
    (player2Display m) (p1wins m) (p2wins m) (status m) (winner m)
    (winnerDisplay m).

Definition set_player2 (m : BracketMatch) (id d : string) : BracketMatch :=
  mkMatch (round m) (matchId m) (player1 m) id (player1Display m)
    d (p1wins m) (p2wins m) (status m) (winner m) (winnerDisplay m).

Definition set_matches (st : BracketState) (ms : list BracketMatch) :=
  mkState (format st) (participants st) (bestOf st) (currentRound st) ms
    (playerMatches st) (displayNames st) (initialized st) (frozen st).

Definition set_playerMatches (st : BracketState) (pm : gmap string nat) :=
  mkState (format st) (participants st) (bestOf st) (currentRound st)
    (matches st) pm (displayNames st) (initialized st) (frozen st).

Definition set_currentRound (st : BracketState) (r : Z) :=
  mkState (format st) (participants st) (bestOf st) r
    (matches st) (playerMatches st) (displayNames st) (initialized st)
    (frozen st).

Definition set_frozen (st : BracketState) (b : bool) :=
  mkState (format st) (participants st) (bestOf st) (currentRound st)
    (matches st) (playerMatches st) (displayNames st) (initialized st) b.

(** ** What [Monitor] is told *)

Inductive Level := LOG | WARN | ERROR.

Inductive LogMsg :=
| NoActiveMatch (w : string)
| WrongMatch (w l p1 p2 : string)
| Beats (w l : string) (s1 s2 needed : Z)
| MatchComplete (mid : Z) (wd : option string) (s1 s2 : Z)
| TournamentComplete (w : string)
| FrozenBlocked (w : string) (mid : Z)
| NoNextMatch (mid : Z)
| Advancing (wd : string) (from to : Z)
| BothPlayers (mid : Z)
| MatchReady (rnd mid : Z) (d1 d2 : string)
| WaitingForOpponent (wd : string) (rnd : Z)
| Resuming (wd : string) (mid : Z)
| Resumed
| Frozen.

Definition level (e : LogMsg) : Level :=
  match e with
  | NoActiveMatch _ | WrongMatch _ _ _ _ => WARN
  | NoNextMatch _ | BothPlayers _ => ERROR
  | _ => LOG
  end.

Inductive Result (A : Type) :=
| Ok (a : A)
| Throw (msg : string).
Arguments Ok {A} a.
Arguments Throw {A} msg.

(** ** Seeding *)

(** [n > 0 && (n & (n - 1)) === 0]; the operands of [&] are 32-bit. *)
Definition toInt32 (z : Z) : Z := (z + 2 ^ 31) mod 2 ^ 32 - 2 ^ 31.

Definition isPowerOfTwo (n : Z) : bool :=
  (0 <? n) && (Z.land (toInt32 n) (toInt32 (n - 1)) =? 0).

(** [buildBracketSeeds] recurses on [numPlayers / 2] until it meets 2.  On
    an argument that is not a power of two (at least 2) the source never
    meets its base case; the fuel runs out on exactly those arguments
    ([None]).  An odd argument other than 1 halves to a fraction, from which
    2 is never reached. *)
Fixpoint buildBracketSeeds_fuel (fuel : nat) (numPlayers : Z)
    : option (list Z) :=
  match fuel with
  | O => None
  | S fuel' =>
      if numPlayers =? 2 then Some [1; 2]
      else if Z.even numPlayers then
        match buildBracketSeeds_fuel fuel' (numPlayers / 2) with
        | Some previousRound =>
            Some (flat_map (fun seed => [seed; numPlayers + 1 - seed])
                    previousRound)
        | None => None
        end
      else None
  end.

Definition buildBracketSeeds (numPlayers : Z) : option (list Z) :=
  buildBracketSeeds_fuel (Z.to_nat numPlayers) numPlayers.

(** [seeds[k]] for an integer [k]; [None] is [undefined]. *)
Definition at_index {A} (l : list A) (k : Z) : option A :=
  if k <? 0 then None else l !! Z.to_nat k.

(** The loop [for (i = 0; i < numMatches; i++)] pushing
    [[seeds[2i], seeds[2i+1]]]. *)
Definition pairings_of (seeds : list Z) (numMatches : Z)
    : list (option Z * option Z) :=
  map (fun i : nat =>
         (at_index seeds (Z.of_nat i * 2), at_index seeds (Z.of_nat i * 2 + 1)))
      (seq 0 (Z.to_nat numMatches)).

Definition generateStandardPairings (numPlayers : Z)
    : option (list (option Z * option Z)) :=
  let numMatches := numPlayers / 2 in
  match buildBracketSeeds numPlayers with
  | Some seeds => Some (pairings_of seeds numMatches)
  | None => None
  end.

(** ** Fisher-Yates, with the draws of [Math.random] supplied by [rnd]:
    [rnd i] is the value of [Math.floor(Math.random() * (i + 1))] at loop
    counter [i], reduced into [0..i]. *)
Definition swap {A} (i j : nat) (l : list A) : list A :=
  match l !! i, l !! j with
  | Some a, Some b => <[i := b]> (<[j := a]> l)
  | _, _ => l
  end.

Fixpoint shuffle_from {A} (rnd : nat -> nat) (i : nat) (l : list A) : list A :=
  match i with
  | O => l
  | S i' => shuffle_from rnd i' (swap i (rnd i mod (i + 1))%nat l)
  end.

Definition shuffleArray {A} (rnd : nat -> nat) (array : list A) : list A :=
  shuffle_from rnd (length array - 1)%nat array.

(** ** [initialize] *)

(** [seededPlayers[seed - 1]]; a missing entry ([undefined]) reads as the
    empty name, whose identity is empty as well. *)
Definition player_at (seededPlayers : list string) (seed : option Z) : string :=
  match seed with
  | Some sd => default "" (at_index seededPlayers (sd - 1))
  | None => ""
  end.

Definition first_round_match (seededPlayers : list string) (i : nat)
    (pr : option Z * option Z) : BracketMatch :=
  let p1Name := player_at seededPlayers (fst pr) in
  let p2Name := player_at seededPlayers (snd pr) in
  mkMatch 1 (Z.of_nat i + 1) (toID p1Name) (toID p2Name) p1Name p2Name
    0 0 active None None.

(** One turn of the first loop: push the match, then map both players to
    it. *)
Definition push_first_round (seededPlayers : list string)
    (acc : list BracketMatch * gmap string nat) (pr : option Z * option Z)
    : list BracketMatch * gmap string nat :=
  let i := length (fst acc) in
  let m := first_round_match seededPlayers i pr in
  ((fst acc ++ [m])%list, <[player2 m := i]> (<[player1 m := i]> (snd acc))).

Definition placeholder (rnd mid : Z) : BracketMatch :=
  mkMatch rnd mid "" "" "" "" 0 0 pending None None.

(** The rounds [round .. totalRounds], [count] of them, with match ids
    counting up from [nextMatchId]. *)
Fixpoint placeholder_rounds (count : nat) (rnd totalRounds nextMatchId : Z)
    : list BracketMatch :=
  match count with
  | O => []
  | S count' =>
      let matchesInRound := 2 ^ (totalRounds - rnd) in
      (map (fun i : nat => placeholder rnd (nextMatchId + Z.of_nat i))
          (seq 0 (Z.to_nat matchesInRound))
      ++ placeholder_rounds count' (rnd + 1) totalRounds
           (nextMatchId + matchesInRound))%list
  end.

(** [initialize] up to its last statement: the two guards and the
    construction of the state.  The write of the file that ends the method
    is in [initialize_call], after [saveToCSV]. *)
Definition initialize (fmt : string) (players : list string) (bo : Z)
    (randomize : bool) (rnd : nat -> nat) (st : BracketState)
    : Result BracketState :=
  if initialized st then
    Throw "Bracket already initialized. Use /resetbracket to start over."
  else
    let numPlayers := Z.of_nat (length players) in
    if (numPlayers <? 2) || negb (isPowerOfTwo numPlayers) then
      Throw "Number of players must be a power of 2"
    else
      let seededPlayers :=
        if randomize then shuffleArray rnd players else players in
      let names :=
        fold_left (fun dn player => <[toID player := player]> dn)
          seededPlayers (∅ : gmap string string) in
      match generateStandardPairings numPlayers with
      | None => Throw "Maximum call stack size exceeded"
      | Some standardPairings =>
          let numMatches := numPlayers / 2 in
          let '(first, pm) :=
            fold_left (push_first_round seededPlayers) standardPairings
              ([], ∅) in
          let totalRounds := Z.log2 numPlayers in
          let rest :=
            placeholder_rounds (Z.to_nat (totalRounds - 1)) 2 totalRounds
              (numMatches + 1) in
          Ok (mkState fmt numPlayers bo 1 (first ++ rest)%list pm names true
                (frozen st))
      end.

(** ** Queries *)

Definition is_live (m : BracketMatch) : bool :=
  bool_decide (status m = active) || bool_decide (status m = waiting).

(** [Math.min(...l)]; [None] stands for [Infinity], the value on the empty
    list. *)
Definition min_list (l : list Z) : option Z :=
  match l with
  | [] => None
  | x :: l' => Some (fold_left Z.min l' x)
  end.

Definition max_list (l : list Z) : option Z :=
  match l with
  | [] => None
  | x :: l' => Some (fold_left Z.max l' x)
  end.

Definition getEarliestIncompleteRound (st : BracketState) : Z :=
  let incompleteRounds :=
    map round (List.filter is_live (matches st)) in
  match min_list incompleteRounds with
  | None => currentRound st
  | Some r => r
  end.

(** The match object that [playerMatches] holds for [id]. *)
Definition match_of (st : BracketState) (id : string) : option BracketMatch :=
  match playerMatches st !! id with
  | Some i => matches st !! i
  | None => None
  end.

Definition opponents (m : BracketMatch) (a b : string) : bool :=
  (String.eqb (player1 m) a && String.eqb (player2 m) b)
  || (String.eqb (player2 m) a && String.eqb (player1 m) b).

Definition canMatch (st : BracketState) (userid1 userid2 : string) : bool :=
  if negb (initialized st) then false
  else
    match match_of st userid1 with
    | None => false
    | Some m =>
        if negb (bool_decide (status m = active)) then false
        else if frozen st
                && negb (round m =? getEarliestIncompleteRound st) then false
        else opponents m userid1 userid2
    end.

Definition canSearch (st : BracketState) (userid : string) : bool :=
  if negb (initialized st) then false
  else
    match match_of st userid with
    | None => false
    | Some m =>
        if negb (is_live m) then false
        else if frozen st
                && negb (round m =? getEarliestIncompleteRound st) then false
        else true
    end.

Definition getOpponent (st : BracketState) (playerid : string)
    : option string :=
  match match_of st playerid with
  | None => None
  | Some m =>
      if negb (bool_decide (status m = active)) then None
      else Some (if String.eqb (player1 m) playerid then player2 m
                 else player1 m)
  end.

(** ** Advancement *)

(** [matches.filter(P)]: the selected match objects, each with its
    reference (its index in [matches], counted from [k]). *)
Fixpoint refs_from (P : BracketMatch -> bool) (k : nat)
    (ms : list BracketMatch) : list (nat * BracketMatch) :=
  match ms with
  | [] => []
  | m :: ms' =>
      if P m then (k, m) :: refs_from P (S k) ms' else refs_from P (S k) ms'
  end.

Definition in_round (r : Z) (m : BracketMatch) : bool := round m =? r.

Definition round_matches (ms : list BracketMatch) (r : Z)
    : list (nat * BracketMatch) :=
  refs_from (in_round r) 0 ms.

(** [firstMatchOfRound]: the least match id of round [r]. *)
Definition firstMatchOfRound (ms : list BracketMatch) (r : Z) : option Z :=
  min_list (map (fun p => matchId (snd p)) (round_matches ms r)).

(** [nextRoundMatches[Math.floor((matchId - firstMatchOfRound) / 2)]]. *)
Definition nextMatch_of (ms : list BracketMatch) (m : BracketMatch)
    : option (nat * BracketMatch) :=
  match firstMatchOfRound ms (round m) with
  | None => None
  | Some firstId =>
      at_index (round_matches ms (round m + 1)) ((matchId m - firstId) / 2)
  end.

(** [displayNames.get(w) || w]. *)
Definition display_of (st : BracketState) (w : string) : string :=
  match displayNames st !! w with
  | Some d => if JS.truthy d then d else w
  | None => w
  end.

(** The winner goes to [player1] if that slot is empty, else to [player2]
    if that one is empty; [None] when both are taken. *)
Definition place (nextMatch : BracketMatch) (w wd : string)
    : option BracketMatch :=
  if negb (JS.truthy (player1 nextMatch)) then
    Some (set_player1 nextMatch w wd)
  else if negb (JS.truthy (player2 nextMatch)) then
    Some (set_player2 nextMatch w wd)
  else None.

(** [advanceWinner(completedMatch)], the argument being the reference [i].
    A reference outside [matches] stands for no object of the source; the
    state is then left alone. *)
Definition advanceWinner (st : BracketState) (i : nat)
    : BracketState * list LogMsg :=
  match matches st !! i with
  | None => (st, [])
  | Some completedMatch =>
      let w := default "" (winner completedMatch) in
      let nextRound := round completedMatch + 1 in
      match round_matches (matches st) nextRound with
      | [] => (st, [TournamentComplete w])
      | _ :: _ =>
          if frozen st then
            (st, [FrozenBlocked w (matchId completedMatch)])
          else
            match nextMatch_of (matches st) completedMatch with
            | None => (st, [NoNextMatch (matchId completedMatch)])
            | Some (n, nextMatch) =>
                let wd := display_of st w in
                let adv :=
                  Advancing wd (matchId completedMatch) (matchId nextMatch) in
                match place nextMatch w wd with
                | None => (st, [adv; BothPlayers (matchId nextMatch)])
                | Some nm =>
                    if JS.truthy (player1 nm) && JS.truthy (player2 nm) then
                      let nm' := set_status nm active in
                      (mkState (format st) (participants st) (bestOf st)
                         (if currentRound st <? nextRound then nextRound
                          else currentRound st)
                         (<[n := nm']> (matches st))
                         (<[player2 nm' := n]>
                            (<[player1 nm' := n]> (playerMatches st)))
                         (displayNames st) (initialized st) (frozen st),
                       [adv; MatchReady nextRound (matchId nm')
                               (player1Display nm') (player2Display nm')])
                    else
                      (set_matches st
                         (<[n := set_status nm waiting]> (matches st)),
                       [adv; WaitingForOpponent wd nextRound])
                end
            end
      end
  end.

(** ** [recordWin] *)

Definition winsNeeded (st : BracketState) : Z := bestOf st / 2 + 1.

(** The completed form of a match whose score reached the threshold. *)
Definition completed (needed : Z) (m : BracketMatch) : BracketMatch :=
  let p1won := needed <=? p1wins m in
  set_status
    (set_winner m
       (Some (if p1won then player1 m else player2 m))
       (Some (if p1won then player1Display m else player2Display m)))
    complete.

Definition recordWin (st : BracketState) (w l : string)
    : BracketState * list LogMsg :=
  match playerMatches st !! w with
  | None => (st, [NoActiveMatch w])
  | Some i =>
      match matches st !! i with
      | None => (st, [])
      | Some m =>
          if negb (opponents m w l) then
            (st, [WrongMatch w l (player1 m) (player2 m)])
          else
            let m1 :=
              if String.eqb (player1 m) w then set_p1wins m (p1wins m + 1)
              else set_p2wins m (p2wins m + 1) in
            let needed := winsNeeded st in
            let beats := Beats w l (p1wins m1) (p2wins m1) needed in
            if (needed <=? p1wins m1) || (needed <=? p2wins m1) then
              let m2 := completed needed m1 in
              let st1 :=
                set_playerMatches
                  (set_matches st (<[i := m2]> (matches st)))
                  (delete (player2 m2)
                     (delete (player1 m2) (playerMatches st))) in
              let '(st2, logs) := advanceWinner st1 i in
              (st2,
               beats :: MatchComplete (matchId m2) (winnerDisplay m2)
                          (p1wins m2) (p2wins m2) :: logs)
            else
              (set_matches st (<[i := m1]> (matches st)), [beats])
      end
  end.

(** ** [freeze] and [resume] *)

Definition freeze (st : BracketState) : Result (BracketState * list LogMsg) :=
  if negb (initialized st) then Throw "No bracket currently active"
  else if frozen st then Throw "Tournament is already frozen"
  else Ok (set_frozen st true, [Frozen]).

Definition maxRound (ms : list BracketMatch) : Z :=
  default 1 (max_list (map round ms)).

(** The filter of [resume]: complete, with a winner, not in the last
    round. *)
Definition blocked_candidate (maxR : Z) (m : BracketMatch) : bool :=
  bool_decide (status m = complete)
  && match winner m with Some w => JS.truthy w | None => false end
  && (round m <? maxR).

(** One turn of the loop of [resume] over the selected matches. *)
Definition resume_step (acc : BracketState * list LogMsg) (i : nat)
    : BracketState * list LogMsg :=
  let st := fst acc in
  match matches st !! i with
  | None => acc
  | Some m =>
      match round_matches (matches st) (round m + 1) with
      | [] => acc
      | _ :: _ =>
          match nextMatch_of (matches st) m, winner m with
          | Some (_, nextMatch), Some w =>
              if String.eqb (player1 nextMatch) w
                 || String.eqb (player2 nextMatch) w then acc
              else if negb (JS.truthy w) then acc
              else
                let '(st', logs) := advanceWinner st i in
                (st', (snd acc ++ Resuming (display_of st w) (matchId m)
                                   :: logs)%list)
          | _, _ => acc
          end
      end
  end.

Definition resume (st : BracketState) : Result (BracketState * list LogMsg) :=
  if negb (initialized st) then Throw "No bracket currently active"
  else if negb (frozen st) then Throw "Tournament is not frozen"
  else
    let st0 := set_frozen st false in
    let completedMatches :=
      map fst
        (refs_from (blocked_candidate (maxRound (matches st0))) 0
           (matches st0)) in
    let '(st', logs) := fold_left resume_step completedMatches (st0, []) in
    Ok (st', (logs ++ [Resumed])%list).

(** ** Persistence: the text written by [saveToCSV] and read back by
    [loadFromCSV] *)

Definition string_of_status (s : Status) : string :=
  match s with
  | pending => "pending"
  | waiting => "waiting"
  | active => "active"
  | complete => "complete"
  end.

Definition status_of_string (s : string) : option Status :=
  if String.eqb s "pending" then Some pending
  else if String.eqb s "waiting" then Some waiting
  else if String.eqb s "active" then Some active
  else if String.eqb s "complete" then Some complete
  else None.

Definition newline : string := String JS.LF EmptyString.

Definition csv_header : string :=
  "round,matchId,player1,player2,player1Display,player2Display,p1wins,p2wins,status,winner,winnerDisplay".

Definition csv_row (m : BracketMatch) : string :=
  JS.join ","
    [JS.string_of_Z (round m); JS.string_of_Z (matchId m);
     player1 m; player2 m; player1Display m; player2Display m;
     JS.string_of_Z (p1wins m); JS.string_of_Z (p2wins m);
     string_of_status (status m);
     default "" (winner m); default "" (winnerDisplay m)].

(** The content that [saveToCSV] hands to the file store. *)
Definition saveToCSV (st : BracketState) : string :=
  ("# format=" ++ format st
   ++ ",bestOf=" ++ JS.string_of_Z (bestOf st)
   ++ ",participants=" ++ JS.string_of_Z (participants st)
   ++ ",frozen=" ++ JS.string_of_bool (frozen st) ++ newline)
  ++ (csv_header ++ newline)
  ++ JS.join newline (map csv_row (matches st)).

(** The file store, as the controller sees it: the outcome of
    [await this.saveToCSV()] on the content handed over, [None] when the
    promise resolves and [Some e] when it rejects with an error of message
    [e] (the write failed, or an earlier failure has left [writeLock]
    rejected). *)
Definition FileStore := string -> option string.

(** A call of [initialize]: the state it leaves behind, and its outcome.
    The guards throw before the state is touched.  Past them the bracket is
    built and [initialized] is set, and only then is the file written: a
    failed write makes the call throw from a state that holds the bracket.
    (The overflow of the recursion of [buildBracketSeeds], which needs more
    players than an array holds, is counted with the guards.) *)
Definition initialize_call (save : FileStore) (fmt : string)
    (players : list string) (bo : Z) (randomize : bool) (rnd : nat -> nat)
    (st : BracketState) : BracketState * Result unit :=
  match initialize fmt players bo randomize rnd st with
  | Throw msg => (st, Throw msg)
  | Ok st' =>
      match save (saveToCSV st') with
      | None => (st', Ok tt)
      | Some e => (st', Throw e)
      end
  end.

(** The defaults of [Config.brackettournament] that the loader reads. *)
Record brackettournament := mkConfig {
  cfg_format : string;
  cfg_bestOf : Z;
}.

(** Outcome of [loadFromCSV].  [Loaded] and [NotLoaded] are the results
    [true] and [false].  [OutsideModel] marks the files from which the
    source builds a state that the typed model cannot hold: a number read
    as NaN into [bestOf], [round] or [matchId], or a status text that is
    none of the four. *)
Inductive LoadResult :=
| Loaded (st : BracketState)
| NotLoaded
| OutsideModel.

(** One [key=value] of the metadata line, applied to the accumulated
    [(format, bestOf, participants, frozen)]; the second component is
    [None] once a NaN reached [bestOf].  A NaN in [participants] is falsy
    like 0, and is recomputed like 0 at the end of the load. *)
Definition apply_meta (acc : string * option Z * Z * bool) (part : string)
    : string * option Z * Z * bool :=
  let '(f, b, n, fr) := acc in
  let kv := map JS.trim (JS.split "=" part) in
  let key := default "" (kv !! 0%nat) in
  let value := kv !! 1%nat in
  let f := if String.eqb key "format" then default "" value else f in
  let b := if String.eqb key "bestOf"
           then JS.parseInt (default "" value) else b in
  let n := if String.eqb key "participants"
           then default 0 (JS.parseInt (default "" value)) else n in
  let fr := if String.eqb key "frozen"
            then bool_decide (value = Some "true") else fr in
  (f, b, n, fr).

(** A record line; [None] when the record is outside the model. *)
Definition parse_match (line : string) : option BracketMatch :=
  let parts := map JS.trim (JS.split "," line) in
  let field (k : nat) : string := default "" (parts !! k) in
  let '(rnd, mid, pl1, pl2, d1, d2, w1, w2, stat, win, wind) :=
    if (11 <=? length parts)%nat then
      (field 0, field 1, field 2, field 3, field 4, field 5, field 6,
       field 7, field 8, field 9, field 10)%nat
    else
      (field 0, field 1, field 2, field 3, field 2, field 3, field 4,
       field 5, field 6, field 7, field 7)%nat in
  match JS.parseInt rnd, JS.parseInt mid,
        (if JS.truthy stat then status_of_string stat else Some pending) with
  | Some r, Some i, Some s =>
      Some (mkMatch r i (toID pl1) (toID pl2) d1 d2
              (default 0 (JS.parseInt w1)) (default 0 (JS.parseInt w2)) s
              (if JS.truthy win then Some (toID win) else None)
              (if JS.truthy wind then Some wind else None))
  | _, _, _ => None
  end.

Definition cond_insert {V} (c : bool) (k : string) (v : V)
    (m : gmap string V) : gmap string V :=
  if c then <[k := v]> m else m.

(** The body of the loop over the record lines, after the match has been
    built: push it, note the display names, and map the players of an
    active or waiting match to it. *)
Definition load_match
    (acc : list BracketMatch * gmap string nat * gmap string string)
    (m : BracketMatch)
    : list BracketMatch * gmap string nat * gmap string string :=
  let '(ms, pm, dn) := acc in
  let i := length ms in
  let dn1 := cond_insert (JS.truthy (player1Display m)) (player1 m)
               (player1Display m) dn in
  let dn2 := cond_insert (JS.truthy (player2Display m)) (player2 m)
               (player2Display m) dn1 in
  let dn3 :=
    match winnerDisplay m, winner m with
    | Some wd, Some w => cond_insert (JS.truthy w) w wd dn2
    | _, _ => dn2
    end in
  let pm' :=
    if is_live m then
      cond_insert (JS.truthy (player2 m)) (player2 m) i
        (cond_insert (JS.truthy (player1 m)) (player1 m) i pm)
    else pm in
  ((ms ++ [m])%list, pm', dn3).

Definition has_activity (m : BracketMatch) : bool :=
  is_live m || bool_decide (status m = complete).

Fixpoint parse_matches (lines : list string) : option (list BracketMatch) :=
  match lines with
  | [] => Some []
  | l :: ls =>
      match parse_match l, parse_matches ls with
      | Some m, Some ms => Some (m :: ms)
      | _, _ => None
      end
  end.

(** [loadFromCSV], on the content [data] of the file ([None] when there is
    no file). *)
Definition loadFromCSV (cfg : brackettournament) (data : option string)
    (st : BracketState) : LoadResult :=
  match data with
  | None => NotLoaded
  | Some text =>
      if negb (JS.truthy text) then NotLoaded
      else
        let lines :=
          List.filter (fun line => JS.truthy (JS.trim line))
            (JS.split JS.LF text) in
        if (length lines <? 3)%nat then NotLoaded
        else
          let metadataLine := default "" (lines !! 0%nat) in
          let '(matchLines, (f, b, n, fr)) :=
            if negb (JS.startsWith metadataLine "#") then
              (drop 1 lines,
               (cfg_format cfg, Some (cfg_bestOf cfg), participants st, false))
            else
              (drop 2 lines,
               fold_left apply_meta
                 (JS.split "," (JS.trim (JS.substring1 metadataLine)))
                 (format st, Some (bestOf st), participants st, frozen st))
          in
          match b, parse_matches matchLines with
          | Some bo, Some parsed =>
              let '(ms, pm, dn) := fold_left load_match parsed ([], ∅, ∅) in
              let activeRounds := map round (List.filter has_activity ms) in
              let cr := default 1 (max_list activeRounds) in
              let n' :=
                if n =? 0 then
                  Z.of_nat (length (List.filter (in_round 1) ms)) * 2
                else n in
              Loaded (mkState f n' bo cr ms pm dn true fr)
          | _, _ => OutsideModel
          end
  end.

End Bracket.

(* ===================================================================== *)
(** * Callers of the controller: the battle-end handler and the commands *)
(* ===================================================================== *)

Module Handlers.

Import Dex Bracket.
Local Open Scope Z_scope.

(** ** The battle-end handler *)

(** What [onBattleEnd] does with a battle: nothing, a warning that the
    battle has no clear winner, or a call of [recordWin]. *)
Inductive BattleEnd :=
| Ignored
| NoClearWinner (winnerid : string)
| Recorded (winner loser : string) (st' : BracketState) (logs : list LogMsg).

(** [bracketmode] is [Config.bracketmode]. *)
Definition onBattleEnd (bracketmode : bool) (st : BracketState)
    (winnerid : string) (playerids : list string) : BattleEnd :=
  if negb bracketmode || negb (initialized st) then Ignored
  else
    match playerids with
    | [p1id; p2id] =>
        let p1opponent := getOpponent st p1id in
        let p2opponent := getOpponent st p2id in
        if negb (bool_decide (p1opponent = Some p2id))
           || negb (bool_decide (p2opponent = Some p1id)) then Ignored
        else if String.eqb winnerid p1id then
          let '(st', logs) := recordWin st p1id p2id in
          Recorded p1id p2id st' logs
        else if String.eqb winnerid p2id then
          let '(st', logs) := recordWin st p2id p1id in
          Recorded p2id p1id st' logs
        else NoClearWinner winnerid
    | _ => Ignored
    end.

(** ** The commands *)

(** The replies of [/forcebracketwin]; [can] tells whether the user passes
    [checkCan('bypassall')]. *)
Inductive ForceWin :=
| FwDenied
| FwNotEnabled
| FwNoBracket
| FwHelp
| FwUsage
| FwNotInMatch (winnerName : string)
| FwWrongOpponent (winnerName opponent loserName : string)
| Forced (winner loser : string) (st' : BracketState) (logs : list LogMsg).

Definition forcebracketwin (can bracketmode : bool) (st : BracketState)
    (target : string) : ForceWin :=
  if negb can then FwDenied
  else if negb bracketmode then FwNotEnabled
  else if negb (initialized st) then FwNoBracket
  else if negb (JS.truthy target) then FwHelp
  else
    let parts := map JS.trim (JS.split "," target) in
    match parts !! 0%nat, parts !! 1%nat with
    | Some winnerName, Some loserName =>
        if negb (JS.truthy winnerName) || negb (JS.truthy loserName)
        then FwUsage
        else
          let winner := toID winnerName in
          let loser := toID loserName in
          match getOpponent st winner with
          | None => FwNotInMatch winnerName
          | Some opponent =>
              if negb (JS.truthy opponent) then FwNotInMatch winnerName
              else if negb (String.eqb opponent loser) then
                FwWrongOpponent winnerName opponent loserName
              else
                let '(st', logs) := recordWin st winner loser in
                Forced winner loser st' logs
          end
    | _, _ => FwUsage
    end.

(** The error replies of the two commands that create a bracket. *)
Inductive CreateError :=
| NotEnabled
| Usage
| FormatRequired
| BadBestOf
| TooFewPlayers
| NotPowerOfTwo (numPlayers : nat)
| InvalidNames
| DuplicatePlayers.

(** The replies of [/createbracket] and [/shufflebracket]: [Created] when
    [initialize] resolves, [Failed] with its message when it rejects, each
    with the state that the call leaves behind. *)
Inductive CreateReply :=
| CrDenied
| CrHelp
| CrError (e : CreateError)
| Created (st : BracketState)
| Failed (st : BracketState) (msg : string).

(** [numPlayers === Math.pow(2, Math.floor(Math.log2(numPlayers)))], for
    the lengths that reach the test (2 and more). *)
Definition is_power_count (numPlayers : nat) : bool :=
  Z.of_nat numPlayers =? 2 ^ Z.log2 (Z.of_nat numPlayers).

(** [players.filter(p => !p || toID(p).length === 0)]. *)
Definition invalidPlayers (players : list string) : list string :=
  List.filter
    (fun p => negb (JS.truthy p) || (String.length (toID p) =? 0)%nat)
    players.

Definition createbracket (save : FileStore) (can bracketmode : bool)
    (st : BracketState) (target : string) : CreateReply :=
  if negb can then CrDenied
  else if negb bracketmode then CrError NotEnabled
  else if negb (JS.truthy target) then CrHelp
  else
    let parts := map JS.trim (JS.split "," target) in
    if (length parts <? 4)%nat then CrError Usage
    else
      match parts with
      | format :: bestOfStr :: players =>
          if negb (JS.truthy format) then CrError FormatRequired
          else
            match JS.parseInt bestOfStr with
            | None => CrError BadBestOf
            | Some bestOf =>
                if (bestOf <? 1) || (999 <? bestOf) then CrError BadBestOf
                else if (length players <? 2)%nat then CrError TooFewPlayers
                else if negb (is_power_count (length players)) then
                  CrError (NotPowerOfTwo (length players))
                else if (0 <? length (invalidPlayers players))%nat then
                  CrError InvalidNames
                else if negb (length (remove_dups (map toID players))
                              =? length players)%nat then
                  CrError DuplicatePlayers
                else
                  match initialize_call save format players bestOf false
                          (fun _ => O) st with
                  | (st', Ok _) => Created st'
                  | (st', Throw msg) => Failed st' msg
                  end
            end
      | _ => CrError Usage
      end.

(** [/shufflebracket]; [rnd] supplies the draws of the shuffle. *)
Definition createbracketshuffle (save : FileStore) (can bracketmode : bool)
    (rnd : nat -> nat) (st : BracketState) (target : string) : CreateReply :=
  if negb can then CrDenied
  else if negb bracketmode then CrError NotEnabled
  else if negb (JS.truthy target) then CrHelp
  else
    let parts := map JS.trim (JS.split "," target) in
    if (length parts <? 4)%nat then CrError Usage
    else
      match parts with
      | format :: bestOfStr :: players =>
          if negb (JS.truthy format) then CrError FormatRequired
          else
            match JS.parseInt bestOfStr with
            | None => CrError BadBestOf
            | Some bestOf =>
                if (bestOf <? 1) || (999 <? bestOf) then CrError BadBestOf
                else if negb (is_power_count (length players)) then
                  CrError (NotPowerOfTwo (length players))
                else
                  match initialize_call save format players bestOf true rnd
                          st with
                  | (st', Ok _) => Created st'
                  | (st', Throw msg) => Failed st' msg
                  end
            end
      | _ => CrError Usage
      end.

End Handlers.

(* ===================================================================== *)
(** * The rating store *)
(* ===================================================================== *)

(** Numeric builtins of the host language, read on the real numbers. *)
Module Math.

Local Open Scope R_scope.

Definition PI : R := Rtrigo1.PI.

(** [Math.log], the natural logarithm. *)
Definition log (x : R) : R := ln x.

Definition sqrt (x : R) : R := R_sqrt.sqrt x.

(** [Math.pow(x, 2)]. *)
Definition sq (x : R) : R := x * x.

(** [Math.pow(10, x)] and [10 ** x]. *)
Definition pow10 (x : R) : R := Rpower 10 x.

(** [Math.round]: the nearest integer, halves upwards. *)
Definition round (x : R) : R := IZR (Int_part (x + / 2)).

End Math.

Module Ladder.

Import Dex.
Local Open Scope R_scope.

(** The [gxe] column is a number or a text. *)
Inductive Gxe :=
| GxeNum (v : R)
| GxeText (s : string).

(** One head-to-head record [{w, l, t}]. *)
Record H2H := mkH2H { h2h_w : Z; h2h_l : Z; h2h_t : Z }.

Inductive Outcome := win | loss | tie.

(** A ladder row, in the order of the tuple of the source.  The
    head-to-head column is a JSON text there; here it is the map that the
    text encodes, or [None] for a text that [JSON.parse] rejects. *)
Record LadderRow := mkRow {
  userid : string;
  eloRating : R;
  username : string;
  w : Z;
  l : Z;
  t : Z;
  glickoRating : R;
  ratingDeviation : R;
  gxe : Gxe;
  gamesPlayed : Z;
  lastUpdate : string;
  h2hData : option (gmap string H2H);
}.

(** ** Rating formulas *)

Definition calculateGXE (rating rd : R) : Gxe :=
  if Rgt_dec rd 100 then GxeText "Unknown"
  else
    let pi := Math.PI in
    let ln10 := Math.log 10 in
    let numerator := (1500 - rating) * pi in
    let denominator :=
      Math.sqrt (3 * Math.sq ln10 * Math.sq rd
                 + 2500 * (64 * Math.sq pi + 147 * Math.sq ln10)) in
    let exponent := numerator / denominator in
    let glixare := 10000 / (1 + Math.pow10 exponent) in
    GxeNum (Math.round glixare / 100).

Definition calculateGlicko (rating rd opponentRating opponentRd score : R)
    : R * R :=
  let q := Math.log 10 / 400 in
  let g (deviation : R) :=
    1 / Math.sqrt (1 + 3 * Math.sq (q * deviation) / Math.sq Math.PI) in
  let E :=
    1 / (1 + Math.pow10 (- g opponentRd * (rating - opponentRating) / 400)) in
  let d_squared := 1 / (Math.sq q * Math.sq (g opponentRd) * E * (1 - E)) in
  let newRating :=
    rating + (q / (1 / Math.sq rd + 1 / d_squared)) * g opponentRd * (score - E) in
  let newRd := Math.sqrt (1 / (1 / Math.sq rd + 1 / d_squared)) in
  let finalRd := Rmax 10 (Rmin 350 newRd) in
  (Math.round (newRating * 10) / 10, Math.round (finalRd * 10) / 10).

Definition calculateElo (oldElo score foeElo : R) (games : Z) : R :=
  let K0 : R :=
    if (games <? 20)%Z then 32 else if (games <? 50)%Z then 24 else 16 in
  let K1 :=
    if Rlt_dec oldElo 1100 then Rmin (K0 + 8) 32
    else if Rgt_dec oldElo 1600 then Rmax (K0 - 4) 12
    else K0 in
  let ratingDiff := Rabs (oldElo - foeElo) in
  let K :=
    if Rgt_dec ratingDiff 200 then
      let lowerRated := Rmin oldElo foeElo in
      if Req_dec_T oldElo lowerRated then
        if Rgt_dec score (5 / 10) then K1 * (11 / 10) else K1
      else
        if Rlt_dec score (5 / 10) then K1 * (105 / 100) else K1
    else K1 in
  let E := 1 / (1 + Math.pow10 ((foeElo - oldElo) / 400)) in
  let newElo := oldElo + K * (score - E) in
  Rmax newElo 1000.

(** ** Rows *)

(** [indexOfUser]: the index of the row of [username], or -1; with
    [createIfNeeded] a missing row is pushed first.  [now] is the reading
    of the clock. *)
Fixpoint find_user (userid0 : string) (i : nat) (ladder : list LadderRow)
    : option nat :=
  match ladder with
  | [] => None
  | user :: rest =>
      if String.eqb (userid user) userid0 then Some i
      else find_user userid0 (S i) rest
  end.

Definition seed_row (now : string) (username0 : string) : LadderRow :=
  mkRow (toID username0) 1000 username0 0 0 0 1500 130 (GxeNum 50) 0 now
    (Some ∅).

Definition indexOfUser (now : string) (ladder : list LadderRow)
    (username0 : string) (createIfNeeded : bool) : Z * list LadderRow :=
  match find_user (toID username0) 0 ladder with
  | Some i => (Z.of_nat i, ladder)
  | None =>
      if createIfNeeded then
        (Z.of_nat (length ladder), (ladder ++ [seed_row now username0])%list)
      else ((-1)%Z, ladder)
  end.

Definition updateRow (now : string) (row : LadderRow)
    (score foeElo foeGlicko foeRd : R) : LadderRow :=
  let newElo :=
    calculateElo (eloRating row) score foeElo (gamesPlayed row) in
  let '(newGlickoRating, newRd) :=
    calculateGlicko (glickoRating row) (ratingDeviation row) foeGlicko foeRd
      score in
  let games := (gamesPlayed row + 1)%Z in
  let gxe0 := calculateGXE newGlickoRating newRd in
  let isWin := if Rgt_dec score (6 / 10) then true else false in
  let isLoss := if Rlt_dec score (4 / 10) then true else false in
  mkRow (userid row) newElo (username row)
    (if isWin then w row + 1 else w row)%Z
    (if isWin then l row else if isLoss then l row + 1 else l row)%Z
    (if isWin then t row else if isLoss then t row else t row + 1)%Z
    newGlickoRating newRd gxe0 games now (h2hData row).

Definition bump (r : H2H) (result : Outcome) : H2H :=
  match result with
  | win => mkH2H (h2h_w r + 1) (h2h_l r) (h2h_t r)
  | loss => mkH2H (h2h_w r) (h2h_l r + 1) (h2h_t r)
  | tie => mkH2H (h2h_w r) (h2h_l r) (h2h_t r + 1)
  end.

Definition set_h2hData (row : LadderRow) (h : option (gmap string H2H))
    : LadderRow :=
  mkRow (userid row) (eloRating row) (username row) (w row) (l row) (t row)
    (glickoRating row) (ratingDeviation row) (gxe row) (gamesPlayed row)
    (lastUpdate row) h.

Definition updateH2H (playerRow : LadderRow) (opponentId : string)
    (result : Outcome) : LadderRow :=
  match h2hData playerRow with
  | Some h2h =>
      let r := default (mkH2H 0 0 0) (h2h !! opponentId) in
      set_h2hData playerRow (Some (<[opponentId := bump r result]> h2h))
  | None => set_h2hData playerRow (Some ∅)
  end.

(** ** Keeping the ladder ordered *)

(** [while (newIndex > 0 && ladder[newIndex - 1][1] <= newElo) newIndex--] *)
Fixpoint scanUp (ladder : list LadderRow) (newElo : R) (newIndex : nat)
    : nat :=
  match newIndex with
  | O => O
  | S k =>
      match ladder !! k with
      | Some r =>
          if Rle_dec (eloRating r) newElo then scanUp ladder newElo k
          else newIndex
      | None => newIndex
      end
  end.

(** [while (newIndex === index || (ladder[newIndex] &&
    ladder[newIndex][1] > newElo)) newIndex++], with [rest] the rows from
    [newIndex] on. *)
Fixpoint scanDown (index : nat) (newElo : R) (rest : list LadderRow)
    (newIndex : nat) : nat :=
  match rest with
  | [] => if (newIndex =? index)%nat then S newIndex else newIndex
  | r :: rest' =>
      if (newIndex =? index)%nat then scanDown index newElo rest' (S newIndex)
      else if Rgt_dec (eloRating r) newElo then
        scanDown index newElo rest' (S newIndex)
      else newIndex
  end.

(** [ladder.splice(i, 0, row)] *)
Definition splice_in (i : nat) (row : LadderRow) (ladder : list LadderRow)
    : list LadderRow :=
  (take i ladder ++ row :: drop i ladder)%list.

(** Move the row at [index], whose rating is now [newElo], to its place.
    The result carries the index at which the row was inserted, when it
    moved. *)
Definition moveRow (ladder : list LadderRow) (index : nat) (newElo : R)
    : list LadderRow * option nat :=
  let up := scanUp ladder newElo index in
  let newIndex := scanDown index newElo (drop up ladder) up in
  if negb (newIndex =? index)%nat && negb (newIndex =? index + 1)%nat then
    match ladder !! index with
    | Some row =>
        let removed := delete index ladder in
        let newIndex' :=
          if (index <? newIndex)%nat then (newIndex - 1)%nat else newIndex in
        (splice_in newIndex' row removed, Some newIndex')
    | None => (ladder, None)
    end
  else (ladder, None).

(** ** [updateRating] *)

Definition outcome_of (score : R) : Outcome :=
  if Rgt_dec score (6 / 10) then win
  else if Rlt_dec score (4 / 10) then loss
  else tie.

Definition flip (o : Outcome) : Outcome :=
  match o with win => loss | loss => win | tie => tie end.

Definition alter_at (f : LadderRow -> LadderRow) (i : nat)
    (ladder : list LadderRow) : list LadderRow :=
  match ladder !! i with
  | Some row => <[i := f row]> ladder
  | None => ladder
  end.

Definition at_index {A} (ladder : list A) (k : Z) : option A :=
  if (k <? 0)%Z then None else ladder !! Z.to_nat k.

(** The block of [updateRating] that writes the result into the two rows:
    both rating updates, with the ratings of the opponent read before either,
    then both head-to-head updates. *)
Definition record_result (now : string) (ladder : list LadderRow)
    (p1i p2i : nat) (row1 row2 : LadderRow) (p1score p2score : R)
    (p1id p2id : string) : list LadderRow :=
let ladder :=
  alter_at (fun row =>
              updateRow now row p1score (eloRating row2)
                (glickoRating row2) (ratingDeviation row2))
    p1i ladder in
let ladder :=
  alter_at (fun row =>
              updateRow now row p2score (eloRating row1)
                (glickoRating row1) (ratingDeviation row1))
    p2i ladder in
let o := outcome_of p1score in
let ladder := alter_at (fun row => updateH2H row p2id o) p1i ladder in
alter_at (fun row => updateH2H row p1id (flip o)) p2i ladder.

(** The index of the second row after the first one has moved to
    [newIndex]. *)
Definition shifted (p1i p2i newIndex : nat) : nat :=
let p2i := if (p1i <? p2i)%nat then (p2i - 1)%nat else p2i in
if (newIndex <=? p2i)%nat then S p2i else p2i.

(** The block that moves first the one row, then the other. *)
Definition reorder (ladder : list LadderRow) (p1i p2i : nat)
    (p1newElo p2newElo : R) : list LadderRow :=
let '(ladder, moved) := moveRow ladder p1i p1newElo in
let p2i :=
  match moved with
  | Some newIndex => shifted p1i p2i newIndex
  | None => p2i
  end in
fst (moveRow ladder p2i p2newElo).

(** The result triple [[p1score, p1newElo, p2newElo]]; [None] is [null]
    (or [undefined]). *)
Definition Ratings : Type := R * option R * option R.

(** [disabled] is [Ladders.disabled]; [battle] tells whether [room.battle]
    is still set.  The clock is read once per call.  The lines added to the
    room are not part of the model. *)
Definition updateRating (disabled : bool) (now : string) (battle : bool)
    (ladder : list LadderRow) (p1name p2name : string) (p1score : R)
    : list LadderRow * Ratings :=
if disabled then (ladder, (p1score, None, None))
else
  let '(p1score, p2score) :=
    if Rlt_dec p1score 0 then (0, 0) else (p1score, 1 - p1score) in
  let '(p1index, ladder) := indexOfUser now ladder p1name true in
  let '(p2index, ladder) := indexOfUser now ladder p2name true in
  match at_index ladder p1index, at_index ladder p2index with
  | Some row1, Some row2 =>
      let p1i := Z.to_nat p1index in
      let p2i := Z.to_nat p2index in
      let ladder :=
        record_result now ladder p1i p2i row1 row2 p1score p2score
          (toID p1name) (toID p2name) in
      match ladder !! p1i, ladder !! p2i with
      | Some r1, Some r2 =>
          let p1newElo := eloRating r1 in
          let p2newElo := eloRating r2 in
          (reorder ladder p1i p2i p1newElo p2newElo,
           if battle then (p1score, Some p1newElo, Some p2newElo)
           else (p1score, None, None))
      | _, _ => (ladder, (p1score, None, None))
      end
  | _, _ => (ladder, (p1score, None, None))
  end.

(** ** Reading the ladder *)

(** [getRating], the cache of the user apart: [cached] is the value of
    [user?.mmrCache[formatid]] when there is one. *)
Definition getRating (cached : option R) (ladder : list LadderRow)
    (userid0 : string) : R :=
  let fromLadder :=
    match Ladder.at_index ladder (fst (indexOfUser "" ladder userid0 false))
    with
    | Some row => eloRating row
    | None => 1000
    end in
  match cached with
  | Some r => if Req_dec_T r 0 then fromLadder else r
  | None => fromLadder
  end.

(** [getH2H]: the record of [playerRow] against [opponentId], or
    [null]. *)
Definition getH2H (playerRow : LadderRow) (opponentId : string) : option H2H :=
  match h2hData playerRow with
  | Some h2h => h2h !! opponentId
  | None => None
  end.

End Ladder.

(* ===================================================================== *)
(** * Specification-side definitions for the bracket controller *)
(* ===================================================================== *)

Module BracketSpec.

Import Dex Bracket.
Local Open Scope Z_scope.

(** ** Seeding *)

(** The seed order of a bracket of [2 ^ (k + 1)] players, by recursion on
    the depth; [buildBracketSeeds] computes it. *)
Fixpoint seeds_of_depth (k : nat) : list Z :=
  match k with
  | O => [1; 2]
  | S k' =>
      flat_map (fun seed => [seed; 2 ^ Z.of_nat (S (S k')) + 1 - seed])
        (seeds_of_depth k')
  end.

(** The seeds [1 .. n]. *)
Definition seed_range (n : nat) : list Z := map Z.of_nat (seq 1 n).

(** ** Reachable states *)

(** One call of a mutating operation after [initialize]. *)
Inductive step : BracketState -> BracketState -> Prop :=
| step_recordWin st w l :
    step st (fst (recordWin st w l))
| step_freeze st st' logs :
    freeze st = Ok (st', logs) -> step st st'
| step_resume st st' logs :
    resume st = Ok (st', logs) -> step st st'.

(** The states of a tournament created from [players]: the state that
    [initialize] builds on the idle controller (whether or not the write of
    the file then succeeds), then any sequence of [recordWin], [freeze] and
    [resume]. *)
Inductive reachable_from (players : list string) : BracketState -> Prop :=
| reach_init fmt bo randomize rnd st :
    initialize fmt players bo randomize rnd empty_state = Ok st ->
    reachable_from players st
| reach_step st st' :
    reachable_from players st -> step st st' -> reachable_from players st'.

Definition reachable (st : BracketState) : Prop :=
  exists players, reachable_from players st.

(** The names that [/createbracket] lets through: identities non-empty and
    pairwise distinct. *)
Definition valid_players (players : list string) : Prop :=
  List.NoDup (map toID players) /\ ~ In "" (map toID players).

(** ** Vocabulary of the specification *)

(** The score of [id] in the series [m], and that of the other side. *)
Definition wins_of (m : BracketMatch) (id : string) : Z :=
  if String.eqb (player1 m) id then p1wins m else p2wins m.

Definition wins_against (m : BracketMatch) (id : string) : Z :=
  if String.eqb (player1 m) id then p2wins m else p1wins m.

(** The display name under which [id] plays in [m]. *)
Definition display_in (m : BracketMatch) (id : string) : string :=
  if String.eqb (player1 m) id then player1Display m else player2Display m.

(** [m] after one more win of [id]. *)
Definition scored (m : BracketMatch) (id : string) : BracketMatch :=
  if String.eqb (player1 m) id then set_p1wins m (p1wins m + 1)
  else set_p2wins m (p2wins m + 1).

(** ** Sample tournaments *)

Definition four_players : list string := ["Alice"; "Bob"; "Carol"; "Dave"].

Definition no_shuffle : nat -> nat := fun _ => O.

(** The state that [initialize] builds from [players]; the idle state when
    it throws. *)
Definition started (players : list string) (bo : Z) : BracketState :=
  match initialize "gen1ou" players bo false no_shuffle empty_state with
  | Ok st => st
  | Throw _ => empty_state
  end.

(** Best of 1, four players, Alice has beaten Dave. *)
Definition alice_through : BracketState :=
  fst (recordWin (started four_players 1) "alice" "dave").

(** The same, with the tournament frozen before the battle and unfrozen by
    hand afterwards: the winner of match 1 has not been placed. *)
Definition alice_blocked : BracketState :=
  set_frozen
    (fst (recordWin (set_frozen (started four_players 1) true)
            "alice" "dave"))
    false.

Definition sample_config : brackettournament := mkConfig "gen9ou" 3.

(** The state after [nm], the next match with the winner in place, has been
    written back at reference [n]. *)
Definition advanced (st : BracketState) (n : nat) (nm : BracketMatch) (nextRound : Z) : BracketState :=
  if JS.truthy (player1 nm) && JS.truthy (player2 nm) then
    mkState (format st) (participants st) (bestOf st)
      (if currentRound st <? nextRound then nextRound else currentRound st)
      (<[n := set_status nm active]> (matches st))
      (<[player2 nm := n]> (<[player1 nm := n]> (playerMatches st)))
      (displayNames st) (initialized st) (frozen st)
  else set_matches st (<[n := set_status nm waiting]> (matches st)).

Definition match_ok (needed : Z) (m : BracketMatch) : Prop :=
  1 <= round m /\ 0 <= p1wins m /\ 0 <= p2wins m /\
  (2 <= round m -> JS.truthy (player1 m) = false \/ JS.truthy (player2 m) = false ->
   p1wins m = 0 /\ p2wins m = 0) /\
  (status m = active -> 1 <= needed -> p1wins m < needed /\ p2wins m < needed).

Definition score_inv (st : BracketState) : Prop :=
  Forall (match_ok (winsNeeded st)) (matches st) /\
  (forall id i m, playerMatches st !! id = Some i -> matches st !! i = Some m ->
     2 <= round m -> JS.truthy (player1 m) = true /\ JS.truthy (player2 m) = true).

(** The state in which the series at reference [i] has just been closed as
    [m2]: the match is written back and both players leave [playerMatches]. *)
Definition finished (st : BracketState) (i : nat) (m2 : BracketMatch) : BracketState :=
  set_playerMatches (set_matches st (<[i := m2]> (matches st)))
    (delete (player2 m2) (delete (player1 m2) (playerMatches st))).

Definition first_ok (m : BracketMatch) : Prop :=
  round m = 1 /\ p1wins m = 0 /\ p2wins m = 0 /\ status m = active.

(** The first match of [started four_players 1]. *)
Definition opening_match : BracketMatch :=
  mkMatch 1 1 "alice" "dave" "Alice" "Dave" 0 0 active None None.

(** The file of a state, without its metadata line (the legacy layout). *)
Definition legacy_text (st : BracketState) : string :=
  ((csv_header ++ newline) ++ JS.join newline (map csv_row (matches st)))%string.

(** Best of 11, four players: Alice has beaten Dave five times and lost to
    him once. *)
Definition long_series : BracketState :=
  let s0 := started four_players 11 in
  let s1 := fst (recordWin s0 "alice" "dave") in
  let s2 := fst (recordWin s1 "alice" "dave") in
  let s3 := fst (recordWin s2 "alice" "dave") in
  let s4 := fst (recordWin s3 "alice" "dave") in
  let s5 := fst (recordWin s4 "alice" "dave") in
  fst (recordWin s5 "dave" "alice").

(** The state read back from the file of [long_series] in the legacy
    layout, under the configured best of 3. *)
Definition long_series_reloaded : BracketState :=
  match loadFromCSV sample_config (Some (legacy_text long_series))
          empty_state with
  | Loaded s => s
  | _ => empty_state
  end.

(** ** References under an update of one match *)

(** Replace the match object behind reference [n]. *)
Definition retarget (n : nat) (m' : BracketMatch) (p : nat * BracketMatch)
    : nat * BracketMatch :=
  if (fst p =? n)%nat then (n, m') else p.

(** ** Where an identity is alive *)

(** A place in the bracket: a slot of a match, or the winner's seat of a
    complete match. *)
Inductive Slot := SlotP1 | SlotP2 | SlotW.

(** [id] is alive at a site: it plays in a match that is not complete, or it
    has won a match and is not yet in the next one. *)
Definition occ (ms : list BracketMatch) (id : string) (site : nat * Slot)
    : Prop :=
  exists m, ms !! fst site = Some m /\
    match snd site with
    | SlotP1 => status m <> complete /\ player1 m = id /\ id <> ""
    | SlotP2 => status m <> complete /\ player2 m = id /\ id <> ""
    | SlotW =>
        status m = complete /\ winner m = Some id /\
        exists n N, nextMatch_of ms m = Some (n, N) /\
                    player1 N <> id /\ player2 N <> id
    end.

(** The state of a tournament among players with distinct identities. *)
Record wf (st : BracketState) : Prop := mkWf {
  wf_initialized : initialized st = true;
  wf_ids : forall j m, matches st !! j = Some m -> matchId m = Z.of_nat j + 1;
  wf_rounds : forall j m, matches st !! j = Some m -> 1 <= round m;
  wf_full : forall j m, matches st !! j = Some m ->
      status m = active \/ status m = complete ->
      player1 m <> "" /\ player2 m <> "";
  wf_winner : forall j m, matches st !! j = Some m -> status m = complete ->
      exists w, winner m = Some w /\ (w = player1 m \/ w = player2 m);
  wf_distinct : forall j m, matches st !! j = Some m ->
      player1 m = player2 m -> player1 m = "";
  wf_sound : forall id i, playerMatches st !! id = Some i ->
      exists m, matches st !! i = Some m /\ status m = active /\
                (player1 m = id \/ player2 m = id);
  wf_mapped : forall i m, matches st !! i = Some m -> status m = active ->
      playerMatches st !! player1 m = Some i /\
      playerMatches st !! player2 m = Some i;
  wf_unique : forall id s1 s2,
      occ (matches st) id s1 -> occ (matches st) id s2 -> s1 = s2;
  wf_tracked : forall n N x, matches st !! n = Some N -> 2 <= round N ->
      x <> "" -> player1 N = x \/ player2 N = x ->
      exists i M, matches st !! i = Some M /\ status M = complete /\
                  winner M = Some x /\
                  exists N0, nextMatch_of (matches st) M = Some (n, N0);
}.

(** Two matches that agree on everything the bracket looks at; the scores
    may differ. *)
Definition same_seats (m m' : BracketMatch) : Prop :=
  round m' = round m /\ matchId m' = matchId m /\
  player1 m' = player1 m /\ player2 m' = player2 m /\
  status m' = status m /\ winner m' = winner m.

(** Seating a winner.  [N], behind [n], is the next match of the complete
    match behind [i]; [nm] is [N] with the winner [w] in the first empty
    slot, and [nm'] is [nm] with its new status. *)
Record seating (ms : list BracketMatch) (i n : nat) (M N nm' : BracketMatch)
    (w : string) : Prop := mkSeating {
  seat_from : ms !! i = Some M;
  seat_complete : status M = complete;
  seat_winner : winner M = Some w;
  seat_named : w <> "";
  seat_next : nextMatch_of ms M = Some (n, N);
  seat_open : status N <> complete /\ status N <> active;
  seat_absent : player1 N <> w /\ player2 N <> w;
  seat_node : round nm' = round N /\ matchId nm' = matchId N;
  seat_slots :
    (player1 N = "" /\ player1 nm' = w /\ player2 nm' = player2 N) \/
    (player1 N <> "" /\ player2 N = "" /\
     player1 nm' = player1 N /\ player2 nm' = w);
  seat_status :
    (status nm' = active /\ player1 nm' <> "" /\ player2 nm' <> "") \/
    (status nm' = waiting);
}.

(** The identities of the first round, slot by slot. *)
Definition seats (ms : list BracketMatch) : list string :=
  flat_map (fun m => [player1 m; player2 m]) ms.

(** The position of a slot in [seats]. *)
Definition seat_pos (site : nat * Slot) : nat :=
  match snd site with
  | SlotP1 => 2 * fst site
  | SlotP2 => 2 * fst site + 1
  | SlotW => 0
  end.


(** Best of 1, four players, both matches of the first round played: the
    final, Alice against Bob, is active. *)
Definition final_ready : BracketState :=
  fst (recordWin alice_through "bob" "carol").

(** ** Winners waiting for [resume] *)

(** The test of the loop of [resume] on a complete match: it has a next
    match, and its winner is in neither slot of it. *)
Definition unplacedb (ms : list BracketMatch) (m : BracketMatch) : bool :=
  bool_decide (status m = complete)
  && match winner m, nextMatch_of ms m with
     | Some w, Some (_, N) =>
         negb (String.eqb (player1 N) w || String.eqb (player2 N) w)
     | _, _ => false
     end.

(** The matches whose winner [resume] has to place, in the order of
    [matches]. *)
Definition pending_matches (st : BracketState) : list (nat * BracketMatch) :=
  refs_from (unplacedb (matches st)) 0 (matches st).

(** [resume] as the specification has it: the tournament is unfrozen and
    the pending winners are advanced one after the other. *)
Definition resumed (st : BracketState) : BracketState :=
  fold_left (fun s i => fst (advanceWinner s i))
    (map fst (pending_matches st)) (set_frozen st false).

(** What the loop of [resume] keeps while it runs from [st0]; the matches
    before reference [k] have had their turn. *)
Record carried (st0 s : BracketState) (k : nat) : Prop := mkCarried {
  car_wf : wf s;
  car_unfrozen : frozen s = false;
  car_complete : forall j m, matches st0 !! j = Some m -> status m = complete ->
      matches s !! j = Some m;
  car_next : forall m,
      fst <$> nextMatch_of (matches s) m = fst <$> nextMatch_of (matches st0) m;
  car_unplaced : forall j m, (k <= j)%nat -> matches st0 !! j = Some m ->
      status m = complete ->
      unplacedb (matches s) m = unplacedb (matches st0) m;
  car_placed : forall j m w n N, (j < k)%nat -> matches st0 !! j = Some m ->
      status m = complete -> winner m = Some w ->
      nextMatch_of (matches st0) m = Some (n, N) ->
      exists N', matches s !! n = Some N' /\ (player1 N' = w \/ player2 N' = w);
}.


(** ** The shape of the bracket *)

(** What places a match in the bracket: its round and its match id. *)
Definition nodes (ms : list BracketMatch) : list (Z * Z) :=
  map (fun m => (round m, matchId m)) ms.

(** The match ids of round [r], in the order of the list. *)
Definition ids_of_round (ns : list (Z * Z)) (r : Z) : list Z :=
  map snd (List.filter (fun p => fst p =? r) ns).

(** [count] rounds from round [rnd] on, the first with [width] matches and
    each next one with half as many, the match ids counting up from
    [next]. *)
Fixpoint level_nodes (count : nat) (rnd next : Z) (width : nat)
    : list (Z * Z) :=
  match count with
  | O => []
  | S count' =>
      (map (fun i : nat => (rnd, next + Z.of_nat i)) (seq 0 width)
       ++ level_nodes count' (rnd + 1) (next + Z.of_nat width)
            (width / 2)%nat)%list
  end.

(** The bracket of [2 ^ (k + 1)] players. *)
Definition bracket_nodes (k : nat) : list (Z * Z) :=
  level_nodes (S k) 1 1 (2 ^ k).

(** The first match id of round [1 + d] in the bracket of [2 ^ (k + 1)]
    players. *)
Definition first_id (k d : nat) : Z :=
  1 + Z.of_nat (2 ^ S k - 2 ^ (S k - d)).

(** ** No integrity error *)

(** A message that is not an error. *)
Definition calm (e : LogMsg) : Prop := level e <> ERROR.

(** ** Freezing and resuming at once *)

(** No winner is waiting to be placed. *)
Definition settled (st : BracketState) : Prop :=
  forall j m, matches st !! j = Some m -> unplacedb (matches st) m = false.

(** ** The score of a series *)

(** A match that has not started stands at 0-0; a complete match was won by
    the player who has exactly [needed] wins, the other having fewer. *)
Definition tally (needed : Z) (m : BracketMatch) : Prop :=
  (status m = pending \/ status m = waiting -> p1wins m = 0 /\ p2wins m = 0) /\
  (status m = complete ->
     (p1wins m = needed /\ p2wins m < needed /\
      winner m = Some (player1 m)) \/
     (p2wins m = needed /\ p1wins m < needed /\
      winner m = Some (player2 m))).

(** The first match of [final_ready]: Alice has beaten Dave 1-0. *)
Definition first_result : BracketMatch :=
  mkMatch 1 1 "alice" "dave" "Alice" "Dave" 1 0 complete
    (Some "alice") (Some "Alice").

(** ** Display names *)

(** The name [d] is what is displayed for the identity [id]: nothing for
    the empty slot, else a name handed to [initialize] whose identity is
    [id]. *)
Definition shown (players : list string) (id d : string) : Prop :=
  (id = "" /\ d = "") \/ (id <> "" /\ In d players /\ toID d = id).

(** Every name on display is the name of a player. *)
Record named (players : list string) (st : BracketState) : Prop := mkNamed {
  named_map : forall id d,
      displayNames st !! id = Some d <-> In d players /\ toID d = id;
  named_p1 : forall j m, matches st !! j = Some m ->
      shown players (player1 m) (player1Display m);
  named_p2 : forall j m, matches st !! j = Some m ->
      shown players (player2 m) (player2Display m);
  named_w : forall j m, matches st !! j = Some m ->
      match winner m with
      | Some w => exists d, winnerDisplay m = Some d /\ shown players w d
      | None => winnerDisplay m = None
      end;
}.

(** ** Text that the file keeps *)

(** Every character of [s] passes the test [P]. *)
Fixpoint all_chars (P : ascii -> bool) (s : string) : bool :=
  match s with
  | EmptyString => true
  | String c s' => P c && all_chars P s'
  end.

(** The character [c] does not occur in [s]. *)
Definition free_of (c : ascii) (s : string) : bool :=
  all_chars (fun a => negb (Ascii.eqb a c)) s.

(** The number that a string of decimal digits writes after the digits
    read so far, which made [acc]. *)
Fixpoint uval (d : Decimal.uint) (acc : Z) : Z :=
  match d with
  | Decimal.Nil => acc
  | Decimal.D0 d' => uval d' (10 * acc)
  | Decimal.D1 d' => uval d' (10 * acc + 1)
  | Decimal.D2 d' => uval d' (10 * acc + 2)
  | Decimal.D3 d' => uval d' (10 * acc + 3)
  | Decimal.D4 d' => uval d' (10 * acc + 4)
  | Decimal.D5 d' => uval d' (10 * acc + 5)
  | Decimal.D6 d' => uval d' (10 * acc + 6)
  | Decimal.D7 d' => uval d' (10 * acc + 7)
  | Decimal.D8 d' => uval d' (10 * acc + 8)
  | Decimal.D9 d' => uval d' (10 * acc + 9)
  end.

(** A digit or the minus sign. *)
Definition is_num_char (c : ascii) : bool :=
  let n := nat_of_ascii c in
  (((48 <=? n) && (n <=? 57)) || (n =? 45))%nat.

(** No blank at the end, and not empty. *)
Definition tight (s : string) : Prop := JS.trimEnd s = s /\ s <> "".

(** A name that the file keeps as it is: no blank at either end, no comma,
    no line feed, and ASCII only, the part of the blank characters that
    [JS.trim] covers. *)
Definition plain (s : string) : Prop :=
  JS.trim s = s /\ free_of "," s = true /\ free_of JS.LF s = true /\
  all_chars (fun a => (nat_of_ascii a <? 128)%nat) s = true.

(** A match whose record line reads back as the match: identities are
    canonical, names are plain, and a winner is named. *)
Definition storable (m : BracketMatch) : Prop :=
  toID (player1 m) = player1 m /\ toID (player2 m) = player2 m /\
  plain (player1Display m) /\ plain (player2Display m) /\
  match winner m, winnerDisplay m with
  | None, None => True
  | Some w, Some d => toID w = w /\ w <> "" /\ plain d /\ d <> ""
  | _, _ => False
  end.

(** The metadata line of the file, without its line feed. *)
Definition meta_line (st : BracketState) : string :=
  "# format=" ++ format st
  ++ ",bestOf=" ++ JS.string_of_Z (bestOf st)
  ++ ",participants=" ++ JS.string_of_Z (participants st)
  ++ ",frozen=" ++ JS.string_of_bool (frozen st).

(** What the loop of [loadFromCSV] over the record lines builds from the
    matches [ms]. *)
Definition loaded_maps (ms : list BracketMatch)
    : list BracketMatch * gmap string nat * gmap string string :=
  fold_left load_match ms ([], ∅, ∅).

(** ** What the file has to bring back *)

(** A match that is being played or has been played. *)
Definition played (m : BracketMatch) : Prop :=
  status m = active \/ status m = complete.

(** What a tournament among [players] keeps besides [wf]: a match that is
    or was played has both players, only a complete match has a winner,
    [currentRound] is the highest round that is or was played, every player
    sits in some match, and [participants] counts the players. *)
Record filed (players : list string) (st : BracketState) : Prop := mkFiled {
  filed_full : forall j m, matches st !! j = Some m -> played m ->
      player1 m <> "" /\ player2 m <> "";
  filed_open : forall j m, matches st !! j = Some m -> status m <> complete ->
      winner m = None;
  filed_below : forall j m, matches st !! j = Some m -> played m ->
      round m <= currentRound st;
  filed_reached : exists j m, matches st !! j = Some m /\ played m /\
      round m = currentRound st;
  filed_seated : forall d, In d players ->
      exists j m, matches st !! j = Some m /\
                  (player1 m = toID d \/ player2 m = toID d);
  filed_count : participants st = Z.of_nat (length players);
}.

(** What one turn of the loop of [loadFromCSV] does to [playerMatches], the
    match [m] being pushed at index [i]. *)
Definition seat_players (i : nat) (m : BracketMatch) (pm : gmap string nat)
    : gmap string nat :=
  if is_live m then
    cond_insert (JS.truthy (player2 m)) (player2 m) i
      (cond_insert (JS.truthy (player1 m)) (player1 m) i pm)
  else pm.

(** What one turn of the loop does to [displayNames]. *)
Definition note_names (m : BracketMatch) (dn : gmap string string)
    : gmap string string :=
  let dn1 := cond_insert (JS.truthy (player1Display m)) (player1 m)
               (player1Display m) dn in
  let dn2 := cond_insert (JS.truthy (player2Display m)) (player2 m)
               (player2Display m) dn1 in
  match winnerDisplay m, winner m with
  | Some wd, Some w => cond_insert (JS.truthy w) w wd dn2
  | _, _ => dn2
  end.

(** The lines of a file that [loadFromCSV] looks at: those that are not
    blank. *)
Definition file_lines (text : string) : list string :=
  List.filter (fun line => JS.truthy (JS.trim line)) (JS.split JS.LF text).

(** The state read back from the file written for [alice_through]. *)
Definition alice_reloaded : BracketState :=
  match loadFromCSV sample_config (Some (saveToCSV alice_through))
          empty_state with
  | Loaded s => s
  | _ => empty_state
  end.












End BracketSpec.

(* ===================================================================== *)
(** * Specification-side definitions for the rating store *)
(* ===================================================================== *)

Module LadderSpec.

Import Dex Ladder.
Local Open Scope R_scope.

(** One call of [updateRating], as the battle layer makes it. *)
Record Call := mkCall {
  call_p1 : string;
  call_p2 : string;
  call_score : R;
  call_now : string;
  call_battle : bool;
  call_disabled : bool;
}.

(** The ladder after a call, and after a sequence of calls. *)
Definition after_call (ladder : list LadderRow) (c : Call) : list LadderRow :=
  fst (updateRating (call_disabled c) (call_now c) (call_battle c) ladder
         (call_p1 c) (call_p2 c) (call_score c)).

Definition run (calls : list Call) (ladder : list LadderRow) : list LadderRow :=
  fold_left after_call calls ladder.

Definition total_w (ladder : list LadderRow) : Z :=
  fold_right Z.add 0%Z (map w ladder).

Definition total_l (ladder : list LadderRow) : Z :=
  fold_right Z.add 0%Z (map l ladder).

(** The rule of the [gxe] column. *)
Definition gxe_ok (row : LadderRow) : Prop :=
  match gxe row with
  | GxeText s => s = "Unknown"%string /\ ratingDeviation row > 100
  | GxeNum p => ratingDeviation row <= 100 /\ 0 <= p <= 100
  end.

Definition total (col : LadderRow -> Z) (ladder : list LadderRow) : Z :=
  fold_right Z.add 0%Z (map col ladder).

(** What one call adds to the [w] and to the [l] column of a row. *)
Definition w_step (score : R) : Z :=
  if Rgt_dec score (6 / 10) then 1%Z else 0%Z.

Definition l_step (score : R) : Z :=
  if Rgt_dec score (6 / 10) then 0%Z
  else if Rlt_dec score (4 / 10) then 1%Z else 0%Z.

(** A win, a tie and a loss between two players. *)
Definition three_battles : list Call :=
  [mkCall "Ann" "Ben" 1 "d1" true false;
   mkCall "Ann" "Ben" (5 / 10) "d2" true false;
   mkCall "Ben" "Ann" 0 "d3" true false].

(** The ladder is sorted by rating, non-increasing. *)
Definition sorted_desc (ladder : list LadderRow) : Prop :=
  forall (i j : nat) (ri rj : LadderRow),
    (i < j)%nat -> ladder !! i = Some ri -> ladder !! j = Some rj ->
    eloRating rj <= eloRating ri.

(** A row that has played no game, with rating [elo]. *)
Definition plain_row (id : string) (elo : R) : LadderRow :=
  mkRow id elo id 0 0 0 1500 130 (GxeText "Unknown") 0 "d0" (Some ∅).

(** Two players on 1500 above one on 1490. *)
Definition tied_ladder : list LadderRow :=
  [plain_row "p1" 1500; plain_row "p2" 1500; plain_row "c" 1490].

(** The two rows of the tied players after a battle scored as invalid. *)
Definition invalid_p1 : LadderRow :=
  updateH2H (updateRow "d1" (plain_row "p1" 1500) 0 1500 1500 130) "p2" loss.

Definition invalid_p2 : LadderRow :=
  updateH2H (updateRow "d1" (plain_row "p2" 1500) 0 1500 1500 130) "p1" win.

(** ** The Elo formula *)

(** The K-factor that [calculateElo] settles on. *)
Definition kfactor (oldElo score foeElo : R) (games : Z) : R :=
  let K0 : R :=
    if (games <? 20)%Z then 32 else if (games <? 50)%Z then 24 else 16 in
  let K1 :=
    if Rlt_dec oldElo 1100 then Rmin (K0 + 8) 32
    else if Rgt_dec oldElo 1600 then Rmax (K0 - 4) 12
    else K0 in
  if Rgt_dec (Rabs (oldElo - foeElo)) 200 then
    if Req_dec_T oldElo (Rmin oldElo foeElo) then
      if Rgt_dec score (5 / 10) then K1 * (11 / 10) else K1
    else
      if Rlt_dec score (5 / 10) then K1 * (105 / 100) else K1
  else K1.

(** The expected score of a player rated [oldElo] against [foeElo]. *)
Definition expected (oldElo foeElo : R) : R :=
  1 / (1 + Math.pow10 ((foeElo - oldElo) / 400)).

(** ** The rating deviation *)

(** The quantity [d_squared] of [calculateGlicko]. *)
Definition d_squared (rating opponentRating opponentRd : R) : R :=
  let q := Math.log 10 / 400 in
  let g (deviation : R) :=
    1 / Math.sqrt (1 + 3 * Math.sq (q * deviation) / Math.sq Math.PI) in
  let E :=
    1 / (1 + Math.pow10 (- g opponentRd * (rating - opponentRating) / 400)) in
  1 / (Math.sq q * Math.sq (g opponentRd) * E * (1 - E)).

(** ** What every row keeps *)

(** The rating is at least 1000, the counters are not negative, the games
    played are the wins, losses and ties together, and the deviation is a
    multiple of 0.1 between 10 and 130. *)
Definition row_ok (row : LadderRow) : Prop :=
  1000 <= eloRating row /\
  (0 <= w row)%Z /\ (0 <= l row)%Z /\ (0 <= t row)%Z /\
  gamesPlayed row = (w row + l row + t row)%Z /\
  10 <= ratingDeviation row <= 130 /\
  exists n : Z, ratingDeviation row = IZR n / 10.

(** ** The users of a ladder *)

(** The ladder with the row of [name], created at the end if it was
    missing. *)
Definition with_user (now : string) (ladder : list LadderRow) (name : string)
    : list LadderRow :=
  snd (indexOfUser now ladder name true).

(** The row at position [k] after [record_result]. *)
Definition recorded (now : string) (k p1i p2i : nat) (row1 row2 : LadderRow)
    (p1score p2score : R) (p1id p2id : string) (row : LadderRow) : LadderRow :=
  let a :=
    if decide (k = p1i) then
      updateRow now row p1score (eloRating row2) (glickoRating row2)
        (ratingDeviation row2)
    else row in
  let b :=
    if decide (k = p2i) then
      updateRow now a p2score (eloRating row1) (glickoRating row1)
        (ratingDeviation row1)
    else a in
  let c :=
    if decide (k = p1i) then updateH2H b p2id (outcome_of p1score) else b in
  if decide (k = p2i) then updateH2H c p1id (flip (outcome_of p1score)) else c.

(** ** Head-to-head records *)

(** The record against an opponent, 0-0-0 when there is none. *)
Definition versus (row : LadderRow) (id : string) : H2H :=
  default (mkH2H 0 0 0) (getH2H row id).

(** Two records that tell the same story from both sides. *)
Definition mirrored (a b : H2H) : Prop :=
  h2h_w a = h2h_l b /\ h2h_l a = h2h_w b /\ h2h_t a = h2h_t b.

(** What a ladder built by [updateRating] keeps about its head-to-head
    records. *)
Record h2h_inv (ladder : list LadderRow) : Prop := mkH2HInv {
  h2h_nodup : List.NoDup (map userid ladder);
  h2h_parsed : forall r, In r ladder -> h2hData r <> None;
  h2h_known : forall r id, In r ladder -> getH2H r id <> None ->
      In id (map userid ladder);
  h2h_mirror : forall ra rb, In ra ladder -> In rb ladder ->
      mirrored (versus ra (userid rb)) (versus rb (userid ra));
}.

(** ** Keeping the ladder sorted *)

(** Every row of [rows] is rated [e] or more; [e] or less. *)
Definition above (e : R) (rows : list LadderRow) : Prop :=
  Forall (fun r => e <= eloRating r) rows.

Definition below (e : R) (rows : list LadderRow) : Prop :=
  Forall (fun r => eloRating r <= e) rows.

(** Sorted by rating, non-increasing; [sorted_desc] says the same by
    positions. *)
Definition desc (ladder : list LadderRow) : Prop :=
  StronglySorted (fun a b => eloRating b <= eloRating a) ladder.

(** One rating does not fall and the other does not rise. *)
Definition opposite (old1 old2 new1 new2 : R) : Prop :=
  (old1 <= new1 /\ new2 <= old2) \/ (new1 <= old1 /\ old2 <= new2).

End LadderSpec.

(* ===================================================================== *)
(** * Properties of the bracket controller *)
(* ===================================================================== *)

Module BracketProofs.

Import Dex Bracket BracketSpec.
Local Open Scope Z_scope.

(** ** Seeding *)

Lemma pow2_nat_Z (k : nat) : 2 ^ Z.of_nat k = Z.of_nat (2 ^ k).
Proof. rewrite Nat2Z.inj_pow. reflexivity. Qed.

Lemma buildBracketSeeds_fuel_pow (k : nat) :
  forall fuel, (S k <= fuel)%nat ->
    buildBracketSeeds_fuel fuel (2 ^ Z.of_nat (S k))
    = Some (seeds_of_depth k).
Proof.
  induction k as [|k IH]; intros fuel Hf.
  - destruct fuel; [lia|]. reflexivity.
  - destruct fuel as [|fuel]; [lia|].
    cbn [buildBracketSeeds_fuel seeds_of_depth].
    assert (H2 : 2 ^ Z.of_nat (S (S k)) = 2 * 2 ^ Z.of_nat (S k)).
    { rewrite (Nat2Z.inj_succ (S k)), Z.pow_succ_r by lia. reflexivity. }
    assert (Hge : 2 <= 2 ^ Z.of_nat (S k)).
    { rewrite Nat2Z.inj_succ, Z.pow_succ_r by lia.
      pose proof (Z.pow_pos_nonneg 2 (Z.of_nat k)). lia. }
    destruct (Z.eqb_spec (2 ^ Z.of_nat (S (S k))) 2) as [E|_]; [lia|].
    replace (Z.even (2 ^ Z.of_nat (S (S k)))) with true
      by (rewrite H2, Z.even_mul; reflexivity).
    replace (2 ^ Z.of_nat (S (S k)) / 2) with (2 ^ Z.of_nat (S k))
      by (rewrite H2, Z.mul_comm, Z.div_mul; lia).
    rewrite IH by lia. reflexivity.
Qed.

Lemma buildBracketSeeds_pow (k : nat) :
  buildBracketSeeds (2 ^ Z.of_nat (S k)) = Some (seeds_of_depth k).
Proof.
  unfold buildBracketSeeds. apply buildBracketSeeds_fuel_pow.
  rewrite pow2_nat_Z, Nat2Z.id.
  clear. induction k as [|k IH]; simpl in *; lia.
Qed.

(** Lookups in a list built two entries at a time. *)
Lemma flat2_lookup_even {A B} (f g : A -> B) (xs : list A) (i : nat) :
  flat_map (fun s => [f s; g s]) xs !! (2 * i)%nat = f <$> xs !! i.
Proof.
  revert i; induction xs as [|a xs IH]; intros [|i]; simpl; try reflexivity.
  replace (i + S (i + 0))%nat with (S (2 * i)) by lia. simpl. apply IH.
Qed.

Lemma flat2_lookup_odd {A B} (f g : A -> B) (xs : list A) (i : nat) :
  flat_map (fun s => [f s; g s]) xs !! (2 * i + 1)%nat = g <$> xs !! i.
Proof.
  revert i; induction xs as [|a xs IH]; intros [|i]; simpl; try reflexivity.
  replace (i + S (i + 0) + 1)%nat with (S (2 * i + 1)) by lia.
  simpl. apply IH.
Qed.

Lemma flat2_length {A B} (f g : A -> B) (xs : list A) :
  length (flat_map (fun s => [f s; g s]) xs) = (2 * length xs)%nat.
Proof. induction xs as [|a xs IH]; simpl; lia. Qed.

Lemma flat2_perm {A} (g : A -> A) (xs : list A) :
  Permutation (flat_map (fun s => [s; g s]) xs) (xs ++ map g xs).
Proof.
  induction xs as [|a xs IH]; simpl; [constructor|].
  constructor. etransitivity; [constructor; exact IH|].
  apply Permutation_middle.
Qed.

Lemma in_seed_range (n : nat) (x : Z) :
  In x (seed_range n) <-> 1 <= x <= Z.of_nat n.
Proof.
  unfold seed_range. rewrite in_map_iff. split.
  - intros (y & <- & Hy%in_seq). lia.
  - intros H. exists (Z.to_nat x). rewrite in_seq. lia.
Qed.

Lemma seed_range_NoDup (n : nat) : List.NoDup (seed_range n).
Proof.
  unfold seed_range. apply Finite.Injective_map_NoDup.
  - intros a b. lia.
  - apply seq_NoDup.
Qed.

(** The upper half of [1 .. 2n] is the mirror image of the lower half. *)
Lemma seed_range_double (n : nat) :
  Permutation
    (seed_range n ++ map (fun s => Z.of_nat (2 * n) + 1 - s) (seed_range n))
    (seed_range (2 * n)).
Proof.
  apply Permutation.NoDup_Permutation.
  - apply NoDup_ListNoDup, NoDup_app; repeat split.
    + apply NoDup_ListNoDup, seed_range_NoDup.
    + intros x Hx%list_elem_of_In Hy%list_elem_of_In.
      apply in_seed_range in Hx.
      apply in_map_iff in Hy as (y & <- & Hy%in_seed_range). lia.
    + apply NoDup_ListNoDup, Finite.Injective_map_NoDup;
        [|apply seed_range_NoDup].
      intros a b. lia.
  - apply seed_range_NoDup.
  - intros x. rewrite in_app_iff, in_map_iff, !in_seed_range. split.
    + intros [H|(y & <- & Hy%in_seed_range)]; lia.
    + intros H. destruct (Z_le_gt_dec x (Z.of_nat n)); [left; lia|].
      right. exists (Z.of_nat (2 * n) + 1 - x). rewrite in_seed_range. lia.
Qed.

Lemma seeds_of_depth_length (k : nat) :
  length (seeds_of_depth k) = (2 ^ S k)%nat.
Proof.
  induction k as [|k IH]; [reflexivity|].
  cbn [seeds_of_depth]. rewrite flat2_length, IH. simpl. lia.
Qed.

Lemma seeds_of_depth_perm (k : nat) :
  Permutation (seeds_of_depth k) (seed_range (2 ^ S k)).
Proof.
  induction k as [|k IH]; [reflexivity|].
  cbn [seeds_of_depth]. rewrite flat2_perm, pow2_nat_Z.
  replace (2 ^ S (S k))%nat with (2 * 2 ^ S k)%nat by (simpl; lia).
  rewrite <- seed_range_double.
  apply Permutation_app; [exact IH|]. apply Permutation_map, IH.
Qed.

Lemma seeds_of_depth_first (k : nat) : seeds_of_depth k !! 0%nat = Some 1.
Proof.
  induction k as [|k IH]; [reflexivity|].
  cbn [seeds_of_depth].
  rewrite (flat2_lookup_even (fun s => s) _ _ 0), IH. reflexivity.
Qed.

Lemma seeds_of_depth_second (k : nat) :
  seeds_of_depth k !! (2 ^ k)%nat = Some 2.
Proof.
  induction k as [|k IH]; [reflexivity|].
  cbn [seeds_of_depth].
  replace (2 ^ S k)%nat with (2 * 2 ^ k)%nat by (simpl; lia).
  rewrite (flat2_lookup_even (fun s => s)), IH. reflexivity.
Qed.

Lemma at_index_nat {A} (xs : list A) (i : nat) :
  at_index xs (Z.of_nat i) = xs !! i.
Proof.
  unfold at_index. destruct (Z.ltb_spec (Z.of_nat i) 0); [lia|].
  now rewrite Nat2Z.id.
Qed.

Lemma pairings_of_lookup (seeds : list Z) (m i : nat) :
  (i < m)%nat ->
  pairings_of seeds (Z.of_nat m) !! i
  = Some (seeds !! (2 * i)%nat, seeds !! (2 * i + 1)%nat).
Proof.
  intros Hi. unfold pairings_of. rewrite Nat2Z.id.
  change (map ?f ?xs) with (f <$> xs).
  rewrite list_lookup_fmap, lookup_seq_lt by exact Hi. simpl.
  replace (Z.of_nat i * 2) with (Z.of_nat (2 * i)) by lia.
  replace (Z.of_nat (2 * i) + 1) with (Z.of_nat (2 * i + 1)) by lia.
  now rewrite !at_index_nat.
Qed.

Lemma pairings_of_length (seeds : list Z) (m : nat) :
  length (pairings_of seeds (Z.of_nat m)) = m.
Proof. unfold pairings_of. now rewrite length_map, length_seq, Nat2Z.id. Qed.

(** Reading the pairs back in order gives the seed order. *)
Lemma pairings_of_flat (seeds : list Z) (m : nat) :
  length seeds = (2 * m)%nat ->
  flat_map (fun p => [fst p; snd p]) (pairings_of seeds (Z.of_nat m))
  = map Some seeds.
Proof.
  intros Hlen. apply list_eq. intros j.
  change (map Some seeds) with (Some <$> seeds). rewrite list_lookup_fmap.
  destruct (Nat.Even_or_Odd j) as [[i ->]|[i ->]].
  - rewrite flat2_lookup_even.
    destruct (Nat.lt_ge_cases i m) as [Hi|Hi].
    + rewrite pairings_of_lookup by exact Hi.
      destruct (lookup_lt_is_Some_2 seeds (2 * i)) as [x Hx]; [lia|].
      now rewrite Hx.
    + rewrite (lookup_ge_None_2 (pairings_of _ _))
        by (rewrite pairings_of_length; lia).
      rewrite (lookup_ge_None_2 seeds) by lia. reflexivity.
  - rewrite flat2_lookup_odd.
    destruct (Nat.lt_ge_cases i m) as [Hi|Hi].
    + rewrite pairings_of_lookup by exact Hi.
      destruct (lookup_lt_is_Some_2 seeds (2 * i + 1)) as [x Hx]; [lia|].
      now rewrite Hx.
    + rewrite (lookup_ge_None_2 (pairings_of _ _))
        by (rewrite pairings_of_length; lia).
      rewrite (lookup_ge_None_2 seeds) by lia. reflexivity.
Qed.

Lemma generateStandardPairings_pow (k : nat) :
  generateStandardPairings (2 ^ Z.of_nat (S k))
  = Some (pairings_of (seeds_of_depth k) (Z.of_nat (2 ^ k))).
Proof.
  unfold generateStandardPairings. rewrite buildBracketSeeds_pow.
  do 2 f_equal. rewrite Nat2Z.inj_succ, Z.pow_succ_r by lia.
  rewrite Z.mul_comm, Z.div_mul by lia. apply pow2_nat_Z.
Qed.

(** C8.  For [N = 2 ^ (k + 1)] participants the seed order is built (the
    recursion ends), match [i] of the first round pairs [seeds[2i]] with
    [seeds[2i+1]], the seeds used are exactly [1 .. N], each once, seed 1
    opens the first half of the order and seed 2 opens the second half, and
    for 8 participants the pairs are (1,8), (4,5), (2,7), (3,6). *)
Theorem standard_seeding (k : nat) :
  let N := 2 ^ Z.of_nat (S k) in
  exists seeds pairs,
    buildBracketSeeds N = Some seeds /\
    generateStandardPairings N = Some pairs /\
    Z.of_nat (length seeds) = N /\
    Z.of_nat (length pairs) = N / 2 /\
    (forall i : nat, (i < length pairs)%nat ->
       exists a b, pairs !! i = Some (Some a, Some b) /\
                   seeds !! (2 * i)%nat = Some a /\
                   seeds !! (2 * i + 1)%nat = Some b) /\
    Permutation (flat_map (fun p => [fst p; snd p]) pairs)
                (map (fun n => Some (Z.of_nat n)) (seq 1 (Z.to_nat N))) /\
    seeds !! 0%nat = Some 1 /\
    seeds !! Z.to_nat (N / 2) = Some 2 /\
    generateStandardPairings 8
    = Some [(Some 1, Some 8); (Some 4, Some 5); (Some 2, Some 7);
            (Some 3, Some 6)].
Proof.
  intros N.
  exists (seeds_of_depth k), (pairings_of (seeds_of_depth k) (Z.of_nat (2 ^ k))).
  assert (HN : N = Z.of_nat (2 ^ S k)) by apply pow2_nat_Z.
  assert (Hhalf : N / 2 = Z.of_nat (2 ^ k)).
  { rewrite HN. replace (2 ^ S k)%nat with (2 ^ k * 2)%nat by (simpl; lia).
    rewrite Nat2Z.inj_mul. apply Z.div_mul. lia. }
  split; [apply buildBracketSeeds_pow|].
  split; [apply generateStandardPairings_pow|].
  split; [now rewrite seeds_of_depth_length|].
  split; [now rewrite pairings_of_length|].
  split.
  { intros i Hi. rewrite pairings_of_length in Hi.
    destruct (lookup_lt_is_Some_2 (seeds_of_depth k) (2 * i)) as [a Ha];
      [rewrite seeds_of_depth_length; simpl; lia|].
    destruct (lookup_lt_is_Some_2 (seeds_of_depth k) (2 * i + 1)) as [b Hb];
      [rewrite seeds_of_depth_length; simpl; lia|].
    exists a, b. rewrite pairings_of_lookup by exact Hi.
    now rewrite Ha, Hb. }
  split.
  { rewrite pairings_of_flat by (rewrite seeds_of_depth_length; simpl; lia).
    rewrite HN, Nat2Z.id.
    rewrite <- (map_map Z.of_nat Some).
    apply Permutation_map, seeds_of_depth_perm. }
  split; [apply seeds_of_depth_first|].
  split; [rewrite Hhalf, Nat2Z.id; apply seeds_of_depth_second|].
  reflexivity.
Qed.

(** ** References into [matches] *)

Lemma refs_from_spec (P : BracketMatch -> bool) (ms : list BracketMatch) (k n : nat) (m : BracketMatch) :
  In (n, m) (refs_from P k ms) <->
  (k <= n)%nat /\ ms !! (n - k)%nat = Some m /\ P m = true.
Proof.
  revert k. induction ms as [|a ms IH]; intros k; simpl.
  - split; [tauto|]. intros (_ & H & _). discriminate.
  - destruct (P a) eqn:Pa; simpl; rewrite IH.
    + split.
      * intros [[= <- <-]|(Hk & Hl & HP)].
        -- rewrite Nat.sub_diag. auto.
        -- split; [lia|]. replace (n - k)%nat with (S (n - S k)) by lia. auto.
      * intros (Hk & Hl & HP). destruct (decide (n = k)) as [->|Hne].
        -- left. rewrite Nat.sub_diag in Hl. simpl in Hl. congruence.
        -- right. split; [lia|]. replace (n - k)%nat with (S (n - S k)) in Hl by lia. auto.
    + split.
      * intros (Hk & Hl & HP). split; [lia|].
        replace (n - k)%nat with (S (n - S k)) by lia. auto.
      * intros (Hk & Hl & HP). destruct (decide (n = k)) as [->|Hne].
        -- rewrite Nat.sub_diag in Hl. simpl in Hl. congruence.
        -- split; [lia|]. replace (n - k)%nat with (S (n - S k)) in Hl by lia. auto.
Qed.

Lemma round_matches_spec (ms : list BracketMatch) (r : Z) (n : nat) (m : BracketMatch) :
  In (n, m) (round_matches ms r) <-> ms !! n = Some m /\ round m = r.
Proof.
  unfold round_matches. rewrite refs_from_spec, Nat.sub_0_r.
  unfold in_round. rewrite Z.eqb_eq. intuition lia.
Qed.

Lemma at_index_In {A} (xs : list A) (k : Z) (x : A) :
  at_index xs k = Some x -> In x xs.
Proof.
  unfold at_index. destruct (k <? 0); [discriminate|].
  intros H. apply list_elem_of_In. eapply list_elem_of_lookup_2, H.
Qed.

Lemma nextMatch_of_spec (ms : list BracketMatch) (M N : BracketMatch) (n : nat) :
  nextMatch_of ms M = Some (n, N) -> ms !! n = Some N /\ round N = round M + 1.
Proof.
  unfold nextMatch_of. destruct (firstMatchOfRound ms (round M)); [|discriminate].
  intros H%at_index_In. now apply round_matches_spec in H.
Qed.

Lemma place_inv (N : BracketMatch) (w wd : string) (nm : BracketMatch) :
  place N w wd = Some nm ->
  (JS.truthy (player1 N) = false /\ nm = set_player1 N w wd) \/
  (JS.truthy (player1 N) = true /\ JS.truthy (player2 N) = false /\
   nm = set_player2 N w wd).
Proof.
  unfold place. destruct (JS.truthy (player1 N)); simpl.
  - destruct (JS.truthy (player2 N)); simpl; [discriminate|].
    intros [= <-]. auto.
  - intros [= <-]. auto.
Qed.

Lemma advanceWinner_inv (st : BracketState) (i : nat) :
  fst (advanceWinner st i) = st \/
  exists M n N nm,
    matches st !! i = Some M /\ frozen st = false /\
    nextMatch_of (matches st) M = Some (n, N) /\
    place N (default "" (winner M)) (display_of st (default "" (winner M))) = Some nm /\
    fst (advanceWinner st i) = advanced st n nm (round M + 1).
Proof.
  unfold advanceWinner.
  destruct (matches st !! i) as [M|] eqn:HM; [|now left].
  destruct (round_matches (matches st) (round M + 1)) eqn:Hnr; [now left|].
  destruct (frozen st) eqn:Hfr; [now left|].
  destruct (nextMatch_of (matches st) M) as [[n N]|] eqn:Hnext; [|now left].
  destruct (place N _ _) as [nm|] eqn:Hpl; [|now left].
  right. exists M, n, N, nm. repeat split; try assumption.
  unfold advanced. rewrite Hfr.
  destruct (JS.truthy (player1 nm) && JS.truthy (player2 nm)); reflexivity.
Qed.

Lemma advanced_bestOf st n nm r : bestOf (advanced st n nm r) = bestOf st.
Proof. unfold advanced. destruct (_ && _); reflexivity. Qed.

Lemma advanceWinner_bestOf st i : bestOf (fst (advanceWinner st i)) = bestOf st.
Proof.
  destruct (advanceWinner_inv st i) as [->|(M & n & N & nm & _ & _ & _ & _ & ->)];
    [reflexivity|apply advanced_bestOf].
Qed.

Lemma Forall_insert_ok {A} (P : A -> Prop) (xs : list A) (i : nat) (x : A) :
  Forall P xs -> P x -> Forall P (<[i := x]> xs).
Proof. intros. now apply Forall_insert. Qed.

Lemma advanceWinner_score_inv (st : BracketState) (i : nat) :
  score_inv st -> score_inv (fst (advanceWinner st i)).
Proof.
  intros [Hok Hpm].
  destruct (advanceWinner_inv st i)
    as [->|(M & n & N & nm & HM & Hfr & Hnext & Hpl & ->)]; [now split|].
  apply nextMatch_of_spec in Hnext as [HN HrN].
  assert (HokM : match_ok (winsNeeded st) M).
  { eapply Forall_lookup_1 in Hok; eauto. }
  assert (HokN : match_ok (winsNeeded st) N).
  { eapply Forall_lookup_1 in Hok; eauto. }
  assert (Hr2 : 2 <= round N) by (destruct HokM; lia).
  assert (Hempty : JS.truthy (player1 N) = false \/ JS.truthy (player2 N) = false).
  { apply place_inv in Hpl as [[? _]|(_ & ? & _)]; auto. }
  assert (Hz : p1wins N = 0 /\ p2wins N = 0) by (now apply HokN).
  assert (Hnm : round nm = round N /\ p1wins nm = p1wins N /\ p2wins nm = p2wins N).
  { apply place_inv in Hpl as [[_ ->]|(_ & _ & ->)]; now cbn. }
  destruct Hnm as (Hrnm & Hw1 & Hw2).
  unfold advanced. destruct (JS.truthy (player1 nm) && JS.truthy (player2 nm)) eqn:Hfull.
  - apply andb_true_iff in Hfull as [Hf1 Hf2].
    split; cbn.
    + unfold winsNeeded; cbn. apply Forall_insert; [exact Hok|].
      unfold match_ok; cbn. rewrite Hrnm, Hw1, Hw2.
      repeat split; try lia;
        rewrite Hf1, Hf2; intros _ [?|?]; discriminate.
    + intros id j m Hid Hj Hrm.
      destruct (decide (j = n)) as [->|Hjn].
      * rewrite list_lookup_insert_eq in Hj by (eapply lookup_lt_Some; eauto).
        injection Hj as <-. now cbn.
      * rewrite list_lookup_insert_ne in Hj by congruence.
        rewrite lookup_insert in Hid. case_decide; [congruence|].
        rewrite lookup_insert in Hid. case_decide; [congruence|].
        eapply Hpm; eauto.
  - split; cbn.
    + unfold winsNeeded; cbn. apply Forall_insert; [exact Hok|].
      unfold match_ok; cbn. rewrite Hrnm, Hw1, Hw2.
      repeat split; try lia; intros; try discriminate; lia.
    + intros id j m Hid Hj Hrm.
      destruct (decide (j = n)) as [->|Hjn].
      * exfalso. destruct (Hpm id n N Hid HN Hr2) as [H1 H2].
        destruct Hempty; congruence.
      * rewrite list_lookup_insert_ne in Hj by congruence.
        eapply Hpm; eauto.
Qed.

Lemma scored_matchId (m : BracketMatch) (w : string) :
  matchId (scored m w) = matchId m.
Proof. unfold scored. now destruct (String.eqb _ _). Qed.

Lemma recordWin_inv (st : BracketState) (w l : string) :
  fst (recordWin st w l) = st \/
  exists i m,
    playerMatches st !! w = Some i /\ matches st !! i = Some m /\
    opponents m w l = true /\
    (((winsNeeded st <= p1wins (scored m w) \/ winsNeeded st <= p2wins (scored m w)) /\
      recordWin st w l =
        (fst (advanceWinner (finished st i (completed (winsNeeded st) (scored m w))) i),
         Beats w l (p1wins (scored m w)) (p2wins (scored m w)) (winsNeeded st)
         :: MatchComplete (matchId m) (winnerDisplay (completed (winsNeeded st) (scored m w)))
              (p1wins (scored m w)) (p2wins (scored m w))
         :: snd (advanceWinner (finished st i (completed (winsNeeded st) (scored m w))) i)))
     \/
     (p1wins (scored m w) < winsNeeded st /\ p2wins (scored m w) < winsNeeded st /\
      recordWin st w l =
        (set_matches st (<[i := scored m w]> (matches st)),
         [Beats w l (p1wins (scored m w)) (p2wins (scored m w)) (winsNeeded st)]))).
Proof.
  unfold recordWin.
  destruct (playerMatches st !! w) as [i|] eqn:Hi; [|now left].
  destruct (matches st !! i) as [m|] eqn:Hm; [|now left].
  destruct (opponents m w l) eqn:Hop; [|now left].
  right. exists i, m. repeat split; try assumption. cbn [negb].
  fold (scored m w).
  destruct (Z.leb_spec (winsNeeded st) (p1wins (scored m w))) as [H1|H1];
    cbn [orb].
  - left. split; [auto|].
    fold (finished st i (completed (winsNeeded st) (scored m w))).
    destruct (advanceWinner _ i) as [st2 logs]. cbn.
    now rewrite scored_matchId.
  - destruct (Z.leb_spec (winsNeeded st) (p2wins (scored m w))) as [H2|H2].
    + left. split; [auto|].
      fold (finished st i (completed (winsNeeded st) (scored m w))).
      destruct (advanceWinner _ i) as [st2 logs]. cbn.
      now rewrite scored_matchId.
    + right. auto.
Qed.

Lemma scored_fields (m : BracketMatch) (w : string) :
  round (scored m w) = round m /\ player1 (scored m w) = player1 m /\
  player2 (scored m w) = player2 m /\ status (scored m w) = status m /\
  player1Display (scored m w) = player1Display m /\
  player2Display (scored m w) = player2Display m /\
  (p1wins (scored m w) = p1wins m + 1 /\ p2wins (scored m w) = p2wins m \/
   p1wins (scored m w) = p1wins m /\ p2wins (scored m w) = p2wins m + 1).
Proof. unfold scored. destruct (String.eqb _ _); cbn; intuition. Qed.

Lemma recordWin_bestOf st w l : bestOf (fst (recordWin st w l)) = bestOf st.
Proof.
  destruct (recordWin_inv st w l)
    as [->|(i & m & _ & _ & _ & [[_ ->]|(_ & _ & ->)])]; [reflexivity| |reflexivity].
  cbn [fst]. now rewrite advanceWinner_bestOf.
Qed.

Lemma recordWin_score_inv (st : BracketState) (w l : string) :
  score_inv st -> score_inv (fst (recordWin st w l)).
Proof.
  intros Hinv.
  destruct (recordWin_inv st w l)
    as [->|(i & m & Hi & Hm & Hop & [[Hge ->]|(H1 & H2 & ->)])]; [exact Hinv| |];
    cbn [fst]; [apply advanceWinner_score_inv|]; destruct Hinv as [Hok Hpm];
    pose proof (Forall_lookup_1 _ _ _ _ Hok Hm) as (Hr & Hp1 & Hp2 & Hk2 & Hk3);
    destruct (scored_fields m w) as (Er & E1 & E2 & Es & _ & _ & Ew).
  - split; cbn.
    + apply Forall_insert; [exact Hok|].
      unfold match_ok; cbn. rewrite Er, E1, E2.
      repeat split; try lia; try discriminate.
      all: exfalso;
        match goal with
        | Hr2 : 2 <= round _, He : _ \/ _ |- _ =>
            destruct (Hpm _ _ _ Hi Hm Hr2); destruct He; congruence
        end.
    + intros id j mj Hid Hj Hrj.
      apply lookup_delete_Some in Hid as [_ Hid].
      apply lookup_delete_Some in Hid as [_ Hid].
      destruct (decide (j = i)) as [->|Hji].
      * rewrite list_lookup_insert_eq in Hj by (eapply lookup_lt_Some; eauto).
        injection Hj as <-. cbn in *. rewrite E1, E2. rewrite Er in Hrj. eauto.
      * rewrite list_lookup_insert_ne in Hj by congruence. eauto.
  - split; cbn.
    + apply Forall_insert; [exact Hok|].
      unfold match_ok. rewrite Er, E1, E2, Es.
      unfold winsNeeded in *; cbn.
      repeat split; try lia.
      all: exfalso;
        match goal with
        | Hr2 : 2 <= round _, He : _ \/ _ |- _ =>
            destruct (Hpm _ _ _ Hi Hm Hr2); destruct He; congruence
        end.
    + intros id j mj Hid Hj Hrj.
      destruct (decide (j = i)) as [->|Hji].
      * rewrite list_lookup_insert_eq in Hj by (eapply lookup_lt_Some; eauto).
        injection Hj as <-. rewrite E1, E2. rewrite Er in Hrj. eauto.
      * rewrite list_lookup_insert_ne in Hj by congruence. eauto.
Qed.

Lemma resume_step_inv (acc : BracketState * list LogMsg) (i : nat) :
  fst (resume_step acc i) = fst acc \/
  fst (resume_step acc i) = fst (advanceWinner (fst acc) i).
Proof.
  unfold resume_step. destruct (matches (fst acc) !! i) as [m|]; [|now left].
  destruct (round_matches _ _); [now left|].
  destruct (nextMatch_of _ _) as [[n N]|]; [|now left].
  destruct (winner m) as [w|]; [|now left].
  destruct (_ || _); [now left|].
  destruct (negb _); [now left|].
  right. now destruct (advanceWinner (fst acc) i).
Qed.

Lemma resume_fold_ind (P : BracketState -> Prop) :
  (forall st i, P st -> P (fst (advanceWinner st i))) ->
  forall idxs acc, P (fst acc) -> P (fst (fold_left resume_step idxs acc)).
Proof.
  intros Hadv idxs. induction idxs as [|i idxs IH]; intros acc Hacc; [exact Hacc|].
  cbn [fold_left]. apply IH.
  destruct (resume_step_inv acc i) as [->| ->]; auto.
Qed.

Lemma resume_inv (st st' : BracketState) (logs : list LogMsg) :
  resume st = Ok (st', logs) ->
  initialized st = true /\ frozen st = true /\
  st' = fst (fold_left resume_step
               (map fst (refs_from (blocked_candidate (maxRound (matches st))) 0 (matches st)))
               (set_frozen st false, [])).
Proof.
  unfold resume. destruct (initialized st); [|discriminate].
  destruct (frozen st); [|discriminate]. cbn [negb].
  cbn [matches set_frozen].
  destruct (fold_left _ _ _) as [s lg] eqn:E. intros [= <- <-].
  repeat split; reflexivity.
Qed.

Lemma freeze_inv (st st' : BracketState) (logs : list LogMsg) :
  freeze st = Ok (st', logs) ->
  initialized st = true /\ frozen st = false /\ st' = set_frozen st true.
Proof.
  unfold freeze. destruct (initialized st); [|discriminate].
  destruct (frozen st); [discriminate|]. cbn. intros [= <- <-]. auto.
Qed.

Lemma step_score_inv (st st' : BracketState) :
  step st st' -> score_inv st -> score_inv st'.
Proof.
  intros Hstep Hinv. destruct Hstep as [st w l|st st' logs Hf|st st' logs Hr].
  - now apply recordWin_score_inv.
  - apply freeze_inv in Hf as (_ & _ & ->). exact Hinv.
  - apply resume_inv in Hr as (_ & _ & ->).
    apply (resume_fold_ind score_inv); [intros; now apply advanceWinner_score_inv|].
    exact Hinv.
Qed.

(** ** What [initialize] builds *)

Lemma initialize_inv fmt players bo randomize rnd st st' :
  initialize fmt players bo randomize rnd st = Ok st' ->
  let n := Z.of_nat (length players) in
  let seeded := if randomize then shuffleArray rnd players else players in
  initialized st = false /\ 2 <= n /\ isPowerOfTwo n = true /\
  exists pairs first pm,
    generateStandardPairings n = Some pairs /\
    fold_left (push_first_round seeded) pairs ([], ∅) = (first, pm) /\
    st' = mkState fmt n bo 1
            (first ++ placeholder_rounds (Z.to_nat (Z.log2 n - 1)) 2 (Z.log2 n) (n / 2 + 1))
            pm
            (fold_left (fun dn player => <[toID player := player]> dn) seeded ∅)
            true (frozen st).
Proof.
  unfold initialize. intros H.
  set (n := Z.of_nat (length players)) in *.
  set (seeded := if randomize then shuffleArray rnd players else players) in *.
  destruct (initialized st); [discriminate|].
  destruct (Z.ltb_spec n 2) as [?|Hn]; [discriminate|].
  destruct (isPowerOfTwo n); [|discriminate]. cbn [orb negb] in H.
  destruct (generateStandardPairings n) as [pairs|]; [|discriminate].
  destruct (fold_left (push_first_round seeded) pairs ([], ∅)) as [first pm] eqn:E.
  injection H as <-. repeat split; try assumption.
  exists pairs, first, pm. auto.
Qed.

Lemma push_first_round_ok seeded pairs :
  forall acc,
    (Forall first_ok (fst acc) /\
     forall id i, snd acc !! id = Some i -> (i < length (fst acc))%nat) ->
    Forall first_ok (fst (fold_left (push_first_round seeded) pairs acc)) /\
    forall id i, snd (fold_left (push_first_round seeded) pairs acc) !! id = Some i ->
                 (i < length (fst (fold_left (push_first_round seeded) pairs acc)))%nat.
Proof.
  induction pairs as [|pr pairs IH]; intros acc Hacc; [exact Hacc|].
  cbn [fold_left]. apply IH. destruct Hacc as [Hf Hpm].
  unfold push_first_round; cbn [fst snd]. split.
  - apply Forall_app. split; [exact Hf|]. constructor; [|constructor].
    unfold first_ok, first_round_match. cbn. auto.
  - intros id i. rewrite length_app. cbn [length].
    rewrite lookup_insert. case_decide; [intros [= <-]; lia|].
    rewrite lookup_insert. case_decide; [intros [= <-]; lia|].
    intros Hin%Hpm. lia.
Qed.

Lemma placeholder_rounds_ok (count : nat) (rnd total next : Z) :
  2 <= rnd ->
  Forall (fun m => 2 <= round m /\ p1wins m = 0 /\ p2wins m = 0 /\
                   status m = pending /\ player1 m = "" /\ player2 m = "" /\
                   winner m = None)
    (placeholder_rounds count rnd total next).
Proof.
  revert rnd next. induction count as [|count IH]; intros rnd next Hr; cbn.
  - constructor.
  - apply Forall_app. split.
    + apply List.Forall_forall. intros m (i & <- & _)%in_map_iff. cbn.
      repeat split; auto.
    + apply IH. lia.
Qed.

Lemma initialize_score_inv fmt players bo randomize rnd st st' :
  initialize fmt players bo randomize rnd st = Ok st' -> score_inv st'.
Proof.
  intros H. apply initialize_inv in H
    as (_ & Hn & _ & pairs & first & pm & _ & Hfold & ->).
  pose proof (push_first_round_ok
                (if randomize then shuffleArray rnd players else players)
                pairs ([], ∅)) as Hpush.
  rewrite Hfold in Hpush. cbn [fst snd] in Hpush.
  destruct Hpush as [Hfirst Hpm].
  { split; [constructor|]. intros id i. rewrite lookup_empty. discriminate. }
  split; cbn.
  - apply Forall_app. split.
    + eapply Forall_impl; [exact Hfirst|].
      intros m (Hr & H1 & H2 & Hs). unfold match_ok. rewrite Hr, H1, H2.
      repeat split; try lia.
    + eapply Forall_impl; [apply placeholder_rounds_ok; lia|].
      intros m (Hr & H1 & H2 & Hs & _). unfold match_ok. rewrite H1, H2, Hs.
      repeat split; try lia; discriminate.
  - intros id i m Hid Hi Hr. apply Hpm in Hid.
    rewrite lookup_app_l in Hi by exact Hid.
    eapply Forall_lookup_1 in Hfirst; eauto. destruct Hfirst as [Hr1 _]. lia.
Qed.

Lemma reachable_score_inv (st : BracketState) : reachable st -> score_inv st.
Proof.
  intros [players H]. induction H as [fmt bo rz rnd st H|st st' _ IH Hstep].
  - eapply initialize_score_inv, H.
  - eapply step_score_inv; eauto.
Qed.

Lemma advanceWinner_lookup_self (st : BracketState) (i : nat) (M : BracketMatch) :
  matches st !! i = Some M -> matches (fst (advanceWinner st i)) !! i = Some M.
Proof.
  intros HM.
  destruct (advanceWinner_inv st i)
    as [->|(M' & n & N & nm & HM' & _ & Hnext & _ & ->)]; [exact HM|].
  assert (M' = M) as -> by congruence.
  apply nextMatch_of_spec in Hnext as [HN Hr].
  assert (n <> i) by (intros ->; assert (N = M) as -> by congruence; lia).
  unfold advanced. destruct (_ && _); cbn; now rewrite list_lookup_insert_ne.
Qed.

Lemma opponents_spec (m : BracketMatch) (a b : string) :
  opponents m a b = true <->
  (player1 m = a /\ player2 m = b) \/ (player2 m = a /\ player1 m = b).
Proof.
  unfold opponents. rewrite orb_true_iff, !andb_true_iff, !String.eqb_eq.
  reflexivity.
Qed.

(** C1 (as amended).  In any state with series length [bestOf = N], let [m]
    be the active match that [playerMatches] holds for [w], with [w] and [l]
    its two players.  If the win recorded by [recordWin w l] raises the
    score of [w] to [floor(N/2) + 1] while the score of [l] is below that
    threshold, the match is written back complete with [w] as winner
    (identity and display name), its players as they were and the score of
    [w] one higher, both players are removed from [playerMatches], the
    advancement step runs on that state, and the match is still so after
    it.  If both scores stay below the threshold, the only
    change to the state is the score of [w] in that match, one higher, and
    the match is still active.  In a state reached from [initialize] by
    [recordWin], [freeze] and [resume], the score of [l] is below the
    threshold whenever one more win brings [w] to it. *)
Theorem recordWin_series (st : BracketState) (w l : string) (i : nat)
    (m : BracketMatch) :
  playerMatches st !! w = Some i ->
  matches st !! i = Some m ->
  status m = active ->
  opponents m w l = true ->
  (wins_of m w + 1 = bestOf st / 2 + 1 ->
   wins_against m w < bestOf st / 2 + 1 ->
   let m2 :=
     set_status (set_winner (scored m w) (Some w) (Some (display_in m w)))
       complete in
   let st1 := finished st i m2 in
   status m2 = complete /\ winner m2 = Some w /\
   winnerDisplay m2 = Some (display_in m w) /\
   player1 m2 = player1 m /\ player2 m2 = player2 m /\
   wins_of m2 w = wins_of m w + 1 /\ wins_against m2 w = wins_against m w /\
   matches st1 !! i = Some m2 /\
   playerMatches st1 !! player1 m = None /\
   playerMatches st1 !! player2 m = None /\
   fst (recordWin st w l) = fst (advanceWinner st1 i) /\
   matches (fst (recordWin st w l)) !! i = Some m2)
  /\
  (wins_of m w + 1 < bestOf st / 2 + 1 ->
   wins_against m w < bestOf st / 2 + 1 ->
   fst (recordWin st w l) = set_matches st (<[i := scored m w]> (matches st)) /\
   status (scored m w) = active /\
   wins_of (scored m w) w = wins_of m w + 1 /\
   wins_against (scored m w) w = wins_against m w /\
   matches (fst (recordWin st w l)) !! i = Some (scored m w) /\
   (forall j, j <> i ->
      matches (fst (recordWin st w l)) !! j = matches st !! j) /\
   playerMatches (fst (recordWin st w l)) = playerMatches st)
  /\
  (reachable st -> wins_of m w + 1 = bestOf st / 2 + 1 ->
   wins_against m w < bestOf st / 2 + 1).
Proof.
  intros Hi Hm Hact Hop.
  fold (winsNeeded st).
  assert (Hloser : reachable st -> wins_of m w + 1 = winsNeeded st ->
                   wins_against m w < winsNeeded st).
  { intros Hreach Hup.
    pose proof (reachable_score_inv st Hreach) as [Hok _].
    pose proof (Forall_lookup_1 _ _ _ _ Hok Hm) as (_ & Hp1 & Hp2 & _ & Hk3).
    unfold wins_of, wins_against in *.
    destruct (String.eqb (player1 m) w); destruct (Hk3 Hact); lia. }
  assert (Hlt : (i < length (matches st))%nat) by (eapply lookup_lt_Some; eauto).
  assert (Hcases :
    ((winsNeeded st <= p1wins (scored m w) \/ winsNeeded st <= p2wins (scored m w)) /\
     fst (recordWin st w l)
     = fst (advanceWinner (finished st i (completed (winsNeeded st) (scored m w))) i))
    \/
    (p1wins (scored m w) < winsNeeded st /\ p2wins (scored m w) < winsNeeded st /\
     fst (recordWin st w l) = set_matches st (<[i := scored m w]> (matches st)))).
  { destruct (recordWin_inv st w l)
      as [Hsame|(i' & m' & Hi' & Hm' & _ & [[Hge ->]|(H1 & H2 & ->)])].
    - exfalso. revert Hsame. unfold recordWin. rewrite Hi, Hm, Hop.
      cbn [negb]. fold (scored m w).
      fold (finished st i (completed (winsNeeded st) (scored m w))).
      destruct (_ || _).
      + destruct (advanceWinner _ i) as [s lg] eqn:E. cbn [fst].
        intros ->. pose proof (f_equal fst E) as E'. cbn [fst] in E'.
        assert (Hself :
          matches (fst (advanceWinner
                          (finished st i (completed (winsNeeded st) (scored m w))) i))
            !! i = Some (completed (winsNeeded st) (scored m w))).
        { apply advanceWinner_lookup_self. cbn.
          now apply list_lookup_insert_eq. }
        rewrite E' in Hself.
        rewrite Hm in Hself. injection Hself as Hself.
        pose proof (f_equal status Hself) as Hs. cbn in Hs. congruence.
      + cbn [fst]. intros Hs. pose proof (f_equal matches Hs) as Hms.
        cbn in Hms. pose proof (f_equal (fun ms => ms !! i) Hms) as Hl.
        cbn in Hl. rewrite list_lookup_insert_eq, Hm in Hl by exact Hlt.
        injection Hl as Hl.
        destruct (scored_fields m w) as (_ & _ & _ & _ & _ & _ & Ew).
        rewrite Hl in Ew. lia.
    - assert (i' = i) as -> by congruence. assert (m' = m) as -> by congruence.
      left. auto.
    - assert (i' = i) as -> by congruence. assert (m' = m) as -> by congruence.
      right. auto. }
  assert (Hw : player1 m = w \/ player1 m <> w /\ player2 m = w).
  { apply opponents_spec in Hop. destruct (decide (player1 m = w)); intuition. }
  split; [|split; [|exact Hloser]].
  - intros Hreached Hother m2 st1.
    assert (Hm2 : completed (winsNeeded st) (scored m w) = m2).
    { subst m2. unfold completed, scored, display_in, wins_of, wins_against in *.
      destruct Hw as [Hw|[Hw1 Hw2]].
      - apply String.eqb_eq in Hw as Hweq. rewrite Hweq in *. cbn.
        destruct (Z.leb_spec (winsNeeded st) (p1wins m + 1)); [|lia].
        apply String.eqb_eq in Hweq. now rewrite Hweq.
      - apply String.eqb_neq in Hw1 as Hwne. rewrite Hwne in *. cbn.
        destruct (Z.leb_spec (winsNeeded st) (p1wins m)); [lia|].
        now rewrite Hw2. }
    destruct Hcases as [[_ Hrec]|(H1 & H2 & _)].
    + rewrite Hm2 in Hrec. fold st1 in Hrec.
      assert (Hst1 : matches st1 !! i = Some m2).
      { subst st1. cbn. now rewrite list_lookup_insert_eq. }
      assert (Hpl : player1 m2 = player1 m /\ player2 m2 = player2 m).
      { subst m2. cbn. destruct (scored_fields m w) as (_ & -> & -> & _). auto. }
      destruct Hpl as [Hpl1 Hpl2].
      assert (Hsc : wins_of m2 w = wins_of m w + 1 /\
                    wins_against m2 w = wins_against m w).
      { subst m2. unfold wins_of, wins_against, scored.
        destruct (String.eqb (player1 m) w) eqn:E; cbn; rewrite E; auto. }
      destruct Hsc as [Hsc1 Hsc2].
      repeat split; try reflexivity; try assumption.
      * subst st1. unfold finished.
        cbn [playerMatches set_playerMatches set_matches]. rewrite Hpl1, Hpl2.
        destruct (decide (player2 m = player1 m)) as [->|Hne];
          [apply lookup_delete_eq|].
        rewrite lookup_delete_ne by congruence. apply lookup_delete_eq.
      * subst st1. unfold finished.
        cbn [playerMatches set_playerMatches set_matches]. rewrite Hpl2.
        apply lookup_delete_eq.
      * rewrite Hrec. now apply advanceWinner_lookup_self.
    + exfalso. unfold wins_of, scored in *.
      destruct (String.eqb _ _); cbn in *; lia.
  - intros Hbelow Hother.
    destruct (scored_fields m w) as (_ & _ & _ & Es & _ & _ & _).
    destruct Hcases as [[Hge _]|(_ & _ & ->)].
    + exfalso. unfold wins_of, wins_against, scored in *.
      destruct (String.eqb _ _); cbn in *; lia.
    + split; [reflexivity|]. split; [congruence|].
      split; [|split; [|split; [|split]]].
      * unfold wins_of, scored. destruct (String.eqb (player1 m) w) eqn:E; cbn;
          rewrite E; reflexivity.
      * unfold wins_against, scored. destruct (String.eqb (player1 m) w) eqn:E; cbn;
          rewrite E; reflexivity.
      * cbn [fst matches set_matches].
        now rewrite list_lookup_insert_eq by exact Hlt.
      * intros j Hj. cbn [fst matches set_matches].
        now rewrite list_lookup_insert_ne by congruence.
      * reflexivity.
Qed.

Lemma recordWin_series_witness :
  matches (fst (recordWin (started four_players 1) "alice" "dave")) !! 0%nat
  = Some (set_status
            (set_winner (scored opening_match "alice") (Some "alice")
               (Some "Alice"))
            complete).
Proof.
  destruct (recordWin_series (started four_players 1) "alice" "dave" 0
              opening_match) as [Hc _].
  - reflexivity.
  - reflexivity.
  - reflexivity.
  - reflexivity.
  - apply Hc; [reflexivity|]. vm_compute. reflexivity.
Defined.

(** C1 (as stated) fails when the other player is already at the threshold.
    A series of a best of 11 stands at 5-1 for Alice; its file, in the
    layout without the metadata line, is read back under the configured
    best of 3.  Dave's next win raises his score to [floor(3/2) + 1 = 2] and
    closes the match, with Alice as the winner. *)
Lemma recordWin_crowns_leader :
  loadFromCSV sample_config (Some (legacy_text long_series)) empty_state
  = Loaded long_series_reloaded /\
  initialized long_series_reloaded = true /\
  bestOf long_series_reloaded = 3 /\
  playerMatches long_series_reloaded !! "dave" = Some 0%nat /\
  playerMatches long_series_reloaded !! "alice" = Some 0%nat /\
  matches long_series_reloaded !! 0%nat
  = Some (mkMatch 1 1 "alice" "dave" "Alice" "Dave" 5 1 active None None) /\
  matches (fst (recordWin long_series_reloaded "dave" "alice")) !! 0%nat
  = Some (mkMatch 1 1 "alice" "dave" "Alice" "Dave" 5 2 complete
            (Some "alice") (Some "Alice")).
Proof.
  vm_compute. repeat split; reflexivity.
Qed.

Lemma truthy_false (s : string) : JS.truthy s = false <-> s = "".
Proof. destruct s; cbn; split; congruence. Qed.

Lemma truthy_true (s : string) : JS.truthy s = true <-> s <> "".
Proof. destruct s; cbn; split; congruence. Qed.

Lemma fold_min_le (xs : list Z) (a : Z) :
  fold_left Z.min xs a <= a /\ forall x, In x xs -> fold_left Z.min xs a <= x.
Proof.
  revert a. induction xs as [|y xs IH]; intros a; cbn; [split; [lia|tauto]|].
  destruct (IH (Z.min a y)) as [H1 H2]. split; [lia|].
  intros x [<-|Hx]; [lia|auto].
Qed.

Lemma min_list_le (xs : list Z) (lo x : Z) :
  min_list xs = Some lo -> In x xs -> lo <= x.
Proof.
  destruct xs as [|a xs]; [discriminate|]. cbn. intros [= <-] [<-|Hx].
  - apply (proj1 (fold_min_le xs _)).
  - now apply (proj2 (fold_min_le xs _)).
Qed.

Lemma firstMatchOfRound_le (ms : list BracketMatch) (i : nat) (M : BracketMatch) (firstId : Z) :
  ms !! i = Some M -> firstMatchOfRound ms (round M) = Some firstId ->
  firstId <= matchId M.
Proof.
  intros HM Hmin. eapply min_list_le; [exact Hmin|].
  apply in_map_iff. exists (i, M). split; [reflexivity|].
  now apply round_matches_spec.
Qed.

(** C2.  Let [M], at reference [i], be a complete match with winner [w] in an
    unfrozen tournament, [firstId] the least match id of its round, and [N],
    at reference [n], the match of the next round at index
    [floor((matchId M - firstId) / 2)].  The advancement step leaves every
    match but [N] alone.  If both slots of [N] are taken it changes nothing
    and reports the integrity error.  Otherwise [w] and its display name
    ([displayNames] at [w], or [w] itself when there is none) go to
    [player1] if that slot is empty, else to [player2], the other fields of
    [N] staying as they are; if both slots are then filled, [N] becomes
    active, both of its players are mapped to it in [playerMatches] and
    [currentRound] is raised to the next round if that is greater; if one
    slot is still empty, [N] becomes waiting and nothing else changes. *)
Theorem advanceWinner_placement (st : BracketState) (i n : nat)
    (M N : BracketMatch) (w : string) (firstId : Z) :
  matches st !! i = Some M ->
  status M = complete ->
  winner M = Some w ->
  frozen st = false ->
  firstMatchOfRound (matches st) (round M) = Some firstId ->
  round_matches (matches st) (round M + 1)
    !! Z.to_nat ((matchId M - firstId) / 2) = Some (n, N) ->
  let wd :=
    match displayNames st !! w with
    | Some d => if decide (d = "") then w else d
    | None => w
    end in
  let placed (s : Status) :=
    if decide (player1 N = "") then
      mkMatch (round N) (matchId N) w (player2 N) wd (player2Display N)
        (p1wins N) (p2wins N) s (winner N) (winnerDisplay N)
    else
      mkMatch (round N) (matchId N) (player1 N) w (player1Display N) wd
        (p1wins N) (p2wins N) s (winner N) (winnerDisplay N) in
  let st' := fst (advanceWinner st i) in
  firstId <= matchId M /\ matches st !! n = Some N /\ round N = round M + 1 /\
  (player1 N <> "" -> player2 N <> "" ->
   st' = st /\
   In (BothPlayers (matchId N)) (snd (advanceWinner st i)) /\
   level (BothPlayers (matchId N)) = ERROR) /\
  (player1 N = "" \/ player2 N = "" ->
   (player1 (placed active) <> "" /\ player2 (placed active) <> "" ->
    st' = mkState (format st) (participants st) (bestOf st)
            (Z.max (currentRound st) (round M + 1))
            (<[n := placed active]> (matches st))
            (<[player2 (placed active) := n]>
               (<[player1 (placed active) := n]> (playerMatches st)))
            (displayNames st) (initialized st) (frozen st)) /\
   (player1 (placed active) = "" \/ player2 (placed active) = "" ->
    st' = mkState (format st) (participants st) (bestOf st)
            (currentRound st)
            (<[n := placed waiting]> (matches st))
            (playerMatches st)
            (displayNames st) (initialized st) (frozen st))).
Proof.
  intros HM Hst Hw Hfr Hfirst Hnext wd placed st'.
  pose proof (firstMatchOfRound_le _ _ _ _ HM Hfirst) as Hle.
  assert (HnextOf : nextMatch_of (matches st) M = Some (n, N)).
  { unfold nextMatch_of. rewrite Hfirst. unfold at_index.
    destruct (Z.ltb_spec ((matchId M - firstId) / 2) 0) as [Hneg|_]; [|exact Hnext].
    exfalso. assert (0 <= (matchId M - firstId) / 2) by (apply Z.div_pos; lia).
    lia. }
  destruct (nextMatch_of_spec _ _ _ _ HnextOf) as [HN HrN].
  assert (Hne : round_matches (matches st) (round M + 1) <> []).
  { intros E. rewrite E in Hnext. discriminate. }
  assert (Hwd : display_of st w = wd).
  { unfold display_of. subst wd. destruct (displayNames st !! w) as [d|];
      [|reflexivity].
    destruct (decide (d = "")) as [->|Hd]; [reflexivity|].
    now rewrite (proj2 (truthy_true d) Hd). }
  split; [exact Hle|]. split; [exact HN|]. split; [exact HrN|].
  subst st'. unfold advanceWinner. rewrite HM, Hw.
  destruct (round_matches (matches st) (round M + 1)) as [|p ps] eqn:Erm;
    [congruence|]. clear Hne.
  rewrite Hfr, HnextOf. change (default "" (Some w)) with w. rewrite Hwd.
  unfold place.
  split.
  - intros H1%truthy_true H2%truthy_true. rewrite H1, H2. cbn.
    repeat split; auto.
  - intros Hempty. subst placed. cbv beta.
    destruct (decide (player1 N = "")) as [E1|E1].
    + pose proof (proj2 (truthy_false _) E1) as T1. rewrite T1. cbn [negb].
      cbn [player1 player2 set_player1].
      split.
      * intros [Hw1%truthy_true Hp2%truthy_true]. rewrite Hw1, Hp2. cbn.
        f_equal.
        destruct (Z.ltb_spec (currentRound st) (round M + 1)); lia.
      * intros [Hw1%truthy_false|Hp2%truthy_false].
        -- rewrite Hw1. cbn. unfold set_matches. now rewrite Hfr.
        -- rewrite Hp2, andb_false_r. cbn. unfold set_matches. now rewrite Hfr.
    + pose proof (proj2 (truthy_true _) E1) as T1. rewrite T1. cbn [negb].
      assert (E2 : player2 N = "") by tauto.
      pose proof (proj2 (truthy_false _) E2) as T2. rewrite T2. cbn [negb].
      cbn [player1 player2 set_player2]. rewrite T1.
      split.
      * intros [_ Hw2%truthy_true]. rewrite Hw2. cbn.
        f_equal.
        destruct (Z.ltb_spec (currentRound st) (round M + 1)); lia.
      * intros [?|Hw2%truthy_false]; [congruence|].
        rewrite Hw2. cbn. unfold set_matches. now rewrite Hfr.
Qed.

Lemma advanceWinner_placement_witness :
  fst (advanceWinner alice_blocked 0)
  = mkState "gen1ou" 4 1 1
      (<[2%nat := mkMatch 2 3 "alice" "" "Alice" "" 0 0 waiting None None]>
         (matches alice_blocked))
      (playerMatches alice_blocked) (displayNames alice_blocked) true false.
Proof.
  pose proof (advanceWinner_placement alice_blocked 0 2
                (mkMatch 1 1 "alice" "dave" "Alice" "Dave" 1 0 complete
                   (Some "alice") (Some "Alice"))
                (placeholder 2 3) "alice" 1
                eq_refl eq_refl eq_refl eq_refl eq_refl eq_refl)
    as (_ & _ & _ & _ & Hplace).
  destruct (Hplace (or_introl eq_refl)) as [_ Hwait].
  apply Hwait. right. reflexivity.
Defined.

(** ** [isPowerOfTwo] *)

Lemma land_pred_pow2 (k : Z) : 0 <= k -> Z.land (2 ^ k) (2 ^ k - 1) = 0.
Proof.
  intros Hk.
  replace (2 ^ k - 1) with (Z.ones k) by (rewrite Z.ones_equiv; lia).
  rewrite Z.land_ones by exact Hk.
  apply Z.mod_same. pose proof (Z.pow_pos_nonneg 2 k). lia.
Qed.

Lemma land_pred_zero (n : Z) :
  0 < n -> Z.land n (n - 1) = 0 -> n = 2 ^ Z.log2 n.
Proof.
  intros Hn Hland.
  destruct (Z.log2_spec n Hn) as [Hlo Hhi].
  destruct (Z.eq_dec n (2 ^ Z.log2 n)) as [E|Hne]; [exact E|exfalso].
  assert (Hk : 0 <= Z.log2 n) by apply Z.log2_nonneg.
  assert (Hpred : Z.log2 (n - 1) = Z.log2 n).
  { apply Z.log2_unique; [exact Hk|]. lia. }
  assert (Hbit : Z.testbit (Z.land n (n - 1)) (Z.log2 n) = true).
  { rewrite Z.land_spec, (Z.bit_log2 n Hn).
    rewrite <- Hpred. rewrite Z.bit_log2; [reflexivity|].
    pose proof (Z.pow_pos_nonneg 2 (Z.log2 n)). lia. }
  rewrite Hland, Z.bits_0 in Hbit. discriminate.
Qed.

Lemma toInt32_small (z : Z) : - 2 ^ 31 <= z < 2 ^ 31 -> toInt32 z = z.
Proof.
  intros H. unfold toInt32. rewrite Z.mod_small; lia.
Qed.

Lemma toInt32_large (z : Z) : 2 ^ 31 <= z < 2 ^ 32 -> toInt32 z = z - 2 ^ 32.
Proof.
  intros H. unfold toInt32.
  replace (z + 2 ^ 31) with (z - 2 ^ 31 + 1 * 2 ^ 32) by lia.
  rewrite Z.mod_add by lia. rewrite Z.mod_small; lia.
Qed.

(** Below [2 ^ 32], the bound on the length of an array, the test accepts
    exactly the powers of two. *)
Lemma isPowerOfTwo_spec (n : Z) :
  n < 2 ^ 32 ->
  (isPowerOfTwo n = true <-> exists k : nat, n = 2 ^ Z.of_nat k).
Proof.
  intros Hbound. unfold isPowerOfTwo.
  rewrite andb_true_iff, Z.ltb_lt, Z.eqb_eq. split.
  - intros [Hpos Hland].
    destruct (Z_lt_le_dec n (2 ^ 31)) as [Hs|Hl].
    + rewrite !toInt32_small in Hland by lia.
      exists (Z.to_nat (Z.log2 n)). rewrite Z2Nat.id by apply Z.log2_nonneg.
      now apply land_pred_zero.
    + destruct (Z.eq_dec n (2 ^ 31)) as [->|Hne]; [now exists 31%nat|].
      exfalso. rewrite !toInt32_large in Hland by lia.
      assert (Hneg : Z.land (n - 2 ^ 32) (n - 1 - 2 ^ 32) < 0)
        by (apply Z.land_neg; lia).
      lia.
  - intros [k ->].
    assert (Hpos : 0 < 2 ^ Z.of_nat k) by (apply Z.pow_pos_nonneg; lia).
    split; [exact Hpos|].
    assert (Hk : (k < 32)%nat).
    { apply Nat2Z.inj_lt. apply (Z.pow_lt_mono_r_iff 2); lia. }
    destruct (decide (k = 31%nat)) as [->|Hk31]; [reflexivity|].
    assert (2 ^ Z.of_nat k < 2 ^ 31) by (apply Z.pow_lt_mono_r; lia).
    rewrite !toInt32_small by lia. apply land_pred_pow2. lia.
Qed.

Lemma generateStandardPairings_defined (n : Z) :
  2 <= n -> n < 2 ^ 32 -> isPowerOfTwo n = true ->
  exists pairs, generateStandardPairings n = Some pairs.
Proof.
  intros Hn Hb [k ->]%isPowerOfTwo_spec; [|exact Hb].
  destruct k as [|k]; [cbn in Hn; lia|].
  eexists. apply generateStandardPairings_pow.
Qed.

Lemma initialize_throws (fmt : string) (players : list string) (bo : Z)
    (randomize : bool) (rnd : nat -> nat) (st : BracketState) :
  Z.of_nat (length players) < 2 ^ 32 ->
  ((exists msg, initialize fmt players bo randomize rnd st = Throw msg) <->
   (initialized st = true \/ (length players < 2)%nat \/
    ~ exists k : nat, Z.of_nat (length players) = 2 ^ Z.of_nat k)).
Proof.
  intros Hb.
  pose proof (isPowerOfTwo_spec _ Hb) as Hpow.
  unfold initialize. destruct (initialized st).
  { split; [auto|]. intros _. eauto. }
  destruct (Z.ltb_spec (Z.of_nat (length players)) 2) as [Hlt|Hge]; cbn [orb].
  { split; [intros _; right; left; lia|]. intros _. eauto. }
  destruct (isPowerOfTwo (Z.of_nat (length players))) eqn:Hp; cbn [negb].
  - destruct (generateStandardPairings_defined _ Hge Hb Hp) as [pairs ->].
    destruct (fold_left _ pairs _) as [first pm]. split.
    + intros [msg Hmsg]. discriminate.
    + intros [?|[?|Hno]]; [discriminate|lia|].
      exfalso. apply Hno, Hpow. reflexivity.
  - split; [|intros _; eauto].
    intros _. right. right. intros Hk%Hpow. discriminate.
Qed.

(** C5 (as amended).  A call of [initialize] throws with the state left as
    it was exactly when the tournament is already initialized or the number
    of players is below 2 or not a power of two.  In every other case it
    builds an initialized state that carries the given format, series length
    and number of participants, and then writes the file: the call succeeds
    if the write does, and if the write fails the call throws the error of
    the write, from the initialized state.  The lists are those of the host
    language, of fewer than [2 ^ 32] entries. *)
Theorem initialize_outcome (save : FileStore) (fmt : string)
    (players : list string) (bo : Z) (randomize : bool) (rnd : nat -> nat)
    (st : BracketState) :
  Z.of_nat (length players) < 2 ^ 32 ->
  let refused :=
    initialized st = true \/ (length players < 2)%nat \/
    ~ exists k : nat, Z.of_nat (length players) = 2 ^ Z.of_nat k in
  let st' := fst (initialize_call save fmt players bo randomize rnd st) in
  let outcome := snd (initialize_call save fmt players bo randomize rnd st) in
  (refused -> st' = st /\ exists msg, outcome = Throw msg) /\
  (~ refused ->
   initialize fmt players bo randomize rnd st = Ok st' /\
   initialized st' = true /\ format st' = fmt /\ bestOf st' = bo /\
   participants st' = Z.of_nat (length players) /\
   (save (saveToCSV st') = None -> outcome = Ok tt) /\
   (forall e, save (saveToCSV st') = Some e -> outcome = Throw e)) /\
  ((exists msg, outcome = Throw msg) <->
   refused \/ exists e, save (saveToCSV st') = Some e).
Proof.
  intros Hb refused st' outcome.
  pose proof (initialize_throws fmt players bo randomize rnd st Hb) as Hthrow.
  fold refused in Hthrow. subst st' outcome. unfold initialize_call.
  destruct (initialize fmt players bo randomize rnd st) as [s|msg] eqn:E.
  - assert (Hgood : ~ refused).
    { intros [m Hm]%Hthrow. discriminate. }
    apply initialize_inv in E as HE.
    destruct HE as (_ & _ & _ & pairs & first & pm & _ & _ & Hs).
    assert (Hfields : initialized s = true /\ format s = fmt /\ bestOf s = bo /\
                      participants s = Z.of_nat (length players))
      by (rewrite Hs; cbn; auto).
    destruct (save (saveToCSV s)) as [e|] eqn:Hsave; cbn [fst snd].
    + split; [tauto|]. split.
      * intros _. rewrite Hsave. repeat split; try tauto; try discriminate.
        intros e' [= <-]. reflexivity.
      * rewrite Hsave. split; eauto.
    + split; [tauto|]. split.
      * intros _. rewrite Hsave. repeat split; try tauto; discriminate.
      * rewrite Hsave. split.
        -- intros [m Hm]. discriminate.
        -- intros [Hbad|[e He]]; [tauto|discriminate].
  - assert (Hbad : refused) by (apply Hthrow; eauto).
    cbn [fst snd]. split; [eauto|]. split; [tauto|].
    split; eauto.
Qed.

Lemma initialize_outcome_witness :
  snd (initialize_call (fun _ => None) "gen1ou" four_players 20 false
         no_shuffle empty_state)
  = Ok tt.
Proof.
  destruct (initialize_outcome (fun _ => None) "gen1ou" four_players 20 false
              no_shuffle empty_state) as (_ & Hbuilt & _).
  - reflexivity.
  - destruct Hbuilt as (_ & _ & _ & _ & _ & Hok & _).
    + intros [Hi|[Hl|Hk]].
      * discriminate.
      * cbn in Hl. lia.
      * apply Hk. exists 2%nat. reflexivity.
    + apply Hok. reflexivity.
Defined.

(** C5 (as stated) fails: two names of one identity and a series length of
    1000 are accepted, and so is a series length of 0; and when the write
    of the file fails, the call fails although none of the listed cases
    holds, and leaves the tournament initialized. *)
Lemma initialize_accepts_duplicates :
  toID "Alice" = toID "alice" /\
  (exists st',
     initialize_call (fun _ => None) "gen1ou" ["Alice"; "alice"] 1000 false
       no_shuffle empty_state
     = (st', Ok tt) /\ initialized st' = true) /\
  (exists st',
     initialize_call (fun _ => None) "gen1ou" ["Alice"; "Bob"] 0 false
       no_shuffle empty_state
     = (st', Ok tt) /\ initialized st' = true) /\
  (exists st',
     initialize_call (fun _ => Some "EROFS") "gen1ou" ["Alice"; "Bob"] 1 false
       no_shuffle empty_state
     = (st', Throw "EROFS") /\ initialized st' = true).
Proof.
  split; [reflexivity|]. repeat split; eexists; split; reflexivity.
Qed.

(** ** Persistence *)

(** Right after [initialize] the file reads back as the state itself. *)
Lemma roundtrip_after_initialize :
  loadFromCSV sample_config (Some (saveToCSV (started four_players 20)))
    empty_state
  = Loaded (started four_players 20).
Proof.
  vm_compute. f_equal.
Qed.

(** C7.  After Alice has won her series while Bob and Carol still play, the
    state is reachable, the winner waits in match 3, she is not in
    [playerMatches] and [currentRound] is 1.  The state read back from the
    file written for it has the same matches, but maps her to match 3 and has
    [currentRound] 2; [canSearch] answers differently before and after.  The
    same happens with the legacy layout, whatever state the controller was in
    before loading. *)
Theorem roundtrip_waiting_diverges (cfg : brackettournament)
    (before : BracketState) :
  reachable alice_through /\
  (exists st',
     loadFromCSV cfg (Some (saveToCSV alice_through)) before = Loaded st' /\
     matches st' = matches alice_through /\
     format st' = format alice_through /\
     bestOf st' = bestOf alice_through /\
     frozen st' = frozen alice_through /\
     currentRound alice_through = 1 /\ currentRound st' = 2 /\
     playerMatches alice_through !! "alice" = None /\
     playerMatches st' !! "alice" = Some 2%nat /\
     canSearch alice_through "alice" = false /\
     canSearch st' "alice" = true /\
     st' <> alice_through) /\
  (exists st',
     loadFromCSV cfg (Some (legacy_text alice_through)) empty_state
     = Loaded st' /\
     matches st' = matches alice_through /\
     format st' = cfg_format cfg /\ bestOf st' = cfg_bestOf cfg /\
     frozen st' = false /\
     currentRound st' = 2 /\
     playerMatches st' !! "alice" = Some 2%nat).
Proof.
  split; [|split].
  - exists four_players. eapply reach_step.
    + apply (reach_init four_players "gen1ou" 1 false no_shuffle). reflexivity.
    + apply (step_recordWin _ "alice" "dave").
  - eexists. split; [vm_compute; reflexivity|].
    repeat split; try (vm_compute; reflexivity).
    intros E. apply (f_equal currentRound) in E. vm_compute in E. discriminate.
  - eexists. split; [vm_compute; reflexivity|].
    repeat split; vm_compute; reflexivity.
Qed.

Lemma refs_from_insert (P : BracketMatch -> bool) (ms : list BracketMatch)
    (k n : nat) (m m' : BracketMatch) :
  ms !! n = Some m -> P m' = P m ->
  refs_from P k (<[n := m']> ms) = map (retarget (k + n) m') (refs_from P k ms).
Proof.
  revert k n. induction ms as [|a ms IH]; intros k n Hn HP; [discriminate|].
  assert (Hother : forall j, (k < j)%nat ->
            map (retarget k m') (refs_from P j ms) = refs_from P j ms).
  { intros j Hj. rewrite <- (map_id (refs_from P j ms)) at 2.
    apply map_ext_in. intros [x y] Hin%refs_from_spec. unfold retarget. cbn.
    destruct (Nat.eqb_spec x k); [lia|reflexivity]. }
  destruct n as [|n]; cbn in Hn.
  - injection Hn as ->. change (<[0%nat := m']> (m :: ms)) with (m' :: ms).
    cbn [refs_from]. rewrite HP, Nat.add_0_r.
    destruct (P m); cbn [map]; rewrite Hother by lia; [|reflexivity].
    unfold retarget. cbn [fst]. now rewrite Nat.eqb_refl.
  - change (<[S n := m']> (a :: ms)) with (a :: <[n := m']> ms).
    cbn [refs_from]. rewrite (IH (S k) n Hn HP).
    replace (S k + n)%nat with (k + S n)%nat by lia.
    destruct (P a); cbn [map]; [|reflexivity].
    unfold retarget. cbn [fst].
    destruct (Nat.eqb_spec k (k + S n)); [lia|]. reflexivity.
Qed.

Lemma round_matches_insert (ms : list BracketMatch) (n : nat)
    (m m' : BracketMatch) (r : Z) :
  ms !! n = Some m -> round m' = round m ->
  round_matches (<[n := m']> ms) r = map (retarget n m') (round_matches ms r).
Proof.
  intros Hn Hr. unfold round_matches.
  rewrite (refs_from_insert _ ms 0 n m m' Hn); [reflexivity|].
  unfold in_round. now rewrite Hr.
Qed.

Lemma retarget_matchId (ms : list BracketMatch) (n : nat) (m m' : BracketMatch)
    (r : Z) :
  ms !! n = Some m -> matchId m' = matchId m ->
  map (fun p => matchId (snd p)) (map (retarget n m') (round_matches ms r))
  = map (fun p => matchId (snd p)) (round_matches ms r).
Proof.
  intros Hn Hid. rewrite map_map. apply map_ext_in.
  intros [x y] [Hx _]%round_matches_spec. unfold retarget. cbn.
  destruct (Nat.eqb_spec x n) as [->|]; [|reflexivity].
  cbn. congruence.
Qed.

Lemma at_index_map {A B} (f : A -> B) (xs : list A) (k : Z) :
  at_index (map f xs) k = f <$> at_index xs k.
Proof.
  unfold at_index. destruct (k <? 0); [reflexivity|].
  change (map f xs) with (f <$> xs). apply list_lookup_fmap.
Qed.

(** Writing back a match with the same round and id moves no edge of the
    tree: every match keeps its next match, seen through the update. *)
Lemma nextMatch_of_insert (ms : list BracketMatch) (n : nat)
    (m m' M : BracketMatch) :
  ms !! n = Some m -> round m' = round m -> matchId m' = matchId m ->
  nextMatch_of (<[n := m']> ms) M = retarget n m' <$> nextMatch_of ms M.
Proof.
  intros Hn Hr Hid. unfold nextMatch_of, firstMatchOfRound.
  rewrite !(round_matches_insert ms n m m') by assumption.
  rewrite (retarget_matchId ms n m m') by assumption.
  destruct (min_list _); [|reflexivity].
  apply at_index_map.
Qed.

Lemma nextMatch_of_node (ms : list BracketMatch) (M M' : BracketMatch) :
  round M' = round M -> matchId M' = matchId M ->
  nextMatch_of ms M' = nextMatch_of ms M.
Proof. intros Hr Hid. unfold nextMatch_of. now rewrite Hr, Hid. Qed.

Lemma nextMatch_of_insert_inv (ms : list BracketMatch) (n x : nat)
    (m m' M X : BracketMatch) :
  ms !! n = Some m -> round m' = round m -> matchId m' = matchId m ->
  nextMatch_of (<[n := m']> ms) M = Some (x, X) ->
  exists X0, nextMatch_of ms M = Some (x, X0) /\
             X = if decide (x = n) then m' else X0.
Proof.
  intros Hn Hr Hid. rewrite (nextMatch_of_insert ms n m m') by assumption.
  destruct (nextMatch_of ms M) as [[y Y]|]; [|discriminate].
  unfold retarget. cbn. destruct (Nat.eqb_spec y n) as [->|Hne].
  - intros [= <- <-]. exists Y. split; [reflexivity|]. now rewrite decide_True.
  - intros [= <- <-]. exists Y. split; [reflexivity|]. now rewrite decide_False.
Qed.

Lemma nextMatch_of_insert_fwd (ms : list BracketMatch) (n x : nat)
    (m m' M X0 : BracketMatch) :
  ms !! n = Some m -> round m' = round m -> matchId m' = matchId m ->
  nextMatch_of ms M = Some (x, X0) ->
  nextMatch_of (<[n := m']> ms) M
  = Some (x, if decide (x = n) then m' else X0).
Proof.
  intros Hn Hr Hid HM. rewrite (nextMatch_of_insert ms n m m') by assumption.
  rewrite HM. unfold retarget. cbn. destruct (Nat.eqb_spec x n) as [->|Hne].
  - now rewrite decide_True.
  - now rewrite decide_False.
Qed.

(** ** Occurrences under an update of one match *)

Lemma occ_P1_insert ms n m m' id j :
  ms !! n = Some m ->
  occ (<[n := m']> ms) id (j, SlotP1) <->
  (j = n /\ status m' <> complete /\ player1 m' = id /\ id <> "") \/
  (j <> n /\ occ ms id (j, SlotP1)).
Proof.
  intros Hn. apply lookup_lt_Some in Hn as Hlt. unfold occ. cbn. split.
  - intros (x & Hx & H). apply list_lookup_insert_Some in Hx
      as [(-> & <- & _)|[Hne Hx]]; [left; auto|right; split; eauto].
  - intros [(-> & H)|(Hne & x & Hx & H)].
    + exists m'. rewrite list_lookup_insert_eq by exact Hlt. auto.
    + exists x. rewrite list_lookup_insert_ne by congruence. auto.
Qed.

Lemma occ_P2_insert ms n m m' id j :
  ms !! n = Some m ->
  occ (<[n := m']> ms) id (j, SlotP2) <->
  (j = n /\ status m' <> complete /\ player2 m' = id /\ id <> "") \/
  (j <> n /\ occ ms id (j, SlotP2)).
Proof.
  intros Hn. apply lookup_lt_Some in Hn as Hlt. unfold occ. cbn. split.
  - intros (x & Hx & H). apply list_lookup_insert_Some in Hx
      as [(-> & <- & _)|[Hne Hx]]; [left; auto|right; split; eauto].
  - intros [(-> & H)|(Hne & x & Hx & H)].
    + exists m'. rewrite list_lookup_insert_eq by exact Hlt. auto.
    + exists x. rewrite list_lookup_insert_ne by congruence. auto.
Qed.

Lemma occ_W_insert ms n m m' id j :
  ms !! n = Some m -> round m' = round m -> matchId m' = matchId m ->
  occ (<[n := m']> ms) id (j, SlotW) <->
  exists M, <[n := m']> ms !! j = Some M /\
    status M = complete /\ winner M = Some id /\
    exists x X0, nextMatch_of ms M = Some (x, X0) /\
      player1 (if decide (x = n) then m' else X0) <> id /\
      player2 (if decide (x = n) then m' else X0) <> id.
Proof.
  intros Hn Hr Hid. unfold occ. cbn. split.
  - intros (M & HM & Hc & Hw & x & X & Hnext & Habs).
    exists M. repeat split; try assumption.
    destruct (nextMatch_of_insert_inv ms n x m m' M X Hn Hr Hid Hnext)
      as (X0 & HX0 & ->). eauto.
  - intros (M & HM & Hc & Hw & x & X0 & Hnext & Habs).
    exists M. repeat split; try assumption.
    exists x, (if decide (x = n) then m' else X0). split; [|exact Habs].
    now apply (nextMatch_of_insert_fwd ms n x m m').
Qed.

(** An update that keeps the seats keeps the occurrences. *)
Lemma occ_same_seats ms n m m' id s :
  ms !! n = Some m -> same_seats m m' ->
  occ (<[n := m']> ms) id s <-> occ ms id s.
Proof.
  intros Hn (Hr & Hid & Hp1 & Hp2 & Hs & Hw). destruct s as [j [| |]].
  - rewrite (occ_P1_insert ms n m m') by exact Hn. rewrite Hs, Hp1.
    unfold occ. cbn. split.
    + intros [(-> & H)|[_ H]]; [eauto|exact H].
    + intros (x & Hx & H). destruct (decide (j = n)) as [->|Hne].
      * left. assert (x = m) as -> by congruence. auto.
      * right. eauto.
  - rewrite (occ_P2_insert ms n m m') by exact Hn. rewrite Hs, Hp2.
    unfold occ. cbn. split.
    + intros [(-> & H)|[_ H]]; [eauto|exact H].
    + intros (x & Hx & H). destruct (decide (j = n)) as [->|Hne].
      * left. assert (x = m) as -> by congruence. auto.
      * right. eauto.
  - rewrite (occ_W_insert ms n m m') by assumption.
    apply lookup_lt_Some in Hn as Hlt. unfold occ. cbn. split.
    + intros (M & HM & Hc & Hwin & x & X0 & Hnext & Habs).
      apply list_lookup_insert_Some in HM as [(-> & <- & _)|[Hne HM]].
      * exists m. rewrite <- Hs, <- Hw. repeat split; try assumption.
        rewrite (nextMatch_of_node ms m m') in Hnext by assumption.
        exists x, X0. split; [exact Hnext|].
        destruct (decide (x = j)) as [->|]; [|exact Habs].
        apply nextMatch_of_spec in Hnext as [Hx _].
        assert (X0 = m) as -> by congruence. now rewrite <- Hp1, <- Hp2.
      * exists M. repeat split; try assumption. exists x, X0.
        split; [exact Hnext|].
        destruct (decide (x = n)) as [->|]; [|exact Habs].
        apply nextMatch_of_spec in Hnext as [Hx _].
        assert (X0 = m) as -> by congruence. now rewrite <- Hp1, <- Hp2.
    + intros (M & HM & Hc & Hwin & x & X0 & Hnext & Habs).
      destruct (decide (j = n)) as [->|Hne].
      * assert (M = m) as -> by congruence.
        exists m'. rewrite list_lookup_insert_eq by exact Hlt.
        rewrite Hs, Hw. repeat split; try assumption.
        rewrite (nextMatch_of_node ms m m') by assumption.
        exists x, X0. split; [exact Hnext|].
        destruct (decide (x = n)) as [->|]; [|exact Habs].
        apply nextMatch_of_spec in Hnext as [Hx _].
        assert (X0 = m) as -> by congruence. now rewrite Hp1, Hp2.
      * exists M. rewrite list_lookup_insert_ne by congruence.
        repeat split; try assumption. exists x, X0. split; [exact Hnext|].
        destruct (decide (x = n)) as [->|]; [|exact Habs].
        apply nextMatch_of_spec in Hnext as [Hx _].
        assert (X0 = m) as -> by congruence. now rewrite Hp1, Hp2.
Qed.

(** ** Steps that keep the invariant *)

Lemma lookup_insert_cases {A} (xs : list A) (n j : nat) (x y : A) :
  <[n := x]> xs !! j = Some y ->
  (j = n /\ y = x) \/ (j <> n /\ xs !! j = Some y).
Proof.
  intros H. apply list_lookup_insert_Some in H as [(-> & <- & _)|[Hne H]];
    [left|right]; auto.
Qed.

Lemma wf_same_seats (st : BracketState) (i : nat) (m m' : BracketMatch) :
  wf st -> matches st !! i = Some m -> same_seats m m' ->
  wf (set_matches st (<[i := m']> (matches st))).
Proof.
  intros Hwf Hi Hsame. pose proof Hsame as (Hr & Hid & Hp1 & Hp2 & Hs & Hw).
  apply lookup_lt_Some in Hi as Hlt.
  destruct Hwf as [Hinit Hids Hrounds Hfull Hwin Hdis Hsound Hmapped Huniq Htrack].
  split; cbn [matches playerMatches initialized set_matches].
  - exact Hinit.
  - intros j x [[-> ->]|[_ Hx]]%lookup_insert_cases; [rewrite Hid|]; eauto.
  - intros j x [[-> ->]|[_ Hx]]%lookup_insert_cases; [rewrite Hr|]; eauto.
  - intros j x [[-> ->]|[_ Hx]]%lookup_insert_cases; [rewrite Hs, Hp1, Hp2|];
      eauto.
  - intros j x [[-> ->]|[_ Hx]]%lookup_insert_cases;
      [rewrite Hs, Hw, Hp1, Hp2|]; eauto.
  - intros j x [[-> ->]|[_ Hx]]%lookup_insert_cases; [rewrite Hp1, Hp2|]; eauto.
  - intros id j Hj. destruct (Hsound id j Hj) as (x & Hx & Hact & Hpl).
    destruct (decide (j = i)) as [->|Hne].
    + assert (x = m) as -> by congruence. exists m'.
      rewrite list_lookup_insert_eq by exact Hlt.
      rewrite Hs, Hp1, Hp2. auto.
    + exists x. rewrite list_lookup_insert_ne by congruence. auto.
  - intros j x [[-> ->]|[_ Hx]]%lookup_insert_cases.
    + rewrite Hs, Hp1, Hp2. eauto.
    + eauto.
  - intros id s1 s2 H1 H2.
    rewrite (occ_same_seats _ i m m') in H1, H2 by assumption. eauto.
  - intros n N x HN Hr2 Hx Hpl.
    assert (HN0 : exists N0, matches st !! n = Some N0 /\ round N0 = round N /\
                             player1 N0 = player1 N /\ player2 N0 = player2 N).
    { apply lookup_insert_cases in HN as [[-> ->]|[_ HN]]; eauto. }
    destruct HN0 as (N0 & HN0 & Er & E1 & E2).
    destruct (Htrack n N0 x HN0) as (f & M & Hf & Hc & Hwx & X & Hnext);
      [lia|assumption|congruence|].
    destruct (decide (f = i)) as [->|Hne].
    + assert (M = m) as -> by congruence. exists i, m'.
      rewrite list_lookup_insert_eq by exact Hlt. rewrite Hs, Hw.
      repeat split; try assumption.
      rewrite (nextMatch_of_node _ m m') by assumption.
      eexists. apply (nextMatch_of_insert_fwd _ i n m m' m X Hi Hr Hid Hnext).
    + exists f, M. rewrite list_lookup_insert_ne by congruence.
      repeat split; try assumption.
      eexists. apply (nextMatch_of_insert_fwd _ i n m m' M X Hi Hr Hid Hnext).
Qed.

(** Closing an active series: the match behind [i] becomes [m2], complete,
    with one of its two players as winner. *)
Lemma occ_finished ms i m m2 x id s :
  ms !! i = Some m ->
  round m2 = round m -> matchId m2 = matchId m ->
  player1 m2 = player1 m -> player2 m2 = player2 m ->
  status m2 = complete -> winner m2 = Some x ->
  occ (<[i := m2]> ms) id s ->
  (s = (i, SlotW) /\ id = x) \/ (fst s <> i /\ occ ms id s).
Proof.
  intros Hi Hr Hid Hp1 Hp2 Hs Hw Hocc. destruct s as [j [| |]].
  - apply (occ_P1_insert ms i m m2) in Hocc as [(_ & Hn & _)|[Hne H]];
      [congruence|auto|exact Hi].
  - apply (occ_P2_insert ms i m m2) in Hocc as [(_ & Hn & _)|[Hne H]];
      [congruence|auto|exact Hi].
  - apply (occ_W_insert ms i m m2) in Hocc; try assumption.
    destruct Hocc as (M & HM & Hc & Hwin & y & Y0 & Hnext & Habs).
    apply lookup_insert_cases in HM as [[-> ->]|[Hne HM]].
    + left. split; [reflexivity|congruence].
    + right. split; [exact Hne|]. exists M. cbn. repeat split; try assumption.
      exists y, Y0. split; [exact Hnext|].
      destruct (decide (y = i)) as [->|]; [|exact Habs].
      apply nextMatch_of_spec in Hnext as [Hy _].
      assert (Y0 = m) as -> by congruence. now rewrite <- Hp1, <- Hp2.
Qed.

Lemma wf_finished (st : BracketState) (i : nat) (m m2 : BracketMatch)
    (x : string) :
  wf st -> matches st !! i = Some m -> status m = active ->
  round m2 = round m -> matchId m2 = matchId m ->
  player1 m2 = player1 m -> player2 m2 = player2 m ->
  status m2 = complete -> winner m2 = Some x ->
  x = player1 m \/ x = player2 m ->
  wf (finished st i m2).
Proof.
  intros Hwf Hi Hact Hr Hid Hp1 Hp2 Hs Hw Hx.
  apply lookup_lt_Some in Hi as Hlt.
  destruct Hwf as [Hinit Hids Hrounds Hfull Hwin Hdis Hsound Hmapped Huniq Htrack].
  destruct (Hfull i m Hi (or_introl Hact)) as [Hne1 Hne2].
  destruct (Hmapped i m Hi Hact) as [Hm1 Hm2].
  unfold finished.
  split; cbn [matches playerMatches initialized set_matches set_playerMatches].
  - exact Hinit.
  - intros j y [[-> ->]|[_ Hy]]%lookup_insert_cases; [rewrite Hid|]; eauto.
  - intros j y [[-> ->]|[_ Hy]]%lookup_insert_cases; [rewrite Hr|]; eauto.
  - intros j y [[-> ->]|[_ Hy]]%lookup_insert_cases; [rewrite Hp1, Hp2|]; eauto.
  - intros j y [[-> ->]|[_ Hy]]%lookup_insert_cases; [|eauto].
    intros _. exists x. rewrite Hp1, Hp2. auto.
  - intros j y [[-> ->]|[_ Hy]]%lookup_insert_cases; [rewrite Hp1, Hp2|]; eauto.
  - intros id j Hj. rewrite Hp1, Hp2 in Hj.
    apply lookup_delete_Some in Hj as [Hn2 Hj].
    apply lookup_delete_Some in Hj as [Hn1 Hj].
    destruct (Hsound id j Hj) as (y & Hy & Hya & Hpl).
    assert (j <> i).
    { intros ->. assert (y = m) as -> by congruence. destruct Hpl; congruence. }
    exists y. rewrite list_lookup_insert_ne by congruence. auto.
  - intros j y [[-> ->]|[Hne Hy]]%lookup_insert_cases; [congruence|].
    intros Hya. destruct (Hmapped j y Hy Hya) as [Hy1 Hy2].
    rewrite Hp1, Hp2.
    rewrite !lookup_delete_ne by (intros E; rewrite <- E in *; congruence).
    auto.
  - intros id s1 s2 H1 H2.
    assert (Hlive : exists k, occ (matches st) x (i, k) /\ k <> SlotW).
    { destruct Hx as [->| ->].
      - exists SlotP1. split; [|discriminate]. exists m. cbn.
        repeat split; auto; congruence.
      - exists SlotP2. split; [|discriminate]. exists m. cbn.
        repeat split; auto; congruence. }
    destruct Hlive as (k & Hk & HkW).
    apply (occ_finished _ i m m2 x) in H1, H2; try assumption.
    destruct H1 as [[-> ->]|[Hn1 H1]], H2 as [[-> E2]|[Hn2 H2]];
      try reflexivity.
    + exfalso. pose proof (Huniq _ _ _ H2 Hk) as ->. now apply Hn2.
    + exfalso. subst id. pose proof (Huniq _ _ _ H1 Hk) as ->. now apply Hn1.
    + eauto.
  - intros n N y HN Hr2 Hy Hpl.
    assert (HN0 : exists N0, matches st !! n = Some N0 /\ round N0 = round N /\
                             player1 N0 = player1 N /\ player2 N0 = player2 N).
    { apply lookup_insert_cases in HN as [[-> ->]|[_ HN]]; eauto. }
    destruct HN0 as (N0 & HN0 & Er & E1 & E2).
    destruct (Htrack n N0 y HN0) as (f & M & Hf & Hc & Hwy & X & Hnext);
      [lia|assumption|congruence|].
    assert (f <> i) by (intros ->; congruence).
    exists f, M. rewrite list_lookup_insert_ne by congruence.
    repeat split; try assumption.
    eexists. apply (nextMatch_of_insert_fwd _ i n m m2 M X Hi Hr Hid Hnext).
Qed.

Lemma occ_seated ms i n M N nm' w id s :
  seating ms i n M N nm' w ->
  (forall j m, ms !! j = Some m -> status m = complete ->
     forall x, winner m = Some x -> x <> "") ->
  occ (<[n := nm']> ms) id s ->
  (id = w /\ (s = (n, SlotP1) \/ s = (n, SlotP2))) \/
  (occ ms id s /\ (id = w -> s <> (i, SlotW))).
Proof.
  intros [HM Hc Hw Hwn Hnext [Hnc Hna] [Ha1 Ha2] [Hr Hid] Hslots Hst] Hnamed Hocc.
  destruct (nextMatch_of_spec _ _ _ _ Hnext) as [HN HrN].
  assert (Hnm'c : status nm' <> complete) by (destruct Hst as [[-> _]| ->]; discriminate).
  destruct s as [j [| |]].
  - apply (proj1 (occ_P1_insert ms n N nm' id j HN)) in Hocc.
    destruct Hocc as [(-> & _ & Hp & Hne)|[Hne H]].
    + destruct Hslots as [(_ & E1 & _)|(Hn1 & _ & E1 & _)].
      * left. split; [congruence|auto].
      * right. split; [|discriminate]. exists N. cbn.
        repeat split; try assumption. congruence.
    + right. split; [exact H|discriminate].
  - apply (proj1 (occ_P2_insert ms n N nm' id j HN)) in Hocc.
    destruct Hocc as [(-> & _ & Hp & Hne)|[Hne H]].
    + destruct Hslots as [(_ & _ & E2)|(_ & _ & _ & E2)].
      * right. split; [|discriminate]. exists N. cbn.
        repeat split; try assumption. congruence.
      * left. split; [congruence|auto].
    + right. split; [exact H|discriminate].
  - apply (proj1 (occ_W_insert ms n N nm' id j HN Hr Hid)) in Hocc.
    destruct Hocc as (X & HX & HXc & HXw & y & Y0 & HXnext & Habs1 & Habs2).
    apply lookup_insert_cases in HX as [[-> ->]|[Hne HX]]; [congruence|].
    assert (Hidn : id <> "") by exact (Hnamed j X HX HXc id HXw).
    right. destruct (decide (y = n)) as [->|Hyn].
    + destruct (nextMatch_of_spec _ _ _ _ HXnext) as [HY0 _].
      assert (Y0 = N) as -> by congruence.
      assert (Hidw : id <> w).
      { intros ->. destruct Hslots as [(_ & E1 & _)|(_ & _ & _ & E2)]; congruence. }
      split; [|intros; congruence].
      exists X. cbn. repeat split; try assumption. exists n, N.
      split; [exact HXnext|].
      destruct Hslots as [(E0 & E1 & E2)|(_ & E0 & E1 & E2)]; split; congruence.
    + split.
      * exists X. cbn. repeat split; try assumption. eauto.
      * intros -> [= ->]. assert (X = M) as -> by congruence.
        rewrite Hnext in HXnext. congruence.
Qed.

Lemma wf_named (st : BracketState) :
  wf st ->
  forall j m, matches st !! j = Some m -> status m = complete ->
    forall x, winner m = Some x -> x <> "".
Proof.
  intros Hwf j m Hm Hc x Hx.
  destruct (wf_winner st Hwf j m Hm Hc) as (y & Hy & Hpl).
  destruct (wf_full st Hwf j m Hm (or_intror Hc)) as [H1 H2].
  assert (y = x) as -> by congruence. destruct Hpl; congruence.
Qed.

Lemma wf_seated (st st' : BracketState) (i n : nat) (M N nm' : BracketMatch)
    (w : string) :
  wf st -> seating (matches st) i n M N nm' w ->
  initialized st' = initialized st ->
  matches st' = <[n := nm']> (matches st) ->
  playerMatches st'
  = (if decide (status nm' = active)
     then <[player2 nm' := n]> (<[player1 nm' := n]> (playerMatches st))
     else playerMatches st) ->
  wf st'.
Proof.
  intros Hwf Hseat Hinit' Hms' Hpm'.
  pose proof (wf_named st Hwf) as Hnamed.
  pose proof Hseat as
    [HM Hc Hw Hwn Hnext [Hnc Hna] [Ha1 Ha2] [Hr Hid] Hslots Hst].
  destruct (nextMatch_of_spec _ _ _ _ Hnext) as [HN HrN].
  apply lookup_lt_Some in HN as Hlt.
  assert (Hin : i <> n) by (intros ->; congruence).
  assert (Hnm'c : status nm' <> complete)
    by (destruct Hst as [[-> _]| ->]; discriminate).
  assert (HoccW : occ (matches st) w (i, SlotW)).
  { exists M. cbn. repeat split; try assumption. eauto. }
  destruct Hwf as [Hinit Hids Hrounds Hfull Hwin Hdis Hsound Hmapped Huniq Htrack].
  assert (Hr2 : 2 <= round N) by (specialize (Hrounds i M HM); lia).
  assert (Hnotmapped : forall id, playerMatches st !! id <> Some n).
  { intros id Hid'. destruct (Hsound id n Hid') as (y & Hy & Hya & _).
    congruence. }
  assert (Hfree : forall j y, matches st !! j = Some y -> status y = active ->
            j <> n /\ player1 y <> player1 nm' /\ player1 y <> player2 nm' /\
            player2 y <> player1 nm' /\ player2 y <> player2 nm').
  { intros j y Hy Hya.
    assert (Hjn : j <> n) by (intros ->; congruence).
    split; [exact Hjn|].
    destruct (Hfull j y Hy (or_introl Hya)) as [Hy1 Hy2].
    assert (Hav : forall z, z <> "" -> player1 nm' = z \/ player2 nm' = z ->
              player1 y <> z /\ player2 y <> z).
    { intros z Hz Hpl.
      assert (Hzocc : exists s, occ (matches st) z s /\ s <> (j, SlotP1)
                                /\ s <> (j, SlotP2)).
      { destruct Hslots as [(E0 & E1 & E2)|(E0 & E0' & E1 & E2)].
        - destruct Hpl as [Hz1|Hz2].
          + exists (i, SlotW). assert (z = w) as -> by congruence.
            repeat split; [exact HoccW|discriminate|discriminate].
          + exists (n, SlotP2). repeat split; try congruence.
            exists N. cbn. repeat split; try assumption. congruence.
        - destruct Hpl as [Hz1|Hz2].
          + exists (n, SlotP1). repeat split; try congruence.
            exists N. cbn. repeat split; try assumption. congruence.
          + exists (i, SlotW). assert (z = w) as -> by congruence.
            repeat split; [exact HoccW|discriminate|discriminate]. }
      destruct Hzocc as (s & Hs & Hs1 & Hs2). split; intros E.
      - apply Hs1. apply (Huniq z); [exact Hs|].
        exists y. cbn. repeat split; try assumption; congruence.
      - apply Hs2. apply (Huniq z); [exact Hs|].
        exists y. cbn. repeat split; try assumption; congruence. }
    repeat split; intros E.
    - destruct (Hav (player1 y) Hy1 (or_introl (eq_sym E))) as [H _]. congruence.
    - destruct (Hav (player1 y) Hy1 (or_intror (eq_sym E))) as [H _]. congruence.
    - destruct (Hav (player2 y) Hy2 (or_introl (eq_sym E))) as [_ H]. congruence.
    - destruct (Hav (player2 y) Hy2 (or_intror (eq_sym E))) as [_ H]. congruence. }
  split; rewrite ?Hms', ?Hpm', ?Hinit'.
  - exact Hinit.
  - intros j y [[-> ->]|[_ Hy]]%lookup_insert_cases; [rewrite Hid|]; eauto.
  - intros j y [[-> ->]|[_ Hy]]%lookup_insert_cases; [rewrite Hr|]; eauto.
  - intros j y [[-> ->]|[_ Hy]]%lookup_insert_cases; [|eauto].
    intros [Hya|Hyc]; [|congruence].
    destruct Hst as [(_ & H1 & H2)|Hwt]; [auto|congruence].
  - intros j y [[-> ->]|[_ Hy]]%lookup_insert_cases; [congruence|eauto].
  - intros j y [[-> ->]|[_ Hy]]%lookup_insert_cases; [|eauto].
    intros E. exfalso.
    destruct Hslots as [(E0 & E1 & E2)|(E0 & E0' & E1 & E2)]; congruence.
  - intros id j Hj. destruct (decide (status nm' = active)) as [Hact|Hact].
    + destruct (decide (player2 nm' = id)) as [E2|E2].
      { rewrite E2, lookup_insert_eq in Hj. injection Hj as <-. exists nm'.
        rewrite list_lookup_insert_eq by exact Hlt. auto. }
      rewrite lookup_insert_ne in Hj by exact E2.
      destruct (decide (player1 nm' = id)) as [E1|E1].
      { rewrite E1, lookup_insert_eq in Hj. injection Hj as <-. exists nm'.
        rewrite list_lookup_insert_eq by exact Hlt. auto. }
      rewrite lookup_insert_ne in Hj by exact E1.
      destruct (Hsound id j Hj) as (y & Hy & Hya & Hpl).
      exists y. rewrite list_lookup_insert_ne; [auto|].
      intros ->. now apply (Hnotmapped id).
    + destruct (Hsound id j Hj) as (y & Hy & Hya & Hpl).
      exists y. rewrite list_lookup_insert_ne; [auto|].
      intros ->. now apply (Hnotmapped id).
  - intros j y [[-> ->]|[Hne Hy]]%lookup_insert_cases.
    + intros Hact. rewrite decide_True by exact Hact.
      split.
      * destruct (decide (player2 nm' = player1 nm')) as [E|E].
        -- rewrite E. apply lookup_insert_eq.
        -- rewrite lookup_insert_ne by exact E. apply lookup_insert_eq.
      * apply lookup_insert_eq.
    + intros Hya. destruct (Hmapped j y Hy Hya) as [Hy1 Hy2].
      destruct (Hfree j y Hy Hya) as (_ & F1 & F2 & F3 & F4).
      destruct (decide (status nm' = active)); [|auto].
      rewrite !lookup_insert_ne by congruence. auto.
  - intros id s1 s2 H1 H2.
    pose proof (occ_seated _ i n M N nm' w id s1 Hseat Hnamed H1) as C1.
    pose proof (occ_seated _ i n M N nm' w id s2 Hseat Hnamed H2) as C2.
    destruct C1 as [[-> S1]|[O1 X1]], C2 as [[E2 S2]|[O2 X2]].
    + destruct S1 as [-> | ->], S2 as [-> | ->]; try reflexivity; exfalso;
        destruct H1 as (a & Ha & _ & Hpa & _), H2 as (b & Hb & _ & Hpb & _);
        cbn in *; rewrite list_lookup_insert_eq in Ha, Hb by exact Hlt;
        injection Ha as <-; injection Hb as <-;
        destruct Hslots as [(E0 & E1 & E2')|(E0 & E0' & E1 & E2')]; congruence.
    + exfalso. apply (X2 eq_refl). now apply (Huniq w).
    + exfalso. subst id. apply (X1 eq_refl). now apply (Huniq w).
    + now apply (Huniq id).
  - intros k K x HK HrK Hx Hpl.
    assert (Hfwd : forall f F X, matches st !! f = Some F ->
              status F = complete ->
              nextMatch_of (matches st) F = Some (k, X) ->
              <[n := nm']> (matches st) !! f = Some F /\
              exists X', nextMatch_of (<[n := nm']> (matches st)) F
                         = Some (k, X')).
    { intros f F X HF HFc HFn. split.
      - rewrite list_lookup_insert_ne; [exact HF|]. intros ->. congruence.
      - eexists.
        apply (nextMatch_of_insert_fwd _ n k N nm' F X HN Hr Hid HFn). }
    apply lookup_insert_cases in HK as [[-> ->]|[Hne HK]].
    + assert (Hcase : x = w \/ (player1 N = x \/ player2 N = x)).
      { destruct Hslots as [(E0 & E1 & E2)|(E0 & E0' & E1 & E2)];
          destruct Hpl; [left|right; right|right; left|left]; congruence. }
      destruct Hcase as [->|HplN].
      * exists i, M. destruct (Hfwd i M N HM Hc Hnext) as [HiM HiN].
        repeat split; assumption.
      * destruct (Htrack n N x HN Hr2 Hx HplN)
          as (f & F & HF & HFc & HFw & X & HFn).
        exists f, F. destruct (Hfwd f F X HF HFc HFn) as [H1 H2].
        repeat split; assumption.
    + destruct (Htrack k K x HK HrK Hx Hpl)
        as (f & F & HF & HFc & HFw & X & HFn).
      exists f, F. destruct (Hfwd f F X HF HFc HFn) as [H1 H2].
      repeat split; assumption.
Qed.

Lemma advanced_seating (st : BracketState) (i n : nat) (M N nm : BracketMatch)
    (w wd : string) :
  wf st -> matches st !! i = Some M -> status M = complete ->
  winner M = Some w ->
  nextMatch_of (matches st) M = Some (n, N) ->
  place N w wd = Some nm ->
  player1 N <> w /\ player2 N <> w ->
  exists nm',
    seating (matches st) i n M N nm' w /\
    matches (advanced st n nm (round M + 1)) = <[n := nm']> (matches st) /\
    playerMatches (advanced st n nm (round M + 1))
    = (if decide (status nm' = active)
       then <[player2 nm' := n]> (<[player1 nm' := n]> (playerMatches st))
       else playerMatches st) /\
    initialized (advanced st n nm (round M + 1)) = initialized st.
Proof.
  intros Hwf HM Hc Hw Hnext Hpl Habs.
  destruct (nextMatch_of_spec _ _ _ _ Hnext) as [HN HrN].
  assert (Hwn : w <> "") by exact (wf_named st Hwf i M HM Hc w Hw).
  assert (Hopen : status N <> complete /\ status N <> active).
  { split; intros E;
      [destruct (wf_full st Hwf n N HN (or_intror E)) as [H1 H2]
      |destruct (wf_full st Hwf n N HN (or_introl E)) as [H1 H2]];
      apply place_inv in Hpl as [[T _]|(_ & T & _)];
      apply truthy_false in T; congruence. }
  assert (Hslots :
    (player1 N = "" /\ player1 nm = w /\ player2 nm = player2 N) \/
    (player1 N <> "" /\ player2 N = "" /\
     player1 nm = player1 N /\ player2 nm = w)).
  { apply place_inv in Hpl as [[T ->]|(T1 & T2 & ->)].
    - apply truthy_false in T. left. cbn. auto.
    - apply truthy_true in T1. apply truthy_false in T2. right. cbn. auto. }
  assert (Hnode : round nm = round N /\ matchId nm = matchId N).
  { apply place_inv in Hpl as [[_ ->]|(_ & _ & ->)]; cbn; auto. }
  unfold advanced.
  destruct (JS.truthy (player1 nm) && JS.truthy (player2 nm)) eqn:Hfull.
  - apply andb_true_iff in Hfull as [T1%truthy_true T2%truthy_true].
    exists (set_status nm active). cbn. split; [|auto].
    split; cbn; try assumption. left. auto.
  - exists (set_status nm waiting). cbn. split; [|auto].
    split; cbn; try assumption. right. reflexivity.
Qed.

Lemma advanceWinner_wf (st : BracketState) (i : nat) (M : BracketMatch)
    (w : string) :
  wf st -> matches st !! i = Some M -> status M = complete ->
  winner M = Some w ->
  (forall n N, nextMatch_of (matches st) M = Some (n, N) ->
     player1 N = "" \/ player2 N = "" ->
     player1 N <> w /\ player2 N <> w) ->
  wf (fst (advanceWinner st i)).
Proof.
  intros Hwf HM Hc Hw Hunplaced.
  destruct (advanceWinner_inv st i)
    as [->|(M' & n & N & nm & HM' & _ & Hnext & Hpl & ->)]; [exact Hwf|].
  assert (M' = M) as -> by congruence. rewrite Hw in Hpl. cbn in Hpl.
  assert (Hempty : player1 N = "" \/ player2 N = "").
  { apply place_inv in Hpl as [[T _]|(_ & T & _)];
      apply truthy_false in T; auto. }
  destruct (advanced_seating st i n M N nm w _ Hwf HM Hc Hw Hnext Hpl
              (Hunplaced n N Hnext Hempty))
    as (nm' & Hseat & Hms & Hpm & Hinit).
  eapply wf_seated; eauto.
Qed.

Lemma completed_fields (needed : Z) (m : BracketMatch) :
  round (completed needed m) = round m /\
  matchId (completed needed m) = matchId m /\
  player1 (completed needed m) = player1 m /\
  player2 (completed needed m) = player2 m /\
  status (completed needed m) = complete /\
  exists x, winner (completed needed m) = Some x /\
            (x = player1 m \/ x = player2 m).
Proof.
  unfold completed. cbn. repeat split.
  destruct (needed <=? p1wins m); eauto.
Qed.

Lemma scored_same_seats (m : BracketMatch) (w : string) :
  same_seats m (scored m w).
Proof. unfold same_seats, scored. destruct (String.eqb _ _); cbn; auto 10. Qed.

Lemma recordWin_wf (st : BracketState) (w l : string) :
  wf st -> wf (fst (recordWin st w l)).
Proof.
  intros Hwf.
  destruct (recordWin_inv st w l)
    as [->|(i & m & Hi & Hm & Hop & [[Hge ->]|(H1 & H2 & ->)])];
    [exact Hwf| |]; cbn [fst].
  - destruct (wf_sound st Hwf w i Hi) as (m' & Hm' & Hact & Hpl).
    assert (m' = m) as -> by congruence.
    destruct (scored_same_seats m w) as (Er & Eid & E1 & E2 & Es & Ew).
    destruct (completed_fields (winsNeeded st) (scored m w))
      as (Cr & Cid & C1 & C2 & Cs & x & Cw & Cx).
    set (m2 := completed (winsNeeded st) (scored m w)) in *.
    assert (Hx : x = player1 m \/ x = player2 m) by (destruct Cx; [left|right]; congruence).
    assert (Hwf1 : wf (finished st i m2)).
    { apply (wf_finished st i m m2 x); try assumption; congruence. }
    assert (Hlt : (i < length (matches st))%nat) by (eapply lookup_lt_Some; eauto).
    assert (Hm2 : matches (finished st i m2) !! i = Some m2).
    { cbn. now apply list_lookup_insert_eq. }
    apply (advanceWinner_wf _ i m2 x Hwf1 Hm2 Cs Cw).
    intros n N Hnext Hempty.
    cbn [finished matches set_playerMatches set_matches] in Hnext.
    apply (nextMatch_of_insert_inv _ i n m m2 m2 N Hm) in Hnext;
      [|congruence|congruence].
    destruct Hnext as (N0 & Hnext0 & ->).
    rewrite (nextMatch_of_node _ m m2) in Hnext0 by congruence.
    destruct (nextMatch_of_spec _ _ _ _ Hnext0) as [HN0 HrN0].
    assert (Hni : n <> i) by (intros ->; assert (N0 = m) by congruence; subst; lia).
    rewrite decide_False in Hempty |- * by exact Hni.
    assert (Hopen : status N0 <> complete).
    { intros E. destruct (wf_full st Hwf n N0 HN0 (or_intror E)).
      destruct Hempty; congruence. }
    destruct (wf_full st Hwf i m Hm (or_introl Hact)) as [Hn1 Hn2].
    assert (Hxn : x <> "") by (destruct Hx; congruence).
    assert (Hocc : exists k, occ (matches st) x (i, k)).
    { destruct Hx as [->| ->]; [exists SlotP1|exists SlotP2]; exists m; cbn;
        repeat split; auto; congruence. }
    destruct Hocc as [k Hk].
    split; intros E.
    + assert (Hs : (n, SlotP1) = (i, k)).
      { apply (wf_unique st Hwf x); [|exact Hk]. exists N0. cbn. auto. }
      congruence.
    + assert (Hs : (n, SlotP2) = (i, k)).
      { apply (wf_unique st Hwf x); [|exact Hk]. exists N0. cbn. auto. }
      congruence.
  - apply (wf_same_seats st i m); [exact Hwf|exact Hm|apply scored_same_seats].
Qed.

(** One turn of the loop of [resume]: the match is skipped, or its winner is
    named, absent from the next match, and advanced. *)
Lemma resume_step_cases (acc : BracketState * list LogMsg) (i : nat) :
  fst (resume_step acc i) = fst acc \/
  exists m n N w,
    matches (fst acc) !! i = Some m /\
    nextMatch_of (matches (fst acc)) m = Some (n, N) /\
    winner m = Some w /\ w <> "" /\
    player1 N <> w /\ player2 N <> w /\
    fst (resume_step acc i) = fst (advanceWinner (fst acc) i).
Proof.
  unfold resume_step. destruct (matches (fst acc) !! i) as [m|]; [|now left].
  destruct (round_matches _ _); [now left|].
  destruct (nextMatch_of _ _) as [[n N]|] eqn:Hnext; [|now left].
  destruct (winner m) as [w|] eqn:Hwin; [|now left].
  destruct (String.eqb_spec (player1 N) w) as [|Hn1]; [now left|].
  destruct (String.eqb_spec (player2 N) w) as [|Hn2]; [now left|].
  cbn [orb]. destruct (JS.truthy w) eqn:Hw; [|now left]. cbn [negb].
  right. exists m, n, N, w. apply truthy_true in Hw.
  repeat split; try assumption; try reflexivity.
  now destruct (advanceWinner (fst acc) i).
Qed.

(** A complete match stays as it is through an advancement in a well-formed
    state. *)
Lemma advanceWinner_keeps_complete (st : BracketState) (i j : nat)
    (X : BracketMatch) :
  wf st -> matches st !! j = Some X -> status X = complete ->
  matches (fst (advanceWinner st i)) !! j = Some X.
Proof.
  intros Hwf HX Hc.
  destruct (advanceWinner_inv st i)
    as [->|(M & n & N & nm & HM & _ & Hnext & Hpl & ->)]; [exact HX|].
  destruct (nextMatch_of_spec _ _ _ _ Hnext) as [HN _].
  assert (j <> n).
  { intros ->. assert (N = X) as -> by congruence.
    destruct (wf_full st Hwf n X HX (or_intror Hc)).
    apply place_inv in Hpl as [[T _]|(_ & T & _)];
      apply truthy_false in T; congruence. }
  unfold advanced. destruct (_ && _); cbn; now rewrite list_lookup_insert_ne.
Qed.

Lemma resume_fold_wf (cands : list nat) :
  forall acc,
    wf (fst acc) ->
    (forall i, In i cands -> exists m, matches (fst acc) !! i = Some m /\
                                       status m = complete) ->
    wf (fst (fold_left resume_step cands acc)).
Proof.
  induction cands as [|i cands IH]; intros acc Hwf Hc; [exact Hwf|].
  cbn [fold_left].
  assert (Hstep : wf (fst (resume_step acc i)) /\
            forall j X, matches (fst acc) !! j = Some X -> status X = complete ->
                        matches (fst (resume_step acc i)) !! j = Some X).
  { destruct (resume_step_cases acc i)
      as [->|(m & n & N & w & Hm & Hnext & Hw & Hwn & Ha1 & Ha2 & ->)];
      [auto|].
    destruct (Hc i (or_introl eq_refl)) as (m' & Hm' & Hmc).
    assert (m' = m) as -> by congruence.
    split.
    - apply (advanceWinner_wf _ i m w); try assumption.
      intros n' N' Hnext' _. assert (N' = N) as -> by congruence. auto.
    - intros j X HX HXc. now apply advanceWinner_keeps_complete. }
  destruct Hstep as [Hwf' Hkeep].
  apply IH; [exact Hwf'|].
  intros j Hj. destruct (Hc j (or_intror Hj)) as (X & HX & HXc).
  exists X. auto.
Qed.

(** ** The state built by [initialize] *)

Lemma buildBracketSeeds_fuel_Some (fuel : nat) :
  forall n seeds, buildBracketSeeds_fuel fuel n = Some seeds ->
    exists k : nat, n = 2 ^ Z.of_nat (S k).
Proof.
  induction fuel as [|fuel IH]; intros n seeds; cbn [buildBracketSeeds_fuel];
    [discriminate|].
  destruct (Z.eqb_spec n 2) as [->|_]; [intros _; now exists 0%nat|].
  destruct (Z.even n) eqn:He; [|discriminate].
  destruct (buildBracketSeeds_fuel fuel (n / 2)) as [prev|] eqn:Hprev;
    [|discriminate].
  intros _. destruct (IH _ _ Hprev) as [k Hk]. exists (S k).
  apply Z.even_spec in He as [h ->].
  rewrite Z.mul_comm, Z.div_mul in Hk by lia. subst h.
  rewrite (Nat2Z.inj_succ (S k)), Z.pow_succ_r by lia. reflexivity.
Qed.

Lemma generateStandardPairings_Some (n : Z) (pairs : list (option Z * option Z)) :
  generateStandardPairings n = Some pairs ->
  exists k : nat, n = 2 ^ Z.of_nat (S k) /\
    pairs = pairings_of (seeds_of_depth k) (Z.of_nat (2 ^ k)).
Proof.
  intros H. assert (Hk : exists k : nat, n = 2 ^ Z.of_nat (S k)).
  { unfold generateStandardPairings, buildBracketSeeds in H.
    destruct (buildBracketSeeds_fuel _ n) eqn:E; [|discriminate].
    eapply buildBracketSeeds_fuel_Some, E. }
  destruct Hk as [k ->]. exists k. split; [reflexivity|].
  rewrite generateStandardPairings_pow in H. congruence.
Qed.

Lemma placeholder_rounds_lookup (count : nat) :
  forall rnd total next j m,
    placeholder_rounds count rnd total next !! j = Some m ->
    matchId m = next + Z.of_nat j.
Proof.
  induction count as [|count IH]; intros rnd total next j m;
    cbn [placeholder_rounds]; [rewrite lookup_nil; discriminate|].
  set (K := Z.to_nat (2 ^ (total - rnd))).
  assert (HK : Z.of_nat K = 2 ^ (total - rnd)).
  { unfold K. apply Z2Nat.id. apply Z.pow_nonneg. lia. }
  intros [H|[Hge H]]%lookup_app_Some.
  - change (map ?f ?xs) with (f <$> xs) in H.
    rewrite list_lookup_fmap in H.
    destruct (seq 0 K !! j) as [x|] eqn:Hx; [|discriminate].
    apply lookup_seq in Hx as [-> _]. cbn in H. now inversion H.
  - rewrite length_map, length_seq in Hge, H.
    apply IH in H. rewrite H. lia.
Qed.

Lemma fold_left_snoc {A B} (f : A -> B -> A) (l : list B) (x : B) (a : A) :
  fold_left f (l ++ [x]) a = f (fold_left f l a) x.
Proof. now rewrite fold_left_app. Qed.

Lemma seats_app (xs ys : list BracketMatch) :
  seats (xs ++ ys) = (seats xs ++ seats ys)%list.
Proof. apply flat_map_app. Qed.

Lemma push_first_round_fold (seeded : list string)
    (pairs : list (option Z * option Z)) :
  forall first pm,
    fold_left (push_first_round seeded) pairs ([], ∅) = (first, pm) ->
    length first = length pairs /\
    (forall j pr, pairs !! j = Some pr ->
       first !! j = Some (first_round_match seeded j pr)) /\
    seats first
    = flat_map (fun pr => [toID (player_at seeded (fst pr));
                           toID (player_at seeded (snd pr))]) pairs /\
    (forall id i, pm !! id = Some i ->
       exists m, first !! i = Some m /\ (player1 m = id \/ player2 m = id)) /\
    (NoDup (seats first) ->
     forall j m, first !! j = Some m ->
       pm !! player1 m = Some j /\ pm !! player2 m = Some j).
Proof.
  induction pairs as [|pr pairs IH] using rev_ind; intros first pm.
  - cbn. intros [= <- <-]. repeat split; try reflexivity.
    + intros j pr. rewrite lookup_nil. discriminate.
    + intros id i. rewrite lookup_empty. discriminate.
    + rewrite lookup_nil in H0. discriminate.
    + rewrite lookup_nil in H0. discriminate.
  - rewrite fold_left_snoc.
    destruct (fold_left (push_first_round seeded) pairs ([], ∅))
      as [f0 pm0] eqn:E.
    destruct (IH f0 pm0 eq_refl) as (Hlen & Hlook & Hseats & Hsound & Hmap).
    unfold push_first_round. cbn [fst snd].
    set (m := first_round_match seeded (length f0) pr).
    intros [= <- <-].
    change (toID (player_at seeded (snd pr))) with (player2 m).
    change (toID (player_at seeded (fst pr))) with (player1 m).
    split; [|split; [|split; [|split]]].
    + rewrite !length_app. cbn. lia.
    + intros j pr' [H|[Hge H]]%lookup_app_Some.
      * rewrite lookup_app_l by (rewrite Hlen; eapply lookup_lt_Some, H). auto.
      * destruct (j - length pairs)%nat as [|d] eqn:Hd; [|discriminate].
        cbn in H. inversion H; subst pr'.
        assert (j = length f0) as -> by lia.
        rewrite lookup_app_r, Nat.sub_diag by lia. reflexivity.
    + rewrite seats_app, flat_map_app, Hseats. reflexivity.
    + intros id i. rewrite lookup_insert.
      destruct (decide _) as [E2|_].
      { intros [= Hi]. subst i. exists m. split; [|auto].
        rewrite lookup_app_r, Nat.sub_diag by lia. reflexivity. }
      rewrite lookup_insert.
      destruct (decide _) as [E1|_].
      { intros [= Hi]. subst i. exists m. split; [|auto].
        rewrite lookup_app_r, Nat.sub_diag by lia. reflexivity. }
      intros (m0 & H0 & Hpl)%Hsound. exists m0. split; [|exact Hpl].
      rewrite lookup_app_l by (eapply lookup_lt_Some, H0). exact H0.
    + rewrite seats_app. intros Hnd j mj.
      apply NoDup_app in Hnd as (Hnd0 & Hdisj & Hndm).
      intros [H|[Hge H]]%lookup_app_Some.
      * assert (Hin : forall x, x = player1 mj \/ x = player2 mj ->
                        x ∈ seats f0).
        { intros x Hx. unfold seats. apply list_elem_of_In, in_flat_map.
          exists mj. split; [apply list_elem_of_In; eapply list_elem_of_lookup_2, H|].
          cbn. destruct Hx; subst; auto. }
        assert (Hm1 : forall x, x ∈ seats f0 -> x <> player1 m /\ x <> player2 m).
        { intros x Hx. split; intros ->; apply (Hdisj _ Hx); cbn;
            [left|right; left]. }
        destruct (Hm1 _ (Hin _ (or_introl eq_refl))) as [A1 A2].
        destruct (Hm1 _ (Hin _ (or_intror eq_refl))) as [B1 B2].
        rewrite !lookup_insert_ne by congruence. now apply Hmap.
      * destruct (j - length f0)%nat as [|d] eqn:Hd; [|discriminate].
        cbn in H. inversion H; subst mj.
        assert (j = length f0) as -> by lia.
        unfold seats in Hndm. cbn [flat_map app] in Hndm.
        apply NoDup_cons in Hndm as [Hne _].
        rewrite not_elem_of_cons in Hne. destruct Hne as [Hne _].
        split.
        -- rewrite lookup_insert_ne by congruence. apply lookup_insert_eq.
        -- apply lookup_insert_eq.
Qed.

(** ** The shuffle permutes *)

Lemma swap_perm {A} (i j : nat) (l : list A) : Permutation (swap i j l) l.
Proof.
  unfold swap. destruct (l !! i) as [a|] eqn:Hi; [|reflexivity].
  destruct (l !! j) as [b|] eqn:Hj; [|reflexivity].
  assert (Hli : (i < length l)%nat) by (eapply lookup_lt_Some, Hi).
  assert (Hlj : (j < length l)%nat) by (eapply lookup_lt_Some, Hj).
  apply Permutation_inj. split; [now rewrite !length_insert|].
  exists (fun x => if decide (x = i) then j
                   else if decide (x = j) then i else x).
  split.
  - intros x y. repeat case_decide; intros; subst; congruence.
  - intros x. destruct (decide (x = i)) as [->|Hxi].
    + rewrite list_lookup_insert_eq by (rewrite length_insert; lia). now rewrite Hj.
    + rewrite list_lookup_insert_ne by congruence.
      destruct (decide (x = j)) as [->|Hxj].
      * rewrite list_lookup_insert_eq by lia. now rewrite Hi.
      * now rewrite list_lookup_insert_ne by congruence.
Qed.

Lemma shuffle_from_perm {A} (rnd : nat -> nat) (i : nat) :
  forall l : list A, Permutation (shuffle_from rnd i l) l.
Proof.
  induction i as [|i IH]; intros l; cbn [shuffle_from]; [reflexivity|].
  etransitivity; [apply IH|apply swap_perm].
Qed.

Lemma shuffleArray_perm {A} (rnd : nat -> nat) (l : list A) :
  Permutation (shuffleArray rnd l) l.
Proof. apply shuffle_from_perm. Qed.

(** ** The seats of the first round *)

Lemma flat2_map {A B} (g : A -> B) (xs : list (A * A)) :
  flat_map (fun p => [g (fst p); g (snd p)]) xs
  = map g (flat_map (fun p => [fst p; snd p]) xs).
Proof. induction xs as [|p xs IH]; cbn; [reflexivity|now rewrite IH]. Qed.

Lemma seed_range_players (seeded : list string) :
  map (fun s => toID (player_at seeded (Some s))) (seed_range (length seeded))
  = map toID seeded.
Proof.
  apply list_eq. intros j. unfold seed_range.
  change (map ?f ?xs) with (f <$> xs). rewrite !list_lookup_fmap.
  destruct (seeded !! j) as [x|] eqn:Hx.
  - rewrite lookup_seq_lt by (eapply lookup_lt_Some, Hx). cbn.
    unfold player_at. do 2 f_equal.
    replace (Z.of_nat (S j) - 1) with (Z.of_nat j) by lia.
    now rewrite at_index_nat, Hx.
  - rewrite lookup_seq_ge by (eapply lookup_ge_None_1, Hx). reflexivity.
Qed.

Lemma first_round_seats (seeded : list string) (k : nat)
    (first : list BracketMatch) (pm : gmap string nat) :
  length seeded = (2 ^ S k)%nat ->
  fold_left (push_first_round seeded)
    (pairings_of (seeds_of_depth k) (Z.of_nat (2 ^ k))) ([], ∅) = (first, pm) ->
  Permutation (seats first) (map toID seeded).
Proof.
  intros Hlen Hfold.
  destruct (push_first_round_fold _ _ _ _ Hfold) as (_ & _ & -> & _).
  rewrite (flat2_map (fun o => toID (player_at seeded o))).
  rewrite pairings_of_flat by (rewrite seeds_of_depth_length; simpl; lia).
  rewrite map_map, <- seed_range_players, Hlen.
  apply Permutation_map, seeds_of_depth_perm.
Qed.

Lemma initialize_wf fmt players bo randomize rnd st st' :
  valid_players players ->
  initialize fmt players bo randomize rnd st = Ok st' -> wf st'.
Proof.
  intros [Hnd Hne] H.
  apply initialize_inv in H
    as (_ & Hn & _ & pairs & first & pm & Hgen & Hfold & ->).
  apply generateStandardPairings_Some in Hgen as (k & Hk & ->).
  set (seeded := if randomize then shuffleArray rnd players else players) in *.
  assert (Hperm : Permutation seeded players).
  { unfold seeded. destruct randomize; [apply shuffleArray_perm|reflexivity]. }
  assert (Hlen : length seeded = (2 ^ S k)%nat).
  { rewrite (Permutation_length Hperm). apply Nat2Z.inj.
    rewrite Hk. apply pow2_nat_Z. }
  pose proof (first_round_seats seeded k first pm Hlen Hfold) as Hseats.
  assert (Hseats' : Permutation (seats first) (map toID players)).
  { etransitivity; [exact Hseats|]. now apply Permutation_map. }
  assert (HndS : NoDup (seats first)).
  { apply NoDup_ListNoDup.
    eapply Permutation.Permutation_NoDup; [symmetry; exact Hseats'|exact Hnd]. }
  assert (HneS : forall x, x ∈ seats first -> x <> "").
  { intros x Hx ->. apply Hne. apply list_elem_of_In.
    now rewrite <- Hseats'. }
  destruct (push_first_round_fold _ _ _ _ Hfold)
    as (Hlenf & Hlook & _ & Hsound & Hmap).
  specialize (Hmap HndS).
  rewrite pairings_of_length in Hlenf.
  set (n := Z.of_nat (length players)) in *.
  set (rest := placeholder_rounds (Z.to_nat (Z.log2 n - 1)) 2 (Z.log2 n)
                 (n / 2 + 1)).
  assert (Hhalf : n / 2 = Z.of_nat (length first)).
  { rewrite Hk, Hlenf, Nat2Z.inj_succ, Z.pow_succ_r by lia.
    rewrite Z.mul_comm, Z.div_mul by lia. apply pow2_nat_Z. }
  assert (Hfirst : forall j m, first !! j = Some m ->
            round m = 1 /\ matchId m = Z.of_nat j + 1 /\ status m = active /\
            winner m = None /\
            seats first !! (2 * j)%nat = Some (player1 m) /\
            seats first !! (2 * j + 1)%nat = Some (player2 m)).
  { intros j m Hm.
    assert (Hj : (j < 2 ^ k)%nat) by (rewrite <- Hlenf; eapply lookup_lt_Some, Hm).
    pose proof (Hlook j _ (pairings_of_lookup _ _ _ Hj)) as Hm'.
    unfold seats. rewrite flat2_lookup_even, flat2_lookup_odd, Hm. cbn [fmap option_fmap option_map].
    assert (E : m = first_round_match seeded j
                      (seeds_of_depth k !! (2 * j)%nat,
                       seeds_of_depth k !! (2 * j + 1)%nat)) by congruence.
    rewrite E at 1 2 3 4. cbn. auto 10. }
  assert (Hrest : forall j m, rest !! j = Some m ->
            2 <= round m /\ status m = pending /\ player1 m = "" /\
            player2 m = "" /\
            matchId m = Z.of_nat (length first + j) + 1).
  { intros j m Hm.
    pose proof (placeholder_rounds_lookup _ _ _ _ _ _ Hm) as Hid.
    pose proof (placeholder_rounds_ok (Z.to_nat (Z.log2 n - 1)) 2 (Z.log2 n)
                  (n / 2 + 1) ltac:(lia)) as Hall.
    apply List.Forall_forall with (x := m) in Hall;
      [|apply list_elem_of_In; eapply list_elem_of_lookup_2, Hm].
    destruct Hall as (Hr & _ & _ & Hs & H1 & H2 & _).
    repeat split; try assumption. lia. }
  assert (Hslot : forall id s, occ (first ++ rest) id s ->
            snd s <> SlotW /\ seats first !! seat_pos s = Some id).
  { intros id [j sl] (m & Hm & Hocc). cbn [fst snd] in *.
    apply lookup_app_Some in Hm as [Hm|[_ Hm]].
    - destruct (Hfirst j m Hm) as (_ & _ & Hs & _ & Hp1 & Hp2).
      unfold seat_pos. cbn [fst snd].
      destruct sl; [destruct Hocc as (_ & <- & _)|destruct Hocc as (_ & <- & _)
                   |destruct Hocc as (Hc & _)]; try (split; [discriminate|assumption]).
      congruence.
    - destruct (Hrest _ m Hm) as (_ & Hs & H1 & H2 & _).
      destruct sl; [destruct Hocc as (_ & E & Hx)|destruct Hocc as (_ & E & Hx)
                   |destruct Hocc as (Hc & _)]; congruence. }
  split; cbn [matches playerMatches initialized].
  - reflexivity.
  - intros j m [Hm|[Hge Hm]]%lookup_app_Some.
    + now destruct (Hfirst j m Hm) as (_ & Hid & _).
    + destruct (Hrest _ m Hm) as (_ & _ & _ & _ & Hid). rewrite Hid. lia.
  - intros j m [Hm|[Hge Hm]]%lookup_app_Some.
    + destruct (Hfirst j m Hm) as (Hr & _). lia.
    + destruct (Hrest _ m Hm) as (Hr & _). lia.
  - intros j m [Hm|[Hge Hm]]%lookup_app_Some Hst.
    + destruct (Hfirst j m Hm) as (_ & _ & _ & _ & Hp1 & Hp2).
      split; apply HneS; eapply list_elem_of_lookup_2; eauto.
    + destruct (Hrest _ m Hm) as (_ & Hs & _). destruct Hst; congruence.
  - intros j m [Hm|[Hge Hm]]%lookup_app_Some Hst.
    + destruct (Hfirst j m Hm) as (_ & _ & Hs & _). congruence.
    + destruct (Hrest _ m Hm) as (_ & Hs & _). congruence.
  - intros j m [Hm|[Hge Hm]]%lookup_app_Some Heq.
    + destruct (Hfirst j m Hm) as (_ & _ & _ & _ & Hp1 & Hp2).
      rewrite <- Heq in Hp2.
      pose proof (NoDup_lookup _ _ _ _ HndS Hp1 Hp2). lia.
    + now destruct (Hrest _ m Hm) as (_ & _ & H1 & _).
  - intros id i (m & Hm & Hpl)%Hsound. exists m. split; [|split; [|exact Hpl]].
    + rewrite lookup_app_l by (eapply lookup_lt_Some, Hm). exact Hm.
    + now destruct (Hfirst i m Hm) as (_ & _ & Hs & _).
  - intros i m [Hm|[Hge Hm]]%lookup_app_Some Hst.
    + now apply Hmap.
    + destruct (Hrest _ m Hm) as (_ & Hs & _). congruence.
  - intros id [j1 k1] [j2 k2] [Hw1 Hp1]%Hslot [Hw2 Hp2]%Hslot.
    pose proof (NoDup_lookup _ _ _ _ HndS Hp1 Hp2) as Hpos.
    unfold seat_pos in Hpos. cbn [fst snd] in *.
    destruct k1, k2; try congruence; try (exfalso; lia);
      f_equal; lia.
  - intros j N x [Hm|[Hge Hm]]%lookup_app_Some Hr Hx Hpl.
    + destruct (Hfirst j N Hm) as (Hr1 & _). lia.
    + destruct (Hrest _ N Hm) as (_ & _ & H1 & H2 & _).
      destruct Hpl; congruence.
Qed.

Lemma freeze_wf (st st' : BracketState) (logs : list LogMsg) :
  freeze st = Ok (st', logs) -> wf st -> wf st'.
Proof.
  intros (_ & _ & ->)%freeze_inv Hwf. destruct Hwf. split; assumption.
Qed.

Lemma set_frozen_wf (st : BracketState) (b : bool) : wf st -> wf (set_frozen st b).
Proof. intros Hwf. destruct Hwf. split; assumption. Qed.

Lemma resume_wf (st st' : BracketState) (logs : list LogMsg) :
  resume st = Ok (st', logs) -> wf st -> wf st'.
Proof.
  intros (_ & _ & ->)%resume_inv Hwf.
  apply resume_fold_wf; cbn [fst]; [now apply set_frozen_wf|].
  intros i (p & <- & Hin)%in_map_iff. destruct p as [j m].
  apply refs_from_spec in Hin as (_ & Hm & Hc).
  rewrite Nat.sub_0_r in Hm. exists m. split; [exact Hm|].
  unfold blocked_candidate in Hc.
  apply andb_true_iff in Hc as [Hc _]. apply andb_true_iff in Hc as [Hc _].
  now apply bool_decide_eq_true in Hc.
Qed.

Lemma step_wf (st st' : BracketState) : step st st' -> wf st -> wf st'.
Proof.
  intros Hstep Hwf. destruct Hstep as [st w l|st st' logs Hf|st st' logs Hr].
  - now apply recordWin_wf.
  - eapply freeze_wf; eauto.
  - eapply resume_wf; eauto.
Qed.

(** Every state of a tournament among valid players is well formed. *)
Lemma reachable_wf (players : list string) (st : BracketState) :
  valid_players players -> reachable_from players st -> wf st.
Proof.
  intros Hv H. induction H as [fmt bo rz rnd st H|st st' _ IH Hstep].
  - eapply initialize_wf; eauto.
  - eapply step_wf; eauto.
Qed.

(** ** [canMatch] *)

Lemma opponents_sym (m : BracketMatch) (a b : string) :
  opponents m a b = opponents m b a.
Proof.
  unfold opponents.
  destruct (String.eqb (player1 m) a), (String.eqb (player2 m) b),
    (String.eqb (player2 m) a), (String.eqb (player1 m) b); reflexivity.
Qed.

Lemma opponents_player (m : BracketMatch) (a b : string) :
  opponents m a b = true -> player1 m = b \/ player2 m = b.
Proof.
  unfold opponents. intros [H|H]%orb_true_iff;
    apply andb_true_iff in H as [_ H]; apply String.eqb_eq in H; auto.
Qed.

Lemma canMatch_true_sym (st : BracketState) (a b : string) :
  wf st -> canMatch st a b = true -> canMatch st b a = true.
Proof.
  intros Hwf. unfold canMatch, match_of.
  destruct (initialized st); cbn [negb]; [|discriminate].
  destruct (playerMatches st !! a) as [i|] eqn:Ha; [|discriminate].
  destruct (matches st !! i) as [m|] eqn:Hm; [|discriminate].
  destruct (bool_decide (status m = active)) eqn:Hact; cbn [negb];
    [|discriminate].
  destruct (frozen st && negb (round m =? getEarliestIncompleteRound st))
    eqn:Hfr; [discriminate|].
  intros Hop. apply bool_decide_eq_true in Hact.
  destruct (wf_mapped st Hwf i m Hm Hact) as [H1 H2].
  assert (Hb : playerMatches st !! b = Some i).
  { destruct (opponents_player m a b Hop) as [<-| <-]; assumption. }
  rewrite Hb, Hm, bool_decide_eq_true_2 by exact Hact. cbn [negb].
  rewrite Hfr. now rewrite opponents_sym.
Qed.

(** ** At most two matches feed a match *)

Lemma refs_from_lookup_inj (P : BracketMatch -> bool) (ms : list BracketMatch) :
  forall k a b n m1 m2,
    refs_from P k ms !! a = Some (n, m1) ->
    refs_from P k ms !! b = Some (n, m2) -> a = b.
Proof.
  induction ms as [|m ms IH]; intros k a b n m1 m2; cbn [refs_from].
  - rewrite lookup_nil. discriminate.
  - destruct (P m); [|apply IH].
    assert (Hlate : forall c x, refs_from P (S k) ms !! c = Some (k, x) -> False).
    { intros c x Hc. apply list_elem_of_lookup_2, list_elem_of_In in Hc.
      apply refs_from_spec in Hc. lia. }
    destruct a as [|a], b as [|b]; cbn; intros Ha Hb.
    + reflexivity.
    + inversion Ha; subst. exfalso. eapply Hlate, Hb.
    + inversion Hb; subst. exfalso. eapply Hlate, Ha.
    + f_equal. eapply IH; eauto.
Qed.

Lemma nextMatch_of_unfold (ms : list BracketMatch) (M N : BracketMatch) (n : nat) :
  nextMatch_of ms M = Some (n, N) ->
  exists f, firstMatchOfRound ms (round M) = Some f /\
    0 <= (matchId M - f) / 2 /\
    round_matches ms (round M + 1) !! Z.to_nat ((matchId M - f) / 2)
    = Some (n, N).
Proof.
  unfold nextMatch_of. destruct (firstMatchOfRound ms (round M)) as [f|];
    [|discriminate].
  unfold at_index. destruct (Z.ltb_spec ((matchId M - f) / 2) 0);
    [discriminate|]. intros H'. exists f. auto.
Qed.

(** Two matches with the same next match are neighbours in their round. *)
Lemma feeders_adjacent (ms : list BracketMatch) (M1 M2 N1 N2 : BracketMatch)
    (n : nat) :
  nextMatch_of ms M1 = Some (n, N1) -> nextMatch_of ms M2 = Some (n, N2) ->
  exists base, base <= matchId M1 <= base + 1 /\ base <= matchId M2 <= base + 1.
Proof.
  intros H1 H2.
  destruct (nextMatch_of_spec _ _ _ _ H1) as [Hn1 Hr1].
  destruct (nextMatch_of_spec _ _ _ _ H2) as [Hn2 Hr2].
  assert (N2 = N1) as -> by congruence.
  assert (Hr : round M2 = round M1) by lia.
  apply nextMatch_of_unfold in H1 as (f1 & Hf1 & Hq1 & Hl1).
  apply nextMatch_of_unfold in H2 as (f2 & Hf2 & Hq2 & Hl2).
  rewrite Hr in Hf2, Hl2. assert (f2 = f1) as -> by congruence.
  pose proof (refs_from_lookup_inj _ _ _ _ _ _ _ _ Hl1 Hl2) as Hq.
  apply Z2Nat.inj in Hq; [|assumption|assumption].
  exists (f1 + 2 * ((matchId M1 - f1) / 2)).
  pose proof (Z.div_mod (matchId M1 - f1) 2 ltac:(lia)) as E1.
  pose proof (Z.div_mod (matchId M2 - f1) 2 ltac:(lia)) as E2.
  pose proof (Z.mod_pos_bound (matchId M1 - f1) 2 ltac:(lia)).
  pose proof (Z.mod_pos_bound (matchId M2 - f1) 2 ltac:(lia)).
  rewrite <- Hq in E2. lia.
Qed.

(** The winner of a complete match finds a free slot in the next match, unless
    it is there already. *)
Lemma slot_available (st : BracketState) (i n : nat) (M N : BracketMatch)
    (w : string) :
  wf st -> matches st !! i = Some M -> status M = complete ->
  winner M = Some w ->
  nextMatch_of (matches st) M = Some (n, N) ->
  player1 N <> w -> player2 N <> w ->
  player1 N = "" \/ player2 N = "".
Proof.
  intros Hwf HM Hc Hw Hnext Hn1 Hn2.
  destruct (nextMatch_of_spec _ _ _ _ Hnext) as [HN HrN].
  pose proof (wf_rounds st Hwf i M HM) as HrM.
  destruct (string_dec (player1 N) "") as [|Hx]; [now left|].
  destruct (string_dec (player2 N) "") as [|Hy]; [now right|].
  exfalso.
  assert (Hxy : player1 N <> player2 N).
  { intros E. now apply Hx, (wf_distinct st Hwf n N HN). }
  destruct (wf_tracked st Hwf n N (player1 N) HN ltac:(lia) Hx (or_introl eq_refl))
    as (ix & Mx & HMx & _ & Hwx & Nx & Hnx).
  destruct (wf_tracked st Hwf n N (player2 N) HN ltac:(lia) Hy (or_intror eq_refl))
    as (iy & My & HMy & _ & Hwy & Ny & Hny).
  pose proof (wf_ids st Hwf i M HM).
  pose proof (wf_ids st Hwf ix Mx HMx).
  pose proof (wf_ids st Hwf iy My HMy).
  assert (ix <> i) by (intros ->; congruence).
  assert (iy <> i) by (intros ->; congruence).
  assert (ix <> iy) by (intros ->; congruence).
  destruct (feeders_adjacent _ _ _ _ _ _ Hnext Hnx) as (b1 & ? & ?).
  destruct (feeders_adjacent _ _ _ _ _ _ Hnext Hny) as (b2 & ? & ?).
  destruct (feeders_adjacent _ _ _ _ _ _ Hnx Hny) as (b3 & ? & ?).
  lia.
Qed.

Lemma nextMatch_of_round_matches (ms : list BracketMatch) (M N : BracketMatch)
    (n : nat) :
  nextMatch_of ms M = Some (n, N) -> round_matches ms (round M + 1) <> [].
Proof.
  intros (f & _ & _ & Hl)%nextMatch_of_unfold E. rewrite E in Hl.
  rewrite lookup_nil in Hl. discriminate.
Qed.

(** The advancement of an unplaced winner, in an unfrozen tournament, seats
    it. *)
Lemma advanceWinner_seats (st : BracketState) (i n : nat) (M N : BracketMatch)
    (w : string) :
  wf st -> frozen st = false ->
  matches st !! i = Some M -> status M = complete -> winner M = Some w ->
  nextMatch_of (matches st) M = Some (n, N) ->
  player1 N <> w -> player2 N <> w ->
  exists nm',
    seating (matches st) i n M N nm' w /\
    matches (fst (advanceWinner st i)) = <[n := nm']> (matches st) /\
    frozen (fst (advanceWinner st i)) = false.
Proof.
  intros Hwf Hfr HM Hc Hw Hnext Hn1 Hn2.
  pose proof (slot_available st i n M N w Hwf HM Hc Hw Hnext Hn1 Hn2) as Hfree.
  assert (Hplace : exists nm, place N w (display_of st w) = Some nm).
  { unfold place. destruct Hfree as [E|E].
    - rewrite E. cbn. eauto.
    - rewrite E. destruct (JS.truthy (player1 N)); cbn; eauto. }
  destruct Hplace as [nm Hpl].
  assert (Hadv : fst (advanceWinner st i) = advanced st n nm (round M + 1)).
  { unfold advanceWinner. rewrite HM.
    pose proof (nextMatch_of_round_matches _ _ _ _ Hnext) as Hne.
    destruct (round_matches (matches st) (round M + 1)); [congruence|].
    rewrite Hfr, Hnext, Hw. change (default "" (Some w)) with w.
    rewrite Hpl. unfold advanced, set_matches.
    destruct (JS.truthy (player1 nm) && JS.truthy (player2 nm));
      cbn [fst]; rewrite ?Hfr; reflexivity. }
  destruct (advanced_seating st i n M N nm w _ Hwf HM Hc Hw Hnext Hpl
              (conj Hn1 Hn2)) as (nm' & Hseat & Hms & _ & _).
  exists nm'. rewrite Hadv. split; [exact Hseat|]. split; [exact Hms|].
  unfold advanced.
  destruct (JS.truthy (player1 nm) && JS.truthy (player2 nm)); cbn; exact Hfr.
Qed.

Lemma unplacedb_true (ms : list BracketMatch) (m : BracketMatch) :
  unplacedb ms m = true <->
  status m = complete /\
  exists w n N, winner m = Some w /\ nextMatch_of ms m = Some (n, N) /\
                player1 N <> w /\ player2 N <> w.
Proof.
  unfold unplacedb. rewrite andb_true_iff, bool_decide_eq_true.
  split.
  - intros [Hc H]. split; [exact Hc|].
    destruct (winner m) as [w|]; [|discriminate].
    destruct (nextMatch_of ms m) as [[n N]|]; [|discriminate].
    apply negb_true_iff, orb_false_iff in H as [H1 H2].
    apply String.eqb_neq in H1, H2. exists w, n, N. auto.
  - intros (Hc & w & n & N & -> & -> & H1 & H2). split; [exact Hc|].
    apply String.eqb_neq in H1, H2. now rewrite H1, H2.
Qed.

Lemma unplacedb_false (ms : list BracketMatch) (m N : BracketMatch)
    (w : string) (n : nat) :
  unplacedb ms m = false -> status m = complete -> winner m = Some w ->
  nextMatch_of ms m = Some (n, N) -> player1 N = w \/ player2 N = w.
Proof.
  unfold unplacedb. intros H Hc Hw Hn. rewrite Hw, Hn in H.
  rewrite bool_decide_eq_true_2 in H by exact Hc. cbn in H.
  apply negb_false_iff, orb_true_iff in H as [H|H];
    apply String.eqb_eq in H; auto.
Qed.

Lemma resume_step_spec (acc : BracketState * list LogMsg) (i : nat)
    (m : BracketMatch) :
  matches (fst acc) !! i = Some m -> status m = complete ->
  (forall w, winner m = Some w -> w <> "") ->
  fst (resume_step acc i)
  = if unplacedb (matches (fst acc)) m then fst (advanceWinner (fst acc) i)
    else fst acc.
Proof.
  intros Hm Hc Hnamed. unfold resume_step, unplacedb. rewrite Hm.
  rewrite bool_decide_eq_true_2 by exact Hc. cbn [andb].
  destruct (nextMatch_of (matches (fst acc)) m) as [[n N]|] eqn:Hnext.
  - pose proof (nextMatch_of_round_matches _ _ _ _ Hnext) as Hne.
    destruct (round_matches (matches (fst acc)) (round m + 1)); [congruence|].
    destruct (winner m) as [w|] eqn:Hw; [|reflexivity].
    destruct (String.eqb (player1 N) w || String.eqb (player2 N) w);
      [reflexivity|]. cbn [negb].
    rewrite (proj2 (truthy_true w)) by now apply Hnamed. cbn [negb].
    now destruct (advanceWinner (fst acc) i).
  - destruct (round_matches (matches (fst acc)) (round m + 1));
      destruct (winner m); reflexivity.
Qed.

Lemma retarget_fst (n : nat) (m' : BracketMatch) (p : nat * BracketMatch) :
  fst (retarget n m' p) = fst p.
Proof.
  unfold retarget. destruct (Nat.eqb_spec (fst p) n) as [<-|]; reflexivity.
Qed.

(** Seating a winner leaves the other winners as they were: unplaced ones
    stay unplaced, placed ones stay placed. *)
Lemma unplacedb_seated (st : BracketState) (i n c : nat)
    (M N nm' m' : BracketMatch) (w : string) :
  wf st -> seating (matches st) i n M N nm' w ->
  c <> i -> matches st !! c = Some m' -> status m' = complete ->
  unplacedb (<[n := nm']> (matches st)) m' = unplacedb (matches st) m'.
Proof.
  intros Hwf Hseat Hci Hm' Hc'.
  pose proof Hseat as
    [HM Hc Hw Hwn Hnext _ [Ha1 Ha2] [Hr Hid] Hslots _].
  destruct (nextMatch_of_spec _ _ _ _ Hnext) as [HN _].
  unfold unplacedb.
  rewrite (nextMatch_of_insert (matches st) n N nm' m' HN Hr Hid).
  destruct (winner m') as [w'|] eqn:Hw'; [|reflexivity].
  destruct (nextMatch_of (matches st) m') as [[y Y]|] eqn:Hnext';
    [|reflexivity].
  cbn [fmap option_fmap option_map]. unfold retarget. cbn [fst snd].
  destruct (Nat.eqb_spec y n) as [->|_]; [|reflexivity].
  destruct (nextMatch_of_spec _ _ _ _ Hnext') as [HY _].
  assert (Y = N) as -> by congruence. f_equal. f_equal.
  assert (Hw'n : w' <> "") by exact (wf_named st Hwf c m' Hm' Hc' w' Hw').
  assert (Hne : w' <> w).
  { intros ->. apply Hci.
    assert (E : (c, SlotW) = (i, SlotW)); [|congruence].
    apply (wf_unique st Hwf w); [exists m'|exists M]; cbn; eauto 10. }
  destruct Hslots as [(E1 & E2 & E3)|(_ & E1 & E2 & E3)].
  - rewrite E1, E2, E3.
    rewrite (proj2 (String.eqb_neq w w')) by congruence.
    now rewrite (proj2 (String.eqb_neq "" w')) by congruence.
  - rewrite E1, E2, E3.
    rewrite (proj2 (String.eqb_neq w w')) by congruence.
    now rewrite (proj2 (String.eqb_neq "" w')) by congruence.
Qed.

Lemma carried_start (st0 : BracketState) :
  wf st0 -> frozen st0 = false -> carried st0 st0 0.
Proof.
  intros Hwf Hfr. split; auto. intros j m w n N Hj. lia.
Qed.

Lemma carried_skip (st0 s : BracketState) (k : nat) :
  carried st0 s k ->
  (forall m, matches st0 !! k = Some m -> unplacedb (matches st0) m = false) ->
  carried st0 s (S k).
Proof.
  intros [Hwf Hfr Hcomp Hnx Hunp Hpl] Hk. split; try assumption.
  - intros j m Hj. apply Hunp. lia.
  - intros j m w n N Hj Hm Hc Hw Hnext.
    destruct (decide (j = k)) as [->|Hne]; [|apply (Hpl j m w n N); auto; lia].
    pose proof (Hunp k m (le_n k) Hm Hc) as E. rewrite (Hk m Hm) in E.
    pose proof (Hnx m) as En. rewrite Hnext in En.
    destruct (nextMatch_of (matches s) m) as [[n' N']|] eqn:Hnext';
      [|discriminate].
    cbn in En. injection En as ->.
    destruct (nextMatch_of_spec _ _ _ _ Hnext') as [HN' _].
    exists N'. split; [exact HN'|].
    eapply unplacedb_false; eauto.
Qed.

Lemma carried_advance (st0 s : BracketState) (k : nat) (m : BracketMatch) :
  carried st0 s k -> matches st0 !! k = Some m ->
  unplacedb (matches st0) m = true ->
  carried st0 (fst (advanceWinner s k)) (S k).
Proof.
  intros [Hwf Hfr Hcomp Hnx Hunp Hpl] Hm Hu.
  pose proof Hu as (Hc & w & n & N0 & Hw & Hnext0 & _)%unplacedb_true.
  pose proof (Hcomp k m Hm Hc) as Hms.
  pose proof (Hunp k m (le_n k) Hm Hc) as Hus. rewrite Hu in Hus.
  apply unplacedb_true in Hus
    as (_ & w' & n' & N & Hw' & Hnext & Ha1 & Ha2).
  assert (w' = w) as -> by congruence.
  assert (n' = n) as ->.
  { pose proof (Hnx m) as E. rewrite Hnext, Hnext0 in E. cbn in E. congruence. }
  destruct (advanceWinner_seats s k n m N w Hwf Hfr Hms Hc Hw Hnext Ha1 Ha2)
    as (nm' & Hseat & Hmatches & Hfr').
  pose proof Hseat as [_ _ _ Hwn _ _ _ [Hr Hid] Hslots _].
  destruct (nextMatch_of_spec _ _ _ _ Hnext) as [HN _].
  assert (Hlt : (n < length (matches s))%nat) by (eapply lookup_lt_Some, HN).
  split.
  - apply (advanceWinner_wf s k m w); try assumption.
    intros n2 N2 Hnext2 _. assert (N2 = N) as -> by congruence. auto.
  - exact Hfr'.
  - intros j X HX HXc. apply advanceWinner_keeps_complete; auto.
  - intros X. rewrite Hmatches.
    rewrite (nextMatch_of_insert (matches s) n N nm' X HN Hr Hid), <- Hnx.
    destruct (nextMatch_of (matches s) X) as [p|]; [|reflexivity].
    cbn. now rewrite retarget_fst.
  - intros j X Hj HX HXc. rewrite Hmatches.
    rewrite (unplacedb_seated s k n j m N nm' X w) by (auto; lia).
    apply (Hunp j X); auto. lia.
  - intros j X x nx NX Hj HX HXc HXw HXn. rewrite Hmatches.
    destruct (decide (j = k)) as [->|Hne].
    + assert (X = m) as -> by congruence.
      assert (x = w) as -> by congruence.
      assert (nx = n) as -> by congruence.
      exists nm'. split; [now apply list_lookup_insert_eq|].
      destruct Hslots as [(_ & E & _)|(_ & _ & _ & E)]; auto.
    + destruct (Hpl j X x nx NX ltac:(lia) HX HXc HXw HXn)
        as (N' & HN' & Hin).
      destruct (decide (nx = n)) as [->|Hnn].
      * assert (N' = N) as -> by congruence.
        exists nm'. split; [now apply list_lookup_insert_eq|].
        assert (Hxn : x <> "")
          by exact (wf_named s Hwf j X (Hcomp j X HX HXc) HXc x HXw).
        destruct Hslots as [(E1 & E2 & E3)|(_ & E1 & E2 & E3)];
          destruct Hin as [Hin|Hin]; try congruence; auto.
        -- right. congruence.
        -- left. congruence.
      * exists N'. split; [|exact Hin].
        now rewrite list_lookup_insert_ne by congruence.
Qed.

Lemma fold_max_ge (xs : list Z) (a : Z) :
  a <= fold_left Z.max xs a /\ forall x, In x xs -> x <= fold_left Z.max xs a.
Proof.
  revert a. induction xs as [|y xs IH]; intros a; cbn; [split; [lia|tauto]|].
  destruct (IH (Z.max a y)) as [H1 H2]. split; [lia|].
  intros x [<-|Hx]; [lia|auto].
Qed.

Lemma maxRound_ge (ms : list BracketMatch) (n : nat) (N : BracketMatch) :
  ms !! n = Some N -> round N <= maxRound ms.
Proof.
  intros HN. unfold maxRound, max_list.
  assert (Hin : In (round N) (map round ms)).
  { apply in_map, list_elem_of_In. eapply list_elem_of_lookup_2, HN. }
  destruct (map round ms) as [|x xs]; [destruct Hin|]. cbn.
  destruct (fold_max_ge xs x) as [H1 H2]. destruct Hin as [<-|Hin]; auto.
Qed.

(** Every pending match is among those that [resume] selects. *)
Lemma unplacedb_candidate (st : BracketState) (j : nat) (m : BracketMatch) :
  wf st -> matches st !! j = Some m -> unplacedb (matches st) m = true ->
  blocked_candidate (maxRound (matches st)) m = true.
Proof.
  intros Hwf Hm (Hc & w & n & N & Hw & Hnext & _)%unplacedb_true.
  destruct (nextMatch_of_spec _ _ _ _ Hnext) as [HN Hr].
  pose proof (maxRound_ge _ _ _ HN).
  unfold blocked_candidate. rewrite Hw.
  rewrite bool_decide_eq_true_2 by exact Hc.
  rewrite (proj2 (truthy_true w)) by exact (wf_named st Hwf j m Hm Hc w Hw).
  cbn. apply Z.ltb_lt. lia.
Qed.

Lemma blocked_candidate_complete (maxR : Z) (m : BracketMatch) :
  blocked_candidate maxR m = true -> status m = complete.
Proof.
  unfold blocked_candidate. intros H.
  apply andb_true_iff in H as [H _]. apply andb_true_iff in H as [H _].
  now apply bool_decide_eq_true in H.
Qed.

(** The loop of [resume], from reference [k] on: it advances the pending
    winners and passes over every other match. *)
Lemma resume_loop (st0 : BracketState) :
  wf st0 ->
  forall suffix k acc,
    drop k (matches st0) = suffix ->
    carried st0 (fst acc) k ->
    let acc' :=
      fold_left resume_step
        (map fst (refs_from (blocked_candidate (maxRound (matches st0))) k
                    suffix)) acc in
    fst acc'
    = fold_left (fun s i => fst (advanceWinner s i))
        (map fst (refs_from (unplacedb (matches st0)) k suffix)) (fst acc) /\
    carried st0 (fst acc') (k + length suffix).
Proof.
  intros Hwf0 suffix.
  induction suffix as [|m suffix IH]; intros k acc Hdrop Hcar; cbn zeta.
  - cbn. rewrite Nat.add_0_r. auto.
  - assert (Hm : matches st0 !! k = Some m).
    { rewrite <- (Nat.add_0_r k), <- lookup_drop, Hdrop. reflexivity. }
    assert (Hdrop' : drop (S k) (matches st0) = suffix).
    { erewrite drop_S in Hdrop by exact Hm. congruence. }
    cbn [refs_from length]. rewrite Nat.add_succ_r.
    change (S (k + length suffix)) with (S k + length suffix)%nat.
    destruct (unplacedb (matches st0) m) eqn:Hu.
    + rewrite (unplacedb_candidate st0 k m Hwf0 Hm Hu).
      cbn [map fold_left fst]. cbv beta.
      pose proof Hu as [Hc _]%unplacedb_true.
      pose proof (car_complete _ _ _ Hcar k m Hm Hc) as Hms.
      assert (Hstep : fst (resume_step acc k) = fst (advanceWinner (fst acc) k)).
      { rewrite (resume_step_spec acc k m Hms Hc)
          by exact (wf_named _ (car_wf _ _ _ Hcar) k m Hms Hc).
        now rewrite (car_unplaced _ _ _ Hcar k m (le_n k) Hm Hc), Hu. }
      rewrite <- Hstep. apply IH; [exact Hdrop'|].
      rewrite Hstep. eapply carried_advance; eauto.
    + assert (Hcar' : carried st0 (fst acc) (S k)).
      { apply carried_skip; [exact Hcar|]. intros m' Hm'. congruence. }
      destruct (blocked_candidate (maxRound (matches st0)) m) eqn:Hcand.
      * cbn [map fold_left fst].
        pose proof (blocked_candidate_complete _ _ Hcand) as Hc.
        pose proof (car_complete _ _ _ Hcar k m Hm Hc) as Hms.
        assert (Hstep : fst (resume_step acc k) = fst acc).
        { rewrite (resume_step_spec acc k m Hms Hc)
            by exact (wf_named _ (car_wf _ _ _ Hcar) k m Hms Hc).
          now rewrite (car_unplaced _ _ _ Hcar k m (le_n k) Hm Hc), Hu. }
        rewrite <- Hstep. apply IH; [exact Hdrop'|]. now rewrite Hstep.
      * apply IH; assumption.
Qed.

Lemma refs_from_sorted (P : BracketMatch -> bool) (ms : list BracketMatch) :
  forall k, StronglySorted lt (map fst (refs_from P k ms)).
Proof.
  induction ms as [|m ms IH]; intros k; cbn [refs_from]; [constructor|].
  destruct (P m); [|apply IH]. cbn [map]. constructor; [apply IH|].
  apply List.Forall_forall. intros n ([n' x] & <- & Hin)%in_map_iff.
  apply refs_from_spec in Hin. cbn. lia.
Qed.

Lemma sorted_ids (l : list nat) :
  StronglySorted lt l ->
  StronglySorted Z.lt (map (fun i => Z.of_nat i + 1) l).
Proof.
  intros Hs. induction Hs as [|a l Hs IH Hall]; cbn [map]; constructor;
    [exact IH|].
  apply List.Forall_forall. intros z (b & <- & Hb)%in_map_iff.
  apply List.Forall_forall with (x := b) in Hall; [lia|exact Hb].
Qed.

(** The pending matches come in ascending order of their match ids. *)
Lemma pending_sorted (st : BracketState) :
  wf st ->
  StronglySorted Z.lt (map (fun p => matchId (snd p)) (pending_matches st)).
Proof.
  intros Hwf. unfold pending_matches.
  assert (E : map (fun p => matchId (snd p))
                (refs_from (unplacedb (matches st)) 0 (matches st))
              = map (fun i => Z.of_nat i + 1)
                  (map fst (refs_from (unplacedb (matches st)) 0 (matches st)))).
  { rewrite map_map. apply map_ext_in. intros [n m] Hin%refs_from_spec.
    rewrite Nat.sub_0_r in Hin. cbn. apply (wf_ids st Hwf). tauto. }
  rewrite E. apply sorted_ids, refs_from_sorted.
Qed.

(** ** [recordWin] in a frozen tournament *)

Lemma recordWin_frozen (st : BracketState) (w l : string) :
  frozen st = true ->
  frozen (fst (recordWin st w l)) = true /\
  forall j m, matches st !! j = Some m -> playerMatches st !! w <> Some j ->
    matches (fst (recordWin st w l)) !! j = Some m.
Proof.
  intros Hfr.
  destruct (recordWin_inv st w l)
    as [->|(i & m & Hi & Hm & _ & [[_ ->]|(_ & _ & ->)])]; cbn [fst].
  - auto.
  - set (st1 := finished st i (completed (winsNeeded st) (scored m w))).
    assert (E : fst (advanceWinner st1 i) = st1).
    { destruct (advanceWinner_inv st1 i) as [E|(? & ? & ? & ? & _ & F & _)];
        [exact E|]. cbn in F. congruence. }
    rewrite E. split; [exact Hfr|].
    intros j X HX Hj. cbn. rewrite list_lookup_insert_ne by congruence.
    exact HX.
  - split; [exact Hfr|].
    intros j X HX Hj. cbn. rewrite list_lookup_insert_ne by congruence.
    exact HX.
Qed.

Lemma resume_resumed (st : BracketState) :
  wf st -> frozen st = true ->
  (exists logs, resume st = Ok (resumed st, logs)) /\
  carried (set_frozen st false) (resumed st) (length (matches st)).
Proof.
  intros Hwf Hfr.
  pose proof (set_frozen_wf st false Hwf) as Hwf0.
  destruct (resume_loop (set_frozen st false) Hwf0 (matches st) 0
              (set_frozen st false, []) eq_refl
              (carried_start _ Hwf0 eq_refl)) as [Heq Hcar].
  cbn [fst] in Heq. change (fold_left _ _ (set_frozen st false))
    with (resumed st) in Heq.
  unfold resume. rewrite (wf_initialized st Hwf), Hfr. cbn [negb].
  cbn [matches set_frozen] in *.
  destruct (fold_left resume_step _ _) as [st' logs] eqn:Hfold.
  cbn [fst] in Heq, Hcar. subst st'. eauto.
Qed.

End BracketProofs.

(* ===================================================================== *)
(** * Properties of the rating store *)
(* ===================================================================== *)

Module LadderProofs.

Import Dex Ladder LadderSpec.
Local Open Scope R_scope.

(** ** Moving a row is a permutation *)

Lemma splice_in_perm (i : nat) (row : LadderRow) (ladder : list LadderRow) :
  Permutation (splice_in i row ladder) (row :: ladder).
Proof.
  unfold splice_in. rewrite <- Permutation_middle.
  now rewrite take_drop.
Qed.

Lemma moveRow_perm (ladder : list LadderRow) (index : nat) (e : R) :
  Permutation (fst (moveRow ladder index e)) ladder.
Proof.
  unfold moveRow. destruct (_ && _); [|reflexivity].
  destruct (ladder !! index) as [row|] eqn:Hrow; [|reflexivity].
  cbn [fst]. rewrite splice_in_perm. symmetry. now apply delete_Permutation.
Qed.

Lemma reorder_perm (ladder : list LadderRow) (p1i p2i : nat) (e1 e2 : R) :
  Permutation (reorder ladder p1i p2i e1 e2) ladder.
Proof.
  unfold reorder. pose proof (moveRow_perm ladder p1i e1) as H1.
  destruct (moveRow ladder p1i e1) as [ladder' moved]. cbn [fst] in H1.
  rewrite moveRow_perm. exact H1.
Qed.

(** ** Rows touched by one call *)

Lemma alter_at_lookup (f : LadderRow -> LadderRow) (i k : nat)
    (ladder : list LadderRow) :
  alter_at f i ladder !! k
  = if decide (k = i) then f <$> ladder !! i else ladder !! k.
Proof.
  unfold alter_at. destruct (ladder !! i) as [row|] eqn:Hrow.
  - case_decide as Hk.
    + subst k. rewrite list_lookup_insert_eq by (eapply lookup_lt_Some; eauto).
      reflexivity.
    + now rewrite list_lookup_insert_ne by congruence.
  - case_decide as Hk; [subst k; now rewrite Hrow|reflexivity].
Qed.

Lemma alter_at_length (f : LadderRow -> LadderRow) (i : nat)
    (ladder : list LadderRow) :
  length (alter_at f i ladder) = length ladder.
Proof.
  unfold alter_at. destruct (ladder !! i); [apply length_insert|reflexivity].
Qed.

Lemma find_user_bound (id : string) (ladder : list LadderRow) (k i : nat) :
  find_user id k ladder = Some i -> (k <= i < k + length ladder)%nat.
Proof.
  revert k. induction ladder as [|r ladder IH]; intros k; cbn; [discriminate|].
  destruct (String.eqb _ _); [intros [= <-]; lia|].
  intros H%IH. lia.
Qed.

(** With [createIfNeeded] the index is that of a row: an old one, or the
    seed row just pushed. *)
Lemma indexOfUser_create (now : string) (ladder : list LadderRow)
    (name : string) :
  exists i : nat,
    (i < length (snd (indexOfUser now ladder name true)))%nat /\
    fst (indexOfUser now ladder name true) = Z.of_nat i /\
    ((snd (indexOfUser now ladder name true) = ladder /\ (i < length ladder)%nat)
     \/ (snd (indexOfUser now ladder name true) = (ladder ++ [seed_row now name])%list
         /\ i = length ladder)).
Proof.
  unfold indexOfUser. destruct (find_user _ 0 ladder) as [i|] eqn:E.
  - apply find_user_bound in E. exists i. cbn.
    split; [lia|]. split; [reflexivity|]. left. split; [reflexivity|lia].
  - exists (length ladder). cbn. rewrite length_app. cbn.
    split; [lia|]. split; [reflexivity|]. right. auto.
Qed.

Lemma at_index_of_nat {A} (xs : list A) (i : nat) :
  Ladder.at_index xs (Z.of_nat i) = xs !! i.
Proof.
  unfold Ladder.at_index. destruct (Z.ltb_spec (Z.of_nat i) 0); [lia|].
  now rewrite Nat2Z.id.
Qed.

(** The shape of a call that goes through: the two lookups push at most two
    seed rows, both rows exist, the result is written into them, and the
    ladder is reordered. *)
Lemma updateRating_shape (now : string) (battle : bool)
    (ladder : list LadderRow) (p1name p2name : string) (p1score : R) :
  exists (extra : list LadderRow) (p1i p2i : nat) (row1 row2 : LadderRow)
         (e1 e2 : R),
    let s1 := if Rlt_dec p1score 0 then 0 else p1score in
    let s2 := if Rlt_dec p1score 0 then 0 else 1 - p1score in
    let ladder2 := (ladder ++ extra)%list in
    Forall (fun r => exists name, r = seed_row now name) extra /\
    (forall k, (length ladder <= k < length ladder2)%nat -> k = p1i \/ k = p2i) /\
    ladder2 !! p1i = Some row1 /\ ladder2 !! p2i = Some row2 /\
    fst (updateRating false now battle ladder p1name p2name p1score)
    = reorder (record_result now ladder2 p1i p2i row1 row2 s1 s2
                 (toID p1name) (toID p2name))
        p1i p2i e1 e2.
Proof.
  unfold updateRating.
  set (s1 := if Rlt_dec p1score 0 then 0 else p1score).
  set (s2 := if Rlt_dec p1score 0 then 0 else 1 - p1score).
  replace (if Rlt_dec p1score 0 then (0, 0) else (p1score, 1 - p1score))
    with (s1, s2) by (subst s1 s2; now destruct (Rlt_dec p1score 0)).
  destruct (indexOfUser_create now ladder p1name) as (p1i & Hlt1 & Hi1 & Hl1).
  destruct (indexOfUser now ladder p1name true) as [p1index ladder1].
  cbn [fst snd] in *. subst p1index.
  destruct (indexOfUser_create now ladder1 p2name) as (p2i & Hlt2 & Hi2 & Hl2).
  destruct (indexOfUser now ladder1 p2name true) as [p2index ladder2].
  cbn [fst snd] in *. subst p2index.
  rewrite !at_index_of_nat, !Nat2Z.id.
  assert (Hlen12 : (length ladder1 <= length ladder2)%nat).
  { destruct Hl2 as [[-> _]|[-> _]]; [lia|]. rewrite length_app. lia. }
  destruct (lookup_lt_is_Some_2 ladder2 p1i) as [row1 Hrow1]; [lia|].
  destruct (lookup_lt_is_Some_2 ladder2 p2i) as [row2 Hrow2]; [lia|].
  rewrite Hrow1, Hrow2.
  set (ladder3 := record_result now ladder2 p1i p2i row1 row2 s1 s2 _ _).
  assert (Hlen3 : length ladder3 = length ladder2).
  { subst ladder3. unfold record_result. now rewrite !alter_at_length. }
  destruct (lookup_lt_is_Some_2 ladder3 p1i) as [r1 Hr1]; [lia|].
  destruct (lookup_lt_is_Some_2 ladder3 p2i) as [r2 Hr2]; [lia|].
  rewrite Hr1, Hr2. cbn [fst].
  assert (Hex : exists extra,
            ladder2 = (ladder ++ extra)%list /\
            Forall (fun r => exists name, r = seed_row now name) extra /\
            (forall k, (length ladder <= k < length ladder2)%nat ->
                       k = p1i \/ k = p2i)).
  { destruct Hl2 as [[-> Hb2]|[-> ->]]; destruct Hl1 as [[-> Hb1]|[-> ->]].
    - exists []. rewrite app_nil_r. repeat split; [constructor|lia].
    - exists [seed_row now p1name]. repeat split.
      + repeat constructor. eauto.
      + rewrite length_app. cbn. lia.
    - exists [seed_row now p2name]. repeat split.
      + repeat constructor. eauto.
      + rewrite length_app. cbn. lia.
    - exists [seed_row now p1name; seed_row now p2name].
      rewrite <- app_assoc. repeat split.
      + repeat constructor; eauto.
      + rewrite !length_app. cbn. lia. }
  destruct Hex as (extra & -> & Hseed & Hidx).
  exists extra, p1i, p2i, row1, row2, (eloRating r1), (eloRating r2).
  cbn zeta. repeat split; try assumption; try reflexivity.
Qed.

(** ** Win and loss counters *)

Lemma total_app (col : LadderRow -> Z) (xs ys : list LadderRow) :
  total col (xs ++ ys) = (total col xs + total col ys)%Z.
Proof.
  unfold total. induction xs as [|x xs IH]; cbn; [reflexivity|].
  fold (map col (xs ++ ys)). rewrite IH. lia.
Qed.

Lemma total_perm (col : LadderRow -> Z) (xs ys : list LadderRow) :
  Permutation xs ys -> total col xs = total col ys.
Proof.
  unfold total. induction 1; cbn; lia.
Qed.

Lemma alter_at_total (col : LadderRow -> Z) (f : LadderRow -> LadderRow)
    (i : nat) (ladder : list LadderRow) (d : Z) :
  (forall r, col (f r) = (col r + d)%Z) ->
  (i < length ladder)%nat ->
  total col (alter_at f i ladder) = (total col ladder + d)%Z.
Proof.
  intros Hf Hi. unfold alter_at.
  destruct (lookup_lt_is_Some_2 ladder i Hi) as [r Hr]. rewrite Hr.
  rewrite insert_take_drop by exact Hi.
  rewrite <- (take_drop_middle ladder i r Hr) at 3.
  rewrite !total_app. unfold total at 2 4. cbn. rewrite Hf. lia.
Qed.

Lemma updateRow_w now row score e g d :
  w (updateRow now row score e g d) = (w row + w_step score)%Z.
Proof.
  unfold updateRow, w_step. destruct (calculateGlicko _ _ _ _ _).
  cbn. destruct (Rgt_dec score (6 / 10)); lia.
Qed.

Lemma updateRow_l now row score e g d :
  l (updateRow now row score e g d) = (l row + l_step score)%Z.
Proof.
  unfold updateRow, l_step. destruct (calculateGlicko _ _ _ _ _).
  cbn. destruct (Rgt_dec score (6 / 10)); [lia|].
  destruct (Rlt_dec score (4 / 10)); lia.
Qed.

Lemma updateH2H_w row id o : w (updateH2H row id o) = w row.
Proof. unfold updateH2H. now destruct (h2hData row). Qed.

Lemma updateH2H_l row id o : l (updateH2H row id o) = l row.
Proof. unfold updateH2H. now destruct (h2hData row). Qed.

Lemma record_result_total_w now ladder p1i p2i row1 row2 s1 s2 id1 id2 :
  (p1i < length ladder)%nat -> (p2i < length ladder)%nat ->
  total w (record_result now ladder p1i p2i row1 row2 s1 s2 id1 id2)
  = (total w ladder + w_step s1 + w_step s2)%Z.
Proof.
  intros H1 H2. unfold record_result.
  rewrite (alter_at_total w _ _ _ 0) by
    (rewrite ?alter_at_length; auto; intros; rewrite updateH2H_w; lia).
  rewrite (alter_at_total w _ _ _ 0) by
    (rewrite ?alter_at_length; auto; intros; rewrite updateH2H_w; lia).
  rewrite (alter_at_total w _ _ _ (w_step s2)) by
    (rewrite ?alter_at_length; auto; intros; apply updateRow_w).
  rewrite (alter_at_total w _ _ _ (w_step s1)) by
    (auto; intros; apply updateRow_w).
  lia.
Qed.

Lemma record_result_total_l now ladder p1i p2i row1 row2 s1 s2 id1 id2 :
  (p1i < length ladder)%nat -> (p2i < length ladder)%nat ->
  total l (record_result now ladder p1i p2i row1 row2 s1 s2 id1 id2)
  = (total l ladder + l_step s1 + l_step s2)%Z.
Proof.
  intros H1 H2. unfold record_result.
  rewrite (alter_at_total l _ _ _ 0) by
    (rewrite ?alter_at_length; auto; intros; rewrite updateH2H_l; lia).
  rewrite (alter_at_total l _ _ _ 0) by
    (rewrite ?alter_at_length; auto; intros; rewrite updateH2H_l; lia).
  rewrite (alter_at_total l _ _ _ (l_step s2)) by
    (rewrite ?alter_at_length; auto; intros; apply updateRow_l).
  rewrite (alter_at_total l _ _ _ (l_step s1)) by
    (auto; intros; apply updateRow_l).
  lia.
Qed.

Lemma total_seeds (col : LadderRow -> Z) (now : string) (extra : list LadderRow) :
  (forall name, col (seed_row now name) = 0%Z) ->
  Forall (fun r => exists name, r = seed_row now name) extra ->
  total col extra = 0%Z.
Proof.
  intros Hcol H. induction H as [|r extra [name ->] _ IH]; [reflexivity|].
  unfold total in *. cbn. rewrite Hcol, IH. reflexivity.
Qed.

(** What one call adds to the two totals. *)
Lemma updateRating_totals now battle ladder p1name p2name p1score :
  let s1 := if Rlt_dec p1score 0 then 0 else p1score in
  let s2 := if Rlt_dec p1score 0 then 0 else 1 - p1score in
  let ladder' := fst (updateRating false now battle ladder p1name p2name p1score) in
  total w ladder' = (total w ladder + w_step s1 + w_step s2)%Z /\
  total l ladder' = (total l ladder + l_step s1 + l_step s2)%Z.
Proof.
  intros s1 s2 ladder'. subst ladder'.
  destruct (updateRating_shape now battle ladder p1name p2name p1score)
    as (extra & p1i & p2i & row1 & row2 & e1 & e2 & Hseed & _ & Hr1 & Hr2 & ->).
  apply lookup_lt_Some in Hr1, Hr2.
  rewrite !(total_perm _ _ _ (reorder_perm _ _ _ _ _)).
  rewrite record_result_total_w, record_result_total_l by assumption.
  rewrite !total_app.
  rewrite (total_seeds w now extra), (total_seeds l now extra) by auto.
  fold s1 s2. lia.
Qed.

Lemma steps_balance (s : R) :
  0 <= s ->
  (w_step s + w_step (1 - s) = l_step s + l_step (1 - s))%Z.
Proof.
  intros Hs. unfold w_step, l_step.
  destruct (Rgt_dec s (6 / 10)), (Rgt_dec (1 - s) (6 / 10)),
    (Rlt_dec s (4 / 10)), (Rlt_dec (1 - s) (4 / 10)); try lia; exfalso; lra.
Qed.

Lemma after_call_totals (ladder : list LadderRow) (c : Call) :
  let s1 := if Rlt_dec (call_score c) 0 then 0 else call_score c in
  let s2 := if Rlt_dec (call_score c) 0 then 0 else 1 - call_score c in
  let d := if call_disabled c then 0%Z else 1%Z in
  total w (after_call ladder c)
  = (total w ladder + d * (w_step s1 + w_step s2))%Z /\
  total l (after_call ladder c)
  = (total l ladder + d * (l_step s1 + l_step s2))%Z.
Proof.
  unfold after_call. destruct (call_disabled c) eqn:Hd.
  - unfold updateRating. cbn [fst]. split; lia.
  - cbn zeta.
    destruct (updateRating_totals (call_now c) (call_battle c) ladder
                (call_p1 c) (call_p2 c) (call_score c)) as [Hw Hl].
    rewrite Hw, Hl. split; lia.
Qed.

Lemma run_balanced (calls : list Call) :
  forall ladder,
    Forall (fun c => 0 <= call_score c) calls ->
    total w ladder = total l ladder ->
    total w (run calls ladder) = total l (run calls ladder).
Proof.
  induction calls as [|c calls IH]; intros ladder Hall Heq; [exact Heq|].
  inversion Hall as [|c' calls' Hc Hrest]; subst.
  cbn [run fold_left]. apply IH; [exact Hrest|].
  destruct (after_call_totals ladder c) as [-> ->].
  destruct (Rlt_dec (call_score c) 0) as [Hneg|_]; [lra|].
  rewrite (steps_balance _ Hc), Heq. reflexivity.
Qed.

(** C9 (as amended).  Over any sequence of calls whose [p1score] is not
    negative, applied to the empty ladder, the [w] counters of all rows add up
    to the same as the [l] counters.  A call with a negative [p1score] (ladders
    enabled) adds two to the sum of the [l] counters and nothing to that of
    the [w] counters. *)
Theorem wins_equal_losses :
  (forall calls : list Call,
     Forall (fun c => 0 <= call_score c) calls ->
     total w (run calls []) = total l (run calls [])) /\
  (forall (ladder : list LadderRow) (c : Call),
     call_score c < 0 -> call_disabled c = false ->
     total w (after_call ladder c) = total w ladder /\
     total l (after_call ladder c) = (total l ladder + 2)%Z).
Proof.
  split.
  - intros calls Hall. now apply run_balanced.
  - intros ladder c Hneg Hd.
    destruct (after_call_totals ladder c) as [-> ->]. rewrite Hd.
    destruct (Rlt_dec (call_score c) 0) as [_|]; [|lra].
    unfold w_step, l_step.
    destruct (Rgt_dec 0 (6 / 10)); [lra|].
    destruct (Rlt_dec 0 (4 / 10)); [|lra]. split; lia.
Qed.

Lemma wins_equal_losses_witness :
  total w (run three_battles []) = total l (run three_battles []).
Proof.
  apply (proj1 wins_equal_losses).
  repeat constructor; cbn; lra.
Defined.

(** C9 (as stated) fails: one battle with a negative score, on the empty
    ladder, leaves no win and two losses. *)
Lemma negative_score_two_losses :
  total w (run [mkCall "Ann" "Ben" (-1) "d1" true false] []) = 0%Z /\
  total l (run [mkCall "Ann" "Ben" (-1) "d1" true false] []) = 2%Z /\
  total w (run [mkCall "Ann" "Ben" (-1) "d1" true false] [])
  <> total l (run [mkCall "Ann" "Ben" (-1) "d1" true false] []).
Proof.
  cbn [run fold_left].
  destruct (after_call_totals [] (mkCall "Ann" "Ben" (-1) "d1" true false))
    as [Hw Hl].
  cbn [call_score call_disabled] in Hw, Hl.
  destruct (Rlt_dec (-1) 0) as [_|]; [|lra].
  unfold w_step, l_step in Hw, Hl.
  destruct (Rgt_dec 0 (6 / 10)); [lra|].
  destruct (Rlt_dec 0 (4 / 10)); [|lra].
  rewrite Hw, Hl. cbn. repeat split; lia.
Qed.
(** ** The [gxe] column *)

Lemma round_bounds (x : R) (lo hi : Z) :
  IZR lo - / 2 < x -> x < IZR hi + / 2 ->
  IZR lo <= Math.round x <= IZR hi.
Proof.
  intros Hlo Hhi. unfold Math.round.
  destruct (base_Int_part (x + / 2)) as [Hle Hgt].
  split; apply IZR_le.
  - assert (IZR (lo - 1) < IZR (Int_part (x + / 2))) as H%lt_IZR
      by (rewrite minus_IZR; lra). lia.
  - assert (IZR (Int_part (x + / 2)) < IZR (hi + 1)) as H%lt_IZR
      by (rewrite plus_IZR; lra). lia.
Qed.

Lemma glixare_bounds (e : R) : 0 < 10000 / (1 + Math.pow10 e) < 10000.
Proof.
  assert (Hp : 0 < Math.pow10 e) by apply exp_pos.
  split.
  - apply Rdiv_lt_0_compat; lra.
  - apply Rmult_lt_reg_r with (1 + Math.pow10 e); [lra|].
    unfold Rdiv. rewrite Rmult_assoc, Rinv_l by lra. lra.
Qed.

Lemma calculateGXE_ok (rating rd : R) :
  match calculateGXE rating rd with
  | GxeText s => s = "Unknown"%string /\ rd > 100
  | GxeNum p => rd <= 100 /\ 0 <= p <= 100
  end.
Proof.
  unfold calculateGXE. destruct (Rgt_dec rd 100) as [Hgt|Hle]; [auto|].
  split; [lra|].
  match goal with |- context [Math.round ?x] =>
    pose proof (glixare_bounds
                  ((1500 - rating) * Math.PI /
                   Math.sqrt (3 * Math.sq (Math.log 10) * Math.sq rd
                              + 2500 * (64 * Math.sq Math.PI
                                        + 147 * Math.sq (Math.log 10)))))
      as [Hlo Hhi];
    destruct (round_bounds x 0 10000) as [H0 H1]; [lra|lra|]
  end.
  lra.
Qed.

Lemma updateRow_gxe_ok now row score e g d :
  gxe_ok (updateRow now row score e g d).
Proof.
  unfold gxe_ok, updateRow.
  destruct (calculateGlicko _ _ _ _ _) as [newGlicko newRd]. cbn.
  apply calculateGXE_ok.
Qed.

Lemma updateH2H_gxe_ok row id o : gxe_ok row -> gxe_ok (updateH2H row id o).
Proof. unfold gxe_ok, updateH2H. now destruct (h2hData row). Qed.

Lemma alter_at_cases (f : LadderRow -> LadderRow) (i k : nat)
    (ladder : list LadderRow) (r : LadderRow) :
  alter_at f i ladder !! k = Some r ->
  (k <> i /\ ladder !! k = Some r) \/
  (k = i /\ exists r0, ladder !! i = Some r0 /\ r = f r0).
Proof.
  rewrite alter_at_lookup. case_decide as Hk; [|auto].
  subst k. destruct (ladder !! i) as [r0|]; [|discriminate].
  intros [= <-]. right. eauto.
Qed.

(** After the result has been written, the two rows obey the rule, whatever
    they held before, and the other rows are as they were. *)
Lemma record_result_gxe now ladder p1i p2i row1 row2 s1 s2 id1 id2 :
  forall k r,
    record_result now ladder p1i p2i row1 row2 s1 s2 id1 id2 !! k = Some r ->
    (k <> p1i /\ k <> p2i /\ ladder !! k = Some r) \/
    ((k = p1i \/ k = p2i) /\ gxe_ok r).
Proof.
  intros k r. unfold record_result. intros H4.
  apply alter_at_cases in H4 as [[N4 H3]|(-> & r3 & H3 & ->)];
    apply alter_at_cases in H3 as [[N3 H2]|(E3 & r2 & H2 & ->)];
    apply alter_at_cases in H2 as [[N2 H1]|(E2 & r1 & H1 & ->)];
    apply alter_at_cases in H1 as [[N1 H0]|(E1 & r0 & H0 & ->)];
    subst; try congruence;
    try (left; now auto);
    right; (split; [now auto|]);
    repeat apply updateH2H_gxe_ok; apply updateRow_gxe_ok.
Qed.

Lemma after_call_gxe (ladder : list LadderRow) (c : Call) :
  Forall gxe_ok ladder -> Forall gxe_ok (after_call ladder c).
Proof.
  intros Hok. unfold after_call. destruct (call_disabled c).
  { unfold updateRating. exact Hok. }
  destruct (updateRating_shape (call_now c) (call_battle c) ladder
              (call_p1 c) (call_p2 c) (call_score c))
    as (extra & p1i & p2i & row1 & row2 & e1 & e2 & _ & Hidx & _ & _ & ->).
  rewrite (reorder_perm _ _ _ _ _).
  apply Forall_lookup_2. intros k r Hk.
  apply record_result_gxe in Hk as [(N1 & N2 & Hk)|[_ Hr]]; [|exact Hr].
  assert (Hlt : (k < length ladder)%nat).
  { apply lookup_lt_Some in Hk as Hlt.
    destruct (decide (k < length ladder)%nat) as [?|Hge]; [assumption|].
    destruct (Hidx k); [lia|congruence|congruence]. }
  rewrite lookup_app_l in Hk by exact Hlt.
  eapply Forall_lookup_1; eauto.
Qed.

(** C4 (as amended).  If every row of a ladder obeys the rule of the [gxe]
    column (the text "Unknown" exactly when the deviation exceeds 100, else a
    number between 0 and 100), so does every row after any sequence of
    [updateRating] calls, the rows created by those calls included. *)
Theorem gxe_rule_kept (calls : list Call) (ladder : list LadderRow) :
  Forall gxe_ok ladder -> Forall gxe_ok (run calls ladder).
Proof.
  revert ladder. induction calls as [|c calls IH]; intros ladder Hok;
    [exact Hok|].
  cbn [run fold_left]. apply IH. now apply after_call_gxe.
Qed.

Lemma gxe_rule_kept_witness : Forall gxe_ok (run three_battles []).
Proof.
  apply (gxe_rule_kept three_battles []). constructor.
Defined.

(** C4 (as stated) fails on the row that [indexOfUser] creates: its deviation
    is 130 and its [gxe] is the number 50, not the text "Unknown". *)
Lemma seed_row_gxe_is_number :
  indexOfUser "d1" [] "Ann" true = (0%Z, [seed_row "d1" "Ann"]) /\
  ratingDeviation (seed_row "d1" "Ann") = 130 /\
  gxe (seed_row "d1" "Ann") = GxeNum 50 /\
  gxe (seed_row "d1" "Ann") <> GxeText "Unknown" /\
  ~ gxe_ok (seed_row "d1" "Ann").
Proof.
  repeat split; try reflexivity; try discriminate.
  unfold gxe_ok. cbn. lra.
Qed.

(** ** Order of the ladder *)

Lemma updateRow_elo now row score e g d :
  eloRating (updateRow now row score e g d)
  = calculateElo (eloRating row) score e (gamesPlayed row).
Proof.
  unfold updateRow. now destruct (calculateGlicko _ _ _ _ _).
Qed.

Lemma updateRow_userid now row score e g d :
  userid (updateRow now row score e g d) = userid row.
Proof.
  unfold updateRow. now destruct (calculateGlicko _ _ _ _ _).
Qed.

Lemma updateH2H_elo row id o : eloRating (updateH2H row id o) = eloRating row.
Proof. unfold updateH2H. now destruct (h2hData row). Qed.

Lemma updateH2H_userid row id o : userid (updateH2H row id o) = userid row.
Proof. unfold updateH2H. now destruct (h2hData row). Qed.

(** A loss between two new players on 1500 costs 16 points. *)
Lemma calculateElo_tied_loss : calculateElo 1500 0 1500 0 = 1484.
Proof.
  unfold calculateElo. cbn [Z.ltb Z.compare].
  destruct (Rlt_dec 1500 1100); [lra|].
  destruct (Rgt_dec 1500 1600); [lra|].
  replace (1500 - 1500) with 0 by lra. rewrite Rabs_R0.
  destruct (Rgt_dec 0 200); [lra|].
  unfold Math.pow10. replace (0 / 400) with 0 by lra.
  rewrite Rpower_O by lra.
  replace (1500 + 32 * (0 - 1 / (1 + 1))) with 1484 by lra.
  apply Rmax_left. lra.
Qed.

Lemma reorder_tied (a b c : LadderRow) :
  eloRating a = 1484 -> eloRating b = 1484 -> eloRating c = 1490 ->
  reorder [a; b; c] 0 1 (eloRating a) (eloRating b) = [b; a; c].
Proof.
  intros Ha Hb Hc. unfold reorder, moveRow.
  cbn [scanUp drop scanDown Nat.eqb].
  destruct (Rgt_dec (eloRating b) (eloRating a)); [lra|].
  cbn [Nat.eqb Nat.add negb andb fst].
  cbn [scanUp lookup list_lookup].
  destruct (Rle_dec (eloRating a) (eloRating b)); [|lra].
  cbn [drop scanDown Nat.eqb].
  destruct (Rgt_dec (eloRating a) (eloRating b)); [lra|].
  reflexivity.
Qed.

Lemma updateRating_tied_invalid :
  fst (updateRating false "d1" true tied_ladder "p1" "p2" (-1))
  = [invalid_p2; invalid_p1; plain_row "c" 1490].
Proof.
  unfold updateRating.
  destruct (Rlt_dec (-1) 0) as [_|]; [|lra].
  change (indexOfUser "d1" tied_ladder "p1" true) with (0%Z, tied_ladder).
  cbv beta iota zeta.
  change (indexOfUser "d1" tied_ladder "p2" true) with (1%Z, tied_ladder).
  cbv beta iota zeta.
  change (at_index tied_ladder 0) with (Some (plain_row "p1" 1500)).
  change (at_index tied_ladder 1) with (Some (plain_row "p2" 1500)).
  cbv beta iota zeta.
  change (Z.to_nat 0) with 0%nat. change (Z.to_nat 1) with 1%nat.
  change (toID "p1") with "p1"%string. change (toID "p2") with "p2"%string.
  assert (Hout : outcome_of 0 = loss).
  { unfold outcome_of. destruct (Rgt_dec 0 (6 / 10)); [lra|].
    destruct (Rlt_dec 0 (4 / 10)); [reflexivity|lra]. }
  assert (Hrec :
    record_result "d1" tied_ladder 0 1 (plain_row "p1" 1500)
      (plain_row "p2" 1500) 0 0 "p1" "p2"
    = [invalid_p1; invalid_p2; plain_row "c" 1490]).
  { unfold record_result. rewrite Hout. reflexivity. }
  rewrite Hrec. cbn [lookup list_lookup fst].
  apply reorder_tied.
  - unfold invalid_p1. rewrite updateH2H_elo, updateRow_elo.
    apply calculateElo_tied_loss.
  - unfold invalid_p2. rewrite updateH2H_elo, updateRow_elo.
    apply calculateElo_tied_loss.
  - reflexivity.
Qed.

(** C3.  The ladder with two players on 1500 above one on 1490 is sorted.
    After [updateRating] for a battle between the two, scored as invalid
    ([p1score] negative, both scores forced to 0), both are on 1484 and stand
    above the player on 1490: the ladder is no longer sorted. *)
Theorem negative_score_breaks_order :
  sorted_desc tied_ladder /\
  map (fun r => (userid r, eloRating r))
    (fst (updateRating false "d1" true tied_ladder "p1" "p2" (-1)))
  = [("p2"%string, 1484); ("p1"%string, 1484); ("c"%string, 1490)] /\
  ~ sorted_desc (fst (updateRating false "d1" true tied_ladder "p1" "p2" (-1))).
Proof.
  assert (E1 : eloRating invalid_p1 = 1484).
  { unfold invalid_p1. rewrite updateH2H_elo, updateRow_elo.
    apply calculateElo_tied_loss. }
  assert (E2 : eloRating invalid_p2 = 1484).
  { unfold invalid_p2. rewrite updateH2H_elo, updateRow_elo.
    apply calculateElo_tied_loss. }
  split; [|split].
  - intros i j ri rj Hij Hi Hj. unfold tied_ladder in *.
    destruct i as [|[|[|i]]], j as [|[|[|j]]]; try lia;
      cbn in Hi, Hj; try discriminate;
      injection Hi as <-; injection Hj as <-; cbn; lra.
  - rewrite updateRating_tied_invalid. cbn [map]. rewrite E1, E2.
    unfold invalid_p1, invalid_p2.
    rewrite !updateH2H_userid, !updateRow_userid. reflexivity.
  - rewrite updateRating_tied_invalid. intros Hsorted.
    specialize (Hsorted 1%nat 2%nat invalid_p1 (plain_row "c" 1490)
                  ltac:(lia) eq_refl eq_refl).
    rewrite E1 in Hsorted. cbn in Hsorted. lra.
Qed.

End LadderProofs.

(* ===================================================================== *)
(** * Further properties of the bracket controller and its callers *)
(* ===================================================================== *)

Module BracketExtra.

Import Dex Bracket Handlers BracketSpec BracketProofs.
Local Open Scope Z_scope.

(** ** Sample tournaments are tournaments *)

Lemma four_players_valid : valid_players four_players.
Proof.
  split.
  - vm_compute. repeat constructor; cbn; intuition discriminate.
  - vm_compute. intuition discriminate.
Defined.

Lemma started_reachable : reachable_from four_players (started four_players 1).
Proof.
  apply (reach_init four_players "gen1ou" 1 false no_shuffle). reflexivity.
Defined.

Lemma final_ready_reachable : reachable_from four_players final_ready.
Proof.
  apply reach_step with (st := alice_through); [|apply step_recordWin].
  apply reach_step with (st := started four_players 1);
    [|apply step_recordWin].
  exact started_reachable.
Defined.

(** ** Queries *)

Lemma canMatch_inv (st : BracketState) (a b : string) :
  canMatch st a b = true ->
  initialized st = true /\
  exists i m, playerMatches st !! a = Some i /\ matches st !! i = Some m /\
    status m = active /\
    (frozen st && negb (round m =? getEarliestIncompleteRound st)) = false /\
    opponents m a b = true.
Proof.
  unfold canMatch, match_of.
  destruct (initialized st); cbn [negb]; [|discriminate].
  destruct (playerMatches st !! a) as [i|]; [|discriminate].
  destruct (matches st !! i) as [m|] eqn:Hm; [|discriminate].
  destruct (bool_decide (status m = active)) eqn:Hact; cbn [negb];
    [|discriminate].
  destruct (frozen st && negb (round m =? getEarliestIncompleteRound st))
    eqn:Hfr; [discriminate|].
  intros Hop. apply bool_decide_eq_true in Hact.
  split; [reflexivity|]. exists i, m. auto.
Qed.

Lemma opponents_other (m : BracketMatch) (a b : string) :
  opponents m a b = true ->
  (if String.eqb (player1 m) a then player2 m else player1 m) = b.
Proof.
  unfold opponents.
  destruct (String.eqb_spec (player1 m) a) as [E1|N1]; cbn [andb orb].
  - destruct (String.eqb_spec (player2 m) b) as [E2|N2]; [auto|].
    cbn [orb]. intros [H1 H2]%andb_true_iff.
    apply String.eqb_eq in H1, H2. congruence.
  - intros [H1 H2]%andb_true_iff. now apply String.eqb_eq in H2.
Qed.

Lemma canMatch_queries (st : BracketState) (a b : string) :
  canMatch st a b = true ->
  getOpponent st a = Some b /\ canSearch st a = true.
Proof.
  intros (Hinit & i & m & Hi & Hm & Hact & Hfr & Hop)%canMatch_inv.
  unfold getOpponent, canSearch, match_of, is_live.
  rewrite Hinit, Hi, Hm, Hfr. cbn [negb].
  rewrite (bool_decide_eq_true_2 _ Hact). cbn [negb orb].
  split; [|reflexivity]. f_equal. now apply opponents_other.
Qed.

(** X1.  Whenever [canMatch a b] holds, in any state whatever, [b] is the
    opponent that [getOpponent] reports for [a], and [canSearch] lets [a]
    search. *)
Theorem canMatch_getOpponent (st : BracketState) (a b : string) :
  canMatch st a b = true ->
  getOpponent st a = Some b /\ canSearch st a = true.
Proof. apply canMatch_queries. Qed.

Lemma canMatch_getOpponent_witness :
  getOpponent final_ready "alice" = Some "bob" /\
  canSearch final_ready "alice" = true.
Proof.
  apply (canMatch_getOpponent final_ready "alice" "bob"). reflexivity.
Defined.

(** X2.  In a tournament among valid players [playerMatches] holds exactly
    the players of the active matches: an identity is mapped to a reference
    if and only if the match behind it is active and has the identity as
    one of its two players. *)
Theorem playerMatches_exact (players : list string) (st : BracketState)
    (id : string) (i : nat) :
  valid_players players -> reachable_from players st ->
  (playerMatches st !! id = Some i <->
   exists m, matches st !! i = Some m /\ status m = active /\
             (player1 m = id \/ player2 m = id)).
Proof.
  intros Hv Hr. pose proof (reachable_wf players st Hv Hr) as Hwf. split.
  - apply (wf_sound st Hwf).
  - intros (m & Hm & Hact & [<-| <-]);
      now destruct (wf_mapped st Hwf i m Hm Hact).
Qed.

Lemma playerMatches_exact_witness :
  playerMatches final_ready !! "bob" = Some 2%nat.
Proof.
  apply (playerMatches_exact four_players final_ready "bob" 2
           four_players_valid final_ready_reachable).
  exists (mkMatch 2 3 "alice" "bob" "Alice" "Bob" 0 0 active None None).
  split; [reflexivity|]. split; [reflexivity|]. right. reflexivity.
Defined.



(** ** Results are final *)

Lemma recordWin_keeps_complete (st : BracketState) (w l : string) (j : nat)
    (X : BracketMatch) :
  wf st -> matches st !! j = Some X -> status X = complete ->
  matches (fst (recordWin st w l)) !! j = Some X.
Proof.
  intros Hwf HX Hc.
  destruct (recordWin_inv st w l)
    as [->|(i & m & Hi & Hm & _ & [[_ ->]|(_ & _ & ->)])]; [exact HX| |];
    cbn [fst];
    destruct (wf_sound st Hwf w i Hi) as (m' & Hm' & Hact & Hpl);
    assert (m' = m) as -> by congruence;
    assert (Hji : j <> i) by (intros ->; congruence).
  - destruct (scored_same_seats m w) as (Er & Eid & E1 & E2 & Es & Ew).
    destruct (completed_fields (winsNeeded st) (scored m w))
      as (Cr & Cid & C1 & C2 & Cs & x & Cw & Cx).
    apply advanceWinner_keeps_complete; [| |exact Hc].
    + apply (wf_finished st i m _ x); try assumption; try congruence.
    + cbn. now rewrite list_lookup_insert_ne by congruence.
  - cbn. now rewrite list_lookup_insert_ne by congruence.
Qed.

(** X4.  In a tournament among valid players a complete match is never
    touched again: whatever [recordWin], [freeze] or [resume] does next, the
    match keeps its players, its scores and its winner. *)
Theorem results_final (players : list string) (st st' : BracketState)
    (j : nat) (X : BracketMatch) :
  valid_players players -> reachable_from players st -> step st st' ->
  matches st !! j = Some X -> status X = complete ->
  matches st' !! j = Some X.
Proof.
  intros Hv Hr Hstep HX Hc. pose proof (reachable_wf players st Hv Hr) as Hwf.
  destruct Hstep as [st w l|st st' logs Hf|st st' logs Hres].
  - now apply recordWin_keeps_complete.
  - apply freeze_inv in Hf as (_ & _ & ->). exact HX.
  - pose proof Hres as (_ & Hfr & _)%resume_inv.
    destruct (resume_resumed st Hwf Hfr) as [[logs' Hres'] Hcar].
    assert (st' = resumed st) as -> by congruence.
    now apply (car_complete _ _ _ Hcar).
Qed.

Lemma results_final_witness :
  matches final_ready !! 0%nat
  = Some (mkMatch 1 1 "alice" "dave" "Alice" "Dave" 1 0 complete
            (Some "alice") (Some "Alice")).
Proof.
  apply (results_final four_players alice_through final_ready 0 _
           four_players_valid).
  - apply reach_step with (st := started four_players 1);
      [exact started_reachable|apply step_recordWin].
  - apply step_recordWin.
  - reflexivity.
  - reflexivity.
Defined.

(** X5.  In a tournament among valid players only winners advance: every
    player seated in a match of round 2 or later is the winner of a complete
    match of the round before, and that match is one whose next match is
    the match the player sits in. *)
Theorem only_winners_advance (players : list string) (st : BracketState)
    (n : nat) (N : BracketMatch) (x : string) :
  valid_players players -> reachable_from players st ->
  matches st !! n = Some N -> 2 <= round N -> x <> "" ->
  player1 N = x \/ player2 N = x ->
  exists i M, matches st !! i = Some M /\ status M = complete /\
    winner M = Some x /\ round M + 1 = round N /\
    nextMatch_of (matches st) M = Some (n, N).
Proof.
  intros Hv Hr HN Hr2 Hx Hpl. pose proof (reachable_wf players st Hv Hr) as Hwf.
  destruct (wf_tracked st Hwf n N x HN Hr2 Hx Hpl)
    as (i & M & HM & Hc & Hw & N0 & Hnext).
  destruct (nextMatch_of_spec _ _ _ _ Hnext) as [HN0 HrN].
  assert (N0 = N) as -> by congruence.
  exists i, M. repeat split; try assumption. lia.
Qed.

Lemma only_winners_advance_witness :
  exists i M, matches final_ready !! i = Some M /\ status M = complete /\
    winner M = Some "bob" /\ round M + 1 = 2 /\
    nextMatch_of (matches final_ready) M
    = Some (2%nat, mkMatch 2 3 "alice" "bob" "Alice" "Bob" 0 0 active None
                     None).
Proof.
  apply (only_winners_advance four_players final_ready 2
           (mkMatch 2 3 "alice" "bob" "Alice" "Bob" 0 0 active None None)
           "bob" four_players_valid final_ready_reachable).
  - reflexivity.
  - cbn. lia.
  - discriminate.
  - right. reflexivity.
Defined.

Lemma nodes_insert (ms : list BracketMatch) (n : nat) (m m' : BracketMatch) :
  ms !! n = Some m -> round m' = round m -> matchId m' = matchId m ->
  nodes (<[n := m']> ms) = nodes ms.
Proof.
  intros Hn Hr Hid. unfold nodes.
  change (map ?f ?l) with (f <$> l). rewrite list_fmap_insert.
  apply list_insert_id. rewrite list_lookup_fmap, Hn. cbn. congruence.
Qed.

Lemma advanceWinner_nodes (st : BracketState) (i : nat) :
  nodes (matches (fst (advanceWinner st i))) = nodes (matches st).
Proof.
  destruct (advanceWinner_inv st i)
    as [->|(M & n & N & nm & _ & _ & Hnext & Hpl & ->)]; [reflexivity|].
  destruct (nextMatch_of_spec _ _ _ _ Hnext) as [HN _].
  assert (Hnode : round nm = round N /\ matchId nm = matchId N).
  { apply place_inv in Hpl as [[_ ->]|(_ & _ & ->)]; cbn; auto. }
  destruct Hnode as [Hr Hid].
  unfold advanced. destruct (_ && _); cbn [matches set_matches];
    now apply (nodes_insert _ n N).
Qed.

Lemma recordWin_nodes (st : BracketState) (w l : string) :
  nodes (matches (fst (recordWin st w l))) = nodes (matches st).
Proof.
  destruct (recordWin_inv st w l)
    as [->|(i & m & _ & Hm & _ & [[_ ->]|(_ & _ & ->)])]; [reflexivity| |];
    cbn [fst]; destruct (scored_same_seats m w) as (Er & Eid & _).
  - rewrite advanceWinner_nodes. cbn.
    destruct (completed_fields (winsNeeded st) (scored m w))
      as (Cr & Cid & _).
    apply (nodes_insert _ i m); [exact Hm|congruence|congruence].
  - cbn. now apply (nodes_insert _ i m).
Qed.

Lemma step_nodes (st st' : BracketState) :
  step st st' -> nodes (matches st') = nodes (matches st).
Proof.
  intros [st0 w l|st0 st1 logs Hf|st0 st1 logs Hr].
  - apply recordWin_nodes.
  - apply freeze_inv in Hf as (_ & _ & ->). reflexivity.
  - apply resume_inv in Hr as (_ & _ & ->).
    apply (resume_fold_ind
             (fun s => nodes (matches s) = nodes (matches st0)));
      [|reflexivity].
    intros s i Hs. now rewrite advanceWinner_nodes.
Qed.

Lemma placeholder_rounds_nodes (count : nat) :
  forall rnd total next,
    total = rnd + Z.of_nat count - 1 ->
    nodes (placeholder_rounds count rnd total next)
    = level_nodes count rnd next (2 ^ (count - 1)).
Proof.
  induction count as [|count IH]; intros rnd total next Ht; [reflexivity|].
  cbn [placeholder_rounds level_nodes]. unfold nodes in *.
  rewrite map_app, map_map. cbn [round matchId placeholder].
  replace (total - rnd) with (Z.of_nat count) by lia.
  rewrite pow2_nat_Z, Nat2Z.id.
  replace (S count - 1)%nat with count by lia.
  f_equal. rewrite (IH (rnd + 1) total) by lia.
  destruct count as [|c]; [reflexivity|]. f_equal.
  replace (S c - 1)%nat with c by lia.
  rewrite Nat.pow_succ_r', Nat.mul_comm, Nat.div_mul by lia. reflexivity.
Qed.

Lemma log2_pow2_nat (k : nat) : Z.log2 (2 ^ Z.of_nat k) = Z.of_nat k.
Proof. apply Z.log2_pow2. lia. Qed.

(** The bracket that [initialize] builds. *)
Lemma initialize_nodes fmt players bo randomize rnd st st' (k : nat) :
  initialize fmt players bo randomize rnd st = Ok st' ->
  length players = (2 ^ S k)%nat ->
  nodes (matches st') = bracket_nodes k.
Proof.
  intros H Hlen.
  apply initialize_inv in H
    as (_ & _ & _ & pairs & first & pm & Hgen & Hfold & ->).
  assert (Hn : Z.of_nat (length players) = 2 ^ Z.of_nat (S k))
    by (rewrite Hlen; symmetry; apply pow2_nat_Z).
  rewrite Hn in *. rewrite generateStandardPairings_pow in Hgen.
  injection Hgen as <-.
  destruct (push_first_round_fold _ _ _ _ Hfold) as (Hlenf & Hlook & _).
  rewrite pairings_of_length in Hlenf.
  cbn [matches]. unfold nodes, bracket_nodes in *. rewrite map_app.
  cbn [level_nodes]. f_equal.
  - apply list_eq. intros j.
    change (map ?f ?l) with (f <$> l). rewrite !list_lookup_fmap.
    destruct (Nat.lt_ge_cases j (2 ^ k)) as [Hj|Hj].
    + rewrite (Hlook j _ (pairings_of_lookup _ _ _ Hj)).
      rewrite lookup_seq_lt by exact Hj. cbn. do 2 f_equal. lia.
    + rewrite lookup_seq_ge by exact Hj.
      rewrite (lookup_ge_None_2 first) by lia. reflexivity.
  - rewrite log2_pow2_nat.
    replace (Z.to_nat (Z.of_nat (S k) - 1)) with k by lia.
    rewrite (placeholder_rounds_nodes k 2 (Z.of_nat (S k))) by lia.
    assert (Hnext : 2 ^ Z.of_nat (S k) / 2 + 1 = 1 + Z.of_nat (2 ^ k)).
    { rewrite Nat2Z.inj_succ, Z.pow_succ_r, Z.mul_comm, Z.div_mul by lia.
      rewrite pow2_nat_Z. lia. }
    rewrite Hnext. destruct k as [|c]; [reflexivity|]. f_equal.
    replace (S c - 1)%nat with c by lia.
    rewrite Nat.pow_succ_r', Nat.mul_comm, Nat.div_mul by lia. reflexivity.
Qed.

(** The shape never changes. *)
Lemma reachable_nodes (players : list string) (st : BracketState) (k : nat) :
  reachable_from players st -> length players = (2 ^ S k)%nat ->
  nodes (matches st) = bracket_nodes k.
Proof.
  intros H Hlen. induction H as [fmt bo rz rnd st H|st st' _ IH Hstep].
  - eapply initialize_nodes; eauto.
  - rewrite (step_nodes _ _ Hstep). exact IH.
Qed.

Lemma ids_of_round_app (a b : list (Z * Z)) (r : Z) :
  ids_of_round (a ++ b) r = (ids_of_round a r ++ ids_of_round b r)%list.
Proof. unfold ids_of_round. now rewrite List.filter_app, map_app. Qed.

Lemma ids_of_round_block (rnd next r : Z) (width : nat) :
  ids_of_round (map (fun i : nat => (rnd, next + Z.of_nat i)) (seq 0 width)) r
  = if rnd =? r then map (fun i : nat => next + Z.of_nat i) (seq 0 width)
    else [].
Proof.
  unfold ids_of_round. generalize (seq 0 width) as l.
  induction l as [|i l IH]; cbn; [now destruct (rnd =? r)|].
  destruct (rnd =? r); cbn; [now rewrite IH|exact IH].
Qed.

Lemma level_nodes_rounds (count : nat) :
  forall rnd next width r id,
    In (r, id) (level_nodes count rnd next width) ->
    rnd <= r < rnd + Z.of_nat count.
Proof.
  induction count as [|count IH]; intros rnd next width r id; cbn;
    [tauto|].
  rewrite in_app_iff, in_map_iff. intros [(i & [= <- <-] & _)|H]; [lia|].
  apply IH in H. lia.
Qed.

Lemma ids_of_round_none (ns : list (Z * Z)) (r : Z) :
  (forall r' id, In (r', id) ns -> r' <> r) -> ids_of_round ns r = [].
Proof.
  intros H. unfold ids_of_round. induction ns as [|[r' id] ns IH]; [reflexivity|].
  cbn. destruct (Z.eqb_spec r' r) as [->|_].
  - exfalso. apply (H r id); [now left|reflexivity].
  - apply IH. intros r2 id2 Hin. apply (H r2 id2). now right.
Qed.

Lemma half_pow2 (c : nat) : (2 ^ S c / 2 = 2 ^ c)%nat.
Proof. rewrite Nat.pow_succ_r', Nat.mul_comm. apply Nat.div_mul. lia. Qed.

Lemma pow2_le_nat (a b : nat) : (a <= b)%nat -> (2 ^ a <= 2 ^ b)%nat.
Proof. intros. apply Nat.pow_le_mono_r; lia. Qed.

(** The ids of a round of a complete tree of [count] rounds. *)
Lemma ids_of_round_level (count : nat) :
  forall rnd next (d : nat),
    (d < count)%nat ->
    ids_of_round (level_nodes count rnd next (2 ^ (count - 1)))
      (rnd + Z.of_nat d)
    = map (fun i : nat =>
             next + Z.of_nat (2 ^ count - 2 ^ (count - d)) + Z.of_nat i)
        (seq 0 (2 ^ (count - 1 - d))).
Proof.
  induction count as [|c IH]; intros rnd next d Hd; [lia|].
  cbn [level_nodes]. rewrite ids_of_round_app, ids_of_round_block.
  replace (S c - 1)%nat with c by lia.
  destruct d as [|d].
  - rewrite Z.add_0_r, Z.eqb_refl.
    rewrite ids_of_round_none.
    + rewrite app_nil_r, Nat.sub_0_r, Nat.sub_diag, Nat.sub_0_r.
      apply map_ext. intros i. lia.
    + intros r' id Hin%level_nodes_rounds. lia.
  - destruct (Z.eqb_spec rnd (rnd + Z.of_nat (S d))) as [E|_]; [lia|].
    cbn [app]. destruct c as [|c]; [lia|].
    rewrite half_pow2.
    replace (rnd + Z.of_nat (S d)) with (rnd + 1 + Z.of_nat d) by lia.
    replace (2 ^ S c)%nat with (2 ^ (S c - 1 + 1))%nat at 1
      by (f_equal; lia).
    replace (S c - 1 + 1)%nat with (S c) by lia.
    pose proof (IH (rnd + 1) (next + Z.of_nat (2 ^ S c)) d ltac:(lia)) as E.
    replace (S c - 1)%nat with c in E by lia.
    rewrite E. replace (S c - 1 - d)%nat with (S c - S d)%nat by lia.
    replace (S c - S d)%nat with (c - d)%nat by lia.
    apply map_ext. intros i.
    pose proof (pow2_le_nat (S c - d) (S c) ltac:(lia)).
    replace (S (S c) - S d)%nat with (S c - d)%nat by lia.
    rewrite (Nat.pow_succ_r' 2 (S c)). lia.
Qed.

Lemma round_matches_ids (ms : list BracketMatch) (r : Z) :
  map (fun p => matchId (snd p)) (round_matches ms r)
  = ids_of_round (nodes ms) r.
Proof.
  unfold round_matches, ids_of_round, nodes. generalize 0%nat as k.
  induction ms as [|m ms IH]; intros k; [reflexivity|].
  cbn [refs_from map List.filter fst]. unfold in_round at 1.
  destruct (round m =? r); cbn [map snd]; now rewrite IH.
Qed.

Lemma level_nodes_length (count : nat) :
  forall rnd next,
    length (level_nodes count rnd next (2 ^ (count - 1)))
    = (2 ^ count - 1)%nat.
Proof.
  induction count as [|c IH]; intros rnd next; [reflexivity|].
  cbn [level_nodes]. rewrite length_app, length_map, length_seq.
  replace (S c - 1)%nat with c by lia.
  destruct c as [|c]; [reflexivity|].
  rewrite half_pow2. pose proof (IH (rnd + 1) (next + Z.of_nat (2 ^ S c))) as E.
  replace (S c - 1)%nat with c in E by lia. rewrite E.
  rewrite (Nat.pow_succ_r' 2 (S c)).
  pose proof (pow2_le_nat 0 (S c) ltac:(lia)). cbn in H. lia.
Qed.

Lemma level_nodes_ids (count : nat) :
  forall rnd next width j r id,
    level_nodes count rnd next width !! j = Some (r, id) ->
    id = next + Z.of_nat j.
Proof.
  induction count as [|c IH]; intros rnd next width j r id; cbn;
    [rewrite lookup_nil; discriminate|].
  intros [H|[Hge H]]%lookup_app_Some.
  - change (map ?f ?xs) with (f <$> xs) in H.
    rewrite list_lookup_fmap in H.
    destruct (seq 0 width !! j) as [x|] eqn:Hx; [|discriminate].
    apply lookup_seq in Hx as [-> _]. cbn in H. now inversion H.
  - rewrite length_map, length_seq in Hge, H. apply IH in H. lia.
Qed.

Lemma round_ids (ms : list BracketMatch) (k d : nat) :
  nodes ms = bracket_nodes k -> (d <= k)%nat ->
  map (fun p => matchId (snd p)) (round_matches ms (1 + Z.of_nat d))
  = map (fun i : nat => first_id k d + Z.of_nat i) (seq 0 (2 ^ (k - d))).
Proof.
  intros Hn Hd. rewrite round_matches_ids, Hn. unfold bracket_nodes.
  pose proof (ids_of_round_level (S k) 1 1 d ltac:(lia)) as E.
  replace (S k - 1)%nat with k in E by lia.
  rewrite E. reflexivity.
Qed.

Lemma round_count (ms : list BracketMatch) (k d : nat) :
  nodes ms = bracket_nodes k -> (d <= k)%nat ->
  length (round_matches ms (1 + Z.of_nat d)) = (2 ^ (k - d))%nat.
Proof.
  intros Hn Hd. rewrite <- (length_map (fun p => matchId (snd p))).
  rewrite (round_ids ms k d Hn Hd). now rewrite length_map, length_seq.
Qed.

Lemma round_empty (ms : list BracketMatch) (k : nat) (r : Z) :
  nodes ms = bracket_nodes k -> r < 1 \/ Z.of_nat (S k) < r ->
  round_matches ms r = [].
Proof.
  intros Hn Hr. apply length_zero_iff_nil.
  rewrite <- (length_map (fun p => matchId (snd p))).
  rewrite round_matches_ids, Hn, ids_of_round_none; [reflexivity|].
  intros r' id Hin%level_nodes_rounds. lia.
Qed.

Lemma node_round (ms : list BracketMatch) (k : nat) (i : nat)
    (M : BracketMatch) :
  nodes ms = bracket_nodes k -> ms !! i = Some M ->
  1 <= round M <= Z.of_nat (S k) /\ matchId M = Z.of_nat i + 1.
Proof.
  intros Hnodes HM.
  assert (Hn : nodes ms !! i = Some (round M, matchId M)).
  { unfold nodes. change (map ?f ?l) with (f <$> l).
    now rewrite list_lookup_fmap, HM. }
  rewrite Hnodes in Hn. unfold bracket_nodes in Hn.
  pose proof (level_nodes_ids _ _ _ _ _ _ _ Hn).
  apply list_elem_of_lookup_2, list_elem_of_In, level_nodes_rounds in Hn.
  lia.
Qed.

Lemma min_list_block (a : Z) (n : nat) :
  min_list (map (fun i : nat => a + Z.of_nat i) (seq 0 (S n))) = Some a.
Proof.
  cbn [seq map min_list]. rewrite Z.add_0_r. f_equal.
  destruct (fold_min_le (map (fun i : nat => a + Z.of_nat i) (seq 1 n)) a)
    as [Hle Hall].
  apply Z.le_antisymm; [exact Hle|].
  assert (Hge : forall xs x, (forall y, In y xs -> x <= y) ->
                  x <= fold_left Z.min xs x).
  { induction xs as [|y xs IHxs]; intros x Hx; cbn; [lia|].
    pose proof (Hx y (or_introl eq_refl)).
    rewrite Z.min_l by lia. apply IHxs. intros z Hz. apply Hx. now right. }
  apply Hge. intros y (i & <- & Hi)%in_map_iff. lia.
Qed.

Lemma pow2_pos_nat (a : nat) : (0 < 2 ^ a)%nat.
Proof. pose proof (pow2_le_nat 0 a ltac:(lia)). cbn in H. lia. Qed.

(** Every match before the last round has its next match, at the place the
    index formula of [advanceWinner] computes. *)
Lemma next_match (ms : list BracketMatch) (k d i : nat) (M : BracketMatch) :
  nodes ms = bracket_nodes k ->
  ms !! i = Some M -> round M = 1 + Z.of_nat d -> (d < k)%nat ->
  exists n N,
    nextMatch_of ms M = Some (n, N) /\
    matchId N = first_id k (S d) + (matchId M - first_id k d) / 2.
Proof.
  intros Hn HM HrM Hd.
  pose proof (round_ids ms k d Hn ltac:(lia)) as Hids.
  pose proof (round_ids ms k (S d) Hn ltac:(lia)) as Hids'.
  pose proof (round_count ms k (S d) Hn ltac:(lia)) as Hcnt'.
  assert (Hin : In (matchId M)
                  (map (fun p => matchId (snd p))
                     (round_matches ms (1 + Z.of_nat d)))).
  { apply in_map_iff. exists (i, M). split; [reflexivity|].
    now apply round_matches_spec. }
  rewrite Hids in Hin. apply in_map_iff in Hin as (x & Hx & Hxin).
  apply in_seq in Hxin.
  unfold nextMatch_of, firstMatchOfRound. rewrite HrM, Hids.
  destruct (2 ^ (k - d))%nat as [|w] eqn:Hw;
    [pose proof (pow2_pos_nat (k - d)); lia|].
  rewrite min_list_block.
  replace (matchId M - first_id k d) with (Z.of_nat x) by lia.
  assert (Hq : Z.of_nat x / 2 = Z.of_nat (x / 2)).
  { rewrite Nat2Z.inj_div. reflexivity. }
  rewrite Hq, at_index_nat.
  replace (1 + Z.of_nat d + 1) with (1 + Z.of_nat (S d)) by lia.
  assert (Hlt : (x / 2 < 2 ^ (k - S d))%nat).
  { apply Nat.Div0.div_lt_upper_bound.
    replace (2 * 2 ^ (k - S d))%nat with (2 ^ (k - d))%nat; [lia|].
    replace (k - d)%nat with (S (k - S d)) by lia.
    now rewrite Nat.pow_succ_r'. }
  destruct (lookup_lt_is_Some_2
              (round_matches ms (1 + Z.of_nat (S d))) (x / 2))
    as [[n N] HnN]; [lia|].
  exists n, N. split; [exact HnN|].
  assert (E : map (fun p => matchId (snd p))
                (round_matches ms (1 + Z.of_nat (S d))) !! (x / 2)%nat
              = Some (matchId N)).
  { change (map ?f ?l) with (f <$> l). now rewrite list_lookup_fmap, HnN. }
  rewrite Hids' in E. change (map ?f ?l) with (f <$> l) in E.
  rewrite list_lookup_fmap, lookup_seq_lt in E by exact Hlt.
  cbn in E. injection E as <-. reflexivity.
Qed.

(** The number of players of a tournament is a power of two, at least 2. *)
Lemma reachable_players (players : list string) (st : BracketState) :
  reachable_from players st -> exists k : nat, length players = (2 ^ S k)%nat.
Proof.
  intros H. induction H as [fmt bo rz rnd st H|st st' _ IH Hstep];
    [|exact IH].
  apply initialize_inv in H as (_ & _ & _ & pairs & _ & _ & Hgen & _).
  apply generateStandardPairings_Some in Hgen as (k & Hk & _).
  exists k. apply Nat2Z.inj. rewrite Hk. apply pow2_nat_Z.
Qed.

(** X6.  A tournament has [N = 2 ^ (k + 1)] players and, in every state it
    reaches, [N - 1] matches: the match at index [i] has match id [i + 1],
    the rounds are [1 .. k + 1], and round [1 + d] is made of [2 ^ (k - d)]
    matches whose ids count up from [first_id k d], in the order of the
    list.  No operation adds, removes, renumbers or moves a match. *)
Theorem bracket_shape (players : list string) (st : BracketState) :
  reachable_from players st ->
  exists k : nat,
    length players = (2 ^ S k)%nat /\
    length (matches st) = (2 ^ S k - 1)%nat /\
    (forall i M, matches st !! i = Some M ->
       matchId M = Z.of_nat i + 1 /\ 1 <= round M <= Z.of_nat (S k)) /\
    (forall d : nat, (d <= k)%nat ->
       map (fun p => matchId (snd p))
         (round_matches (matches st) (1 + Z.of_nat d))
       = map (fun i : nat => first_id k d + Z.of_nat i)
           (seq 0 (2 ^ (k - d)))).
Proof.
  intros Hr. destruct (reachable_players players st Hr) as [k Hk].
  pose proof (reachable_nodes players st k Hr Hk) as Hn.
  exists k. split; [exact Hk|]. split; [|split].
  - rewrite <- (length_map (fun m => (round m, matchId m))).
    change (map _ (matches st)) with (nodes (matches st)).
    rewrite Hn. unfold bracket_nodes.
    pose proof (level_nodes_length (S k) 1 1) as E.
    replace (S k - 1)%nat with k in E by lia. exact E.
  - intros i M HM. destruct (node_round _ k i M Hn HM). auto.
  - intros d Hd. now apply round_ids.
Qed.

Lemma bracket_shape_witness :
  exists k : nat,
    length four_players = (2 ^ S k)%nat /\
    length (matches final_ready) = (2 ^ S k - 1)%nat /\
    (forall i M, matches final_ready !! i = Some M ->
       matchId M = Z.of_nat i + 1 /\ 1 <= round M <= Z.of_nat (S k)) /\
    (forall d : nat, (d <= k)%nat ->
       map (fun p => matchId (snd p))
         (round_matches (matches final_ready) (1 + Z.of_nat d))
       = map (fun i : nat => first_id k d + Z.of_nat i)
           (seq 0 (2 ^ (k - d)))).
Proof.
  apply (bracket_shape four_players final_ready).
  apply reach_step with (st := alice_through); [|apply step_recordWin].
  apply reach_step with (st := started four_players 1);
    [|apply step_recordWin].
  apply (reach_init four_players "gen1ou" 1 false no_shuffle). reflexivity.
Defined.

(** X7.  In a tournament of [2 ^ (k + 1)] players every match before the last
    round has a next match: the index formula of [advanceWinner] finds it,
    one round later, and matches [2 q] and [2 q + 1] of a round (counted
    from its first) share match [q] of the next round.  For a match of the
    last round there is no next round. *)
Theorem next_match_exists (players : list string) (st : BracketState)
    (k i : nat) (M : BracketMatch) :
  reachable_from players st -> length players = (2 ^ S k)%nat ->
  matches st !! i = Some M ->
  (round M < Z.of_nat (S k) ->
   exists n N,
     nextMatch_of (matches st) M = Some (n, N) /\
     round N = round M + 1 /\
     matchId N
     = first_id k (Z.to_nat (round M))
       + (matchId M - first_id k (Z.to_nat (round M - 1))) / 2) /\
  (round M = Z.of_nat (S k) ->
   round_matches (matches st) (round M + 1) = [] /\
   nextMatch_of (matches st) M = None).
Proof.
  intros Hr Hlen HM. pose proof (reachable_nodes players st k Hr Hlen) as Hn.
  destruct (node_round _ k i M Hn HM) as [Hrng _]. split.
  - intros Hlt.
    destruct (next_match _ k (Z.to_nat (round M - 1)) i M Hn HM)
      as (n & N & Hnext & Hid); [lia|lia|].
    exists n, N. split; [exact Hnext|].
    destruct (nextMatch_of_spec _ _ _ _ Hnext) as [_ HrN].
    split; [exact HrN|].
    replace (Z.to_nat (round M)) with (S (Z.to_nat (round M - 1))) by lia.
    exact Hid.
  - intros Hlast.
    assert (E : round_matches (matches st) (round M + 1) = [])
      by (apply (round_empty _ k); [exact Hn|lia]).
    split; [exact E|].
    unfold nextMatch_of. destruct (firstMatchOfRound _ _); [|reflexivity].
    rewrite E. unfold at_index. destruct (_ <? 0); [reflexivity|].
    apply lookup_nil.
Qed.

Lemma next_match_exists_witness :
  exists n N,
    nextMatch_of (matches (started four_players 1)) opening_match
    = Some (n, N) /\
    round N = round opening_match + 1 /\
    matchId N
    = first_id 1 (Z.to_nat (round opening_match))
      + (matchId opening_match
         - first_id 1 (Z.to_nat (round opening_match - 1))) / 2.
Proof.
  apply (next_match_exists four_players (started four_players 1) 1 0
           opening_match).
  - apply (reach_init four_players "gen1ou" 1 false no_shuffle). reflexivity.
  - reflexivity.
  - reflexivity.
  - cbn. lia.
Defined.

Lemma advanceWinner_calm (s : BracketState) (k i : nat) :
  nodes (matches s) = bracket_nodes k ->
  (forall M n N, matches s !! i = Some M -> frozen s = false ->
     nextMatch_of (matches s) M = Some (n, N) ->
     player1 N = "" \/ player2 N = "") ->
  Forall calm (snd (advanceWinner s i)).
Proof.
  intros Hn Hfree. unfold advanceWinner.
  destruct (matches s !! i) as [M|] eqn:HM; [|constructor].
  destruct (round_matches (matches s) (round M + 1)) as [|p ps] eqn:Hnr;
    [repeat constructor; discriminate|].
  destruct (frozen s) eqn:Hfr; [repeat constructor; discriminate|].
  destruct (nextMatch_of (matches s) M) as [[n N]|] eqn:Hnext.
  - specialize (Hfree M n N eq_refl eq_refl Hnext).
    unfold place. destruct Hfree as [E|E].
    + rewrite E. cbn [JS.truthy negb].
      destruct (_ && _); repeat constructor; discriminate.
    + rewrite E. destruct (JS.truthy (player1 N)); cbn [JS.truthy negb];
        destruct (_ && _); repeat constructor; discriminate.
  - exfalso. destruct (node_round _ k i M Hn HM) as [Hrng _].
    destruct (Z.eq_dec (round M) (Z.of_nat (S k))) as [E|Hne].
    + rewrite (round_empty _ k) in Hnr; [discriminate|exact Hn|lia].
    + destruct (next_match _ k (Z.to_nat (round M - 1)) i M Hn HM)
        as (n & N & Hnext' & _); [lia|lia|congruence].
Qed.

(** The next match of a match that is still open has a free slot: its two
    slots are filled by its two feeders, and one of them is still playing. *)
Lemma open_feeder_free (st : BracketState) (i n : nat) (m N : BracketMatch) :
  wf st -> matches st !! i = Some m -> status m <> complete ->
  nextMatch_of (matches st) m = Some (n, N) ->
  player1 N = "" \/ player2 N = "".
Proof.
  intros Hwf Hm Hopen Hnext.
  destruct (nextMatch_of_spec _ _ _ _ Hnext) as [HN HrN].
  pose proof (wf_rounds st Hwf i m Hm) as HrM.
  destruct (string_dec (player1 N) "") as [|Hx]; [now left|].
  destruct (string_dec (player2 N) "") as [|Hy]; [now right|].
  exfalso.
  assert (Hxy : player1 N <> player2 N).
  { intros E. now apply Hx, (wf_distinct st Hwf n N HN). }
  destruct (wf_tracked st Hwf n N (player1 N) HN ltac:(lia) Hx
              (or_introl eq_refl))
    as (ix & Mx & HMx & Hcx & Hwx & Nx & Hnx).
  destruct (wf_tracked st Hwf n N (player2 N) HN ltac:(lia) Hy
              (or_intror eq_refl))
    as (iy & My & HMy & Hcy & Hwy & Ny & Hny).
  pose proof (wf_ids st Hwf i m Hm) as Ii.
  pose proof (wf_ids st Hwf ix Mx HMx) as Ix.
  pose proof (wf_ids st Hwf iy My HMy) as Iy.
  assert (Dx : ix <> i) by (intros ->; congruence).
  assert (Dy : iy <> i) by (intros ->; congruence).
  assert (Dxy : ix <> iy) by (intros ->; congruence).
  destruct (feeders_adjacent _ _ _ _ _ _ Hnext Hnx) as (b1 & B1 & B2).
  destruct (feeders_adjacent _ _ _ _ _ _ Hnext Hny) as (b2 & B3 & B4).
  destruct (feeders_adjacent _ _ _ _ _ _ Hnx Hny) as (b3 & B5 & B6).
  lia.
Qed.

Lemma recordWin_calm (st : BracketState) (k : nat) (w l : string) :
  wf st -> nodes (matches st) = bracket_nodes k ->
  Forall calm (snd (recordWin st w l)).
Proof.
  intros Hwf Hn. unfold recordWin.
  destruct (playerMatches st !! w) as [i|] eqn:Hi;
    [|repeat constructor; discriminate].
  destruct (matches st !! i) as [m|] eqn:Hm; [|constructor].
  destruct (opponents m w l); cbn [negb];
    [|repeat constructor; discriminate].
  change (if String.eqb (player1 m) w then set_p1wins m (p1wins m + 1)
          else set_p2wins m (p2wins m + 1)) with (scored m w).
  destruct (_ || _); [|repeat constructor; discriminate].
  set (m2 := completed (winsNeeded st) (scored m w)).
  change (set_playerMatches _ _) with (finished st i m2).
  destruct (advanceWinner (finished st i m2) i) as [st2 logs] eqn:Hadv.
  constructor; [discriminate|]. constructor; [discriminate|].
  change logs with (snd (st2, logs)). rewrite <- Hadv.
  destruct (wf_sound st Hwf w i Hi) as (m' & Hm' & Hact & _).
  assert (m' = m) as -> by congruence.
  destruct (scored_same_seats m w) as (Er & Eid & _).
  destruct (completed_fields (winsNeeded st) (scored m w))
    as (Cr & Cid & _). fold m2 in Cr, Cid.
  apply (advanceWinner_calm _ k).
  - unfold finished. cbn [matches set_matches set_playerMatches].
    rewrite (nodes_insert _ i m); [exact Hn|exact Hm|lia|lia].
  - intros M n N HM _ Hnext. unfold finished in HM, Hnext.
    cbn [matches set_matches set_playerMatches] in HM, Hnext.
    rewrite list_lookup_insert_eq in HM by (eapply lookup_lt_Some, Hm).
    injection HM as <-.
    apply (nextMatch_of_insert_inv _ i n m m2 m2 N Hm) in Hnext;
      [|lia|lia].
    destruct Hnext as (N0 & Hnext0 & ->).
    rewrite (nextMatch_of_node _ m m2) in Hnext0 by lia.
    destruct (nextMatch_of_spec _ _ _ _ Hnext0) as [HN0 HrN0].
    assert (Hni : n <> i)
      by (intros ->; assert (N0 = m) by congruence; subst; lia).
    rewrite decide_False by exact Hni.
    apply (open_feeder_free st i n m N0 Hwf Hm); [congruence|exact Hnext0].
Qed.

(** What one turn of the loop of [resume] adds to the log: nothing, or the
    announcement and the messages of the advancement, and then the winner
    was named and absent from the next match. *)
Lemma resume_step_logs (acc : BracketState * list LogMsg) (i : nat) :
  snd (resume_step acc i) = snd acc \/
  exists m n N w d,
    matches (fst acc) !! i = Some m /\
    nextMatch_of (matches (fst acc)) m = Some (n, N) /\
    winner m = Some w /\ player1 N <> w /\ player2 N <> w /\
    snd (resume_step acc i)
    = (snd acc ++ Resuming d (matchId m)
                    :: snd (advanceWinner (fst acc) i))%list.
Proof.
  unfold resume_step. destruct (matches (fst acc) !! i) as [m|]; [|now left].
  destruct (round_matches _ _); [now left|].
  destruct (nextMatch_of _ _) as [[n N]|] eqn:Hnext; [|now left].
  destruct (winner m) as [w|] eqn:Hwin; [|now left].
  destruct (String.eqb_spec (player1 N) w) as [|Hn1]; [now left|].
  destruct (String.eqb_spec (player2 N) w) as [|Hn2]; [now left|].
  cbn [orb]. destruct (JS.truthy w); [|now left]. cbn [negb].
  right. exists m, n, N, w, (display_of (fst acc) w).
  repeat split; try assumption; try reflexivity.
  now destruct (advanceWinner (fst acc) i).
Qed.

Lemma resume_loop_calm (st0 : BracketState) (k : nat) :
  wf st0 -> nodes (matches st0) = bracket_nodes k ->
  forall suffix idx acc,
    drop idx (matches st0) = suffix ->
    carried st0 (fst acc) idx ->
    nodes (matches (fst acc)) = bracket_nodes k ->
    Forall calm (snd acc) ->
    Forall calm
      (snd (fold_left resume_step
              (map fst (refs_from (blocked_candidate (maxRound (matches st0)))
                          idx suffix)) acc)).
Proof.
  intros Hwf0 Hn0 suffix.
  induction suffix as [|m suffix IH]; intros idx acc Hdrop Hcar Hn Hlogs;
    [exact Hlogs|].
  assert (Hm : matches st0 !! idx = Some m).
  { rewrite <- (Nat.add_0_r idx), <- lookup_drop, Hdrop. reflexivity. }
  assert (Hdrop' : drop (S idx) (matches st0) = suffix).
  { erewrite drop_S in Hdrop by exact Hm. congruence. }
  cbn [refs_from].
  destruct (blocked_candidate (maxRound (matches st0)) m) eqn:Hcand.
  - cbn [map fold_left fst].
    pose proof (blocked_candidate_complete _ _ Hcand) as Hc.
    pose proof (car_complete _ _ _ Hcar idx m Hm Hc) as Hms.
    pose proof (car_wf _ _ _ Hcar) as Hwf.
    assert (Hstate : fst (resume_step acc idx)
              = if unplacedb (matches st0) m
                then fst (advanceWinner (fst acc) idx) else fst acc).
    { rewrite (resume_step_spec acc idx m Hms Hc)
        by exact (wf_named _ Hwf idx m Hms Hc).
      now rewrite (car_unplaced _ _ _ Hcar idx m (le_n idx) Hm Hc). }
    apply IH; [exact Hdrop'| | |].
    + rewrite Hstate. destruct (unplacedb (matches st0) m) eqn:Hu.
      * eapply carried_advance; eauto.
      * apply carried_skip; [exact Hcar|]. intros m' Hm'. congruence.
    + rewrite Hstate. destruct (unplacedb (matches st0) m);
        [now rewrite advanceWinner_nodes|exact Hn].
    + destruct (resume_step_logs acc idx)
        as [->|(m' & n & N & w & d & Hm' & Hnext & Hw & Ha1 & Ha2 & ->)];
        [exact Hlogs|].
      assert (m' = m) as -> by congruence.
      apply Forall_app. split; [exact Hlogs|].
      constructor; [discriminate|].
      apply (advanceWinner_calm _ k); [exact Hn|].
      intros M n' N' HM _ Hnext'.
      assert (M = m) as -> by congruence.
      assert (N' = N) as -> by congruence.
      now apply (slot_available (fst acc) idx n m N w).
  - apply IH; try assumption.
    apply carried_skip; [exact Hcar|]. intros m' Hm'.
    assert (m' = m) as -> by congruence.
    destruct (unplacedb (matches st0) m) eqn:Hu; [|reflexivity].
    rewrite (unplacedb_candidate st0 idx m Hwf0 Hm Hu) in Hcand.
    discriminate.
Qed.

(** X8.  A tournament among valid players never reaches an integrity error:
    whatever [recordWin] is asked, and whenever [resume] is run, no message
    of level ERROR is logged: the next match is always found, and it always
    has a free slot for the winner. *)
Theorem no_integrity_error (players : list string) (st : BracketState) :
  valid_players players -> reachable_from players st ->
  (forall w l e, In e (snd (recordWin st w l)) -> level e <> ERROR) /\
  (forall st' logs e, resume st = Ok (st', logs) -> In e logs ->
     level e <> ERROR).
Proof.
  intros Hv Hr. pose proof (reachable_wf players st Hv Hr) as Hwf.
  destruct (reachable_players players st Hr) as [k Hk].
  pose proof (reachable_nodes players st k Hr Hk) as Hn.
  split.
  - intros w l e He.
    pose proof (recordWin_calm st k w l Hwf Hn) as Hall.
    apply List.Forall_forall with (x := e) in Hall; assumption.
  - intros st' logs e Hres He.
    unfold resume in Hres.
    destruct (initialized st); [|discriminate].
    destruct (frozen st) eqn:Hfr; [|discriminate]. cbn [negb] in Hres.
    pose proof (set_frozen_wf st false Hwf) as Hwf0.
    pose proof (resume_loop_calm (set_frozen st false) k Hwf0 Hn
                  (matches st) 0 (set_frozen st false, []) eq_refl
                  (carried_start _ Hwf0 eq_refl) Hn (List.Forall_nil _)) as Hall.
    cbn [matches set_frozen] in Hres, Hall.
    destruct (fold_left resume_step _ _) as [s lg].
    injection Hres as <- <-. cbn [snd] in Hall.
    apply in_app_iff in He as [He|[<-|[]]]; [|discriminate].
    apply List.Forall_forall with (x := e) in Hall; assumption.
Qed.

Lemma no_integrity_error_witness :
  List.Forall (fun e => level e <> ERROR)
    (snd (recordWin final_ready "alice" "bob")).
Proof.
  apply List.Forall_forall.
  destruct (no_integrity_error four_players final_ready four_players_valid
              final_ready_reachable) as [Hrec _].
  exact (Hrec "alice" "bob").
Defined.

Lemma unplacedb_insert_same (ms : list BracketMatch) (i : nat)
    (m m' X : BracketMatch) :
  ms !! i = Some m -> round m' = round m -> matchId m' = matchId m ->
  player1 m' = player1 m -> player2 m' = player2 m ->
  unplacedb (<[i := m']> ms) X = unplacedb ms X.
Proof.
  intros Hm Hr Hid H1 H2. unfold unplacedb.
  rewrite (nextMatch_of_insert ms i m m' X Hm Hr Hid).
  destruct (winner X) as [w|]; [|reflexivity].
  destruct (nextMatch_of ms X) as [[y Y]|] eqn:Hnext; [|reflexivity].
  cbn [fmap option_fmap option_map]. unfold retarget. cbn [fst snd].
  destruct (Nat.eqb_spec y i) as [->|_]; [|reflexivity].
  destruct (nextMatch_of_spec _ _ _ _ Hnext) as [HY _].
  assert (Y = m) as -> by congruence. now rewrite H1, H2.
Qed.

Lemma unplacedb_open (ms : list BracketMatch) (m : BracketMatch) :
  status m <> complete -> unplacedb ms m = false.
Proof.
  intros H. unfold unplacedb. now rewrite bool_decide_eq_false_2.
Qed.

Lemma settled_same_seats (st : BracketState) (i : nat) (m m' : BracketMatch) :
  settled st -> matches st !! i = Some m -> same_seats m m' ->
  settled (set_matches st (<[i := m']> (matches st))).
Proof.
  intros Hs Hm (Hr & Hid & H1 & H2 & Hst & Hw) j X HX.
  cbn [matches set_matches] in *.
  rewrite (unplacedb_insert_same _ i m m') by assumption.
  apply lookup_insert_cases in HX as [[-> ->]|[_ HX]]; [|eauto].
  pose proof (Hs i m Hm) as E. unfold unplacedb in *.
  now rewrite Hst, Hw, (nextMatch_of_node _ m m').
Qed.

(** Closing a series in an unfrozen tournament: the winner is seated at
    once, and every other winner keeps its seat. *)
Lemma settled_finished (st : BracketState) (i : nat) (m m2 : BracketMatch)
    (x : string) :
  wf st -> frozen st = false -> settled st ->
  matches st !! i = Some m -> status m = active ->
  round m2 = round m -> matchId m2 = matchId m ->
  player1 m2 = player1 m -> player2 m2 = player2 m ->
  status m2 = complete -> winner m2 = Some x ->
  x = player1 m \/ x = player2 m ->
  settled (fst (advanceWinner (finished st i m2) i)).
Proof.
  intros Hwf Hfr Hs Hm Hact Hr Hid H1 H2 Hc Hw Hx.
  assert (Hwf1 : wf (finished st i m2))
    by (apply (wf_finished st i m m2 x); assumption).
  assert (Hlt : (i < length (matches st))%nat) by (eapply lookup_lt_Some, Hm).
  assert (Hm2 : matches (finished st i m2) !! i = Some m2)
    by (cbn; now apply list_lookup_insert_eq).
  assert (Hs1 : forall j X, j <> i -> matches (finished st i m2) !! j = Some X ->
                  unplacedb (matches (finished st i m2)) X = false).
  { intros j X Hj HX. cbn in HX |- *.
    rewrite list_lookup_insert_ne in HX by congruence.
    rewrite (unplacedb_insert_same _ i m m2) by assumption. eauto. }
  destruct (nextMatch_of (matches (finished st i m2)) m2) as [[n N]|] eqn:Hnext.
  - assert (Hnext0 : exists N0, nextMatch_of (matches st) m = Some (n, N0) /\
                                N = if decide (n = i) then m2 else N0).
    { cbn in Hnext.
      apply (nextMatch_of_insert_inv _ i n m m2 m2 N Hm Hr Hid) in Hnext.
      destruct Hnext as (N0 & E & ->). exists N0. split; [|reflexivity].
      now rewrite <- (nextMatch_of_node _ m m2). }
    destruct Hnext0 as (N0 & Hnext0 & ->).
    destruct (nextMatch_of_spec _ _ _ _ Hnext0) as [HN0 HrN0].
    assert (Hni : n <> i)
      by (intros ->; assert (N0 = m) by congruence; subst; lia).
    rewrite decide_False in Hnext by exact Hni.
    pose proof (open_feeder_free st i n m N0 Hwf Hm ltac:(congruence) Hnext0)
      as Hfree.
    assert (Hopen : status N0 <> complete).
    { intros E. destruct (wf_full st Hwf n N0 HN0 (or_intror E)).
      destruct Hfree; congruence. }
    destruct (wf_full st Hwf i m Hm (or_introl Hact)) as [Hn1 Hn2].
    assert (Hxn : x <> "") by (destruct Hx; congruence).
    assert (Hocc : exists sl, occ (matches st) x (i, sl)).
    { destruct Hx as [->| ->]; [exists SlotP1|exists SlotP2]; exists m; cbn;
        repeat split; auto; congruence. }
    destruct Hocc as [sl Hsl].
    assert (Ha1 : player1 N0 <> x).
    { intros E. assert (Hsite : (n, SlotP1) = (i, sl)); [|congruence].
      apply (wf_unique st Hwf x); [|exact Hsl]. exists N0. cbn. auto. }
    assert (Ha2 : player2 N0 <> x).
    { intros E. assert (Hsite : (n, SlotP2) = (i, sl)); [|congruence].
      apply (wf_unique st Hwf x); [|exact Hsl]. exists N0. cbn. auto. }
    destruct (advanceWinner_seats (finished st i m2) i n m2 N0 x Hwf1 Hfr Hm2
                Hc Hw Hnext Ha1 Ha2) as (nm' & Hseat & Hms & _).
    intros j X HX. rewrite Hms in HX |- *.
    pose proof Hseat as [_ _ _ _ _ _ _ [Sr Sid] Hslots Hstat].
    assert (HN1 : matches (finished st i m2) !! n = Some N0)
      by (cbn; now rewrite list_lookup_insert_ne by congruence).
    apply lookup_insert_cases in HX as [[-> ->]|[Hjn HX]].
    + apply unplacedb_open. destruct Hstat as [[-> _]| ->]; discriminate.
    + destruct (decide (status X = complete)) as [HXc|HXo];
        [|now apply unplacedb_open].
      destruct (decide (j = i)) as [->|Hji].
      * assert (X = m2) as -> by congruence.
        unfold unplacedb.
        rewrite (nextMatch_of_insert _ n N0 nm' m2 HN1 Sr Sid), Hnext, Hw.
        cbn. unfold retarget. cbn. rewrite Nat.eqb_refl. cbn.
        rewrite andb_false_iff. right. apply negb_false_iff, orb_true_iff.
        destruct Hslots as [(_ & E & _)|(_ & _ & _ & E)];
          [left|right]; now apply String.eqb_eq.
      * rewrite (unplacedb_seated (finished st i m2) i n j m2 N0 nm' X x)
          by assumption.
        now apply (Hs1 j).
  - assert (E : fst (advanceWinner (finished st i m2) i) = finished st i m2).
    { destruct (advanceWinner_inv (finished st i m2) i)
        as [E|(M & n & N & nm & HM & _ & Hn & _)]; [exact E|].
      assert (M = m2) as -> by congruence. congruence. }
    rewrite E. intros j X HX.
    destruct (decide (j = i)) as [->|Hji]; [|now apply (Hs1 j)].
    assert (X = m2) as -> by congruence.
    unfold unplacedb. rewrite Hnext, Hw. apply andb_false_r.
Qed.

Lemma recordWin_settled (st : BracketState) (w l : string) :
  wf st -> frozen st = false -> settled st ->
  settled (fst (recordWin st w l)).
Proof.
  intros Hwf Hfr Hs.
  destruct (recordWin_inv st w l)
    as [->|(i & m & Hi & Hm & _ & [[_ ->]|(_ & _ & ->)])]; [exact Hs| |];
    cbn [fst];
    destruct (wf_sound st Hwf w i Hi) as (m' & Hm' & Hact & _);
    assert (m' = m) as -> by congruence.
  - destruct (scored_same_seats m w) as (Er & Eid & E1 & E2 & Es & Ew).
    destruct (completed_fields (winsNeeded st) (scored m w))
      as (Cr & Cid & C1 & C2 & Cs & x & Cw & Cx).
    apply (settled_finished st i m _ x); try assumption; try congruence.
  - apply (settled_same_seats st i m); [exact Hs|exact Hm|].
    apply scored_same_seats.
Qed.

(** A new tournament has no result yet. *)
Lemma initialize_open fmt players bo randomize rnd st st' :
  initialize fmt players bo randomize rnd st = Ok st' ->
  forall j m, matches st' !! j = Some m -> status m <> complete.
Proof.
  intros H. apply initialize_inv in H
    as (_ & Hn & _ & pairs & first & pm & _ & Hfold & ->).
  pose proof (push_first_round_ok
                (if randomize then shuffleArray rnd players else players)
                pairs ([], ∅)) as Hpush.
  rewrite Hfold in Hpush. cbn [fst snd] in Hpush.
  destruct Hpush as [Hfirst _].
  { split; [constructor|]. intros id i. rewrite lookup_empty. discriminate. }
  cbn [matches]. intros j m [Hm|[_ Hm]]%lookup_app_Some.
  - eapply Forall_lookup_1 in Hfirst; eauto.
    destruct Hfirst as (_ & _ & _ & ->). discriminate.
  - pose proof (placeholder_rounds_ok
                  (Z.to_nat (Z.log2 (Z.of_nat (length players)) - 1)) 2
                  (Z.log2 (Z.of_nat (length players)))
                  (Z.of_nat (length players) / 2 + 1) ltac:(lia)) as Hall.
    eapply Forall_lookup_1 in Hall; eauto.
    destruct Hall as (_ & _ & _ & -> & _). discriminate.
Qed.

Lemma advanceWinner_no_new_result (st0 s : BracketState) (i : nat) :
  (forall j m, matches s !! j = Some m -> status m = complete ->
     exists m0, matches st0 !! j = Some m0 /\ status m0 = complete) ->
  forall j m, matches (fst (advanceWinner s i)) !! j = Some m ->
    status m = complete ->
    exists m0, matches st0 !! j = Some m0 /\ status m0 = complete.
Proof.
  intros Hold j m.
  destruct (advanceWinner_inv s i)
    as [->|(M & n & N & nm & _ & _ & _ & _ & ->)]; [apply Hold|].
  unfold advanced. destruct (_ && _); cbn [matches set_matches];
    intros [[-> ->]|[_ Hm]]%lookup_insert_cases; try discriminate;
    now apply Hold.
Qed.

(** [resume] leaves no winner behind. *)
Lemma resumed_settled (st : BracketState) :
  wf st -> frozen st = true -> settled (resumed st).
Proof.
  intros Hwf Hfr j m Hm.
  destruct (resume_resumed st Hwf Hfr) as [[logs Hres] Hcar].
  destruct (decide (status m = complete)) as [Hc|Ho];
    [|now apply unplacedb_open].
  assert (Hold : exists m0, matches (set_frozen st false) !! j = Some m0 /\
                            status m0 = complete).
  { apply resume_inv in Hres as (_ & _ & Hst).
    revert j m Hm Hc. rewrite Hst.
    apply (resume_fold_ind
             (fun s => forall j m, matches s !! j = Some m ->
                status m = complete ->
                exists m0, matches (set_frozen st false) !! j = Some m0 /\
                           status m0 = complete)).
    - intros s i Hs. now apply advanceWinner_no_new_result.
    - cbn [fst]. eauto. }
  destruct Hold as (m0 & Hm0 & Hc0).
  pose proof (car_complete _ _ _ Hcar j m0 Hm0 Hc0) as Hm'.
  assert (m0 = m) as -> by congruence.
  destruct (wf_winner _ (set_frozen_wf st false Hwf) j m Hm0 Hc)
    as (w & Hw & _).
  unfold unplacedb. rewrite Hw.
  destruct (nextMatch_of (matches (resumed st)) m) as [[n N]|] eqn:Hnext;
    [|apply andb_false_r].
  pose proof (car_next _ _ _ Hcar m) as E. rewrite Hnext in E.
  destruct (nextMatch_of (matches (set_frozen st false)) m)
    as [[n0 N0]|] eqn:Hnext0; [|discriminate].
  cbn in E. injection E as <-.
  destruct (car_placed _ _ _ Hcar j m w n N0) as (N' & HN' & Hin);
    try assumption; [eapply lookup_lt_Some, Hm0|].
  destruct (nextMatch_of_spec _ _ _ _ Hnext) as [HN _].
  assert (N' = N) as -> by congruence.
  rewrite andb_false_iff. right. apply negb_false_iff, orb_true_iff.
  destruct Hin as [E|E]; [left|right]; now apply String.eqb_eq.
Qed.

(** In an unfrozen tournament among valid players every winner has been
    placed. *)
Lemma reachable_settled (players : list string) (st : BracketState) :
  valid_players players -> reachable_from players st ->
  frozen st = false -> settled st.
Proof.
  intros Hv H. induction H as [fmt bo rz rnd st H|st st' Hreach IH Hstep].
  - intros _. intros j m Hm. apply unplacedb_open. eapply initialize_open; eauto.
  - pose proof (reachable_wf players st Hv Hreach) as Hwf.
    destruct Hstep as [st w l|st st' logs Hf|st st' logs Hres]; intros Hfr'.
    + destruct (frozen st) eqn:Hfr.
      * destruct (recordWin_frozen st w l Hfr) as [E _]. congruence.
      * apply recordWin_settled; auto.
    + apply freeze_inv in Hf as (_ & _ & ->). discriminate.
    + pose proof Hres as (_ & Hfr & _)%resume_inv.
      destruct (resume_resumed st Hwf Hfr) as [[logs' Hres'] _].
      assert (st' = resumed st) as -> by congruence.
      now apply resumed_settled.
Qed.

Lemma resume_step_idle (acc : BracketState * list LogMsg) (i : nat) :
  settled (fst acc) ->
  (forall m, matches (fst acc) !! i = Some m -> status m = complete) ->
  resume_step acc i = acc.
Proof.
  intros Hs Hc. unfold resume_step.
  destruct (matches (fst acc) !! i) as [m|] eqn:Hm; [|reflexivity].
  pose proof (Hs i m Hm) as Hu. unfold unplacedb in Hu.
  rewrite (bool_decide_eq_true_2 _ (Hc m eq_refl)) in Hu. cbn [andb] in Hu.
  destruct (round_matches _ _); [reflexivity|].
  destruct (nextMatch_of _ _) as [[n N]|]; [|reflexivity].
  destruct (winner m) as [w|]; [|reflexivity].
  apply negb_false_iff in Hu. now rewrite Hu.
Qed.

Lemma resume_idle (cands : list nat) (acc : BracketState * list LogMsg) :
  settled (fst acc) ->
  (forall i m, In i cands -> matches (fst acc) !! i = Some m ->
     status m = complete) ->
  fold_left resume_step cands acc = acc.
Proof.
  intros Hs. induction cands as [|i cands IH]; intros Hc; [reflexivity|].
  cbn [fold_left]. rewrite resume_step_idle; [|exact Hs|].
  - apply IH. intros j m Hj. apply Hc. now right.
  - intros m. apply Hc. now left.
Qed.

Lemma set_frozen_back (st : BracketState) :
  frozen st = false -> set_frozen (set_frozen st true) false = st.
Proof. destruct st. cbn. now intros ->. Qed.

(** X9.  In an unfrozen tournament among valid players no winner is waiting
    to be placed, so [freeze] followed at once by [resume] is the identity:
    [freeze] only sets the flag, and [resume] gives back the state as it
    was, having advanced no one. *)
Theorem freeze_resume_identity (players : list string) (st : BracketState) :
  valid_players players -> reachable_from players st -> frozen st = false ->
  pending_matches st = [] /\
  freeze st = Ok (set_frozen st true, [Frozen]) /\
  resume (set_frozen st true) = Ok (st, [Resumed]).
Proof.
  intros Hv Hr Hfr. pose proof (reachable_wf players st Hv Hr) as Hwf.
  pose proof (reachable_settled players st Hv Hr Hfr) as Hs.
  split; [|split].
  - unfold pending_matches.
    destruct (refs_from _ _ _) as [|[n m] rest] eqn:E; [reflexivity|].
    assert (Hin : In (n, m) (refs_from (unplacedb (matches st)) 0 (matches st)))
      by (rewrite E; now left).
    apply refs_from_spec in Hin as (_ & Hm & Hu).
    rewrite Nat.sub_0_r in Hm. rewrite (Hs n m Hm) in Hu. discriminate.
  - unfold freeze. now rewrite (wf_initialized st Hwf), Hfr.
  - unfold resume.
    replace (initialized (set_frozen st true)) with true
      by (symmetry; exact (wf_initialized st Hwf)).
    replace (frozen (set_frozen st true)) with true by reflexivity.
    cbn [negb]. cbv zeta. rewrite (set_frozen_back st Hfr).
    rewrite resume_idle; [reflexivity|exact Hs|].
    intros i m (p & <- & Hin)%in_map_iff Hm. destruct p as [j X].
    apply refs_from_spec in Hin as (_ & HX & Hcand).
    rewrite Nat.sub_0_r in HX. cbn [fst] in Hm.
    assert (X = m) as -> by congruence.
    now apply blocked_candidate_complete in Hcand.
Qed.

Lemma freeze_resume_identity_witness :
  resume (set_frozen final_ready true) = Ok (final_ready, [Resumed]).
Proof.
  apply (freeze_resume_identity four_players final_ready four_players_valid
           final_ready_reachable).
  reflexivity.
Defined.

(** ** The first round *)

(** X10.  Whatever the draws of [Math.random], [shuffleArray] returns a
    rearrangement of its argument: no element is lost, added or doubled. *)
Theorem shuffle_keeps_players {A} (rnd : nat -> nat) (array : list A) :
  Permutation (shuffleArray rnd array) array /\
  length (shuffleArray rnd array) = length array.
Proof.
  pose proof (shuffleArray_perm rnd array) as H. split; [exact H|].
  now apply Permutation_length.
Qed.

Lemma placeholder_rounds_blank (count : nat) :
  forall rnd total next,
    List.Forall (fun m => m = placeholder (round m) (matchId m))
      (placeholder_rounds count rnd total next).
Proof.
  induction count as [|c IH]; intros rnd total next; cbn [placeholder_rounds].
  - constructor.
  - apply List.Forall_app. split; [|apply IH].
    apply List.Forall_forall. intros m Hm.
    apply in_map_iff in Hm as (i & <- & _). reflexivity.
Qed.

(** X11.  When [initialize] succeeds, with or without shuffling, the number
    of players is [2 ^ (k + 1)], the first [2 ^ k] matches are the first
    round: active, at 0-0, without a winner, each identity the [toID] of the
    name displayed; their seats taken together are a rearrangement of the
    identities of the players; every later match is a blank placeholder. *)
Theorem first_round_seating fmt players bo randomize rnd st st' :
  initialize fmt players bo randomize rnd st = Ok st' ->
  exists k : nat,
    length players = (2 ^ S k)%nat /\
    Permutation (seats (take (2 ^ k) (matches st'))) (map toID players) /\
    (forall j m, matches st' !! j = Some m -> (j < 2 ^ k)%nat ->
       round m = 1 /\ status m = active /\ p1wins m = 0 /\ p2wins m = 0 /\
       winner m = None /\ winnerDisplay m = None /\
       player1 m = toID (player1Display m) /\
       player2 m = toID (player2Display m)) /\
    (forall j m, matches st' !! j = Some m -> (2 ^ k <= j)%nat ->
       2 <= round m /\ m = placeholder (round m) (matchId m)).
Proof.
  intros H.
  apply initialize_inv in H
    as (_ & Hn & _ & pairs & first & pm & Hgen & Hfold & ->).
  apply generateStandardPairings_Some in Hgen as (k & Hk & ->).
  set (seeded := if randomize then shuffleArray rnd players else players) in *.
  assert (Hperm : Permutation seeded players).
  { unfold seeded. destruct randomize; [apply shuffleArray_perm|reflexivity]. }
  assert (Hlenp : length players = (2 ^ S k)%nat).
  { apply Nat2Z.inj. rewrite Hk. apply pow2_nat_Z. }
  assert (Hlen : length seeded = (2 ^ S k)%nat).
  { now rewrite (Permutation_length Hperm). }
  pose proof (first_round_seats seeded k first pm Hlen Hfold) as Hseats.
  destruct (push_first_round_fold _ _ _ _ Hfold) as (Hlenf & Hlook & _).
  rewrite pairings_of_length in Hlenf.
  exists k. cbn [matches]. split; [exact Hlenp|]. split; [|split].
  - rewrite <- Hlenf, take_app_length.
    etransitivity; [exact Hseats|]. now apply Permutation_map.
  - intros j m Hm Hj.
    rewrite lookup_app_l in Hm by lia.
    pose proof (Hlook j _ (pairings_of_lookup _ _ _ Hj)) as Hm'.
    assert (E : m = first_round_match seeded j
                      (seeds_of_depth k !! (2 * j)%nat,
                       seeds_of_depth k !! (2 * j + 1)%nat)) by congruence.
    rewrite E. cbn. auto 10.
  - intros j m Hm Hj.
    rewrite lookup_app_r in Hm by lia.
    assert (Hin : In m (placeholder_rounds
                          (Z.to_nat (Z.log2 (Z.of_nat (length players)) - 1)) 2
                          (Z.log2 (Z.of_nat (length players)))
                          (Z.of_nat (length players) / 2 + 1))).
    { apply list_elem_of_In. eapply list_elem_of_lookup_2, Hm. }
    split.
    + pose proof (placeholder_rounds_ok
                    (Z.to_nat (Z.log2 (Z.of_nat (length players)) - 1)) 2
                    (Z.log2 (Z.of_nat (length players)))
                    (Z.of_nat (length players) / 2 + 1) ltac:(lia)) as Hall.
      apply List.Forall_forall with (x := m) in Hall; [|exact Hin].
      tauto.
    + pose proof (placeholder_rounds_blank
                    (Z.to_nat (Z.log2 (Z.of_nat (length players)) - 1)) 2
                    (Z.log2 (Z.of_nat (length players)))
                    (Z.of_nat (length players) / 2 + 1)) as Hall.
      now apply List.Forall_forall with (x := m) in Hall.
Qed.

Lemma first_round_seating_witness :
  exists k : nat,
    length four_players = (2 ^ S k)%nat /\
    Permutation (seats (take (2 ^ k) (matches (started four_players 3))))
      (map toID four_players) /\
    (forall j m, matches (started four_players 3) !! j = Some m ->
       (j < 2 ^ k)%nat ->
       round m = 1 /\ status m = active /\ p1wins m = 0 /\ p2wins m = 0 /\
       winner m = None /\ winnerDisplay m = None /\
       player1 m = toID (player1Display m) /\
       player2 m = toID (player2Display m)) /\
    (forall j m, matches (started four_players 3) !! j = Some m ->
       (2 ^ k <= j)%nat ->
       2 <= round m /\ m = placeholder (round m) (matchId m)).
Proof.
  apply (first_round_seating "gen1ou" four_players 3 false no_shuffle
           empty_state).
  reflexivity.
Defined.

Lemma advanceWinner_tally (st : BracketState) (i : nat) (k needed : Z) :
  Forall (match_ok k) (matches st) ->
  (forall j m, matches st !! j = Some m -> tally needed m) ->
  forall j m, matches (fst (advanceWinner st i)) !! j = Some m ->
    tally needed m.
Proof.
  intros Hok Hall j m Hm.
  destruct (advanceWinner_inv st i)
    as [E|(M & n & N & nm & HM & Hfr & Hnext & Hplace & E)];
    rewrite E in Hm; [eauto|].
  destruct (nextMatch_of_spec _ _ _ _ Hnext) as [HN Hr].
  pose proof (Forall_lookup_1 _ _ _ _ Hok HM) as (HrM & _).
  pose proof (Forall_lookup_1 _ _ _ _ Hok HN) as (_ & _ & _ & Hempty & _).
  assert (Hzero : p1wins nm = 0 /\ p2wins nm = 0).
  { destruct (place_inv _ _ _ _ Hplace) as [[H1 ->]|(_ & H2 & ->)];
      cbn [p1wins p2wins set_player1 set_player2];
      apply Hempty; auto; lia. }
  unfold advanced in Hm. destruct (_ && _); cbn [matches set_matches] in Hm;
    apply lookup_insert_cases in Hm as [[-> ->]|[_ Hm]]; eauto;
    split; cbn [status set_status p1wins p2wins]; intros H;
    try discriminate; try (destruct H; discriminate); exact Hzero.
Qed.

Lemma completed_tally (needed : Z) (m0 : BracketMatch) (w : string) :
  p1wins m0 < needed -> p2wins m0 < needed ->
  needed <= p1wins (scored m0 w) \/ needed <= p2wins (scored m0 w) ->
  tally needed (completed needed (scored m0 w)).
Proof.
  intros H1 H2 Hge. split; [cbn; intros [H|H]; discriminate|]. intros _.
  unfold completed. cbn [p1wins p2wins winner player1 player2 set_status
    set_winner].
  destruct (scored_fields m0 w) as (_ & _ & _ & _ & _ & _ & [[E1 E2]|[E1 E2]]).
  - left. assert (p1wins (scored m0 w) = needed) as E by lia.
    rewrite E, Z.leb_refl. repeat split; lia.
  - right. assert (p2wins (scored m0 w) = needed) as E by lia.
    destruct (Z.leb_spec needed (p1wins (scored m0 w))); [lia|].
    repeat split; lia.
Qed.

Lemma match_ok_full (k k' : Z) (m m2 : BracketMatch) :
  match_ok k m -> player1 m <> "" -> player2 m <> "" ->
  round m2 = round m -> player1 m2 = player1 m -> player2 m2 = player2 m ->
  0 <= p1wins m2 -> 0 <= p2wins m2 -> status m2 = complete ->
  match_ok k' m2.
Proof.
  intros (Hr & _) Hp1 Hp2 Er E1 E2 Hw1 Hw2 Hs. unfold match_ok.
  rewrite Er, E1, E2, Hs.
  split; [exact Hr|]. split; [exact Hw1|]. split; [exact Hw2|].
  split; [|discriminate].
  intros _ [Hx|Hx]; apply truthy_false in Hx; congruence.
Qed.

Lemma recordWin_tally (st : BracketState) (w l : string) :
  wf st -> score_inv st -> 1 <= winsNeeded st ->
  (forall j m, matches st !! j = Some m -> tally (winsNeeded st) m) ->
  forall j m, matches (fst (recordWin st w l)) !! j = Some m ->
    tally (winsNeeded st) m.
Proof.
  intros Hwf [Hok _] Hneed Hall.
  destruct (recordWin_inv st w l)
    as [E|(i & m0 & Hpm & Hm0 & Hopp & [[Hge E]|(H1 & H2 & E)])].
  - now rewrite E.
  - rewrite E. cbn [fst].
    destruct (wf_sound st Hwf _ _ Hpm) as (m0' & Hm0' & Hact & _).
    assert (m0' = m0) as -> by congruence.
    pose proof (Forall_lookup_1 _ _ _ _ Hok Hm0) as Hok0.
    destruct (wf_full st Hwf _ _ Hm0 (or_introl Hact)) as [Hp1 Hp2].
    pose proof Hok0 as (Hr & Hw1 & Hw2 & He & Hlt).
    destruct (Hlt Hact Hneed) as [Hlt1 Hlt2].
    destruct (completed_fields (winsNeeded st) (scored m0 w))
      as (Er & _ & E1 & E2 & Es & _).
    destruct (scored_fields m0 w) as (Er' & E1' & E2' & _ & _ & _ & Hsc).
    apply (advanceWinner_tally _ _ (winsNeeded st)).
    + unfold finished. cbn [matches set_matches set_playerMatches].
      apply Forall_insert_ok; [exact Hok|].
      apply (match_ok_full (winsNeeded st) _ m0);
        [exact Hok0|assumption|assumption
        |congruence|congruence|congruence| | |exact Es];
        unfold completed; cbn [p1wins p2wins set_status set_winner]; lia.
    + unfold finished. cbn [matches set_matches set_playerMatches].
      intros j m Hm. apply lookup_insert_cases in Hm as [[-> ->]|[_ Hm]];
        [|eauto].
      now apply completed_tally.
  - rewrite E. cbn [fst matches set_matches]. intros j m Hm.
    apply lookup_insert_cases in Hm as [[-> ->]|[_ Hm]]; [|eauto].
    destruct (wf_sound st Hwf _ _ Hpm) as (m0' & Hm0' & Hact & _).
    assert (m0' = m0) as -> by congruence.
    destruct (scored_fields m0 w) as (_ & _ & _ & Hs & _).
    split; rewrite Hs, Hact; intros H; try discriminate;
      destruct H; discriminate.
Qed.

Lemma step_bestOf (st st' : BracketState) :
  step st st' -> bestOf st' = bestOf st.
Proof.
  intros [s w l|s s' logs H|s s' logs H].
  - apply recordWin_bestOf.
  - apply freeze_inv in H as (_ & _ & ->). reflexivity.
  - apply resume_inv in H as (_ & _ & ->).
    apply (resume_fold_ind (fun x => bestOf x = bestOf s)); [|reflexivity].
    intros x i Hx. now rewrite advanceWinner_bestOf.
Qed.

Lemma step_tally (st st' : BracketState) :
  wf st -> score_inv st -> 1 <= winsNeeded st ->
  (forall j m, matches st !! j = Some m -> tally (winsNeeded st) m) ->
  step st st' ->
  forall j m, matches st' !! j = Some m -> tally (winsNeeded st) m.
Proof.
  intros Hwf Hsc Hneed Hall Hstep. revert Hwf Hsc Hneed Hall.
  destruct Hstep as [s w l|s s' logs H|s s' logs H]; intros Hwf Hsc Hneed Hall.
  - now apply recordWin_tally.
  - apply freeze_inv in H as (_ & _ & ->). exact Hall.
  - apply resume_inv in H as (_ & _ & ->).
    set (P := fun x : BracketState =>
                score_inv x /\
                forall j m, matches x !! j = Some m ->
                  tally (winsNeeded s) m).
    enough (P (fst (fold_left resume_step
                 (map fst (refs_from (blocked_candidate (maxRound (matches s)))
                             0 (matches s)))
                 (set_frozen s false, [])))) as [_ HP] by exact HP.
    apply resume_fold_ind.
    + intros x i [Hx1 Hx2]. split; [now apply advanceWinner_score_inv|].
      destruct Hx1 as [Hx1 _]. now apply (advanceWinner_tally x i _ _ Hx1).
    + split; [|exact Hall]. exact Hsc.
Qed.

Lemma initialize_scoreless fmt players bo randomize rnd st st' :
  initialize fmt players bo randomize rnd st = Ok st' ->
  forall j m, matches st' !! j = Some m ->
    p1wins m = 0 /\ p2wins m = 0 /\ status m <> complete.
Proof.
  intros H. apply initialize_inv in H
    as (_ & Hn & _ & pairs & first & pm & _ & Hfold & ->).
  pose proof (push_first_round_ok
                (if randomize then shuffleArray rnd players else players)
                pairs ([], ∅)) as Hpush.
  rewrite Hfold in Hpush. cbn [fst snd] in Hpush.
  destruct Hpush as [Hfirst _].
  { split; [constructor|]. intros id i. rewrite lookup_empty. discriminate. }
  cbn [matches]. intros j m [Hm|[_ Hm]]%lookup_app_Some.
  - pose proof (Forall_lookup_1 _ _ _ _ Hfirst Hm) as (_ & H1 & H2 & Hs).
    rewrite Hs. repeat split; try assumption. discriminate.
  - pose proof (placeholder_rounds_ok
                  (Z.to_nat (Z.log2 (Z.of_nat (length players)) - 1)) 2
                  (Z.log2 (Z.of_nat (length players)))
                  (Z.of_nat (length players) / 2 + 1) ltac:(lia)) as Hall.
    pose proof (Forall_lookup_1 _ _ _ _ Hall Hm) as (_ & H1 & H2 & Hs & _).
    rewrite Hs. repeat split; try assumption. discriminate.
Qed.

Lemma reachable_tally (players : list string) (st : BracketState) :
  valid_players players -> reachable_from players st -> 0 <= bestOf st ->
  forall j m, matches st !! j = Some m -> tally (winsNeeded st) m.
Proof.
  intros Hv H. induction H as [fmt bo rz rnd st H|st st' Hreach IH Hstep];
    intros Hbo j m Hm.
  - destruct (initialize_scoreless _ _ _ _ _ _ _ H j m Hm) as (H1 & H2 & Hs).
    split; [auto|]. intros Hc. contradiction.
  - pose proof (step_bestOf _ _ Hstep) as Eb.
    assert (En : winsNeeded st' = winsNeeded st)
      by (unfold winsNeeded; now rewrite Eb).
    rewrite En. rewrite Eb in Hbo.
    apply (step_tally st st') with (j := j);
      [now apply (reachable_wf players)
      |apply reachable_score_inv; now exists players
      |unfold winsNeeded; pose proof (Z.div_pos (bestOf st) 2 Hbo); lia
      |now apply IH|exact Hstep|exact Hm].
Qed.

(** X12.  In a tournament among valid players with [bestOf >= 0], a match
    that has not started stands at 0-0, in an active match both players
    have fewer than [floor(bestOf / 2) + 1] wins, and a complete match was
    won by the player who has exactly that many wins, the other having
    fewer: no series takes more than [2 * floor(bestOf / 2) + 1] games. *)
Theorem series_score (players : list string) (st : BracketState) (i : nat)
    (m : BracketMatch) :
  valid_players players -> reachable_from players st -> 0 <= bestOf st ->
  matches st !! i = Some m ->
  0 <= p1wins m /\ 0 <= p2wins m /\
  p1wins m + p2wins m <= 2 * (bestOf st / 2) + 1 /\
  (status m = pending \/ status m = waiting ->
   p1wins m = 0 /\ p2wins m = 0) /\
  (status m = active ->
   p1wins m < bestOf st / 2 + 1 /\ p2wins m < bestOf st / 2 + 1) /\
  (status m = complete ->
   (p1wins m = bestOf st / 2 + 1 /\ p2wins m < bestOf st / 2 + 1 /\
    winner m = Some (player1 m)) \/
   (p2wins m = bestOf st / 2 + 1 /\ p1wins m < bestOf st / 2 + 1 /\
    winner m = Some (player2 m))).
Proof.
  intros Hv Hreach Hbo Hm.
  destruct (reachable_tally players st Hv Hreach Hbo i m Hm) as [Hidle Hdone].
  assert (Hsc : score_inv st) by (apply reachable_score_inv; now exists players).
  destruct Hsc as [Hok _].
  pose proof (Forall_lookup_1 _ _ _ _ Hok Hm) as (_ & Hw1 & Hw2 & _ & Hact).
  unfold winsNeeded in *.
  pose proof (Z.div_pos (bestOf st) 2 Hbo ltac:(lia)) as Hdiv.
  assert (Hact' : status m = active ->
            p1wins m < bestOf st / 2 + 1 /\ p2wins m < bestOf st / 2 + 1)
    by (intros Hs; apply Hact; [exact Hs|lia]).
  repeat split; try assumption.
  - destruct (status m) eqn:Hs.
    + destruct Hidle as [-> ->]; [now left|lia].
    + destruct Hidle as [-> ->]; [now right|lia].
    + destruct Hact'; [reflexivity|lia].
    + destruct Hdone as [(-> & H & _)|(-> & H & _)]; [reflexivity| |]; lia.
  - now apply Hidle.
  - now apply Hidle.
  - now apply Hact'.
  - now apply Hact'.
Qed.

Lemma series_score_witness :
  0 <= p1wins first_result /\ 0 <= p2wins first_result /\
  p1wins first_result + p2wins first_result
  <= 2 * (bestOf final_ready / 2) + 1 /\
  (status first_result = pending \/ status first_result = waiting ->
   p1wins first_result = 0 /\ p2wins first_result = 0) /\
  (status first_result = active ->
   p1wins first_result < bestOf final_ready / 2 + 1 /\
   p2wins first_result < bestOf final_ready / 2 + 1) /\
  (status first_result = complete ->
   (p1wins first_result = bestOf final_ready / 2 + 1 /\
    p2wins first_result < bestOf final_ready / 2 + 1 /\
    winner first_result = Some (player1 first_result)) \/
   (p2wins first_result = bestOf final_ready / 2 + 1 /\
    p1wins first_result < bestOf final_ready / 2 + 1 /\
    winner first_result = Some (player2 first_result))).
Proof.
  apply (series_score four_players final_ready 0 first_result
           four_players_valid final_ready_reachable).
  - vm_compute. discriminate.
  - reflexivity.
Defined.

Lemma names_fold (l : list string) :
  forall (acc : gmap string string),
    List.NoDup (map toID l) ->
    forall id d,
      fold_left (fun dn player => <[toID player := player]> dn) l acc !! id
      = Some d <->
      (In d l /\ toID d = id) \/ (~ In id (map toID l) /\ acc !! id = Some d).
Proof.
  induction l as [|q l IH]; intros acc Hnd id d; cbn [fold_left map].
  - cbn. tauto.
  - inversion Hnd as [|x xs Hq Hnd']; subst.
    rewrite (IH _ Hnd' id d). cbn [In].
    destruct (decide (toID q = id)) as [E|E].
    + rewrite <- E, lookup_insert_eq. split.
      * intros [[Hin Hd]|[_ [= ->]]]; [|now left; split; [left|]].
        exfalso. apply Hq. rewrite <- Hd. now apply in_map.
      * intros [[[->|Hin] Hd]|[Hn _]].
        -- right. split; [exact Hq|reflexivity].
        -- exfalso. apply Hq. rewrite <- Hd. now apply in_map.
        -- exfalso. apply Hn. now left.
    + rewrite lookup_insert_ne by exact E. split.
      * intros [[Hin Hd]|[Hn Hacc]]; [left; split; [now right|exact Hd]|].
        right. split; [|exact Hacc]. intros [H|H]; [congruence|contradiction].
      * intros [[[->|Hin] Hd]|[Hn Hacc]]; [congruence|now left|].
        right. split; [|exact Hacc]. intros H. apply Hn. now right.
Qed.

Lemma toID_nonempty (p : string) : toID p <> "" -> p <> "".
Proof. intros H ->. now apply H. Qed.

Lemma display_of_shown (players : list string) (st : BracketState)
    (w d : string) :
  named players st -> ~ In "" (map toID players) ->
  shown players w d -> display_of st w = d.
Proof.
  intros Hn Hne [[-> ->]|(Hw & Hin & Hd)]; unfold display_of.
  - destruct (displayNames st !! "") as [d'|] eqn:E; [|reflexivity].
    apply (named_map _ _ Hn) in E as [Hin Hd]. exfalso. apply Hne.
    rewrite <- Hd. now apply in_map.
  - rewrite (proj2 (named_map _ _ Hn w d) (conj Hin Hd)).
    assert (Hd' : d <> "") by (apply toID_nonempty; congruence).
    apply truthy_true in Hd'. now rewrite Hd'.
Qed.

Lemma player_at_shown (players seeded : list string) (seed : option Z) :
  Permutation seeded players -> ~ In "" (map toID players) ->
  shown players (toID (player_at seeded seed)) (player_at seeded seed).
Proof.
  intros Hperm Hne. unfold player_at. destruct seed as [sd|]; [|now left].
  destruct (Bracket.at_index seeded (sd - 1)) as [p|] eqn:E; [|now left].
  simpl. apply at_index_In in E.
  assert (Hin : In p players) by (now rewrite <- Hperm).
  right. split; [|split; [exact Hin|reflexivity]].
  intros H. apply Hne. rewrite <- H. now apply in_map.
Qed.

Lemma initialize_named fmt players bo randomize rnd st st' :
  valid_players players ->
  initialize fmt players bo randomize rnd st = Ok st' -> named players st'.
Proof.
  intros [Hnd Hne] H.
  apply initialize_inv in H
    as (_ & Hn & _ & pairs & first & pm & Hgen & Hfold & ->).
  apply generateStandardPairings_Some in Hgen as (k & Hk & ->).
  set (seeded := if randomize then shuffleArray rnd players else players) in *.
  assert (Hperm : Permutation seeded players).
  { unfold seeded. destruct randomize; [apply shuffleArray_perm|reflexivity]. }
  destruct (push_first_round_fold _ _ _ _ Hfold) as (Hlenf & Hlook & _).
  rewrite pairings_of_length in Hlenf.
  assert (Hfirst : forall j m, first !! j = Some m ->
            exists pr, m = first_round_match seeded j pr).
  { intros j m Hm.
    assert (Hj : (j < 2 ^ k)%nat)
      by (rewrite <- Hlenf; eapply lookup_lt_Some, Hm).
    pose proof (Hlook j _ (pairings_of_lookup _ _ _ Hj)) as Hm'.
    rewrite Hm in Hm'. injection Hm' as ->. eexists. reflexivity. }
  assert (Hrest : forall j m,
            placeholder_rounds
              (Z.to_nat (Z.log2 (Z.of_nat (length players)) - 1)) 2
              (Z.log2 (Z.of_nat (length players)))
              (Z.of_nat (length players) / 2 + 1) !! j = Some m ->
            m = placeholder (round m) (matchId m)).
  { intros j m Hm.
    pose proof (placeholder_rounds_blank
                  (Z.to_nat (Z.log2 (Z.of_nat (length players)) - 1)) 2
                  (Z.log2 (Z.of_nat (length players)))
                  (Z.of_nat (length players) / 2 + 1)) as Hall.
    exact (Forall_lookup_1 _ _ _ _ Hall Hm). }
  split; cbn [matches displayNames].
  - intros id d. rewrite names_fold.
    + rewrite lookup_empty. split.
      * intros [[Hin Hd]|[_ [=]]]. split; [now rewrite <- Hperm|exact Hd].
      * intros [Hin Hd]. left. split; [now rewrite Hperm|exact Hd].
    + eapply Permutation.Permutation_NoDup; [|exact Hnd].
      apply Permutation_map. now symmetry.
  - intros j m [Hm|[_ Hm]]%lookup_app_Some.
    + destruct (Hfirst j m Hm) as [pr ->]. cbn. now apply player_at_shown.
    + rewrite (Hrest _ _ Hm). now left.
  - intros j m [Hm|[_ Hm]]%lookup_app_Some.
    + destruct (Hfirst j m Hm) as [pr ->]. cbn. now apply player_at_shown.
    + rewrite (Hrest _ _ Hm). now left.
  - intros j m [Hm|[_ Hm]]%lookup_app_Some.
    + destruct (Hfirst j m Hm) as [pr ->]. reflexivity.
    + rewrite (Hrest _ _ Hm). reflexivity.
Qed.

Lemma advanceWinner_named (players : list string) (st : BracketState)
    (i : nat) :
  ~ In "" (map toID players) -> named players st ->
  named players (fst (advanceWinner st i)).
Proof.
  intros Hne Hn.
  destruct (advanceWinner_inv st i)
    as [E|(M & n & N & nm & HM & Hfr & Hnext & Hplace & E)];
    rewrite E; [exact Hn|].
  destruct (nextMatch_of_spec _ _ _ _ Hnext) as [HN _].
  set (w := default "" (winner M)) in *.
  assert (Hw : shown players w (display_of st w)).
  { pose proof (named_w _ _ Hn _ _ HM) as HwM. unfold w.
    destruct (winner M) as [w0|]; simpl.
    - destruct HwM as (d & _ & Hd).
      now rewrite (display_of_shown players st w0 d Hn Hne Hd).
    - rewrite (display_of_shown players st "" "" Hn Hne); now left. }
  assert (Hnm : shown players (player1 nm) (player1Display nm) /\
                shown players (player2 nm) (player2Display nm) /\
                winner nm = winner N /\ winnerDisplay nm = winnerDisplay N).
  { pose proof (named_p1 _ _ Hn _ _ HN). pose proof (named_p2 _ _ Hn _ _ HN).
    destruct (place_inv _ _ _ _ Hplace) as [[_ ->]|(_ & _ & ->)]; cbn; auto. }
  destruct Hnm as (Hs1 & Hs2 & Ew & Ewd).
  pose proof (named_w _ _ Hn _ _ HN) as HwN.
  unfold advanced.
  destruct (_ && _); (split; cbn [matches displayNames set_matches];
    [exact (named_map _ _ Hn)
    |intros j m Hm; apply lookup_insert_cases in Hm as [[-> ->]|[_ Hm]];
       [exact Hs1|exact (named_p1 _ _ Hn _ _ Hm)]
    |intros j m Hm; apply lookup_insert_cases in Hm as [[-> ->]|[_ Hm]];
       [exact Hs2|exact (named_p2 _ _ Hn _ _ Hm)]
    |intros j m Hm; apply lookup_insert_cases in Hm as [[-> ->]|[_ Hm]];
       [cbn [winner winnerDisplay set_status]; rewrite Ew, Ewd; exact HwN
       |exact (named_w _ _ Hn _ _ Hm)]]).
Qed.

Lemma recordWin_named (players : list string) (st : BracketState)
    (w l : string) :
  ~ In "" (map toID players) -> named players st ->
  named players (fst (recordWin st w l)).
Proof.
  intros Hne Hn.
  destruct (recordWin_inv st w l)
    as [E|(i & m0 & Hpm & Hm0 & Hopp & [[Hge E]|(H1 & H2 & E)])];
    rewrite E; [exact Hn| |]; cbn [fst].
  - apply advanceWinner_named; [exact Hne|].
    pose proof (named_p1 _ _ Hn _ _ Hm0) as Hs1.
    pose proof (named_p2 _ _ Hn _ _ Hm0) as Hs2.
    assert (Hsc : player1 (scored m0 w) = player1 m0 /\
                  player2 (scored m0 w) = player2 m0 /\
                  player1Display (scored m0 w) = player1Display m0 /\
                  player2Display (scored m0 w) = player2Display m0)
      by (destruct (scored_fields m0 w); tauto).
    destruct Hsc as (E1 & E2 & E3 & E4).
    unfold finished.
    split; cbn [matches displayNames set_matches set_playerMatches].
    + exact (named_map _ _ Hn).
    + intros j m Hm. apply lookup_insert_cases in Hm as [[-> ->]|[_ Hm]];
        [|exact (named_p1 _ _ Hn _ _ Hm)].
      unfold completed. cbn. now rewrite E1, E3.
    + intros j m Hm. apply lookup_insert_cases in Hm as [[-> ->]|[_ Hm]];
        [|exact (named_p2 _ _ Hn _ _ Hm)].
      unfold completed. cbn. now rewrite E2, E4.
    + intros j m Hm. apply lookup_insert_cases in Hm as [[-> ->]|[_ Hm]];
        [|exact (named_w _ _ Hn _ _ Hm)].
      unfold completed. cbn. eexists. split; [reflexivity|].
      rewrite E1, E2, E3, E4. now destruct (_ <=? _).
  - split; cbn [matches displayNames set_matches].
    + exact (named_map _ _ Hn).
    + intros j m Hm. apply lookup_insert_cases in Hm as [[-> ->]|[_ Hm]];
        [|exact (named_p1 _ _ Hn _ _ Hm)].
      pose proof (named_p1 _ _ Hn _ _ Hm0).
      unfold scored. now destruct (String.eqb _ _).
    + intros j m Hm. apply lookup_insert_cases in Hm as [[-> ->]|[_ Hm]];
        [|exact (named_p2 _ _ Hn _ _ Hm)].
      pose proof (named_p2 _ _ Hn _ _ Hm0).
      unfold scored. now destruct (String.eqb _ _).
    + intros j m Hm. apply lookup_insert_cases in Hm as [[-> ->]|[_ Hm]];
        [|exact (named_w _ _ Hn _ _ Hm)].
      pose proof (named_w _ _ Hn _ _ Hm0).
      unfold scored. now destruct (String.eqb _ _).
Qed.

Lemma step_named (players : list string) (st st' : BracketState) :
  ~ In "" (map toID players) -> named players st -> step st st' ->
  named players st'.
Proof.
  intros Hne Hn Hstep. revert Hn.
  destruct Hstep as [s w l|s s' logs H|s s' logs H]; intros Hn.
  - now apply recordWin_named.
  - apply freeze_inv in H as (_ & _ & ->). destruct Hn. now split.
  - apply resume_inv in H as (_ & _ & ->).
    apply (resume_fold_ind (named players)).
    + intros x i Hx. now apply advanceWinner_named.
    + destruct Hn. now split.
Qed.

Lemma reachable_named (players : list string) (st : BracketState) :
  valid_players players -> reachable_from players st -> named players st.
Proof.
  intros Hv H. induction H as [fmt bo rz rnd st H|st st' Hreach IH Hstep].
  - now apply (initialize_named fmt players bo rz rnd empty_state).
  - apply (step_named players st st'); [apply Hv|exact IH|exact Hstep].
Qed.

(** X13.  In a tournament among valid players the names on display are the
    names given at creation: [displayNames] maps the identity of every
    player to that player's name and holds nothing else, and in every match
    the display name of a seated player, and of the winner, is the name of
    the player with that identity; an empty slot displays nothing. *)
Theorem display_names_kept (players : list string) (st : BracketState) :
  valid_players players -> reachable_from players st ->
  (forall id d,
     displayNames st !! id = Some d <-> In d players /\ toID d = id) /\
  (forall j m, matches st !! j = Some m ->
     shown players (player1 m) (player1Display m) /\
     shown players (player2 m) (player2Display m) /\
     match winner m with
     | Some w => exists d, winnerDisplay m = Some d /\ shown players w d
     | None => winnerDisplay m = None
     end).
Proof.
  intros Hv Hreach.
  destruct (reachable_named players st Hv Hreach) as [Hmap H1 H2 Hw].
  split; [exact Hmap|]. intros j m Hm.
  split; [exact (H1 j m Hm)|]. split; [exact (H2 j m Hm)|exact (Hw j m Hm)].
Qed.

Lemma display_names_kept_witness :
  (forall id d,
     displayNames final_ready !! id = Some d <->
     In d four_players /\ toID d = id) /\
  (forall j m, matches final_ready !! j = Some m ->
     shown four_players (player1 m) (player1Display m) /\
     shown four_players (player2 m) (player2Display m) /\
     match winner m with
     | Some w => exists d, winnerDisplay m = Some d /\ shown four_players w d
     | None => winnerDisplay m = None
     end).
Proof.
  exact (display_names_kept four_players final_ready four_players_valid
           final_ready_reachable).
Defined.

Lemma advanceWinner_no_warn (st : BracketState) (i : nat) :
  forall e, In e (snd (advanceWinner st i)) -> level e <> WARN.
Proof.
  unfold advanceWinner.
  destruct (matches st !! i) as [M|]; [|intros e []].
  destruct (round_matches _ _); [intros e [<-|[]]; discriminate|].
  destruct (frozen st); [intros e [<-|[]]; discriminate|].
  destruct (nextMatch_of _ _) as [[n N]|]; [|intros e [<-|[]]; discriminate].
  destruct (place _ _ _) as [nm|];
    [|intros e [<-|[<-|[]]]; discriminate].
  destruct (_ && _); intros e [<-|[<-|[]]]; discriminate.
Qed.

Lemma scored_wins (m : BracketMatch) (w : string) :
  wins_of (scored m w) w = wins_of m w + 1 /\
  wins_against (scored m w) w = wins_against m w.
Proof.
  unfold wins_of, wins_against, scored.
  destruct (String.eqb (player1 m) w) eqn:E; cbn; rewrite E; auto.
Qed.

Lemma completed_wins (needed : Z) (m : BracketMatch) (w : string) :
  wins_of (completed needed m) w = wins_of m w /\
  wins_against (completed needed m) w = wins_against m w.
Proof. split; reflexivity. Qed.

(** A call of [recordWin] that passes both guards. *)
Lemma recordWin_accepted (st : BracketState) (w l : string) (i : nat)
    (m : BracketMatch) :
  playerMatches st !! w = Some i -> matches st !! i = Some m ->
  opponents m w l = true ->
  (forall e, In e (snd (recordWin st w l)) -> level e <> WARN) /\
  exists m', matches (fst (recordWin st w l)) !! i = Some m' /\
    wins_of m' w = wins_of m w + 1 /\
    wins_against m' w = wins_against m w.
Proof.
  intros Hpm Hm Hopp.
  assert (Hi : (i < length (matches st))%nat) by (eapply lookup_lt_Some, Hm).
  unfold recordWin. rewrite Hpm, Hm, Hopp. cbn [negb].
  change (if String.eqb (player1 m) w then set_p1wins m (p1wins m + 1)
          else set_p2wins m (p2wins m + 1)) with (scored m w).
  destruct (_ || _).
  - destruct (advanceWinner _ i) as [st2 logs] eqn:Eadv. cbn [fst snd].
    split.
    + intros e [<-|[<-|He]]; try discriminate.
      apply (advanceWinner_no_warn
               (set_playerMatches
                  (set_matches st
                     (<[i := completed (winsNeeded st) (scored m w)]>
                        (matches st)))
                  (delete (player2 (completed (winsNeeded st) (scored m w)))
                     (delete (player1 (completed (winsNeeded st) (scored m w)))
                        (playerMatches st)))) i).
      now rewrite Eadv.
    + exists (completed (winsNeeded st) (scored m w)). split.
      * change st2 with (fst (st2, logs)). rewrite <- Eadv.
        apply advanceWinner_lookup_self. cbn [matches set_matches
          set_playerMatches]. now apply list_lookup_insert_eq.
      * destruct (scored_wins m w) as [E1 E2].
        destruct (completed_wins (winsNeeded st) (scored m w) w) as [E3 E4].
        now rewrite E3, E4.
  - cbn [fst snd matches set_matches]. split.
    + intros e [<-|[]]. discriminate.
    + exists (scored m w). split; [now apply list_lookup_insert_eq|].
      apply scored_wins.
Qed.

Lemma getOpponent_inv (st : BracketState) (w l : string) :
  wf st -> getOpponent st w = Some l ->
  exists i m, playerMatches st !! w = Some i /\ matches st !! i = Some m /\
    status m = active /\ opponents m w l = true.
Proof.
  intros Hwf. unfold getOpponent, match_of.
  destruct (playerMatches st !! w) as [i|] eqn:Hpm; [|discriminate].
  destruct (matches st !! i) as [m|] eqn:Hm; [|discriminate].
  destruct (bool_decide_reflect (status m = active)) as [Hact|]; [|discriminate].
  cbn [negb]. intros [= <-]. exists i, m. repeat split; try assumption.
  destruct (wf_sound st Hwf _ _ Hpm) as (m' & Hm' & _ & Hpl).
  assert (m' = m) as -> by congruence.
  apply opponents_spec.
  destruct (String.eqb_spec (player1 m) w) as [E|E]; [now left|].
  destruct Hpl as [Hp|Hp]; [contradiction|now right].
Qed.

(** In a tournament among valid players a win that [getOpponent] lets
    through is recorded without a warning or an error. *)
Lemma opponent_win_recorded (players : list string) (st : BracketState)
    (w l : string) :
  valid_players players -> reachable_from players st ->
  getOpponent st w = Some l ->
  (forall e, In e (snd (recordWin st w l)) -> level e = LOG) /\
  exists i m m', playerMatches st !! w = Some i /\
    matches st !! i = Some m /\ status m = active /\
    matches (fst (recordWin st w l)) !! i = Some m' /\
    wins_of m' w = wins_of m w + 1 /\
    wins_against m' w = wins_against m w.
Proof.
  intros Hv Hreach Hopp.
  pose proof (reachable_wf players st Hv Hreach) as Hwf.
  destruct (getOpponent_inv st w l Hwf Hopp) as (i & m & Hpm & Hm & Hact & Ho).
  destruct (recordWin_accepted st w l i m Hpm Hm Ho)
    as (Hwarn & m' & Hm' & E1 & E2).
  destruct (reachable_players players st Hreach) as [k Hk].
  pose proof (recordWin_calm st k w l Hwf
                (reachable_nodes players st k Hreach Hk)) as Hcalm.
  split.
  - intros e He. specialize (Hwarn e He).
    apply List.Forall_forall with (x := e) in Hcalm; [|exact He].
    unfold calm in Hcalm. destruct (level e); congruence.
  - exists i, m, m'. auto 10.
Qed.

(** X14.  In a tournament among valid players, a battle between two
    players whom [canMatch] pairs, ending with one of them as the winner, is
    always recorded by [onBattleEnd]: [recordWin] is called for the winner
    against the other, logs neither a warning nor an error, and the
    winner's score in their match goes up by one while the loser's is
    unchanged. *)
Theorem battle_end_recorded (players : list string) (st : BracketState)
    (winnerid p1 p2 : string) :
  valid_players players -> reachable_from players st ->
  canMatch st p1 p2 = true -> winnerid = p1 \/ winnerid = p2 ->
  exists loser i m m',
    (winnerid = p1 /\ loser = p2 \/ winnerid = p2 /\ loser = p1) /\
    onBattleEnd true st winnerid [p1; p2]
    = Recorded winnerid loser (fst (recordWin st winnerid loser))
        (snd (recordWin st winnerid loser)) /\
    (forall e, In e (snd (recordWin st winnerid loser)) -> level e = LOG) /\
    playerMatches st !! winnerid = Some i /\ matches st !! i = Some m /\
    matches (fst (recordWin st winnerid loser)) !! i = Some m' /\
    wins_of m' winnerid = wins_of m winnerid + 1 /\
    wins_against m' winnerid = wins_against m winnerid.
Proof.
  intros Hv Hreach Hcan Hwin.
  pose proof (reachable_wf players st Hv Hreach) as Hwf.
  pose proof (canMatch_true_sym st p1 p2 Hwf Hcan) as Hcan'.
  destruct (canMatch_queries st p1 p2 Hcan) as [Ho1 _].
  destruct (canMatch_queries st p2 p1 Hcan') as [Ho2 _].
  destruct (canMatch_inv st p1 p2 Hcan) as (Hinit & _).
  assert (Hhead : forall w l,
            (winnerid = p1 /\ w = p1 /\ l = p2) \/
            (winnerid <> p1 /\ winnerid = p2 /\ w = p2 /\ l = p1) ->
            onBattleEnd true st winnerid [p1; p2]
            = Recorded w l (fst (recordWin st w l)) (snd (recordWin st w l))).
  { intros w l Hc. unfold onBattleEnd. rewrite Hinit. cbn [negb orb].
    rewrite Ho1, Ho2, !bool_decide_eq_true_2 by reflexivity. cbn [negb orb].
    destruct Hc as [(-> & -> & ->)|(Hn & -> & -> & ->)].
    - rewrite String.eqb_refl. now destruct (recordWin st p1 p2).
    - apply String.eqb_neq in Hn. rewrite Hn, String.eqb_refl.
      now destruct (recordWin st p2 p1). }
  destruct (String.eqb_spec winnerid p1) as [E|E].
  - subst winnerid.
    destruct (opponent_win_recorded players st p1 p2 Hv Hreach Ho1)
      as (Hlog & i & m & m' & Hpm & Hm & _ & Hm' & E1 & E2).
    exists p2, i, m, m'. split; [now left|]. split; [apply Hhead; now left|].
    auto 10.
  - destruct Hwin as [Hw|Hw]; [contradiction|]. subst winnerid.
    destruct (opponent_win_recorded players st p2 p1 Hv Hreach Ho2)
      as (Hlog & i & m & m' & Hpm & Hm & _ & Hm' & E1 & E2).
    exists p1, i, m, m'. split; [now right|].
    split; [apply Hhead; right; auto|]. auto 10.
Qed.

Lemma battle_end_recorded_witness :
  exists loser i m m',
    ("bob" = "alice" /\ loser = "bob" \/ "bob" = "bob" /\ loser = "alice") /\
    onBattleEnd true final_ready "bob" ["alice"; "bob"]
    = Recorded "bob" loser (fst (recordWin final_ready "bob" loser))
        (snd (recordWin final_ready "bob" loser)) /\
    (forall e, In e (snd (recordWin final_ready "bob" loser)) ->
       level e = LOG) /\
    playerMatches final_ready !! "bob" = Some i /\
    matches final_ready !! i = Some m /\
    matches (fst (recordWin final_ready "bob" loser)) !! i = Some m' /\
    wins_of m' "bob" = wins_of m "bob" + 1 /\
    wins_against m' "bob" = wins_against m "bob".
Proof.
  apply (battle_end_recorded four_players final_ready "bob" "alice" "bob"
           four_players_valid final_ready_reachable).
  - reflexivity.
  - now right.
Defined.

(** X15.  In a tournament among valid players, whenever [/forcebracketwin]
    goes through to [recordWin], the loser named is the winner's current
    opponent, [recordWin] logs neither a warning nor an error, and the
    winner's score in their active match goes up by one while the loser's
    is unchanged. *)
Theorem forced_win_recorded (players : list string) (st : BracketState)
    (can bracketmode : bool) (target w l : string) (st' : BracketState)
    (logs : list LogMsg) :
  valid_players players -> reachable_from players st ->
  forcebracketwin can bracketmode st target = Forced w l st' logs ->
  getOpponent st w = Some l /\ recordWin st w l = (st', logs) /\
  (forall e, In e logs -> level e = LOG) /\
  exists i m m', playerMatches st !! w = Some i /\
    matches st !! i = Some m /\ status m = active /\
    matches st' !! i = Some m' /\
    wins_of m' w = wins_of m w + 1 /\
    wins_against m' w = wins_against m w.
Proof.
  intros Hv Hreach. unfold forcebracketwin.
  destruct can; [|discriminate]. destruct bracketmode; [|discriminate].
  destruct (initialized st); [|discriminate]. cbn [negb].
  destruct (JS.truthy target); [|discriminate]. cbn [negb].
  destruct (_ !! 0%nat) as [wn|]; [|discriminate].
  destruct (_ !! 1%nat) as [ln|]; [|discriminate].
  destruct (_ || _); [discriminate|].
  destruct (getOpponent st (toID wn)) as [o|] eqn:Ho; [|discriminate].
  destruct (JS.truthy o); [|discriminate]. cbn [negb].
  destruct (String.eqb_spec o (toID ln)) as [->|]; [|discriminate].
  cbn [negb].
  destruct (recordWin st (toID wn) (toID ln)) as [s lg] eqn:Erec.
  intros [= <- <- <- <-].
  destruct (opponent_win_recorded players st _ _ Hv Hreach Ho)
    as (Hlog & Hex).
  rewrite Erec in Hlog, Hex. cbn [fst snd] in Hlog, Hex. auto.
Qed.

Lemma forced_win_recorded_witness :
  getOpponent final_ready "alice" = Some "bob" /\
  recordWin final_ready "alice" "bob"
  = (fst (recordWin final_ready "alice" "bob"),
     snd (recordWin final_ready "alice" "bob")) /\
  (forall e, In e (snd (recordWin final_ready "alice" "bob")) ->
     level e = LOG) /\
  exists i m m', playerMatches final_ready !! "alice" = Some i /\
    matches final_ready !! i = Some m /\ status m = active /\
    matches (fst (recordWin final_ready "alice" "bob")) !! i = Some m' /\
    wins_of m' "alice" = wins_of m "alice" + 1 /\
    wins_against m' "alice" = wins_against m "alice".
Proof.
  apply (forced_win_recorded four_players final_ready true true
           "Alice , Bob" "alice" "bob"
           (fst (recordWin final_ready "alice" "bob"))
           (snd (recordWin final_ready "alice" "bob"))
           four_players_valid final_ready_reachable).
  vm_compute. reflexivity.
Defined.

(** ** Creating a bracket *)

Lemma remove_dups_length_le {A} `{EqDecision A} (l : list A) :
  (length (remove_dups l) <= length l)%nat.
Proof.
  induction l as [|x l IH]; cbn; [lia|].
  destruct (decide_rel _ x l); cbn; lia.
Qed.

Lemma remove_dups_length_NoDup {A} `{EqDecision A} (l : list A) :
  length (remove_dups l) = length l -> NoDup l.
Proof.
  induction l as [|x l IH]; cbn; [constructor|].
  pose proof (remove_dups_length_le l).
  destruct (decide_rel _ x l) as [Hin|Hin]; cbn; intros E; [lia|].
  constructor; [exact Hin|]. apply IH. lia.
Qed.

Lemma invalidPlayers_none (players : list string) :
  length (invalidPlayers players) = 0%nat -> ~ In "" (map toID players).
Proof.
  intros Hlen Hin. apply in_map_iff in Hin as (p & Hp & Hin).
  assert (Hf : In p (invalidPlayers players)).
  { unfold invalidPlayers. apply filter_In. split; [exact Hin|].
    rewrite Hp. cbn. apply orb_true_r. }
  destruct (invalidPlayers players); [contradiction|discriminate].
Qed.

Lemma toInt32_multiple (z : Z) : toInt32 (2 ^ 32 * z) = 0.
Proof.
  unfold toInt32. rewrite Z.add_comm, Z.mul_comm, Z.mod_add by lia.
  reflexivity.
Qed.

Lemma isPowerOfTwo_pow2 (k : nat) : isPowerOfTwo (2 ^ Z.of_nat k) = true.
Proof.
  destruct (Z.lt_ge_cases (Z.of_nat k) 32) as [Hk|Hk].
  - apply isPowerOfTwo_spec; [|now exists k].
    apply Z.pow_lt_mono_r; lia.
  - unfold isPowerOfTwo.
    assert (Hpos : 0 < 2 ^ Z.of_nat k) by (apply Z.pow_pos_nonneg; lia).
    destruct (Z.ltb_spec 0 (2 ^ Z.of_nat k)); [|lia]. cbn [andb].
    replace (2 ^ Z.of_nat k) with (2 ^ 32 * 2 ^ (Z.of_nat k - 32))
      by (rewrite <- Z.pow_add_r by lia; f_equal; lia).
    rewrite toInt32_multiple. reflexivity.
Qed.

Lemma is_power_count_spec (n : nat) :
  (2 <= n)%nat -> is_power_count n = true ->
  exists k : nat, n = (2 ^ S k)%nat.
Proof.
  unfold is_power_count. intros Hn E%Z.eqb_eq.
  assert (Hlog : 1 <= Z.log2 (Z.of_nat n)).
  { apply Z.log2_le_pow2; [lia|]. change (2 ^ 1) with 2. lia. }
  exists (Z.to_nat (Z.log2 (Z.of_nat n)) - 1)%nat.
  apply Nat2Z.inj. rewrite <- pow2_nat_Z.
  replace (Z.of_nat (S (Z.to_nat (Z.log2 (Z.of_nat n)) - 1)))
    with (Z.log2 (Z.of_nat n)) by lia.
  exact E.
Qed.

Lemma initialize_pow2 fmt players bo randomize rnd st (k : nat) :
  initialized st = false -> length players = (2 ^ S k)%nat ->
  exists st', initialize fmt players bo randomize rnd st = Ok st'.
Proof.
  intros Hinit Hlen. unfold initialize. rewrite Hinit.
  assert (Hn : Z.of_nat (length players) = 2 ^ Z.of_nat (S k))
    by (rewrite Hlen; symmetry; apply pow2_nat_Z).
  rewrite Hn, isPowerOfTwo_pow2, generateStandardPairings_pow.
  assert (H2 : 2 <= 2 ^ Z.of_nat (S k)).
  { change 2 with (2 ^ 1) at 1. apply Z.pow_le_mono_r; lia. }
  destruct (Z.ltb_spec (2 ^ Z.of_nat (S k)) 2); [lia|]. cbn [orb negb].
  destruct (fold_left _ _ _) as [first pm]. eauto.
Qed.

(** X16.  When [/createbracket] creates a bracket, the format is not empty,
    [bestOf] lies between 1 and 999, and the identities of the players are
    non-empty and pairwise distinct: the tournament is one among valid
    players, created by [initialize] without shuffling from the names in
    the order given. *)
Theorem createbracket_checked (save : FileStore) (can bracketmode : bool)
    (st st' : BracketState) (target : string) :
  createbracket save can bracketmode st target = Created st' ->
  exists fmt bestOfStr bo players,
    map JS.trim (JS.split "," target) = fmt :: bestOfStr :: players /\
    fmt <> "" /\ JS.parseInt bestOfStr = Some bo /\ 1 <= bo <= 999 /\
    valid_players players /\
    initialize fmt players bo false (fun _ => O) st = Ok st' /\
    (st = empty_state -> reachable_from players st').
Proof.
  unfold createbracket.
  destruct can; [|discriminate]. destruct bracketmode; [|discriminate].
  cbn [negb]. destruct (JS.truthy target); [|discriminate]. cbn [negb].
  destruct (_ <? 4)%nat; [discriminate|].
  destruct (map JS.trim (JS.split "," target)) as [|fmt [|bestOfStr players]];
    try discriminate.
  destruct (JS.truthy fmt) eqn:Hfmt; [|discriminate]. cbn [negb].
  destruct (JS.parseInt bestOfStr) as [bo|] eqn:Hbo; [|discriminate].
  destruct (Z.ltb_spec bo 1); [discriminate|].
  destruct (Z.ltb_spec 999 bo); [discriminate|]. cbn [orb].
  destruct (_ <? 2)%nat; [discriminate|].
  destruct (is_power_count _); [|discriminate]. cbn [negb].
  destruct (Nat.ltb_spec 0 (length (invalidPlayers players)));
    [discriminate|].
  destruct (Nat.eqb_spec (length (remove_dups (map toID players)))
              (length players)) as [Hdup|]; [|discriminate].
  cbn [negb]. unfold initialize_call.
  destruct (initialize _ _ _ _ _ _) as [s|msg] eqn:Hinit; [|discriminate].
  destruct (save (saveToCSV s)); [discriminate|].
  intros [= <-]. exists fmt, bestOfStr, bo, players.
  split; [reflexivity|]. split; [now apply truthy_true|].
  split; [exact Hbo|]. split; [lia|].
  split; [|split; [exact Hinit|]].
  - split.
    + apply NoDup_ListNoDup, remove_dups_length_NoDup.
      now rewrite length_map.
    + apply invalidPlayers_none. lia.
  - intros ->. exact (reach_init players fmt bo false (fun _ => O%nat) s Hinit).
Qed.

Lemma createbracket_checked_witness :
  exists fmt bestOfStr bo players,
    map JS.trim (JS.split "," "gen1ou, 1, Alice, Bob, Carol, Dave")
    = fmt :: bestOfStr :: players /\
    fmt <> "" /\ JS.parseInt bestOfStr = Some bo /\ 1 <= bo <= 999 /\
    valid_players players /\
    initialize fmt players bo false (fun _ => O) empty_state
    = Ok (started four_players 1) /\
    (empty_state = empty_state ->
     reachable_from players (started four_players 1)).
Proof.
  apply (createbracket_checked (fun _ => None) true true empty_state
           (started four_players 1) "gen1ou, 1, Alice, Bob, Carol, Dave").
  vm_compute. reflexivity.
Defined.

(** X17.  On a controller that holds no bracket, [/createbracket] and
    [/shufflebracket] report a failure of [initialize] only when the write
    of the file fails: the checks of the commands cover the guards of
    [initialize], so the bracket is built, the state is initialized, and
    the message reported is the error of the write. *)
Theorem create_fails_on_write (save : FileStore) (can bracketmode : bool)
    (rnd : nat -> nat) (st st' : BracketState) (target msg : string) :
  initialized st = false ->
  createbracket save can bracketmode st target = Failed st' msg \/
  createbracketshuffle save can bracketmode rnd st target = Failed st' msg ->
  save (saveToCSV st') = Some msg /\ initialized st' = true /\
  exists fmt players bo randomize r,
    initialize fmt players bo randomize r st = Ok st'.
Proof.
  intros Hidle.
  assert (Hlen : forall (parts : list string) fmt b players,
            (length parts <? 4)%nat = false ->
            parts = fmt :: b :: players -> (2 <= length players)%nat).
  { intros parts fmt b players Hl ->. apply Nat.ltb_ge in Hl. cbn in Hl. lia. }
  assert (Hcall : forall fmt players bo randomize r (k : nat),
            length players = (2 ^ S k)%nat ->
            match initialize_call save fmt players bo randomize r st with
            | (s, Ok _) => Created s
            | (s, Throw m) => Failed s m
            end = Failed st' msg ->
            save (saveToCSV st') = Some msg /\ initialized st' = true /\
            exists fmt players bo randomize r,
              initialize fmt players bo randomize r st = Ok st').
  { intros fmt players bo randomize r k Hk. unfold initialize_call.
    destruct (initialize_pow2 fmt players bo randomize r st k Hidle Hk)
      as [s Hinit].
    rewrite Hinit.
    destruct (save (saveToCSV s)) as [e|] eqn:Hsave; [|discriminate].
    intros [= <- <-]. split; [exact Hsave|]. split; [|eauto 10].
    apply initialize_inv in Hinit
      as (_ & _ & _ & pairs & first & pm & _ & _ & ->). reflexivity. }
  intros [H|H]; revert H.
  - unfold createbracket.
    destruct can; [|discriminate]. destruct bracketmode; [|discriminate].
    cbn [negb]. destruct (JS.truthy target); [|discriminate]. cbn [negb].
    destruct (_ <? 4)%nat eqn:Hl; [discriminate|].
    destruct (map JS.trim (JS.split "," target))
      as [|fmt [|bestOfStr players]] eqn:Hparts; try discriminate.
    pose proof (Hlen _ _ _ _ Hl eq_refl) as Hp. clear Hl.
    destruct (JS.truthy fmt); [|discriminate]. cbn [negb].
    destruct (JS.parseInt bestOfStr) as [bo|]; [|discriminate].
    destruct (_ || _); [discriminate|].
    destruct (length players <? 2)%nat; [discriminate|].
    destruct (is_power_count _) eqn:Hpow; [|discriminate]. cbn [negb].
    destruct (0 <? length (invalidPlayers players))%nat; [discriminate|].
    destruct (negb _); [discriminate|].
    destruct (is_power_count_spec _ Hp Hpow) as [k Hk].
    apply (Hcall _ _ _ _ _ k Hk).
  - unfold createbracketshuffle.
    destruct can; [|discriminate]. destruct bracketmode; [|discriminate].
    cbn [negb]. destruct (JS.truthy target); [|discriminate]. cbn [negb].
    destruct (_ <? 4)%nat eqn:Hl; [discriminate|].
    destruct (map JS.trim (JS.split "," target))
      as [|fmt [|bestOfStr players]] eqn:Hparts; try discriminate.
    pose proof (Hlen _ _ _ _ Hl eq_refl) as Hp. clear Hl.
    destruct (JS.truthy fmt); [|discriminate]. cbn [negb].
    destruct (JS.parseInt bestOfStr) as [bo|]; [|discriminate].
    destruct (_ || _); [discriminate|].
    destruct (is_power_count _) eqn:Hpow; [|discriminate]. cbn [negb].
    destruct (is_power_count_spec _ Hp Hpow) as [k Hk].
    apply (Hcall _ _ _ _ _ k Hk).
Qed.

Lemma create_fails_on_write_witness :
  (fun _ : string => Some "EROFS") (saveToCSV (started ["Alice"; "Bob"] 1))
  = Some "EROFS" /\
  initialized (started ["Alice"; "Bob"] 1) = true /\
  exists fmt players bo randomize r,
    initialize fmt players bo randomize r empty_state
    = Ok (started ["Alice"; "Bob"] 1).
Proof.
  apply (create_fails_on_write (fun _ => Some "EROFS") true true no_shuffle
           empty_state (started ["Alice"; "Bob"] 1) "gen1ou, 1, Alice, Bob"
           "EROFS").
  - reflexivity.
  - left. vm_compute. reflexivity.
Defined.

Lemma append_cons (c : ascii) (a b : string) : String c a ++ b = String c (a ++ b).
Proof. reflexivity. Qed.

Lemma append_nil (b : string) : "" ++ b = b.
Proof. reflexivity. Qed.

Lemma all_chars_app (P : ascii -> bool) (a b : string) :
  all_chars P (a ++ b) = all_chars P a && all_chars P b.
Proof.
  induction a as [|c a IH]; [reflexivity|].
  rewrite append_cons. cbn. rewrite IH. apply andb_assoc.
Qed.

Lemma all_chars_impl (P Q : ascii -> bool) (s : string) :
  (forall c, P c = true -> Q c = true) ->
  all_chars P s = true -> all_chars Q s = true.
Proof.
  intros HPQ. induction s as [|c s IH]; cbn; [reflexivity|].
  intros H. apply andb_true_iff in H as [Hc Hs].
  rewrite (HPQ c Hc), (IH Hs). reflexivity.
Qed.

Lemma string_app_assoc (a b c : string) : (a ++ b) ++ c = a ++ b ++ c.
Proof.
  induction a as [|x a IH]; [reflexivity|].
  rewrite !append_cons, IH. reflexivity.
Qed.

Lemma split_nonempty (c : ascii) (s : string) : JS.split c s <> [].
Proof.
  induction s as [|a s IH]; cbn; [discriminate|].
  destruct (Ascii.eqb a c); [discriminate|].
  destruct (JS.split c s); discriminate.
Qed.

Lemma split_free (c : ascii) (s : string) :
  free_of c s = true -> JS.split c s = [s].
Proof.
  unfold free_of. induction s as [|a s IH]; cbn; [reflexivity|].
  intros H. apply andb_true_iff in H as [Ha Hs].
  apply negb_true_iff in Ha. rewrite Ha, (IH Hs). reflexivity.
Qed.

Lemma split_app (c : ascii) (f rest : string) :
  free_of c f = true ->
  JS.split c (f ++ String c rest) = f :: JS.split c rest.
Proof.
  unfold free_of. induction f as [|a f IH].
  - intros _. rewrite append_nil. cbn. rewrite Ascii.eqb_refl. reflexivity.
  - rewrite append_cons. cbn. intros H. apply andb_true_iff in H as [Ha Hf].
    apply negb_true_iff in Ha. rewrite Ha, (IH Hf). reflexivity.
Qed.

Lemma split_join (c : ascii) (fields : list string) :
  fields <> [] -> List.Forall (fun f => free_of c f = true) fields ->
  JS.split c (JS.join (String c "") fields) = fields.
Proof.
  unfold JS.join. induction fields as [|f fields IH]; [congruence|].
  intros _ H. inversion H as [|? ? Hf Hrest]; subst.
  destruct fields as [|g fields].
  - cbn. apply split_free, Hf.
  - change (String.concat (String c "") (f :: g :: fields))
      with (f ++ String c (String.concat (String c "") (g :: fields))).
    rewrite split_app by exact Hf. f_equal. apply IH; [discriminate|exact Hrest].
Qed.

Lemma trimStart_spaceless (s : string) :
  all_chars (fun a => negb (JS.is_space a)) s = true -> JS.trimStart s = s.
Proof.
  destruct s as [|c s]; cbn; [reflexivity|].
  intros H. apply andb_true_iff in H as [Hc _].
  apply negb_true_iff in Hc. rewrite Hc. reflexivity.
Qed.

Lemma trimEnd_spaceless (s : string) :
  all_chars (fun a => negb (JS.is_space a)) s = true -> JS.trimEnd s = s.
Proof.
  induction s as [|c s IH]; cbn; [reflexivity|].
  intros H. apply andb_true_iff in H as [Hc Hs].
  apply negb_true_iff in Hc. rewrite (IH Hs), Hc.
  destruct s; reflexivity.
Qed.

Lemma trim_spaceless (s : string) :
  all_chars (fun a => negb (JS.is_space a)) s = true -> JS.trim s = s.
Proof.
  intros H. unfold JS.trim. rewrite (trimStart_spaceless s H).
  apply trimEnd_spaceless, H.
Qed.

Lemma tight_app (a b : string) : tight b -> tight (a ++ b).
Proof.
  intros [Hb Hne]. induction a as [|c a [IH1 IH2]]; [split; assumption|].
  split; [|discriminate]. rewrite append_cons. cbn [JS.trimEnd]. rewrite IH1.
  destruct (a ++ b); [congruence|reflexivity].
Qed.

Lemma is_id_char_lower (c : ascii) :
  is_id_char c = true -> toLowerCase_ascii c = c.
Proof.
  unfold is_id_char, toLowerCase_ascii. intros H.
  destruct ((65 <=? nat_of_ascii c)%nat && (nat_of_ascii c <=? 90)%nat) eqn:E;
    [|reflexivity].
  apply andb_true_iff in E as [E1 E2].
  apply Nat.leb_le in E1, E2.
  apply orb_true_iff in H as [H|H]; apply andb_true_iff in H as [H1 H2];
    apply Nat.leb_le in H1, H2; lia.
Qed.

Lemma toID_chars (s : string) : all_chars is_id_char (toID s) = true.
Proof.
  induction s as [|c s IH]; cbn; [reflexivity|].
  destruct (is_id_char (toLowerCase_ascii c)) eqn:E; [|exact IH].
  cbn. rewrite E, IH. reflexivity.
Qed.

Lemma toID_fixed (s : string) : all_chars is_id_char s = true -> toID s = s.
Proof.
  induction s as [|c s IH]; cbn; [reflexivity|].
  intros H. apply andb_true_iff in H as [Hc Hs].
  rewrite (is_id_char_lower c Hc), Hc, (IH Hs). reflexivity.
Qed.

Lemma toID_idem (s : string) : toID (toID s) = toID s.
Proof. apply toID_fixed, toID_chars. Qed.

Lemma digits_prefix_uint (d : Decimal.uint) (acc : Z) :
  JS.digits_prefix 10 (NilEmpty.string_of_uint d) (Some acc)
  = Some (uval d acc).
Proof.
  revert acc. induction d; intros acc; cbn [NilEmpty.string_of_uint uval];
    [reflexivity|..];
    cbn [JS.digits_prefix];
    match goal with
    | |- context [JS.digit_of 10 ?c] =>
        let v := eval vm_compute in (JS.digit_of 10 c) in
        change (JS.digit_of 10 c) with v
    end; cbv iota; rewrite IHd; f_equal; f_equal; lia.
Qed.

Lemma uval_of_uint_acc (d : Decimal.uint) (acc : positive) :
  Z.pos (Pos.of_uint_acc d acc) = uval d (Z.pos acc).
Proof.
  revert acc. induction d; intros acc; cbn [Pos.of_uint_acc uval];
    [reflexivity|..]; rewrite IHd; f_equal; lia.
Qed.

Lemma uval_of_uint (d : Decimal.uint) : Z.of_N (Pos.of_uint d) = uval d 0.
Proof.
  induction d; cbn [Pos.of_uint uval]; [reflexivity|exact IHd|..];
    cbn [Z.of_N]; rewrite uval_of_uint_acc; reflexivity.
Qed.

Ltac crunch_chars :=
  repeat match goal with
  | |- context [JS.is_space ?c] =>
      let v := eval vm_compute in (JS.is_space c) in
      change (JS.is_space c) with v
  | |- context [JS.digit_of 10 ?c] =>
      let v := eval vm_compute in (JS.digit_of 10 c) in
      change (JS.digit_of 10 c) with v
  end; cbv beta iota.

Lemma parseInt_uint (d : Decimal.uint) :
  d <> Decimal.Nil ->
  JS.parseInt (NilEmpty.string_of_uint d) = Some (uval d 0) /\
  JS.parseInt (String "-" (NilEmpty.string_of_uint d)) = Some (- uval d 0).
Proof.
  intros Hd. destruct d as [|d|d|d|d|d|d|d|d|d|d]; [congruence|..];
    try (split; unfold JS.parseInt;
         cbn [NilEmpty.string_of_uint JS.trimStart uval]; crunch_chars;
         cbn [JS.digits_prefix]; crunch_chars;
         rewrite digits_prefix_uint; reflexivity).
  split; unfold JS.parseInt; cbn [NilEmpty.string_of_uint JS.trimStart uval];
    crunch_chars; destruct d; cbn [NilEmpty.string_of_uint]; cbv beta iota;
    cbn [JS.digits_prefix]; crunch_chars; cbn [JS.digits_prefix uval];
    crunch_chars; rewrite ?digits_prefix_uint; reflexivity.
Qed.

Lemma parseInt_string_of_Z (z : Z) : JS.parseInt (JS.string_of_Z z) = Some z.
Proof.
  unfold JS.string_of_Z. destruct z as [|p|p]; [reflexivity|..];
    cbn [Z.to_int NilZero.string_of_int];
    pose proof (DecimalPos.Unsigned.to_uint_nonnil p) as Hnil;
    pose proof (DecimalPos.Unsigned.of_to p) as Hof;
    apply (f_equal Z.of_N) in Hof; rewrite uval_of_uint in Hof;
    destruct (parseInt_uint _ Hnil) as [Hp Hn];
    unfold NilZero.string_of_uint;
    destruct (Pos.to_uint p) eqn:E; try congruence;
    rewrite <- E in *; rewrite ?Hp, ?Hn, Hof; reflexivity.
Qed.

Lemma uint_chars (d : Decimal.uint) :
  all_chars is_num_char (NilEmpty.string_of_uint d) = true.
Proof.
  induction d; cbn [NilEmpty.string_of_uint all_chars]; [reflexivity|..];
    rewrite IHd; reflexivity.
Qed.

Lemma string_of_Z_chars (z : Z) :
  all_chars is_num_char (JS.string_of_Z z) = true.
Proof.
  unfold JS.string_of_Z.
  assert (H : forall d, all_chars is_num_char (NilZero.string_of_uint d) = true).
  { intros d. destruct d; try reflexivity; apply (uint_chars _). }
  destruct z as [|p|p]; cbn [Z.to_int NilZero.string_of_int]; [reflexivity|..].
  - apply H.
  - cbn [all_chars]. rewrite H. reflexivity.
Qed.

Lemma string_of_Z_nonempty (z : Z) : JS.string_of_Z z <> "".
Proof.
  intros E. pose proof (parseInt_string_of_Z z) as H. rewrite E in H.
  discriminate.
Qed.

Lemma num_free (c : ascii) (z : Z) :
  is_num_char c = false -> free_of c (JS.string_of_Z z) = true.
Proof.
  intros Hc. unfold free_of.
  apply (all_chars_impl is_num_char); [|apply string_of_Z_chars].
  intros a Ha. apply negb_true_iff. destruct (Ascii.eqb_spec a c); congruence.
Qed.

Lemma num_trim (z : Z) : JS.trim (JS.string_of_Z z) = JS.string_of_Z z.
Proof.
  apply trim_spaceless.
  apply (all_chars_impl is_num_char); [|apply string_of_Z_chars].
  intros a Ha. destruct a as [[] [] [] [] [] [] [] []];
    vm_compute in Ha |- *; congruence.
Qed.

Lemma id_free (c : ascii) (s : string) :
  is_id_char c = false -> free_of c (toID s) = true.
Proof.
  intros Hc. unfold free_of.
  apply (all_chars_impl is_id_char); [|apply toID_chars].
  intros a Ha. apply negb_true_iff. destruct (Ascii.eqb_spec a c); congruence.
Qed.

Lemma id_trim (s : string) : JS.trim (toID s) = toID s.
Proof.
  apply trim_spaceless.
  apply (all_chars_impl is_id_char); [|apply toID_chars].
  intros a Ha. destruct a as [[] [] [] [] [] [] [] []];
    vm_compute in Ha |- *; congruence.
Qed.

Lemma fixed_free (c : ascii) (s : string) :
  is_id_char c = false -> toID s = s -> free_of c s = true.
Proof. intros Hc <-. now apply id_free. Qed.

Lemma fixed_trim (s : string) : toID s = s -> JS.trim s = s.
Proof. intros <-. apply id_trim. Qed.

Lemma status_roundtrip (s : Status) :
  status_of_string (string_of_status s) = Some s /\
  JS.truthy (string_of_status s) = true /\
  JS.trim (string_of_status s) = string_of_status s /\
  free_of "," (string_of_status s) = true /\
  free_of JS.LF (string_of_status s) = true.
Proof. destruct s; repeat split; reflexivity. Qed.

Lemma row_fields_free (c : ascii) (m : BracketMatch) :
  is_num_char c = false -> is_id_char c = false ->
  free_of c (string_of_status (status m)) = true ->
  free_of c (player1Display m) = true -> free_of c (player2Display m) = true ->
  free_of c (default "" (winnerDisplay m)) = true ->
  toID (player1 m) = player1 m -> toID (player2 m) = player2 m ->
  toID (default "" (winner m)) = default "" (winner m) ->
  List.Forall (fun f => free_of c f = true)
    [JS.string_of_Z (round m); JS.string_of_Z (matchId m);
     player1 m; player2 m; player1Display m; player2Display m;
     JS.string_of_Z (p1wins m); JS.string_of_Z (p2wins m);
     string_of_status (status m);
     default "" (winner m); default "" (winnerDisplay m)].
Proof.
  intros Hn Hi Hs Hd1 Hd2 Hwd H1 H2 Hw.
  repeat (apply List.Forall_cons); try apply List.Forall_nil;
    try (now apply num_free); try (now apply fixed_free); assumption.
Qed.

Lemma storable_winner (m : BracketMatch) :
  storable m ->
  toID (default "" (winner m)) = default "" (winner m) /\
  plain (default "" (winnerDisplay m)) /\
  (if JS.truthy (default "" (winner m))
   then Some (toID (default "" (winner m))) else None) = winner m /\
  (if JS.truthy (default "" (winnerDisplay m))
   then Some (default "" (winnerDisplay m)) else None) = winnerDisplay m.
Proof.
  intros (_ & _ & _ & _ & H).
  destruct (winner m) as [w|], (winnerDisplay m) as [d|]; try contradiction.
  - destruct H as (Hw & Hne & Hd & Hdne).
    change (default "" (Some w)) with w. change (default "" (Some d)) with d.
    split; [exact Hw|]. split; [exact Hd|].
    destruct w; [congruence|]. destruct d; [congruence|].
    cbn [JS.truthy]. rewrite Hw. split; reflexivity.
  - cbn. repeat split; reflexivity.
Qed.

Lemma parse_csv_row (m : BracketMatch) :
  storable m -> parse_match (csv_row m) = Some m.
Proof.
  intros Hst. pose proof (storable_winner m Hst) as (Hw & Hwd & Ew & Ewd).
  destruct Hst as (H1 & H2 & Hd1 & Hd2 & _).
  destruct Hd1 as (Td1 & Cd1 & _). destruct Hd2 as (Td2 & Cd2 & _).
  destruct Hwd as (Twd & Cwd & _).
  destruct (status_roundtrip (status m)) as (Es & Ts & Trs & Cs & _).
  unfold parse_match, csv_row.
  rewrite split_join;
    [|discriminate|apply row_fields_free; try assumption; reflexivity].
  cbn [map]. rewrite !num_trim, Td1, Td2, Twd, Trs.
  rewrite (fixed_trim _ H1), (fixed_trim _ H2), (fixed_trim _ Hw).
  cbn [length Nat.leb lookup list_lookup from_option Datatypes.id].
  rewrite !parseInt_string_of_Z, Ts, Es, H1, H2, Ew, Ewd.
  cbn [from_option Datatypes.id]. destruct m; reflexivity.
Qed.

Lemma parse_saved_rows (ms : list BracketMatch) :
  List.Forall storable ms -> parse_matches (map csv_row ms) = Some ms.
Proof.
  induction 1 as [|m ms Hm _ IH]; [reflexivity|].
  cbn [map parse_matches]. rewrite (parse_csv_row m Hm), IH. reflexivity.
Qed.

Lemma free_of_app (c : ascii) (a b : string) :
  free_of c (a ++ b) = free_of c a && free_of c b.
Proof. apply all_chars_app. Qed.

Lemma free_of_cons (c a : ascii) (s : string) :
  free_of c (String a s) = negb (Ascii.eqb a c) && free_of c s.
Proof. reflexivity. Qed.

Lemma free_of_join (c : ascii) (sep : string) (fields : list string) :
  free_of c sep = true -> List.Forall (fun f => free_of c f = true) fields ->
  free_of c (JS.join sep fields) = true.
Proof.
  intros Hsep. unfold JS.join. induction 1 as [|f fields Hf Hrest IH];
    [reflexivity|].
  destruct fields as [|g fields]; [exact Hf|].
  change (String.concat sep (f :: g :: fields))
    with (f ++ sep ++ String.concat sep (g :: fields)).
  rewrite !free_of_app, Hf, Hsep, IH. reflexivity.
Qed.

Lemma storable_row_line (m : BracketMatch) :
  storable m -> free_of JS.LF (csv_row m) = true.
Proof.
  intros Hst. pose proof (storable_winner m Hst) as (Hw & Hwd & _).
  destruct Hst as (H1 & H2 & Hd1 & Hd2 & _).
  destruct Hd1 as (_ & _ & Ld1 & _). destruct Hd2 as (_ & _ & Ld2 & _).
  destruct Hwd as (_ & _ & Lwd & _).
  destruct (status_roundtrip (status m)) as (_ & _ & _ & _ & Ls).
  unfold csv_row. apply free_of_join; [reflexivity|].
  apply row_fields_free; try assumption; reflexivity.
Qed.

Lemma trim_keeps (c : ascii) (s : string) :
  JS.is_space c = false -> JS.truthy (JS.trim (String c s)) = true.
Proof.
  intros Hc. unfold JS.trim. cbn [JS.trimStart]. rewrite Hc.
  cbn [JS.trimEnd]. destruct (JS.trimEnd s); [rewrite Hc|]; reflexivity.
Qed.

Lemma num_first (z : Z) :
  exists c s, JS.string_of_Z z = String c s /\ JS.is_space c = false.
Proof.
  pose proof (string_of_Z_chars z) as Hc.
  pose proof (string_of_Z_nonempty z) as Hne.
  destruct (JS.string_of_Z z) as [|c s]; [congruence|].
  exists c, s. split; [reflexivity|].
  cbn in Hc. apply andb_true_iff in Hc as [Hc _].
  destruct c as [[] [] [] [] [] [] [] []]; vm_compute in Hc |- *; congruence.
Qed.

Lemma row_not_blank (m : BracketMatch) :
  JS.truthy (JS.trim (csv_row m)) = true.
Proof.
  unfold csv_row.
  destruct (num_first (round m)) as (c & s & E & Hc).
  change (JS.join "," (JS.string_of_Z (round m) :: ?l))
    with (JS.string_of_Z (round m) ++ "," ++ JS.join "," l).
  rewrite E, append_cons. now apply trim_keeps.
Qed.

Lemma bool_tight (b : bool) : tight (JS.string_of_bool b).
Proof. destruct b; split; try reflexivity; discriminate. Qed.

Lemma tight_cons (c : ascii) (b : string) : tight b -> tight (String c b).
Proof. intros H. exact (tight_app (String c "") b H). Qed.

Lemma bool_free (c : ascii) (b : bool) :
  is_id_char c = false -> free_of c (JS.string_of_bool b) = true.
Proof.
  intros Hc. destruct b.
  - exact (id_free c "true" Hc).
  - exact (id_free c "false" Hc).
Qed.

Lemma saved_text (st : BracketState) :
  matches st <> [] ->
  saveToCSV st
  = JS.join newline (meta_line st :: csv_header :: map csv_row (matches st)).
Proof.
  intros Hne. unfold saveToCSV, meta_line, JS.join.
  destruct (map csv_row (matches st)) as [|r rs] eqn:E.
  { destruct (matches st); [congruence|discriminate]. }
  change (String.concat newline (?a :: csv_header :: r :: rs))
    with (a ++ newline ++ csv_header ++ newline
            ++ String.concat newline (r :: rs)).
  rewrite !string_app_assoc. reflexivity.
Qed.

Lemma saved_lines (st : BracketState) :
  matches st <> [] -> free_of JS.LF (format st) = true ->
  List.Forall storable (matches st) ->
  List.filter (fun line => JS.truthy (JS.trim line))
    (JS.split JS.LF (saveToCSV st))
  = meta_line st :: csv_header :: map csv_row (matches st).
Proof.
  intros Hne Hf Hall. rewrite (saved_text st Hne).
  unfold newline. rewrite split_join; [|discriminate|].
  - cbn [List.filter].
    assert (Hm : JS.truthy (JS.trim (meta_line st)) = true)
      by (apply trim_keeps; reflexivity).
    rewrite Hm.
    assert (Hh : JS.truthy (JS.trim csv_header) = true) by reflexivity.
    rewrite Hh. f_equal. f_equal.
    induction (matches st) as [|m ms IH]; [reflexivity|].
    cbn [map List.filter]. rewrite row_not_blank. f_equal.
    destruct ms; [reflexivity|]. apply IH; [discriminate|].
    now inversion Hall.
  - apply List.Forall_cons; [|apply List.Forall_cons; [reflexivity|]].
    + unfold meta_line. rewrite !free_of_app, Hf.
      rewrite !num_free by reflexivity.
      rewrite bool_free by reflexivity. reflexivity.
    + apply List.Forall_forall. intros line Hin.
      apply in_map_iff in Hin as (m & <- & Hin).
      apply storable_row_line.
      exact (proj1 (List.Forall_forall _ _) Hall m Hin).
Qed.

Lemma apply_meta_pair (acc : string * option Z * Z * bool) (k v : string) :
  free_of "=" k = true -> free_of "=" v = true ->
  JS.trim k = k -> JS.trim v = v ->
  apply_meta acc (k ++ String "=" v)
  = let '(f, b, n, fr) := acc in
    (if String.eqb k "format" then v else f,
     if String.eqb k "bestOf" then JS.parseInt v else b,
     if String.eqb k "participants" then default 0 (JS.parseInt v) else n,
     if String.eqb k "frozen" then bool_decide (Some v = Some "true") else fr).
Proof.
  intros Hk Hv Tk Tv. destruct acc as [[[f b] n] fr]. unfold apply_meta.
  rewrite split_app by exact Hk. rewrite (split_free _ _ Hv).
  cbn [map lookup list_lookup from_option Datatypes.id]. rewrite Tk, Tv.
  reflexivity.
Qed.

Lemma bool_roundtrip (b : bool) :
  bool_decide (Some (JS.string_of_bool b) = Some "true") = b.
Proof. destruct b; reflexivity. Qed.

Lemma bool_trim (b : bool) : JS.trim (JS.string_of_bool b) = JS.string_of_bool b.
Proof. destruct b; reflexivity. Qed.

Lemma saved_meta (st : BracketState) (acc : string * option Z * Z * bool) :
  JS.trim (format st) = format st ->
  free_of "," (format st) = true -> free_of "=" (format st) = true ->
  JS.startsWith (meta_line st) "#" = true /\
  fold_left apply_meta
    (JS.split "," (JS.trim (JS.substring1 (meta_line st)))) acc
  = (format st, Some (bestOf st), participants st, frozen st).
Proof.
  intros Tf Cf Ef. split; [reflexivity|].
  assert (Et : JS.trim (JS.substring1 (meta_line st))
               = ("format" ++ String "=" (format st))
                 ++ String ","
                    (("bestOf" ++ String "=" (JS.string_of_Z (bestOf st)))
                     ++ String ","
                          (("participants"
                            ++ String "=" (JS.string_of_Z (participants st)))
                           ++ String ","
                                ("frozen"
                                 ++ String "=" (JS.string_of_bool (frozen st)))))).
  { unfold JS.trim.
    assert (E1 : JS.trimStart (JS.substring1 (meta_line st))
                 = ("format" ++ String "=" (format st))
                 ++ String ","
                    (("bestOf" ++ String "=" (JS.string_of_Z (bestOf st)))
                     ++ String ","
                          (("participants"
                            ++ String "=" (JS.string_of_Z (participants st)))
                           ++ String ","
                                ("frozen"
                                 ++ String "=" (JS.string_of_bool (frozen st)))))).
    { unfold meta_line. rewrite !string_app_assoc. reflexivity. }
    rewrite E1.
    apply tight_app, tight_cons, tight_app, tight_cons, tight_app, tight_cons,
      tight_app, tight_cons, bool_tight. }
  rewrite Et.
  rewrite split_app
    by (rewrite free_of_app, !free_of_cons, Cf; reflexivity).
  rewrite split_app
    by (rewrite free_of_app, !free_of_cons, num_free by reflexivity; reflexivity).
  rewrite split_app
    by (rewrite free_of_app, !free_of_cons, num_free by reflexivity; reflexivity).
  rewrite split_free
    by (rewrite free_of_app, !free_of_cons, bool_free by reflexivity; reflexivity).
  cbn [fold_left].
  rewrite !apply_meta_pair;
    try reflexivity; try assumption;
    try (apply num_free; reflexivity); try apply num_trim;
    try (apply bool_free; reflexivity); try apply bool_trim.
  destruct acc as [[[f b] n] fr].
  cbn [String.eqb Ascii.eqb Bool.eqb].
  rewrite !parseInt_string_of_Z, bool_roundtrip. reflexivity.
Qed.

Lemma load_saved (cfg : brackettournament) (before st : BracketState) :
  matches st <> [] ->
  JS.trim (format st) = format st ->
  free_of "," (format st) = true -> free_of "=" (format st) = true ->
  free_of JS.LF (format st) = true ->
  List.Forall storable (matches st) ->
  loadFromCSV cfg (Some (saveToCSV st)) before
  = let '(ms, pm, dn) := loaded_maps (matches st) in
    Loaded
      (mkState (format st)
         (if participants st =? 0
          then Z.of_nat (length (List.filter (in_round 1) ms)) * 2
          else participants st)
         (bestOf st)
         (default 1 (max_list (map round (List.filter has_activity ms))))
         ms pm dn true (frozen st)).
Proof.
  intros Hne Tf Cf Ef Lf Hall. unfold loadFromCSV.
  assert (Ht : JS.truthy (saveToCSV st) = true) by reflexivity.
  rewrite Ht. cbn [negb].
  rewrite (saved_lines st Hne Lf Hall).
  destruct (saved_meta st
              (format before, Some (bestOf before), participants before,
               frozen before) Tf Cf Ef) as [Hs Hfold].
  pose proof (parse_saved_rows _ Hall) as Hrows.
  unfold loaded_maps.
  destruct (matches st) as [|m0 ms0] eqn:Ems; [congruence|].
  cbn [length map Nat.ltb Nat.leb lookup list_lookup from_option Datatypes.id
       drop].
  rewrite Hs. cbn [negb]. rewrite Hfold.
  cbn [map] in Hrows. rewrite Hrows.
  destruct (fold_left load_match (m0 :: ms0) ([], ∅, ∅)) as [[ms pm] dn].
  reflexivity.
Qed.

Lemma filed_update (players : list string) (st st' : BracketState) (i : nat)
    (m m' : BracketMatch) :
  ~ In "" (map toID players) ->
  filed players st -> matches st !! i = Some m ->
  round m' = round m ->
  (player1 m <> "" -> player1 m' = player1 m) ->
  (player2 m <> "" -> player2 m' = player2 m) ->
  (played m' -> player1 m' <> "" /\ player2 m' <> "" /\
                round m' <= currentRound st') ->
  (status m' <> complete -> winner m' = None) ->
  (played m -> played m') ->
  currentRound st <= currentRound st' ->
  (currentRound st' = currentRound st \/
   (played m' /\ round m' = currentRound st')) ->
  matches st' = <[i := m']> (matches st) ->
  participants st' = participants st ->
  filed players st'.
Proof.
  intros Hne [Hfull Hopen Hbelow Hreach Hseat Hcount] Hm Er E1 E2 Hp Hw Hpp
    Hle Hcr Ems Epart.
  pose proof (lookup_lt_Some _ _ _ Hm) as Hlt.
  split.
  - intros j x Hx Hpl. rewrite Ems in Hx.
    apply lookup_insert_cases in Hx as [[-> ->]|[_ Hx]]; [|eauto].
    destruct (Hp Hpl) as (? & ? & _). auto.
  - intros j x Hx Hs. rewrite Ems in Hx.
    apply lookup_insert_cases in Hx as [[-> ->]|[_ Hx]]; eauto.
  - intros j x Hx Hpl. rewrite Ems in Hx.
    apply lookup_insert_cases in Hx as [[-> ->]|[_ Hx]].
    + now destruct (Hp Hpl) as (_ & _ & ?).
    + specialize (Hbelow j x Hx Hpl). lia.
  - destruct Hcr as [Hcr|[Hpl Hr]].
    + destruct Hreach as (j & x & Hx & Hpl & Hr).
      destruct (decide (j = i)) as [->|Hji].
      * assert (x = m) as -> by congruence.
        exists i, m'. rewrite Ems, list_lookup_insert_eq by exact Hlt.
        split; [reflexivity|]. split; [auto|]. congruence.
      * exists j, x. rewrite Ems, list_lookup_insert_ne by congruence.
        split; [exact Hx|]. split; [exact Hpl|]. congruence.
    + exists i, m'. rewrite Ems, list_lookup_insert_eq by exact Hlt. auto.
  - intros d Hd. destruct (Hseat d Hd) as (j & x & Hx & Hor).
    assert (Hid : toID d <> "").
    { intros E. apply Hne. rewrite <- E. now apply in_map. }
    destruct (decide (j = i)) as [->|Hji].
    + assert (x = m) as -> by congruence.
      exists i, m'. rewrite Ems, list_lookup_insert_eq by exact Hlt.
      split; [reflexivity|].
      destruct Hor as [Hor|Hor]; [left; rewrite E1|right; rewrite E2];
        congruence.
    + exists j, x. rewrite Ems, list_lookup_insert_ne by congruence. auto.
  - congruence.
Qed.

Lemma filed_set_frozen (players : list string) (st : BracketState) (b : bool) :
  filed players st -> filed players (set_frozen st b).
Proof. intros [? ? ? ? ? ?]. split; assumption. Qed.

Lemma advanceWinner_filed (players : list string) (st : BracketState)
    (i : nat) :
  ~ In "" (map toID players) -> filed players st ->
  filed players (fst (advanceWinner st i)).
Proof.
  intros Hne Hf.
  destruct (advanceWinner_inv st i)
    as [->|(M & n & N & nm & HM & Hfr & Hnext & Hplace & ->)]; [exact Hf|].
  destruct (nextMatch_of_spec _ _ _ _ Hnext) as [HN Hr].
  assert (Hnp : ~ played N).
  { intros Hpl. destruct (filed_full _ _ Hf _ _ HN Hpl) as [H1 H2].
    destruct (place_inv _ _ _ _ Hplace) as [[H _]|(_ & H & _)];
      apply truthy_false in H; congruence. }
  assert (HwN : winner N = None).
  { apply (filed_open _ _ Hf _ _ HN). intros E. apply Hnp. now right. }
  assert (Hnm : round nm = round N /\ winner nm = winner N /\
                (player1 N <> "" -> player1 nm = player1 N) /\
                (player2 N <> "" -> player2 nm = player2 N)).
  { destruct (place_inv _ _ _ _ Hplace) as [[H ->]|(H1 & H & ->)];
      apply truthy_false in H;
      cbn [round winner player1 player2 set_player1 set_player2];
      repeat split; congruence. }
  destruct Hnm as (Ernm & Ewnm & Ep1 & Ep2).
  unfold advanced.
  destruct (JS.truthy (player1 nm) && JS.truthy (player2 nm)) eqn:Hboth.
  - apply andb_true_iff in Hboth as [Hb1 Hb2].
    apply truthy_true in Hb1, Hb2.
    apply (filed_update players st _ n N (set_status nm active));
      cbn [round player1 player2 status winner set_status currentRound
           matches participants];
      try assumption; try reflexivity; try tauto.
    + intros _. repeat split; try assumption.
      destruct (Z.ltb_spec (currentRound st) (round M + 1)); lia.
    + intros _. congruence.
    + destruct (Z.ltb_spec (currentRound st) (round M + 1)); lia.
    + destruct (Z.ltb_spec (currentRound st) (round M + 1));
        [right|left; reflexivity].
      split; [now left|lia].
  - apply (filed_update players st _ n N (set_status nm waiting));
      cbn [round player1 player2 status winner set_status currentRound
           matches participants set_matches];
      try assumption; try reflexivity; try tauto.
    + intros [H|H]; discriminate.
    + intros _. congruence.
Qed.

Lemma recordWin_filed (players : list string) (st : BracketState)
    (w l : string) :
  ~ In "" (map toID players) -> wf st -> filed players st ->
  filed players (fst (recordWin st w l)).
Proof.
  intros Hne Hwf Hf.
  destruct (recordWin_inv st w l)
    as [->|(i & m & Hpm & Hm & Hopp & [[Hge ->]|(H1 & H2 & ->)])];
    [exact Hf| |]; cbn [fst];
    destruct (wf_sound st Hwf _ _ Hpm) as (m' & Hm' & Hact & _);
    assert (m' = m) as -> by congruence;
    destruct (scored_fields m w) as (Er & E1 & E2 & Es & _);
    assert (Hsw : winner (scored m w) = winner m)
      by (unfold scored; destruct (String.eqb _ _); reflexivity);
    assert (Hpl : played m) by (now left);
    destruct (filed_full _ _ Hf _ _ Hm Hpl) as [Hp1 Hp2];
    pose proof (filed_below _ _ Hf _ _ Hm Hpl) as Hb.
  - apply advanceWinner_filed; [exact Hne|].
    destruct (completed_fields (winsNeeded st) (scored m w))
      as (Erc & _ & E1c & E2c & Esc & _).
    apply (filed_update players st _ i m
             (completed (winsNeeded st) (scored m w)));
      cbn [finished currentRound matches participants set_matches
           set_playerMatches];
      try assumption; try reflexivity; try congruence; try tauto;
      try (intros _; now right);
      try (intros _; repeat split; (congruence || lia)).
  - apply (filed_update players st _ i m (scored m w));
      cbn [currentRound matches participants set_matches];
      try assumption; try reflexivity; try congruence; try tauto;
      try (unfold played; now rewrite Es);
      try (intros _; repeat split; (congruence || lia)).
    intros Hs. rewrite Hsw. apply (filed_open _ _ Hf _ _ Hm). congruence.
Qed.

Lemma step_filed (players : list string) (st st' : BracketState) :
  ~ In "" (map toID players) -> wf st -> filed players st -> step st st' ->
  filed players st'.
Proof.
  intros Hne Hwf Hf Hstep. revert Hwf Hf.
  destruct Hstep as [s w l|s s' logs H|s s' logs H]; intros Hwf Hf.
  - now apply recordWin_filed.
  - apply freeze_inv in H as (_ & _ & ->). now apply filed_set_frozen.
  - apply resume_inv in H as (_ & _ & ->).
    apply (resume_fold_ind (filed players)).
    + intros x i Hx. now apply advanceWinner_filed.
    + now apply filed_set_frozen.
Qed.

Lemma initialize_filed fmt players bo randomize rnd st st' :
  valid_players players ->
  initialize fmt players bo randomize rnd st = Ok st' -> filed players st'.
Proof.
  intros Hv H. pose proof (initialize_wf _ _ _ _ _ _ _ Hv H) as Hwf.
  apply initialize_inv in H
    as (_ & Hn & _ & pairs & first & pm & Hgen & Hfold & ->).
  apply generateStandardPairings_Some in Hgen as (k & Hk & ->).
  set (seeded := if randomize then shuffleArray rnd players else players) in *.
  assert (Hperm : Permutation seeded players).
  { unfold seeded. destruct randomize; [apply shuffleArray_perm|reflexivity]. }
  assert (Hlenp : length players = (2 ^ S k)%nat).
  { apply Nat2Z.inj. rewrite Hk. apply pow2_nat_Z. }
  assert (Hlen : length seeded = (2 ^ S k)%nat).
  { now rewrite (Permutation_length Hperm). }
  pose proof (first_round_seats seeded k first pm Hlen Hfold) as Hseats.
  destruct (push_first_round_fold _ _ _ _ Hfold) as (Hlenf & Hlook & _).
  rewrite pairings_of_length in Hlenf.
  pose proof (placeholder_rounds_ok
                (Z.to_nat (Z.log2 (Z.of_nat (length players)) - 1)) 2
                (Z.log2 (Z.of_nat (length players)))
                (Z.of_nat (length players) / 2 + 1) ltac:(lia)) as Hrest.
  assert (Hfirst : forall j m, first !! j = Some m ->
            round m = 1 /\ status m = active /\ winner m = None).
  { intros j m Hm. pose proof (lookup_lt_Some _ _ _ Hm) as Hj.
    rewrite Hlenf in Hj.
    pose proof (Hlook j _ (pairings_of_lookup _ _ _ Hj)) as Hm'.
    assert (E : m = first_round_match seeded j
                      (seeds_of_depth k !! (2 * j)%nat,
                       seeds_of_depth k !! (2 * j + 1)%nat)) by congruence.
    rewrite E. cbn. auto. }
  pose proof (pow2_pos_nat k) as Hpos.
  split; cbn [matches currentRound participants].
  - intros j m Hm [Hs|Hs]; apply (wf_full _ Hwf j m Hm); auto.
  - intros j m [Hm|[_ Hm]]%lookup_app_Some _.
    + now destruct (Hfirst j m Hm) as (_ & _ & ?).
    + pose proof (Forall_lookup_1 _ _ _ _ Hrest Hm)
        as (_ & _ & _ & _ & _ & _ & Hx).
      exact Hx.
  - intros j m [Hm|[_ Hm]]%lookup_app_Some Hpl.
    + destruct (Hfirst j m Hm) as (? & _). lia.
    + pose proof (Forall_lookup_1 _ _ _ _ Hrest Hm)
        as (_ & _ & _ & Hs & _).
      destruct Hpl as [Hpl|Hpl]; congruence.
  - destruct first as [|m0 first']; [cbn in Hlenf; lia|].
    exists 0%nat, m0. split; [reflexivity|].
    destruct (Hfirst 0%nat m0 eq_refl) as (? & ? & _).
    split; [now left|assumption].
  - intros d Hd.
    assert (Hin : In (toID d) (seats first)).
    { eapply Permutation_in; [symmetry; exact Hseats|].
      apply in_map. eapply Permutation_in; [symmetry; exact Hperm|exact Hd]. }
    unfold seats in Hin. apply in_flat_map in Hin as (m & Hm & Hin).
    apply list_elem_of_In, list_elem_of_lookup_1 in Hm as [j Hj].
    exists j, m. split; [apply lookup_app_l_Some, Hj|].
    destruct Hin as [<-|[<-|[]]]; auto.
  - reflexivity.
Qed.

Lemma reachable_filed (players : list string) (st : BracketState) :
  valid_players players -> reachable_from players st -> filed players st.
Proof.
  intros Hv H. induction H as [fmt bo rz rnd st H|st st' Hreach IH Hstep].
  - now apply (initialize_filed fmt players bo rz rnd empty_state).
  - apply (step_filed players st st'); [apply Hv| |exact IH|exact Hstep].
    now apply (reachable_wf players).
Qed.

Lemma load_match_maps (ms : list BracketMatch) (pm : gmap string nat)
    (dn : gmap string string) (m : BracketMatch) :
  load_match (ms, pm, dn) m
  = ((ms ++ [m])%list, seat_players (length ms) m pm, note_names m dn).
Proof. reflexivity. Qed.

Lemma loaded_maps_ind (ms : list BracketMatch)
    (P : nat -> gmap string nat -> gmap string string -> Prop) :
  P 0%nat ∅ ∅ ->
  (forall k m pm dn, ms !! k = Some m -> P k pm dn ->
     P (S k) (seat_players k m pm) (note_names m dn)) ->
  exists pm dn, loaded_maps ms = (ms, pm, dn) /\ P (length ms) pm dn.
Proof.
  intros H0 Hstep. unfold loaded_maps.
  enough (G : forall l ms0 pm0 dn0,
            (ms0 ++ l)%list = ms -> P (length ms0) pm0 dn0 ->
            exists pm dn, fold_left load_match l (ms0, pm0, dn0) = (ms, pm, dn)
                          /\ P (length ms) pm dn).
  { apply (G ms [] ∅ ∅); [reflexivity|exact H0]. }
  induction l as [|m l IH]; intros ms0 pm0 dn0 E HP.
  - rewrite app_nil_r in E. subst ms0. exists pm0, dn0. auto.
  - cbn [fold_left]. rewrite load_match_maps. apply IH.
    + rewrite <- E, <- app_assoc. reflexivity.
    + rewrite length_app. cbn [length]. rewrite Nat.add_1_r.
      apply Hstep; [|exact HP].
      rewrite <- E. apply list_lookup_middle. reflexivity.
Qed.

Lemma cond_insert_Some {V} (c : bool) (k : string) (v : V)
    (m : gmap string V) (id : string) (x : V) :
  cond_insert c k v m !! id = Some x ->
  (c = true /\ id = k /\ x = v) \/ m !! id = Some x.
Proof.
  unfold cond_insert. destruct c; [|auto].
  destruct (decide (id = k)) as [->|Hne].
  - rewrite lookup_insert_eq. intros [= <-]. auto.
  - rewrite lookup_insert_ne by congruence. auto.
Qed.

Lemma cond_insert_keeps {V} (c : bool) (k : string) (v : V)
    (m : gmap string V) (id : string) :
  is_Some (m !! id) -> is_Some (cond_insert c k v m !! id).
Proof.
  unfold cond_insert. destruct c; [|auto]. intros H.
  destruct (decide (id = k)) as [->|Hne].
  - rewrite lookup_insert_eq. eauto.
  - rewrite lookup_insert_ne by congruence. exact H.
Qed.

Lemma cond_insert_other {V} (c : bool) (k : string) (v : V)
    (m : gmap string V) (id : string) :
  id <> k -> cond_insert c k v m !! id = m !! id.
Proof.
  intros Hne. unfold cond_insert. destruct c; [|reflexivity].
  apply lookup_insert_ne. congruence.
Qed.

Lemma note_names_Some (m : BracketMatch) (dn : gmap string string)
    (id d : string) :
  note_names m dn !! id = Some d ->
  dn !! id = Some d \/
  (id = player1 m /\ d = player1Display m /\ d <> "") \/
  (id = player2 m /\ d = player2Display m /\ d <> "") \/
  (winner m = Some id /\ winnerDisplay m = Some d /\ id <> "").
Proof.
  unfold note_names. intros H.
  assert (G : cond_insert (JS.truthy (player2Display m)) (player2 m)
                (player2Display m)
                (cond_insert (JS.truthy (player1Display m)) (player1 m)
                   (player1Display m) dn) !! id = Some d ->
              dn !! id = Some d \/
              (id = player1 m /\ d = player1Display m /\ d <> "") \/
              (id = player2 m /\ d = player2Display m /\ d <> "")).
  { intros G. apply cond_insert_Some in G as [(Hc & -> & ->)|G].
    - apply truthy_true in Hc. auto.
    - apply cond_insert_Some in G as [(Hc & -> & ->)|G]; [|auto].
      apply truthy_true in Hc. auto. }
  destruct (winnerDisplay m) as [wd|], (winner m) as [w|];
    try (destruct (G H) as [?|[?|?]]; now auto).
  apply cond_insert_Some in H as [(Hc & -> & ->)|H].
  - apply truthy_true in Hc. auto 6.
  - destruct (G H) as [?|[?|?]]; auto.
Qed.

Lemma note_names_keeps (m : BracketMatch) (dn : gmap string string)
    (id : string) :
  is_Some (dn !! id) -> is_Some (note_names m dn !! id).
Proof.
  intros H. unfold note_names.
  destruct (winnerDisplay m), (winner m);
    repeat apply cond_insert_keeps; exact H.
Qed.

Lemma note_names_players (m : BracketMatch) (dn : gmap string string) :
  (player1Display m <> "" -> is_Some (note_names m dn !! player1 m)) /\
  (player2Display m <> "" -> is_Some (note_names m dn !! player2 m)).
Proof.
  assert (G : forall dn0 : gmap string string,
            (player1Display m <> "" ->
             is_Some (cond_insert (JS.truthy (player2Display m)) (player2 m)
                        (player2Display m)
                        (cond_insert (JS.truthy (player1Display m)) (player1 m)
                           (player1Display m) dn0) !! player1 m)) /\
            (player2Display m <> "" ->
             is_Some (cond_insert (JS.truthy (player2Display m)) (player2 m)
                        (player2Display m)
                        (cond_insert (JS.truthy (player1Display m)) (player1 m)
                           (player1Display m) dn0) !! player2 m))).
  { intros dn0. split; intros Hd; apply truthy_true in Hd; rewrite Hd.
    - apply cond_insert_keeps. cbn [cond_insert].
      rewrite lookup_insert_eq. eauto.
    - cbn [cond_insert]. rewrite lookup_insert_eq. eauto. }
  unfold note_names. destruct (G dn) as [G1 G2].
  destruct (winnerDisplay m), (winner m); cbv zeta; split; intros Hd;
    first [exact (G1 Hd)|exact (G2 Hd)
          |apply cond_insert_keeps; first [exact (G1 Hd)|exact (G2 Hd)]].
Qed.

Lemma fold_max_in (xs : list Z) (a : Z) :
  fold_left Z.max xs a = a \/ In (fold_left Z.max xs a) xs.
Proof.
  revert a. induction xs as [|x xs IH]; intros a; [now left|].
  cbn [fold_left]. destruct (IH (Z.max a x)) as [E|Hin].
  - rewrite E. destruct (Z.max_spec a x) as [[_ ->]|[_ ->]];
      [right; now left|now left].
  - right. now right.
Qed.

Lemma max_list_is (xs : list Z) (c : Z) :
  In c xs -> (forall x, In x xs -> x <= c) -> max_list xs = Some c.
Proof.
  intros Hin Hub. destruct xs as [|x xs]; [contradiction|].
  cbn [max_list]. f_equal.
  destruct (fold_max_ge xs x) as [H1 H2].
  assert (c <= fold_left Z.max xs x).
  { destruct Hin as [<-|Hin]; [exact H1|now apply H2]. }
  assert (fold_left Z.max xs x <= c).
  { destruct (fold_max_in xs x) as [->|Hin']; apply Hub;
      [now left|now right]. }
  lia.
Qed.

Lemma max_list_ge (xs : list Z) (c x : Z) :
  max_list xs = Some c -> In x xs -> x <= c.
Proof.
  destruct xs as [|y xs]; [discriminate|]. cbn [max_list]. intros [= <-].
  destruct (fold_max_ge xs y) as [H1 H2]. intros [<-|Hin]; auto.
Qed.

Lemma plain_empty : plain "".
Proof. repeat split. Qed.

Lemma shown_storable (players : list string) (id d : string) :
  List.Forall plain players -> shown players id d ->
  toID id = id /\ plain d /\ (id <> "" -> d <> "").
Proof.
  intros Hpl [[-> ->]|(Hne & Hin & <-)].
  - split; [reflexivity|]. split; [apply plain_empty|congruence].
  - split; [apply toID_idem|].
    split; [exact (proj1 (List.Forall_forall _ _) Hpl d Hin)|].
    intros _. now apply toID_nonempty.
Qed.

Lemma reachable_storable (players : list string) (st : BracketState) :
  valid_players players -> List.Forall plain players ->
  reachable_from players st -> List.Forall storable (matches st).
Proof.
  intros Hv Hpl Hreach.
  pose proof (reachable_wf players st Hv Hreach) as Hwf.
  pose proof (reachable_named players st Hv Hreach) as Hnamed.
  pose proof (reachable_filed players st Hv Hreach) as Hfiled.
  apply List.Forall_forall. intros m Hin.
  apply list_elem_of_In, list_elem_of_lookup_1 in Hin as [j Hj].
  destruct (shown_storable _ _ _ Hpl (named_p1 _ _ Hnamed j m Hj))
    as (H1 & Hd1 & _).
  destruct (shown_storable _ _ _ Hpl (named_p2 _ _ Hnamed j m Hj))
    as (H2 & Hd2 & _).
  unfold storable. repeat (split; [assumption|]).
  pose proof (named_w _ _ Hnamed j m Hj) as Hw.
  destruct (winner m) as [w|] eqn:Ew.
  - destruct Hw as (d & -> & Hsh).
    destruct (shown_storable _ _ _ Hpl Hsh) as (Hw1 & Hwd & Hne).
    assert (Hc : status m = complete).
    { destruct (decide (status m = complete)) as [Hc|Hc]; [exact Hc|].
      pose proof (filed_open _ _ Hfiled j m Hj Hc). congruence. }
    pose proof (wf_named st Hwf j m Hj Hc w Ew) as Hwne.
    auto.
  - now rewrite Hw.
Qed.

Lemma mapped_here (st : BracketState) (id : string) (i k : nat)
    (m : BracketMatch) :
  wf st -> playerMatches st !! id = Some i -> matches st !! k = Some m ->
  is_live m = true -> player1 m = id \/ player2 m = id -> i = k.
Proof.
  intros Hwf Hpm Hm Hlive Hor.
  destruct (wf_sound st Hwf _ _ Hpm) as (mi & Hmi & Hact & Hori).
  destruct (wf_full st Hwf _ _ Hmi (or_introl Hact)) as [Hp1 Hp2].
  assert (Hid : id <> "") by (destruct Hori; congruence).
  assert (Hnc : status m <> complete).
  { unfold is_live in Hlive. intros E. rewrite E in Hlive. discriminate. }
  assert (Hoi : exists s, occ (matches st) id (i, s)).
  { destruct Hori as [E|E]; [exists SlotP1|exists SlotP2]; exists mi;
      cbn [fst snd]; repeat split; try assumption; congruence. }
  assert (Hok : exists s, occ (matches st) id (k, s)).
  { destruct Hor as [E|E]; [exists SlotP1|exists SlotP2]; exists m;
      cbn [fst snd]; repeat split; assumption. }
  destruct Hoi as [si Hoi], Hok as [sk Hok].
  pose proof (wf_unique st Hwf id _ _ Hoi Hok) as E. congruence.
Qed.

Lemma shown_lookup (players : list string) (st : BracketState)
    (id d : string) :
  named players st -> shown players id d -> id <> "" \/ d <> "" ->
  displayNames st !! id = Some d.
Proof.
  intros Hn [[-> ->]|(_ & Hin & E)] Hor; [destruct Hor; congruence|].
  apply (named_map _ _ Hn). auto.
Qed.

Lemma loaded_of_reachable (players : list string) (st : BracketState) :
  valid_players players -> reachable_from players st ->
  exists pm,
    loaded_maps (matches st) = (matches st, pm, displayNames st) /\
    (forall id i, playerMatches st !! id = Some i -> pm !! id = Some i) /\
    ((forall j m, matches st !! j = Some m -> status m <> waiting) ->
     pm = playerMatches st).
Proof.
  intros Hv Hreach.
  pose proof (reachable_wf players st Hv Hreach) as Hwf.
  pose proof (reachable_named players st Hv Hreach) as Hnamed.
  pose proof (reachable_filed players st Hv Hreach) as Hfiled.
  set (P := fun (k : nat) (pm : gmap string nat) (dn : gmap string string) =>
    (forall id i, playerMatches st !! id = Some i -> (i < k)%nat ->
       pm !! id = Some i) /\
    ((forall j m, matches st !! j = Some m -> status m <> waiting) ->
     forall id i, pm !! id = Some i -> playerMatches st !! id = Some i) /\
    (forall id d, dn !! id = Some d -> displayNames st !! id = Some d) /\
    (forall j m, (j < k)%nat -> matches st !! j = Some m ->
       (player1 m <> "" -> is_Some (dn !! player1 m)) /\
       (player2 m <> "" -> is_Some (dn !! player2 m)))).
  destruct (loaded_maps_ind (matches st) P) as (pm & dn & E & HP).
  { unfold P. repeat split; try (intros; lia);
      intros; rewrite lookup_empty in *; discriminate. }
  { intros k m pm dn Hm (Hsub & Hsup & Hdn & Hcov). unfold P.
    split; [|split; [|split]].
    - intros id i Hpm Hi. unfold seat_players.
      assert (Hik : i = k -> status m = active /\
                             (player1 m = id \/ player2 m = id)).
      { intros ->. destruct (wf_sound st Hwf _ _ Hpm) as (mi & Hmi & ? & ?).
        assert (mi = m) as -> by congruence. auto. }
      destruct (is_live m) eqn:Hlive.
      + destruct (decide (id = player2 m)) as [->|Hn2].
        * assert (i = k) as ->
            by (apply (mapped_here st (player2 m) i k m); auto).
          destruct (wf_full st Hwf _ _ Hm (or_introl (proj1 (Hik eq_refl))))
            as [_ Hp2].
          apply truthy_true in Hp2. rewrite Hp2. cbn [cond_insert].
          apply lookup_insert_eq.
        * rewrite cond_insert_other by exact Hn2.
          destruct (decide (id = player1 m)) as [->|Hn1].
          -- assert (i = k) as ->
               by (apply (mapped_here st (player1 m) i k m); auto).
             destruct (wf_full st Hwf _ _ Hm (or_introl (proj1 (Hik eq_refl))))
               as [Hp1 _].
             apply truthy_true in Hp1. rewrite Hp1. cbn [cond_insert].
             apply lookup_insert_eq.
          -- rewrite cond_insert_other by exact Hn1.
             apply Hsub; [exact Hpm|].
             destruct (decide (i = k)) as [Eik|Nik]; [|lia].
             destruct (Hik Eik) as [_ [?|?]]; congruence.
      + apply Hsub; [exact Hpm|].
        destruct (decide (i = k)) as [Eik|Nik]; [|lia].
        destruct (Hik Eik) as [Hact _]. unfold is_live in Hlive.
        rewrite Hact in Hlive. discriminate.
    - intros Hnw id i Hpm. unfold seat_players in Hpm.
      destruct (is_live m) eqn:Hlive; [|now apply Hsup].
      assert (Hact : status m = active).
      { pose proof (Hnw k m Hm). unfold is_live in Hlive.
        destruct (status m); try discriminate; congruence. }
      destruct (wf_mapped st Hwf _ _ Hm Hact) as [M1 M2].
      apply cond_insert_Some in Hpm as [(_ & -> & ->)|Hpm]; [exact M2|].
      apply cond_insert_Some in Hpm as [(_ & -> & ->)|Hpm]; [exact M1|].
      now apply Hsup.
    - intros id d Hd.
      apply note_names_Some in Hd
        as [Hd|[(-> & -> & Hne)|[(-> & -> & Hne)|(Hw & Hwd & Hne)]]].
      + now apply Hdn.
      + apply (shown_lookup players); [exact Hnamed| |now right].
        exact (named_p1 _ _ Hnamed k m Hm).
      + apply (shown_lookup players); [exact Hnamed| |now right].
        exact (named_p2 _ _ Hnamed k m Hm).
      + pose proof (named_w _ _ Hnamed k m Hm) as Hsh. rewrite Hw in Hsh.
        destruct Hsh as (d' & Hd' & Hsh).
        assert (d' = d) as -> by congruence.
        apply (shown_lookup players); [exact Hnamed|exact Hsh|now left].
    - intros j mj Hj Hmj.
      destruct (decide (j = k)) as [->|Hjk].
      + assert (mj = m) as -> by congruence.
        destruct (note_names_players m dn) as [N1 N2].
        split; intros Hne.
        * apply N1.
          destruct (named_p1 _ _ Hnamed k m Hm) as [[? _]|(_ & _ & E)];
            [congruence|].
          apply toID_nonempty. congruence.
        * apply N2.
          destruct (named_p2 _ _ Hnamed k m Hm) as [[? _]|(_ & _ & E)];
            [congruence|].
          apply toID_nonempty. congruence.
      + destruct (Hcov j mj ltac:(lia) Hmj) as [C1 C2].
        split; intros Hne; apply note_names_keeps; auto. }
  destruct HP as (Hsub & Hsup & Hdn & Hcov).
  assert (Edn : dn = displayNames st).
  { apply map_eq. intros id.
    destruct (displayNames st !! id) as [d|] eqn:Ed.
    - destruct (proj1 (named_map _ _ Hnamed id d) Ed) as [Hin Hid].
      destruct (filed_seated _ _ Hfiled d Hin) as (j & m & Hm & Hor).
      assert (Hne : toID d <> "").
      { intros E0. apply (proj2 Hv). rewrite <- E0. now apply in_map. }
      destruct (Hcov j m (lookup_lt_Some _ _ _ Hm) Hm) as [C1 C2].
      assert (Hsome : is_Some (dn !! id)).
      { rewrite <- Hid. destruct Hor as [Hor|Hor]; rewrite <- Hor;
          [apply C1|apply C2]; congruence. }
      destruct Hsome as [d' Hd']. rewrite Hd'.
      pose proof (Hdn _ _ Hd'). congruence.
    - destruct (dn !! id) as [d'|] eqn:Ed'; [|reflexivity].
      pose proof (Hdn _ _ Ed'). congruence. }
  exists pm. rewrite <- Edn. split; [exact E|]. split.
  - intros id i Hpm. apply Hsub; [exact Hpm|].
    destruct (wf_sound st Hwf _ _ Hpm) as (mi & Hmi & _).
    exact (lookup_lt_Some _ _ _ Hmi).
  - intros Hnw. apply map_eq. intros id.
    destruct (playerMatches st !! id) as [i|] eqn:Ei.
    + apply Hsub; [exact Ei|].
      destruct (wf_sound st Hwf _ _ Ei) as (mi & Hmi & _).
      exact (lookup_lt_Some _ _ _ Hmi).
    + destruct (pm !! id) as [i|] eqn:Ei'; [|reflexivity].
      pose proof (Hsup Hnw _ _ Ei'). congruence.
Qed.

Lemma has_activity_played (m : BracketMatch) :
  played m -> has_activity m = true.
Proof.
  unfold has_activity, is_live. intros [H|H]; rewrite H; reflexivity.
Qed.

Lemma loaded_state (cfg : brackettournament) (before : BracketState)
    (players : list string) (st : BracketState) :
  valid_players players -> List.Forall plain players ->
  reachable_from players st ->
  plain (format st) -> free_of "=" (format st) = true ->
  exists pm cr,
    loadFromCSV cfg (Some (saveToCSV st)) before
    = Loaded (mkState (format st) (participants st) (bestOf st) cr
                (matches st) pm (displayNames st) true (frozen st)) /\
    (forall id i, playerMatches st !! id = Some i -> pm !! id = Some i) /\
    currentRound st <= cr /\
    ((forall j m, matches st !! j = Some m -> status m <> waiting) ->
     pm = playerMatches st /\ cr = currentRound st).
Proof.
  intros Hv Hpl Hreach (Tf & Cf & Lf & _) Ef.
  pose proof (reachable_filed players st Hv Hreach) as Hfiled.
  pose proof (reachable_storable players st Hv Hpl Hreach) as Hst.
  destruct (loaded_of_reachable players st Hv Hreach)
    as (pm & Emaps & Hsub & Hsup).
  destruct (filed_reached _ _ Hfiled) as (j0 & m0 & Hm0 & Hpl0 & Hr0).
  assert (Hne : matches st <> []).
  { intros E. rewrite E in Hm0. discriminate. }
  assert (Hpart : (participants st =? 0) = false).
  { apply Z.eqb_neq. rewrite (filed_count _ _ Hfiled).
    destruct (reachable_players players st Hreach) as [k Hk].
    rewrite Hk. pose proof (pow2_pos_nat (S k)). lia. }
  assert (Hin0 : In (currentRound st)
                   (map round (List.filter has_activity (matches st)))).
  { rewrite <- Hr0. apply in_map. apply filter_In.
    split; [|now apply has_activity_played].
    apply list_elem_of_In. eapply list_elem_of_lookup_2, Hm0. }
  destruct (max_list (map round (List.filter has_activity (matches st))))
    as [c|] eqn:Emax.
  2:{ destruct (map round (List.filter has_activity (matches st)));
        [contradiction|discriminate]. }
  exists pm, c.
  rewrite (load_saved cfg before st Hne Tf Cf Ef Lf Hst), Emaps, Hpart, Emax.
  split; [reflexivity|]. split; [exact Hsub|].
  split; [exact (max_list_ge _ _ _ Emax Hin0)|].
  intros Hnw. split; [now apply Hsup|].
  assert (E : max_list (map round (List.filter has_activity (matches st)))
              = Some (currentRound st)).
  { apply max_list_is; [exact Hin0|].
    intros x Hx. apply in_map_iff in Hx as (m & <- & Hm).
    apply filter_In in Hm as [Hm Hact].
    apply list_elem_of_In, list_elem_of_lookup_1 in Hm as [j Hj].
    apply (filed_below _ _ Hfiled j m Hj).
    pose proof (Hnw j m Hj) as Hw.
    unfold has_activity, is_live in Hact. unfold played.
    destruct (status m); try discriminate; try congruence; auto. }
  congruence.
Qed.

(** X25.  In every state of a tournament among plain names, the file that
    [saveToCSV] writes is accepted by [loadFromCSV], whatever the controller
    held before, and brings back the format, the series length, the number
    of participants, the frozen flag, the list of matches and the display
    names as they were; every player that was mapped to a match is mapped
    to the same match, and [currentRound] is not lower than it was.  The
    series length is within the range that a template literal prints in
    plain digits. *)
Theorem saved_file_loads (cfg : brackettournament) (before : BracketState)
    (players : list string) (st : BracketState) :
  valid_players players -> List.Forall plain players ->
  reachable_from players st ->
  plain (format st) -> free_of "=" (format st) = true ->
  Z.abs (bestOf st) < 10 ^ 21 ->
  exists st',
    loadFromCSV cfg (Some (saveToCSV st)) before = Loaded st' /\
    format st' = format st /\ bestOf st' = bestOf st /\
    participants st' = participants st /\ frozen st' = frozen st /\
    initialized st' = true /\
    matches st' = matches st /\ displayNames st' = displayNames st /\
    (forall id i, playerMatches st !! id = Some i ->
       playerMatches st' !! id = Some i) /\
    currentRound st <= currentRound st'.
Proof.
  intros Hv Hpl Hreach Hf Ef _.
  destruct (loaded_state cfg before players st Hv Hpl Hreach Hf Ef)
    as (pm & cr & E & Hsub & Hcr & _).
  eexists. split; [exact E|]. cbn. auto 10.
Qed.

Lemma saved_file_loads_witness :
  exists st',
    loadFromCSV sample_config (Some (saveToCSV alice_through)) empty_state
    = Loaded st' /\
    format st' = format alice_through /\ bestOf st' = bestOf alice_through /\
    participants st' = participants alice_through /\
    frozen st' = frozen alice_through /\
    initialized st' = true /\
    matches st' = matches alice_through /\
    displayNames st' = displayNames alice_through /\
    (forall id i, playerMatches alice_through !! id = Some i ->
       playerMatches st' !! id = Some i) /\
    currentRound alice_through <= currentRound st'.
Proof.
  apply (saved_file_loads sample_config empty_state four_players
           alice_through).
  - exact four_players_valid.
  - repeat constructor.
  - eapply reach_step; [exact started_reachable|].
    apply (step_recordWin _ "alice" "dave").
  - repeat split.
  - reflexivity.
  - vm_compute. reflexivity.
Defined.

(** X26.  When no match is waiting for an opponent, saving and loading is
    the identity: [loadFromCSV] on the file written by [saveToCSV] rebuilds
    the very state that was saved, [playerMatches] and [currentRound]
    included, whatever the controller held before. *)
Theorem save_load_identity (cfg : brackettournament) (before : BracketState)
    (players : list string) (st : BracketState) :
  valid_players players -> List.Forall plain players ->
  reachable_from players st ->
  plain (format st) -> free_of "=" (format st) = true ->
  Z.abs (bestOf st) < 10 ^ 21 ->
  (forall j m, matches st !! j = Some m -> status m <> waiting) ->
  loadFromCSV cfg (Some (saveToCSV st)) before = Loaded st.
Proof.
  intros Hv Hpl Hreach Hf Ef _ Hnw.
  destruct (loaded_state cfg before players st Hv Hpl Hreach Hf Ef)
    as (pm & cr & E & _ & _ & Hsame).
  destruct (Hsame Hnw) as [-> ->]. rewrite E.
  pose proof (wf_initialized st (reachable_wf players st Hv Hreach)) as Hi.
  destruct st. cbn in Hi |- *. now rewrite Hi.
Qed.

Lemma save_load_identity_witness :
  loadFromCSV sample_config (Some (saveToCSV final_ready)) empty_state
  = Loaded final_ready.
Proof.
  apply (save_load_identity sample_config empty_state four_players).
  - exact four_players_valid.
  - repeat constructor.
  - exact final_ready_reachable.
  - repeat split.
  - reflexivity.
  - vm_compute. reflexivity.
  - intros j m Hm.
    assert (Hin : In m (matches final_ready)).
    { apply list_elem_of_In. eapply list_elem_of_lookup_2, Hm. }
    vm_compute in Hin.
    destruct Hin as [<-|[<-|[<-|[]]]]; discriminate.
Defined.

Lemma earliest_round_le (st : BracketState) (j : nat) (m : BracketMatch) :
  matches st !! j = Some m -> is_live m = true ->
  getEarliestIncompleteRound st <= round m.
Proof.
  intros Hm Hlive. unfold getEarliestIncompleteRound.
  assert (Hin : In (round m) (map round (List.filter is_live (matches st)))).
  { apply in_map, filter_In. split; [|exact Hlive].
    apply list_elem_of_In. eapply list_elem_of_lookup_2, Hm. }
  destruct (min_list (map round (List.filter is_live (matches st))))
    as [lo|] eqn:E.
  - exact (min_list_le _ _ _ E Hin).
  - destruct (map round (List.filter is_live (matches st)));
      [contradiction|discriminate].
Qed.

(** X27.  While the tournament is frozen, a player may search for or be
    matched in a battle only in the earliest round that still has a match
    to play: the player's match is active or waiting, and no active or
    waiting match of the bracket is in a lower round. *)
Theorem frozen_earliest_round_only (st : BracketState) (a b : string) :
  frozen st = true ->
  canSearch st a = true \/ canMatch st a b = true ->
  exists i m,
    playerMatches st !! a = Some i /\ matches st !! i = Some m /\
    is_live m = true /\
    forall j m', matches st !! j = Some m' -> is_live m' = true ->
      round m <= round m'.
Proof.
  intros Hfr H.
  assert (G : exists i m,
            playerMatches st !! a = Some i /\ matches st !! i = Some m /\
            is_live m = true /\ round m = getEarliestIncompleteRound st).
  { unfold canSearch, canMatch, match_of in H. rewrite Hfr in H.
    destruct (initialized st); [|destruct H; discriminate].
    cbn [negb] in H.
    destruct (playerMatches st !! a) as [i|] eqn:Hi;
      [|destruct H; discriminate].
    destruct (matches st !! i) as [m|] eqn:Hm; [|destruct H; discriminate].
    exists i, m. split; [reflexivity|]. split; [exact Hm|].
    unfold is_live in *.
    destruct (bool_decide (status m = active)) eqn:Ha;
      destruct (bool_decide (status m = waiting)) eqn:Hw;
      cbn [orb negb andb] in H |- *;
      destruct (Z.eqb_spec (round m) (getEarliestIncompleteRound st));
      cbn [negb] in H; try (destruct H; discriminate); auto. }
  destruct G as (i & m & Hi & Hm & Hlive & Hr).
  exists i, m. repeat (split; [assumption|]).
  intros j m' Hm' Hlive'. rewrite Hr. now apply (earliest_round_le st j).
Qed.

Lemma frozen_earliest_round_only_witness :
  exists i m,
    playerMatches (set_frozen alice_through true) !! "bob" = Some i /\
    matches (set_frozen alice_through true) !! i = Some m /\
    is_live m = true /\
    forall j m', matches (set_frozen alice_through true) !! j = Some m' ->
      is_live m' = true -> round m <= round m'.
Proof.
  apply (frozen_earliest_round_only (set_frozen alice_through true)
           "bob" "carol").
  - reflexivity.
  - left. vm_compute. reflexivity.
Defined.

Lemma loadFromCSV_inv (cfg : brackettournament) (data : option string)
    (st st' : BracketState) :
  loadFromCSV cfg data st = Loaded st' ->
  exists text matchLines parsed pm dn f n bo fr,
    data = Some text /\ (3 <= length (file_lines text))%nat /\
    (matchLines = drop 1 (file_lines text) \/
     matchLines = drop 2 (file_lines text)) /\
    parse_matches matchLines = Some parsed /\
    loaded_maps parsed = (parsed, pm, dn) /\
    st' = mkState f n bo
            (default 1 (max_list (map round (List.filter has_activity parsed))))
            parsed pm dn true fr.
Proof.
  unfold loadFromCSV. destruct data as [text|]; [|discriminate].
  destruct (JS.truthy text); [|discriminate]. cbn [negb].
  fold (file_lines text).
  destruct (Nat.ltb_spec (length (file_lines text)) 3) as [|Hlen];
    [discriminate|].
  set (sel := if negb (JS.startsWith (default "" (file_lines text !! 0%nat)) "#")
              then _ else _).
  assert (Hsel : fst sel = drop 1 (file_lines text) \/
                 fst sel = drop 2 (file_lines text)).
  { unfold sel. destruct (negb _); cbn [fst]; auto. }
  destruct sel as [matchLines [[[f b] n] fr]]. cbn [fst] in Hsel.
  destruct b as [bo|]; [|discriminate].
  destruct (parse_matches matchLines) as [parsed|] eqn:Hparse; [|discriminate].
  destruct (loaded_maps_ind parsed (fun _ _ _ => True) I
              (fun _ _ _ _ _ _ => I)) as (pm & dn & E & _).
  unfold loaded_maps in E. rewrite E. intros [= <-].
  exists text, matchLines, parsed, pm, dn, f.
  eexists; exists bo, fr. repeat split; try assumption; try reflexivity.
Qed.

Lemma parse_matches_length (lines : list string) (ms : list BracketMatch) :
  parse_matches lines = Some ms -> length ms = length lines.
Proof.
  revert ms. induction lines as [|l lines IH]; intros ms; cbn.
  - intros [= <-]. reflexivity.
  - destruct (parse_match l); [|discriminate].
    destruct (parse_matches lines) as [ms'|]; [|discriminate].
    intros [= <-]. cbn. f_equal. now apply IH.
Qed.

Lemma parse_match_ids (line : string) (m : BracketMatch) :
  parse_match line = Some m ->
  toID (player1 m) = player1 m /\ toID (player2 m) = player2 m.
Proof.
  unfold parse_match.
  destruct (if (11 <=? length (map JS.trim (JS.split "," line)))%nat
            then _ else _)
    as [[[[[[[[[[rnd mid] pl1] pl2] d1] d2] w1] w2] stat] win] wind].
  destruct (JS.parseInt rnd); [|discriminate].
  destruct (JS.parseInt mid); [|discriminate].
  destruct (if JS.truthy stat then _ else _); [|discriminate].
  intros [= <-]. cbn. rewrite !toID_idem. split; reflexivity.
Qed.

Lemma parse_matches_ids (lines : list string) (ms : list BracketMatch) :
  parse_matches lines = Some ms ->
  List.Forall (fun m => toID (player1 m) = player1 m /\
                        toID (player2 m) = player2 m) ms.
Proof.
  revert ms. induction lines as [|l lines IH]; intros ms; cbn.
  - intros [= <-]. constructor.
  - destruct (parse_match l) as [m|] eqn:Hm; [|discriminate].
    destruct (parse_matches lines) as [ms'|]; [|discriminate].
    intros [= <-]. constructor; [now apply (parse_match_ids l)|now apply IH].
Qed.

Lemma cond_insert_ge (c : bool) (key : string) (k j : nat)
    (pm : gmap string nat) (id : string) :
  (j <= k)%nat ->
  (exists i, pm !! id = Some i /\ (j <= i)%nat) ->
  exists i, cond_insert c key k pm !! id = Some i /\ (j <= i)%nat.
Proof.
  intros Hjk (i & Hi & Hji). unfold cond_insert. destruct c; [|eauto].
  destruct (decide (id = key)) as [->|Hne].
  - rewrite lookup_insert_eq. eauto.
  - rewrite lookup_insert_ne by congruence. eauto.
Qed.

Lemma loaded_players (ms : list BracketMatch) :
  exists pm dn,
    loaded_maps ms = (ms, pm, dn) /\
    (forall id i, pm !! id = Some i ->
       id <> "" /\
       exists m, ms !! i = Some m /\ is_live m = true /\
                 (player1 m = id \/ player2 m = id)) /\
    (forall j m id, ms !! j = Some m -> is_live m = true -> id <> "" ->
       player1 m = id \/ player2 m = id ->
       exists i, pm !! id = Some i /\ (j <= i)%nat).
Proof.
  set (P := fun (k : nat) (pm : gmap string nat) (dn : gmap string string) =>
    (forall id i, pm !! id = Some i ->
       id <> "" /\
       exists m, ms !! i = Some m /\ is_live m = true /\
                 (player1 m = id \/ player2 m = id)) /\
    (forall j m id, (j < k)%nat -> ms !! j = Some m -> is_live m = true ->
       id <> "" -> player1 m = id \/ player2 m = id ->
       exists i, pm !! id = Some i /\ (j <= i)%nat)).
  destruct (loaded_maps_ind ms P) as (pm & dn & E & H1 & H2).
  { split; [|intros; lia]. intros id i H. rewrite lookup_empty in H.
    discriminate. }
  { intros k m pm dn Hm [H1 H2]. split.
    - intros id i Hi. unfold seat_players in Hi.
      destruct (is_live m) eqn:Hlive; [|now apply H1].
      apply cond_insert_Some in Hi as [(Hc & -> & ->)|Hi].
      { apply truthy_true in Hc. split; [exact Hc|]. exists m. auto. }
      apply cond_insert_Some in Hi as [(Hc & -> & ->)|Hi]; [|now apply H1].
      apply truthy_true in Hc. split; [exact Hc|]. exists m. auto.
    - intros j mj id Hj Hmj Hlive Hid Hor. unfold seat_players.
      destruct (decide (j = k)) as [->|Hjk].
      + assert (mj = m) as -> by congruence. rewrite Hlive.
        destruct (decide (id = player2 m)) as [->|Hn2].
        * apply truthy_true in Hid. rewrite Hid. cbn [cond_insert].
          rewrite lookup_insert_eq. eauto.
        * rewrite cond_insert_other by exact Hn2.
          assert (player1 m = id) as E1 by (destruct Hor; congruence).
          rewrite E1. apply truthy_true in Hid. rewrite Hid.
          cbn [cond_insert]. rewrite lookup_insert_eq. eauto.
      + pose proof (H2 j mj id ltac:(lia) Hmj Hlive Hid Hor) as Hold.
        destruct (is_live m); [|exact Hold].
        apply cond_insert_ge; [lia|]. apply cond_insert_ge; [lia|exact Hold]. }
  exists pm, dn. split; [exact E|]. split; [exact H1|].
  intros j m id Hm Hl Hid Hor.
  exact (H2 j m id (lookup_lt_Some _ _ _ Hm) Hm Hl Hid Hor).
Qed.

(** X28.  Whatever the file holds, when [loadFromCSV] accepts it the file
    has at least three lines that are not blank and the controller is
    initialized with at least one match; the players of every match are
    canonical identities; [playerMatches] maps only non-empty identities,
    each to an active or waiting match in which it plays, and every player
    of an active or waiting match is mapped, to that match or to a later
    one of the file; no match that is or was played is in a round above
    [currentRound]. *)
Theorem load_outcome (cfg : brackettournament) (data : option string)
    (st st' : BracketState) :
  loadFromCSV cfg data st = Loaded st' ->
  (exists text, data = Some text /\ (3 <= length (file_lines text))%nat) /\
  initialized st' = true /\ matches st' <> [] /\
  (forall j m, matches st' !! j = Some m ->
     toID (player1 m) = player1 m /\ toID (player2 m) = player2 m) /\
  (forall id i, playerMatches st' !! id = Some i ->
     id <> "" /\
     exists m, matches st' !! i = Some m /\ is_live m = true /\
               (player1 m = id \/ player2 m = id)) /\
  (forall j m id, matches st' !! j = Some m -> is_live m = true -> id <> "" ->
     player1 m = id \/ player2 m = id ->
     exists i, playerMatches st' !! id = Some i /\ (j <= i)%nat) /\
  (forall j m, matches st' !! j = Some m -> has_activity m = true ->
     round m <= currentRound st').
Proof.
  intros H. apply loadFromCSV_inv in H
    as (text & matchLines & parsed & pm & dn & f & n & bo & fr
        & -> & Hlen & Hsel & Hparse & Emaps & ->).
  destruct (loaded_players parsed) as (pm' & dn' & E' & H1 & H2).
  assert (pm' = pm) as -> by congruence.
  cbn [initialized matches playerMatches currentRound].
  split; [eauto|]. split; [reflexivity|]. split; [|split; [|split; [|split]]].
  - pose proof (parse_matches_length _ _ Hparse) as Hl.
    intros ->. cbn in Hl.
    destruct Hsel as [-> | ->]; rewrite length_drop in Hl; lia.
  - intros j m Hm.
    exact (Forall_lookup_1 _ _ _ _ (parse_matches_ids _ _ Hparse) Hm).
  - exact H1.
  - exact H2.
  - intros j m Hm Hact.
    assert (Hin : In (round m) (map round (List.filter has_activity parsed))).
    { apply in_map, filter_In. split; [|exact Hact].
      apply list_elem_of_In. eapply list_elem_of_lookup_2, Hm. }
    destruct (max_list (map round (List.filter has_activity parsed)))
      as [c|] eqn:Emax.
    + exact (max_list_ge _ _ _ Emax Hin).
    + destruct (map round (List.filter has_activity parsed));
        [contradiction|discriminate].
Qed.

Lemma load_outcome_witness :
  (exists text, Some (saveToCSV alice_through) = Some text /\
                (3 <= length (file_lines text))%nat) /\
  initialized alice_reloaded = true /\ matches alice_reloaded <> [] /\
  (forall j m, matches alice_reloaded !! j = Some m ->
     toID (player1 m) = player1 m /\ toID (player2 m) = player2 m) /\
  (forall id i, playerMatches alice_reloaded !! id = Some i ->
     id <> "" /\
     exists m, matches alice_reloaded !! i = Some m /\ is_live m = true /\
               (player1 m = id \/ player2 m = id)) /\
  (forall j m id, matches alice_reloaded !! j = Some m -> is_live m = true ->
     id <> "" -> player1 m = id \/ player2 m = id ->
     exists i, playerMatches alice_reloaded !! id = Some i /\ (j <= i)%nat) /\
  (forall j m, matches alice_reloaded !! j = Some m ->
     has_activity m = true -> round m <= currentRound alice_reloaded).
Proof.
  apply (load_outcome sample_config (Some (saveToCSV alice_through))
           empty_state alice_reloaded).
  vm_compute. reflexivity.
Defined.

End BracketExtra.

(* ===================================================================== *)
(** * Tournaments among any players *)
(* ===================================================================== *)

Module BracketAny.

Import Dex Bracket Handlers BracketSpec BracketProofs BracketExtra.
Local Open Scope Z_scope.












































(** ** [canMatch] *)





End BracketAny.

(* ===================================================================== *)
(** * Further properties of the rating store *)
(* ===================================================================== *)

Module LadderExtra.

Import Dex Ladder LadderSpec LadderProofs.
Local Open Scope list_scope.
Local Open Scope R_scope.

Lemma calculateElo_eq (oldElo score foeElo : R) (games : Z) :
  calculateElo oldElo score foeElo games
  = Rmax (oldElo + kfactor oldElo score foeElo games
                   * (score - expected oldElo foeElo)) 1000.
Proof. reflexivity. Qed.

Lemma kfactor_bounds (oldElo score foeElo : R) (games : Z) :
  12 <= kfactor oldElo score foeElo games <= 352 / 10.
Proof.
  unfold kfactor, Rmin, Rmax.
  repeat match goal with
         | |- context [if ?c then _ else _] => destruct c
         end; lra.
Qed.

Lemma pow10_pos (x : R) : 0 < Math.pow10 x.
Proof. unfold Math.pow10, Rpower. apply exp_pos. Qed.

Lemma expected_bounds (oldElo foeElo : R) : 0 < expected oldElo foeElo < 1.
Proof.
  unfold expected. pose proof (pow10_pos ((foeElo - oldElo) / 400)) as Hp.
  split.
  - apply Rdiv_lt_0_compat; lra.
  - apply Rmult_lt_reg_r with (1 + Math.pow10 ((foeElo - oldElo) / 400));
      [lra|].
    unfold Rdiv. rewrite Rmult_assoc, Rinv_l by lra. lra.
Qed.

Lemma pow10_opp (x : R) : Math.pow10 (- x) = / Math.pow10 x.
Proof. unfold Math.pow10. apply Rpower_Ropp. Qed.

(** The expected scores of the two sides add up to 1. *)
Lemma expected_sum (a b : R) : expected a b + expected b a = 1.
Proof.
  unfold expected.
  replace ((a - b) / 400) with (- ((b - a) / 400)) by lra.
  rewrite pow10_opp. pose proof (pow10_pos ((b - a) / 400)) as Hp.
  set (x := Math.pow10 ((b - a) / 400)) in *.
  field. split; lra.
Qed.

(** X18.  [calculateElo] never returns less than 1000, whatever its
    arguments.  For a player rated between 1000 and 1000000 and a score
    between 0 and 1 the rating moves by at most 36 points (the K-factor is
    at most [32 * 1.1]; the bound on the rating and the margin keep the
    statement clear of the rounding of the arithmetic); it does not fall
    after a win (score 1) and does not rise after a loss (score 0). *)
Theorem calculateElo_bounds (oldElo score foeElo : R) (games : Z) :
  1000 <= calculateElo oldElo score foeElo games /\
  (1000 <= oldElo <= 1000000 -> 0 <= score <= 1 ->
   Rabs (calculateElo oldElo score foeElo games - oldElo) <= 36 /\
   (score = 1 -> oldElo <= calculateElo oldElo score foeElo games) /\
   (score = 0 -> calculateElo oldElo score foeElo games <= oldElo)).
Proof.
  rewrite calculateElo_eq. split; [apply Rmax_r|].
  intros [Hold _] Hs.
  pose proof (kfactor_bounds oldElo score foeElo games) as HK.
  pose proof (expected_bounds oldElo foeElo) as HE.
  set (K := kfactor oldElo score foeElo games) in *.
  set (E := expected oldElo foeElo) in *.
  assert (Hlo : - (352 / 10) < K * (score - E)) by nra.
  assert (Hhi : K * (score - E) < 352 / 10) by nra.
  unfold Rmax. destruct (Rle_dec _ _) as [Hle|Hgt].
  - split; [|split].
    + unfold Rabs. destruct (Rcase_abs _); lra.
    + intros ->. nra.
    + lra.
  - split; [|split].
    + unfold Rabs. destruct (Rcase_abs _); lra.
    + intros ->. nra.
    + intros ->. nra.
Qed.

Lemma calculateElo_bounds_witness :
  Rabs (calculateElo 1500 0 1500 0 - 1500) <= 36 /\
  (0 = 1 -> 1500 <= calculateElo 1500 0 1500 0) /\
  (0 = 0 -> calculateElo 1500 0 1500 0 <= 1500).
Proof.
  apply (calculateElo_bounds 1500 0 1500 0); lra.
Defined.

Lemma calculateGlicko_rd (rating rd opponentRating opponentRd score : R) :
  snd (calculateGlicko rating rd opponentRating opponentRd score)
  = Math.round
      (Rmax 10
         (Rmin 350
            (Math.sqrt
               (1 / (1 / Math.sq rd
                     + 1 / d_squared rating opponentRating opponentRd)))) * 10)
    / 10.
Proof. reflexivity. Qed.

Lemma inv_nonneg (x : R) : 0 <= x -> 0 <= 1 / x.
Proof.
  intros [Hx|<-].
  - apply Rlt_le, Rdiv_lt_0_compat; lra.
  - unfold Rdiv. rewrite Rinv_0. lra.
Qed.

Lemma sq_nonneg (x : R) : 0 <= Math.sq x.
Proof. unfold Math.sq. nra. Qed.

Lemma d_squared_nonneg (rating opponentRating opponentRd : R) :
  0 <= d_squared rating opponentRating opponentRd.
Proof.
  unfold d_squared. apply inv_nonneg.
  set (q := Math.log 10 / 400).
  set (g := 1 / Math.sqrt (1 + 3 * Math.sq (q * opponentRd) / Math.sq Math.PI)).
  pose proof (pow10_pos (- g * (rating - opponentRating) / 400)) as Hp.
  set (p := Math.pow10 (- g * (rating - opponentRating) / 400)) in *.
  assert (HE : 0 < 1 / (1 + p) < 1).
  { split.
    - apply Rdiv_lt_0_compat; lra.
    - apply Rmult_lt_reg_r with (1 + p); [lra|].
      unfold Rdiv. rewrite Rmult_assoc, Rinv_l by lra. lra. }
  pose proof (sq_nonneg q). pose proof (sq_nonneg g).
  assert (0 <= Math.sq q * Math.sq g) by nra.
  assert (0 <= 1 / (1 + p) * (1 - 1 / (1 + p))) by nra.
  rewrite Rmult_assoc. nra.
Qed.

(** The deviation before clamping and rounding does not exceed the old
    one. *)
Lemma newRd_le (rd d2 : R) :
  0 < rd -> 0 <= d2 ->
  Math.sqrt (1 / (1 / Math.sq rd + 1 / d2)) <= rd.
Proof.
  intros Hrd Hd. pose proof (inv_nonneg d2 Hd) as Hi.
  assert (Hsq : 0 < Math.sq rd) by (unfold Math.sq; nra).
  assert (Hinv : 0 < 1 / Math.sq rd) by (apply Rdiv_lt_0_compat; lra).
  unfold Math.sqrt.
  rewrite <- (sqrt_square rd) at 2 by lra.
  apply sqrt_le_1_alt. fold (Math.sq rd).
  apply Rmult_le_reg_r with (1 / Math.sq rd + 1 / d2); [lra|].
  unfold Rdiv at 1. rewrite Rmult_assoc, Rinv_l by lra.
  assert (Math.sq rd * (1 / Math.sq rd) = 1) by (field; lra).
  nra.
Qed.

Lemma glicko_deviation_bounds (rating rd opponentRating opponentRd score : R) :
  10 <= rd -> (exists n : Z, rd = IZR n / 10) ->
  10 <= snd (calculateGlicko rating rd opponentRating opponentRd score) <= rd /\
  snd (calculateGlicko rating rd opponentRating opponentRd score) <= 350 /\
  exists n : Z,
    snd (calculateGlicko rating rd opponentRating opponentRd score)
    = IZR n / 10.
Proof.
  intros Hrd [n Hn]. rewrite calculateGlicko_rd.
  pose proof (newRd_le rd (d_squared rating opponentRating opponentRd)
                ltac:(lra) (d_squared_nonneg _ _ _)) as Hnew.
  set (newRd := Math.sqrt _) in *.
  assert (Hfin : 10 <= Rmax 10 (Rmin 350 newRd) <= rd /\
                 Rmax 10 (Rmin 350 newRd) <= 350).
  { unfold Rmax, Rmin. repeat destruct (Rle_dec _ _); lra. }
  set (finalRd := Rmax 10 (Rmin 350 newRd)) in *.
  destruct Hfin as [[Hf1 Hf2] Hf3].
  assert (Hrn : rd * 10 = IZR n) by (rewrite Hn; field).
  destruct (round_bounds (finalRd * 10) 100 n) as [Hr1 Hr2]; [lra|lra|].
  destruct (round_bounds (finalRd * 10) 100 3500) as [_ Hr3]; [lra|lra|].
  split; [|split].
  - split.
    + apply Rmult_le_reg_r with 10; [lra|].
      unfold Rdiv. rewrite Rmult_assoc, Rinv_l by lra. lra.
    + apply Rmult_le_reg_r with 10; [lra|].
      unfold Rdiv. rewrite Rmult_assoc, Rinv_l by lra. lra.
  - apply Rmult_le_reg_r with 10; [lra|].
    unfold Rdiv. rewrite Rmult_assoc, Rinv_l by lra. lra.
  - exists (Int_part (finalRd * 10 + / 2)). reflexivity.
Qed.

(** X19.  The deviation that [calculateGlicko] returns for a player whose
    deviation is at least 10 and a multiple of 0.1 (as every deviation the
    function returns is) lies between 10 and the old deviation, is at most
    350, and is again a multiple of 0.1: a player's deviation never grows
    from game to game. *)
Theorem glicko_deviation (rating rd opponentRating opponentRd score : R) :
  10 <= rd -> (exists n : Z, rd = IZR n / 10) ->
  10 <= snd (calculateGlicko rating rd opponentRating opponentRd score) <= rd /\
  snd (calculateGlicko rating rd opponentRating opponentRd score) <= 350 /\
  exists n : Z,
    snd (calculateGlicko rating rd opponentRating opponentRd score)
    = IZR n / 10.
Proof. apply glicko_deviation_bounds. Qed.

Lemma glicko_deviation_witness :
  10 <= snd (calculateGlicko 1500 130 1500 130 1) <= 130 /\
  snd (calculateGlicko 1500 130 1500 130 1) <= 350 /\
  exists n : Z, snd (calculateGlicko 1500 130 1500 130 1) = IZR n / 10.
Proof.
  apply (glicko_deviation 1500 130 1500 130 1); [lra|].
  exists 1300%Z. lra.
Defined.

Lemma seed_row_ok (now name : string) : row_ok (seed_row now name).
Proof.
  unfold row_ok, seed_row. cbn [eloRating w l t gamesPlayed ratingDeviation].
  repeat split; try lia; try lra. exists 1300%Z. lra.
Qed.

Lemma updateRow_fields now row score e g d :
  eloRating (updateRow now row score e g d)
  = calculateElo (eloRating row) score e (gamesPlayed row) /\
  ratingDeviation (updateRow now row score e g d)
  = snd (calculateGlicko (glickoRating row) (ratingDeviation row) g d score) /\
  gamesPlayed (updateRow now row score e g d) = (gamesPlayed row + 1)%Z /\
  ((w (updateRow now row score e g d) = (w row + 1)%Z /\
    l (updateRow now row score e g d) = l row /\
    t (updateRow now row score e g d) = t row) \/
   (w (updateRow now row score e g d) = w row /\
    l (updateRow now row score e g d) = (l row + 1)%Z /\
    t (updateRow now row score e g d) = t row) \/
   (w (updateRow now row score e g d) = w row /\
    l (updateRow now row score e g d) = l row /\
    t (updateRow now row score e g d) = (t row + 1)%Z)).
Proof.
  unfold updateRow.
  destruct (calculateGlicko _ _ _ _ _) as [ng nrd].
  cbn [eloRating ratingDeviation gamesPlayed w l t snd].
  repeat split.
  destruct (Rgt_dec score (6 / 10)); [now left|].
  destruct (Rlt_dec score (4 / 10)); [right; now left|right; now right].
Qed.

Lemma updateRow_ok now row score e g d :
  row_ok row -> row_ok (updateRow now row score e g d).
Proof.
  intros (He & Hw & Hl & Ht & Hg & Hrd & Hgrid).
  destruct (updateRow_fields now row score e g d) as (Ee & Erd & Eg & Hwlt).
  destruct (glicko_deviation_bounds (glickoRating row) (ratingDeviation row)
              g d score ltac:(lra) Hgrid) as (Hb1 & Hb2 & Hb3).
  unfold row_ok. rewrite Ee, Erd, Eg.
  split; [rewrite calculateElo_eq; apply Rmax_r|].
  destruct Hwlt as [(-> & -> & ->)|[(-> & -> & ->)|(-> & -> & ->)]];
    repeat split; try lia; try lra; exact Hb3.
Qed.

Lemma updateH2H_ok row id o : row_ok row -> row_ok (updateH2H row id o).
Proof. unfold row_ok, updateH2H. now destruct (h2hData row). Qed.

Lemma alter_at_Forall (P : LadderRow -> Prop) (f : LadderRow -> LadderRow)
    (i : nat) (ladder : list LadderRow) :
  (forall r, P r -> P (f r)) -> Forall P ladder -> Forall P (alter_at f i ladder).
Proof.
  intros Hf Hall. unfold alter_at.
  destruct (ladder !! i) as [row|] eqn:E; [|exact Hall].
  apply Forall_insert; [exact Hall|].
  apply Hf. exact (Forall_lookup_1 _ _ _ _ Hall E).
Qed.

Lemma record_result_Forall (P : LadderRow -> Prop) now ladder p1i p2i row1 row2
    s1 s2 id1 id2 :
  (forall now row s e g d, P row -> P (updateRow now row s e g d)) ->
  (forall row id o, P row -> P (updateH2H row id o)) ->
  Forall P ladder ->
  Forall P (record_result now ladder p1i p2i row1 row2 s1 s2 id1 id2).
Proof.
  intros Hrow Hh2h Hall. unfold record_result.
  repeat apply alter_at_Forall; auto.
Qed.

(** A property of rows that the seed row has and that [updateRow] and
    [updateH2H] keep is kept by [updateRating]. *)
Lemma after_call_Forall (P : LadderRow -> Prop) (ladder : list LadderRow)
    (c : Call) :
  (forall now name, P (seed_row now name)) ->
  (forall now row s e g d, P row -> P (updateRow now row s e g d)) ->
  (forall row id o, P row -> P (updateH2H row id o)) ->
  Forall P ladder -> Forall P (after_call ladder c).
Proof.
  intros Hseed Hrow Hh2h Hall. unfold after_call.
  destruct (call_disabled c) eqn:Hd.
  - unfold updateRating. exact Hall.
  - destruct (updateRating_shape (call_now c) (call_battle c) ladder
                (call_p1 c) (call_p2 c) (call_score c))
      as (extra & p1i & p2i & row1 & row2 & e1 & e2 & Hextra & _ & _ & _ & ->).
    eapply Permutation_Forall; [symmetry; apply reorder_perm|].
    apply record_result_Forall; try assumption.
    apply Forall_app. split; [exact Hall|].
    eapply Forall_impl; [exact Hextra|]. intros r [name ->]. apply Hseed.
Qed.

Lemma run_Forall (P : LadderRow -> Prop) (calls : list Call) :
  (forall now name, P (seed_row now name)) ->
  (forall now row s e g d, P row -> P (updateRow now row s e g d)) ->
  (forall row id o, P row -> P (updateH2H row id o)) ->
  forall ladder, Forall P ladder -> Forall P (run calls ladder).
Proof.
  intros Hseed Hrow Hh2h. unfold run.
  induction calls as [|c calls IH]; intros ladder Hall; [exact Hall|].
  cbn [fold_left]. apply IH. now apply after_call_Forall.
Qed.

(** X20.  Whatever calls of [updateRating] are made, with whatever scores,
    every row of a ladder whose rows are in order stays in order: the Elo
    rating is at least 1000, the games played equal wins plus losses plus
    ties, none of them negative, and the deviation is a multiple of 0.1
    between 10 and 130 (the value a new row starts with).  Rows created by
    the calls are in order from the start. *)
Theorem rows_stay_ok (calls : list Call) (ladder : list LadderRow) :
  Forall row_ok ladder -> Forall row_ok (run calls ladder).
Proof.
  apply run_Forall.
  - apply seed_row_ok.
  - intros. now apply updateRow_ok.
  - intros. now apply updateH2H_ok.
Qed.

Lemma rows_stay_ok_witness : Forall row_ok (run three_battles []).
Proof. apply (rows_stay_ok three_battles []). constructor. Defined.

Lemma find_user_None (id : string) (ladder : list LadderRow) (k : nat) :
  find_user id k ladder = None <-> ~ In id (map userid ladder).
Proof.
  revert k. induction ladder as [|r ladder IH]; intros k; cbn [find_user map].
  - cbn. tauto.
  - destruct (String.eqb_spec (userid r) id) as [E|E].
    + split; [discriminate|]. intros H. exfalso. apply H. now left.
    + rewrite IH. cbn [In]. tauto.
Qed.

Lemma find_user_Some (id : string) (ladder : list LadderRow) (k i : nat) :
  find_user id k ladder = Some i ->
  (k <= i)%nat /\ exists r, ladder !! (i - k)%nat = Some r /\ userid r = id.
Proof.
  revert k. induction ladder as [|r ladder IH]; intros k; cbn [find_user];
    [discriminate|].
  destruct (String.eqb_spec (userid r) id) as [E|E].
  - intros [= <-]. split; [lia|]. exists r.
    replace (k - k)%nat with 0%nat by lia. auto.
  - intros H. destruct (IH _ H) as (Hk & r' & Hr' & Hid).
    split; [lia|]. exists r'. split; [|exact Hid].
    replace (i - k)%nat with (S (i - S k)) by lia. exact Hr'.
Qed.

Lemma find_user_app (id : string) (xs ys : list LadderRow) (k : nat) :
  find_user id k (xs ++ ys)
  = match find_user id k xs with
    | Some i => Some i
    | None => find_user id (k + length xs) ys
    end.
Proof.
  revert k. induction xs as [|r xs IH]; intros k; cbn [find_user app length].
  - now rewrite Nat.add_0_r.
  - destruct (String.eqb _ _); [reflexivity|].
    rewrite IH. now replace (S k + length xs)%nat with (k + S (length xs))%nat
      by lia.
Qed.

Lemma with_user_spec (now : string) (ladder : list LadderRow) (name : string) :
  (In (toID name) (map userid ladder) /\ with_user now ladder name = ladder) \/
  (~ In (toID name) (map userid ladder) /\
   with_user now ladder name = (ladder ++ [seed_row now name])%list).
Proof.
  unfold with_user, indexOfUser.
  destruct (find_user (toID name) 0 ladder) as [i|] eqn:E; cbn [snd].
  - left. split; [|reflexivity].
    destruct (in_dec string_dec (toID name) (map userid ladder)) as [H|H];
      [exact H|].
    apply find_user_None with (k := 0%nat) in H. congruence.
  - right. split; [|reflexivity]. now apply find_user_None in E.
Qed.

Lemma with_user_index (now : string) (ladder : list LadderRow) (name : string) :
  exists i : nat,
    fst (indexOfUser now ladder name true) = Z.of_nat i /\
    find_user (toID name) 0 (with_user now ladder name) = Some i.
Proof.
  unfold with_user, indexOfUser.
  destruct (find_user (toID name) 0 ladder) as [i|] eqn:E; cbn [fst snd].
  - exists i. auto.
  - exists (length ladder). split; [reflexivity|].
    rewrite find_user_app, E. cbn [find_user seed_row userid].
    now rewrite String.eqb_refl.
Qed.

Lemma with_user_keeps (now : string) (ladder : list LadderRow)
    (name id : string) (i : nat) :
  find_user id 0 ladder = Some i ->
  find_user id 0 (with_user now ladder name) = Some i.
Proof.
  intros H. destruct (with_user_spec now ladder name) as [[_ ->]|[_ ->]];
    [exact H|].
  now rewrite find_user_app, H.
Qed.

Lemma record_result_lookup now ladder p1i p2i row1 row2 s1 s2 id1 id2 k :
  record_result now ladder p1i p2i row1 row2 s1 s2 id1 id2 !! k
  = recorded now k p1i p2i row1 row2 s1 s2 id1 id2 <$> ladder !! k.
Proof.
  unfold record_result, recorded. rewrite !alter_at_lookup.
  repeat case_decide; subst; try congruence;
    destruct (ladder !! _); reflexivity.
Qed.

Lemma recorded_userid now k p1i p2i row1 row2 s1 s2 id1 id2 row :
  userid (recorded now k p1i p2i row1 row2 s1 s2 id1 id2 row) = userid row.
Proof.
  unfold recorded.
  repeat case_decide;
    now rewrite ?updateH2H_userid, ?updateRow_userid.
Qed.

Lemma recorded_other now k p1i p2i row1 row2 s1 s2 id1 id2 row :
  k <> p1i -> k <> p2i ->
  recorded now k p1i p2i row1 row2 s1 s2 id1 id2 row = row.
Proof.
  intros H1 H2. unfold recorded. now rewrite !decide_False by assumption.
Qed.

Lemma record_result_userids now ladder p1i p2i row1 row2 s1 s2 id1 id2 :
  map userid (record_result now ladder p1i p2i row1 row2 s1 s2 id1 id2)
  = map userid ladder.
Proof.
  apply list_eq. intros k. change (map ?f ?x) with (f <$> x).
  rewrite !list_lookup_fmap, record_result_lookup.
  destruct (ladder !! k); [|reflexivity]. cbn. now rewrite recorded_userid.
Qed.

(** The course of a call of [updateRating] that is not disabled. *)
Lemma updateRating_trace (now : string) (battle : bool)
    (ladder : list LadderRow) (p1name p2name : string) (p1score : R) :
  let s1 := if Rlt_dec p1score 0 then 0 else p1score in
  let s2 := if Rlt_dec p1score 0 then 0 else 1 - p1score in
  let ladder2 := with_user now (with_user now ladder p1name) p2name in
  exists (p1i p2i : nat) (row1 row2 r1 r2 : LadderRow),
    find_user (toID p1name) 0 ladder2 = Some p1i /\
    find_user (toID p2name) 0 ladder2 = Some p2i /\
    ladder2 !! p1i = Some row1 /\ ladder2 !! p2i = Some row2 /\
    userid row1 = toID p1name /\ userid row2 = toID p2name /\
    let ladder3 :=
      record_result now ladder2 p1i p2i row1 row2 s1 s2
        (toID p1name) (toID p2name) in
    ladder3 !! p1i = Some r1 /\ ladder3 !! p2i = Some r2 /\
    updateRating false now battle ladder p1name p2name p1score
    = (reorder ladder3 p1i p2i (eloRating r1) (eloRating r2),
       if battle then (s1, Some (eloRating r1), Some (eloRating r2))
       else (s1, None, None)).
Proof.
  intros s1 s2 ladder2. unfold updateRating.
  replace (if Rlt_dec p1score 0 then (0, 0) else (p1score, 1 - p1score))
    with (s1, s2) by (subst s1 s2; now destruct (Rlt_dec p1score 0)).
  destruct (with_user_index now ladder p1name) as (p1i & Hi1 & Hf1).
  destruct (with_user_index now (with_user now ladder p1name) p2name)
    as (p2i & Hi2 & Hf2).
  pose proof (with_user_keeps now _ p2name _ _ Hf1) as Hf1'.
  change (with_user now (with_user now ladder p1name) p2name)
    with ladder2 in Hf2, Hf1'.
  assert (E1 : indexOfUser now ladder p1name true
               = (Z.of_nat p1i, with_user now ladder p1name)).
  { rewrite <- Hi1. unfold with_user.
    now destruct (indexOfUser now ladder p1name true). }
  assert (E2 : indexOfUser now (with_user now ladder p1name) p2name true
               = (Z.of_nat p2i, ladder2)).
  { rewrite <- Hi2. unfold ladder2. unfold with_user at 3.
    now destruct (indexOfUser now (with_user now ladder p1name) p2name true). }
  rewrite E1, E2.
  rewrite !at_index_of_nat, !Nat2Z.id.
  destruct (find_user_Some _ _ _ _ Hf1') as (_ & row1 & Hrow1 & Hid1).
  destruct (find_user_Some _ _ _ _ Hf2) as (_ & row2 & Hrow2 & Hid2).
  rewrite Nat.sub_0_r in Hrow1, Hrow2.
  rewrite Hrow1, Hrow2.
  pose proof (record_result_lookup now ladder2 p1i p2i row1 row2 s1 s2
                (toID p1name) (toID p2name) p1i) as Hr1.
  pose proof (record_result_lookup now ladder2 p1i p2i row1 row2 s1 s2
                (toID p1name) (toID p2name) p2i) as Hr2.
  rewrite Hrow1 in Hr1. rewrite Hrow2 in Hr2. cbn [fmap option_fmap option_map] in Hr1, Hr2.
  rewrite Hr1, Hr2.
  eexists p1i, p2i, row1, row2, _, _.
  repeat split; try eassumption; try reflexivity.
Qed.

Lemma with_user_userids (now : string) (ladder : list LadderRow)
    (name : string) :
  (forall id, In id (map userid (with_user now ladder name)) <->
              In id (map userid ladder) \/ id = toID name) /\
  (List.NoDup (map userid ladder) ->
   List.NoDup (map userid (with_user now ladder name))) /\
  (forall r, userid r <> toID name ->
             (In r (with_user now ladder name) <-> In r ladder)).
Proof.
  destruct (with_user_spec now ladder name) as [[Hin ->]|[Hout ->]].
  - split; [|split]; [|auto|tauto].
    intros id. split; [auto|]. intros [H| ->]; assumption.
  - split; [|split].
    + intros id. rewrite map_app, in_app_iff. cbn. intuition.
    + intros Hnd. rewrite map_app. apply NoDup_ListNoDup, NoDup_app.
      split; [now apply NoDup_ListNoDup|]. split.
      * intros x Hx [<-|[]]%list_elem_of_In. apply Hout.
        apply list_elem_of_In in Hx. exact Hx.
      * apply NoDup_ListNoDup. repeat constructor. intros [].
    + intros r Hr. rewrite in_app_iff. cbn. split; [|auto].
      intros [H|[<-|[]]]; [exact H|]. now contradiction Hr.
Qed.

Lemma perm_in_iff {A} (xs ys : list A) (x : A) :
  Permutation xs ys -> (In x xs <-> In x ys).
Proof.
  intros H. split; apply Permutation_in; [exact H|now symmetry].
Qed.

(** X21.  A call of [updateRating] that is not disabled keeps the user ids
    of the ladder distinct; afterwards the ladder holds exactly the users it
    held before and the two players; and every row of another user is in
    the ladder afterwards just as it was before, unchanged. *)
Theorem updateRating_users (now : string) (battle : bool)
    (ladder : list LadderRow) (p1name p2name : string) (p1score : R) :
  List.NoDup (map userid ladder) ->
  List.NoDup
    (map userid
       (fst (updateRating false now battle ladder p1name p2name p1score))) /\
  (forall id,
     In id (map userid
              (fst (updateRating false now battle ladder p1name p2name
                      p1score))) <->
     In id (map userid ladder) \/ id = toID p1name \/ id = toID p2name) /\
  (forall r, userid r <> toID p1name -> userid r <> toID p2name ->
     (In r (fst (updateRating false now battle ladder p1name p2name p1score))
      <-> In r ladder)).
Proof.
  intros Hnd.
  destruct (updateRating_trace now battle ladder p1name p2name p1score)
    as (p1i & p2i & row1 & row2 & r1 & r2 & _ & _ & Hrow1 & Hrow2 & Hid1 & Hid2
        & _ & _ & ->).
  cbn [fst].
  set (ladder2 := with_user now (with_user now ladder p1name) p2name) in *.
  set (ladder3 := record_result now ladder2 p1i p2i row1 row2 _ _ _ _).
  pose proof (reorder_perm ladder3 p1i p2i (eloRating r1) (eloRating r2))
    as Hperm.
  pose proof (record_result_userids now ladder2 p1i p2i row1 row2
                (if Rlt_dec p1score 0 then 0 else p1score)
                (if Rlt_dec p1score 0 then 0 else 1 - p1score)
                (toID p1name) (toID p2name)) as Hids.
  fold ladder3 in Hids.
  destruct (with_user_userids now ladder p1name) as (Hin1 & Hnd1 & Hoth1).
  destruct (with_user_userids now (with_user now ladder p1name) p2name)
    as (Hin2 & Hnd2 & Hoth2).
  fold ladder2 in Hin2, Hnd2, Hoth2.
  assert (Hpermid : Permutation (map userid (reorder ladder3 p1i p2i
                                               (eloRating r1) (eloRating r2)))
                      (map userid ladder2)).
  { rewrite <- Hids. now apply Permutation_map. }
  split; [|split].
  - eapply Permutation.Permutation_NoDup; [symmetry; exact Hpermid|]. auto.
  - intros id. rewrite (perm_in_iff _ _ id Hpermid), Hin2, Hin1. tauto.
  - intros r Hr1 Hr2.
    rewrite (perm_in_iff _ _ r Hperm), <- Hoth1, <- Hoth2 by assumption.
    split.
    + intros Hin. apply list_elem_of_In, list_elem_of_lookup in Hin as [k Hk].
      subst ladder3. rewrite record_result_lookup in Hk.
      destruct (ladder2 !! k) as [row|] eqn:Hrow; [|discriminate].
      injection Hk as <-.
      rewrite recorded_userid in Hr1, Hr2.
      rewrite recorded_other.
      * apply list_elem_of_In. eapply list_elem_of_lookup_2, Hrow.
      * intros ->. congruence.
      * intros ->. congruence.
    + intros Hin. apply list_elem_of_In, list_elem_of_lookup in Hin as [k Hk].
      apply list_elem_of_In, list_elem_of_lookup. exists k.
      subst ladder3. rewrite record_result_lookup, Hk.
      cbn [fmap option_fmap option_map]. f_equal.
      apply recorded_other; intros ->; congruence.
Qed.

Lemma updateRating_users_witness :
  List.NoDup
    (map userid (fst (updateRating false "d1" true tied_ladder "p1" "Zoe" 1)))
  /\
  (forall id,
     In id (map userid
              (fst (updateRating false "d1" true tied_ladder "p1" "Zoe" 1))) <->
     In id (map userid tied_ladder) \/ id = toID "p1" \/ id = toID "Zoe") /\
  (forall r, userid r <> toID "p1" -> userid r <> toID "Zoe" ->
     (In r (fst (updateRating false "d1" true tied_ladder "p1" "Zoe" 1))
      <-> In r tied_ladder)).
Proof.
  apply (updateRating_users "d1" true tied_ladder "p1" "Zoe" 1).
  repeat constructor; cbn; intuition discriminate.
Defined.

Lemma NoDup_userid_eq (ladder : list LadderRow) (a b : LadderRow) :
  List.NoDup (map userid ladder) -> In a ladder -> In b ladder ->
  userid a = userid b -> a = b.
Proof.
  induction ladder as [|r ladder IH]; intros Hnd Ha Hb E; [contradiction|].
  cbn [map] in Hnd. inversion Hnd as [|x xs Hr Hnd']; subst.
  destruct Ha as [->|Ha], Hb as [->|Hb]; auto.
  - exfalso. apply Hr. rewrite E. now apply in_map.
  - exfalso. apply Hr. rewrite <- E. now apply in_map.
Qed.

Lemma recorded_floor now k p1i p2i row1 row2 s1 s2 id1 id2 row :
  k = p1i \/ k = p2i ->
  1000 <= eloRating (recorded now k p1i p2i row1 row2 s1 s2 id1 id2 row).
Proof.
  intros Hk. unfold recorded.
  repeat case_decide; try (exfalso; tauto);
    rewrite ?updateH2H_elo, updateRow_elo, calculateElo_eq; apply Rmax_r.
Qed.

Lemma getRating_row (ladder : list LadderRow) (name : string) (r : LadderRow) :
  List.NoDup (map userid ladder) -> In r ladder -> userid r = toID name ->
  getRating None ladder name = eloRating r.
Proof.
  intros Hnd Hin Hid. unfold getRating, indexOfUser.
  destruct (find_user (toID name) 0 ladder) as [i|] eqn:E.
  - cbn [fst]. rewrite at_index_of_nat.
    destruct (find_user_Some _ _ _ _ E) as (_ & r' & Hr' & Hid').
    rewrite Nat.sub_0_r in Hr'. rewrite Hr'. f_equal.
    apply (NoDup_userid_eq ladder); [exact Hnd| |exact Hin|congruence].
    apply list_elem_of_In. eapply list_elem_of_lookup_2, Hr'.
  - apply find_user_None in E. exfalso. apply E. rewrite <- Hid.
    now apply in_map.
Qed.

(** X22.  On a ladder with distinct user ids, when [updateRating] reports
    the new ratings of the two players, these are the ratings that
    [getRating] reads back from the ladder for them, with an empty cache as
    well as with the cache entry that [updateRating] leaves; both are at
    least 1000. *)
Theorem rating_read_back (now : string) (ladder ladder' : list LadderRow)
    (p1name p2name : string) (p1score s : R) (e1 e2 : R) :
  List.NoDup (map userid ladder) ->
  updateRating false now true ladder p1name p2name p1score
  = (ladder', (s, Some e1, Some e2)) ->
  getRating None ladder' p1name = e1 /\ getRating None ladder' p2name = e2 /\
  getRating (Some e1) ladder' p1name = e1 /\
  getRating (Some e2) ladder' p2name = e2 /\
  1000 <= e1 /\ 1000 <= e2.
Proof.
  intros Hnd Hupd.
  destruct (updateRating_users now true ladder p1name p2name p1score Hnd)
    as (Hnd' & _ & _).
  destruct (updateRating_trace now true ladder p1name p2name p1score)
    as (p1i & p2i & row1 & row2 & r1 & r2 & _ & _ & Hrow1 & Hrow2 & Hid1 & Hid2
        & Hr1 & Hr2 & E).
  rewrite E in Hupd, Hnd'. cbn [fst] in Hnd'.
  injection Hupd as <- _ <- <-.
  set (ladder2 := with_user now (with_user now ladder p1name) p2name) in *.
  set (s1 := if Rlt_dec p1score 0 then 0 else p1score) in *.
  set (s2 := if Rlt_dec p1score 0 then 0 else 1 - p1score) in *.
  set (ladder3 := record_result now ladder2 p1i p2i row1 row2 s1 s2
                    (toID p1name) (toID p2name)) in *.
  pose proof (reorder_perm ladder3 p1i p2i (eloRating r1) (eloRating r2))
    as Hperm.
  assert (Hin : forall k r, ladder3 !! k = Some r ->
            In r (reorder ladder3 p1i p2i (eloRating r1) (eloRating r2))).
  { intros k r Hk. apply (Permutation_in _ (Permutation_sym Hperm)).
    apply list_elem_of_In. eapply list_elem_of_lookup_2, Hk. }
  assert (Er1 : r1 = recorded now p1i p1i p2i row1 row2 s1 s2
                       (toID p1name) (toID p2name) row1).
  { pose proof Hr1 as H. unfold ladder3 in H.
    rewrite record_result_lookup, Hrow1 in H. now injection H. }
  assert (Er2 : r2 = recorded now p2i p1i p2i row1 row2 s1 s2
                       (toID p1name) (toID p2name) row2).
  { pose proof Hr2 as H. unfold ladder3 in H.
    rewrite record_result_lookup, Hrow2 in H. now injection H. }
  assert (Hid1' : userid r1 = toID p1name)
    by (now rewrite Er1, recorded_userid).
  assert (Hid2' : userid r2 = toID p2name)
    by (now rewrite Er2, recorded_userid).
  assert (He1 : 1000 <= eloRating r1)
    by (rewrite Er1; apply recorded_floor; now left).
  assert (He2 : 1000 <= eloRating r2)
    by (rewrite Er2; apply recorded_floor; now right).
  pose proof (getRating_row _ p1name r1 Hnd' (Hin _ _ Hr1) Hid1') as G1.
  pose proof (getRating_row _ p2name r2 Hnd' (Hin _ _ Hr2) Hid2') as G2.
  repeat split; try assumption.
  - unfold getRating. destruct (Req_dec_T (eloRating r1) 0); [lra|reflexivity].
  - unfold getRating. destruct (Req_dec_T (eloRating r2) 0); [lra|reflexivity].
Qed.

Lemma rating_read_back_witness :
  exists ladder' s e1 e2,
    updateRating false "d1" true tied_ladder "p1" "Zoe" 1
    = (ladder', (s, Some e1, Some e2)) /\
    getRating None ladder' "p1" = e1 /\ getRating None ladder' "Zoe" = e2 /\
    getRating (Some e1) ladder' "p1" = e1 /\
    getRating (Some e2) ladder' "Zoe" = e2 /\
    1000 <= e1 /\ 1000 <= e2.
Proof.
  destruct (updateRating_trace "d1" true tied_ladder "p1" "Zoe" 1)
    as (p1i & p2i & row1 & row2 & r1 & r2 & _ & _ & _ & _ & _ & _ & _ & _ & E).
  eexists _, _, _, _. split; [exact E|].
  eapply (rating_read_back "d1" tied_ladder); [|exact E].
  repeat constructor; cbn; intuition discriminate.
Defined.

Lemma mirrored_bump (a b : H2H) (o : Outcome) :
  mirrored a b -> mirrored (bump a o) (bump b (flip o)).
Proof.
  unfold mirrored. intros (H1 & H2 & H3).
  destruct o; cbn; repeat split; lia.
Qed.

Lemma flip_flip (o : Outcome) : flip (flip o) = o.
Proof. now destruct o. Qed.

Lemma mirrored_bump2 (a b : H2H) (o : Outcome) :
  mirrored a b ->
  mirrored (bump (bump a o) (flip o)) (bump (bump b o) (flip o)).
Proof.
  unfold mirrored. intros (H1 & H2 & H3).
  destruct o; cbn; repeat split; lia.
Qed.

Lemma h2h_inv_perm (xs ys : list LadderRow) :
  Permutation xs ys -> h2h_inv xs -> h2h_inv ys.
Proof.
  intros Hp [Hnd Hpar Hkn Hmir].
  assert (Hin : forall r, In r ys -> In r xs)
    by (intros r; apply Permutation_in; now symmetry).
  split.
  - eapply Permutation.Permutation_NoDup; [|exact Hnd].
    now apply Permutation_map.
  - intros r Hr. apply Hpar. auto.
  - intros r id Hr Hg.
    apply (Permutation_in _ (Permutation_map userid Hp)). eapply Hkn; eauto.
  - intros ra rb Ha Hb. apply Hmir; auto.
Qed.

Lemma versus_seed (now name id : string) :
  versus (seed_row now name) id = mkH2H 0 0 0.
Proof. unfold versus, getH2H. cbn. now rewrite lookup_empty. Qed.

Lemma with_user_h2h (now : string) (ladder : list LadderRow) (name : string) :
  h2h_inv ladder -> h2h_inv (with_user now ladder name).
Proof.
  intros Hinv. pose proof Hinv as [Hnd Hpar Hkn Hmir].
  destruct (with_user_userids now ladder name) as (Hids & Hnd' & _).
  destruct (with_user_spec now ladder name) as [[Hin E]|[Hout E]];
    [now rewrite E|].
  split.
  - auto.
  - rewrite E. intros r [Hr|[<-|[]]]%in_app_iff; [auto|]. discriminate.
  - rewrite E. intros r id [Hr|[<-|[]]]%in_app_iff Hg.
    + rewrite <- E. apply Hids. left. eapply Hkn; eauto.
    + exfalso. apply Hg. unfold getH2H. cbn. apply lookup_empty.
  - assert (Hzero : forall r, In r ladder -> versus r (toID name) = mkH2H 0 0 0).
    { intros r Hr. unfold versus.
      destruct (getH2H r (toID name)) as [v|] eqn:Hg; [|reflexivity].
      exfalso. apply Hout. apply (Hkn r); [exact Hr|]. congruence. }
    rewrite E.
    intros ra rb [Ha|[<-|[]]]%in_app_iff [Hb|[<-|[]]]%in_app_iff.
    + now apply Hmir.
    + rewrite versus_seed. cbn [userid seed_row]. rewrite (Hzero ra Ha).
      repeat split.
    + rewrite versus_seed. cbn [userid seed_row]. rewrite (Hzero rb Hb).
      repeat split.
    + rewrite !versus_seed. repeat split.
Qed.

Lemma updateRow_h2h now row s e g d :
  h2hData (updateRow now row s e g d) = h2hData row.
Proof.
  unfold updateRow. now destruct (calculateGlicko _ _ _ _ _).
Qed.

Lemma versus_updateRow now row s e g d id :
  versus (updateRow now row s e g d) id = versus row id.
Proof. unfold versus, getH2H. now rewrite updateRow_h2h. Qed.

Lemma versus_updateH2H (row : LadderRow) (key : string) (o : Outcome)
    (id : string) :
  h2hData row <> None ->
  versus (updateH2H row key o) id
  = if decide (id = key) then bump (versus row id) o else versus row id.
Proof.
  intros Hp. unfold versus, getH2H, updateH2H.
  destruct (h2hData row) as [h|]; [|contradiction]. cbn [h2hData set_h2hData].
  case_decide as Hk.
  - subst. now rewrite lookup_insert_eq.
  - now rewrite lookup_insert_ne by congruence.
Qed.

Lemma updateH2H_parsed (row : LadderRow) (key : string) (o : Outcome) :
  h2hData (updateH2H row key o) <> None.
Proof. unfold updateH2H. now destruct (h2hData row). Qed.

Lemma getH2H_updateH2H (row : LadderRow) (key : string) (o : Outcome)
    (id : string) :
  getH2H (updateH2H row key o) id <> None -> id = key \/ getH2H row id <> None.
Proof.
  unfold getH2H, updateH2H. destruct (h2hData row) as [h|];
    cbn [h2hData set_h2hData].
  - destruct (decide (id = key)) as [->|Hk]; [now left|].
    rewrite lookup_insert_ne by congruence. now right.
  - rewrite lookup_empty. contradiction.
Qed.

Lemma getH2H_updateRow now row s e g d id :
  getH2H (updateRow now row s e g d) id = getH2H row id.
Proof. unfold getH2H. now rewrite updateRow_h2h. Qed.

Lemma recorded_parsed now k p1i p2i row1 row2 s1 s2 id1 id2 row :
  h2hData row <> None ->
  h2hData (recorded now k p1i p2i row1 row2 s1 s2 id1 id2 row) <> None.
Proof.
  intros Hp. unfold recorded.
  repeat case_decide;
    try apply updateH2H_parsed; rewrite ?updateRow_h2h; exact Hp.
Qed.

Lemma recorded_known now k p1i p2i row1 row2 s1 s2 id1 id2 row id :
  getH2H (recorded now k p1i p2i row1 row2 s1 s2 id1 id2 row) id <> None ->
  id = id1 \/ id = id2 \/ getH2H row id <> None.
Proof.
  unfold recorded.
  repeat case_decide; intros Hg;
    repeat (apply getH2H_updateH2H in Hg as [->|Hg]; [tauto|]);
    rewrite ?getH2H_updateRow in Hg; tauto.
Qed.

(** The record of the row at [k] against [id] after [record_result]. *)
Lemma versus_recorded now k p1i p2i row1 row2 s1 s2 id1 id2 row id :
  h2hData row <> None ->
  versus (recorded now k p1i p2i row1 row2 s1 s2 id1 id2 row) id
  = let v := versus row id in
    let v := if decide (k = p1i /\ id = id2) then bump v (outcome_of s1)
             else v in
    if decide (k = p2i /\ id = id1) then bump v (flip (outcome_of s1)) else v.
Proof.
  intros Hp. unfold recorded. cbn zeta.
  destruct (decide (k = p1i)) as [E1|E1], (decide (k = p2i)) as [E2|E2].
  - rewrite versus_updateH2H by (apply updateH2H_parsed).
    rewrite versus_updateH2H by (now rewrite !updateRow_h2h).
    rewrite !versus_updateRow.
    destruct (decide (id = id1)), (decide (id = id2));
      repeat case_decide; try tauto; reflexivity.
  - rewrite versus_updateH2H by (now rewrite !updateRow_h2h).
    rewrite !versus_updateRow.
    destruct (decide (id = id2));
      repeat case_decide; try tauto; reflexivity.
  - rewrite versus_updateH2H by (now rewrite !updateRow_h2h).
    rewrite !versus_updateRow.
    destruct (decide (id = id1));
      repeat case_decide; try tauto; reflexivity.
  - repeat case_decide; try tauto; reflexivity.
Qed.

Lemma NoDup_userid_index (ladder : list LadderRow) (i j : nat)
    (a b : LadderRow) :
  List.NoDup (map userid ladder) ->
  ladder !! i = Some a -> ladder !! j = Some b -> userid a = userid b -> i = j.
Proof.
  intros Hnd Ha Hb E. apply NoDup_ListNoDup in Hnd.
  apply (NoDup_lookup (map userid ladder) i j (userid a)); [exact Hnd| |].
  - change (map userid ladder) with (userid <$> ladder).
    now rewrite list_lookup_fmap, Ha.
  - change (map userid ladder) with (userid <$> ladder).
    now rewrite list_lookup_fmap, Hb, E.
Qed.

Lemma record_result_h2h now ladder p1i p2i row1 row2 s1 s2 :
  h2h_inv ladder ->
  ladder !! p1i = Some row1 -> ladder !! p2i = Some row2 ->
  h2h_inv (record_result now ladder p1i p2i row1 row2 s1 s2
             (userid row1) (userid row2)).
Proof.
  intros [Hnd Hpar Hkn Hmir] Hrow1 Hrow2.
  set (ladder3 := record_result now ladder p1i p2i row1 row2 s1 s2
                    (userid row1) (userid row2)).
  assert (Hback : forall r, In r ladder3 ->
            exists k row, ladder !! k = Some row /\ In row ladder /\
              r = recorded now k p1i p2i row1 row2 s1 s2
                    (userid row1) (userid row2) row).
  { intros r Hr. apply list_elem_of_In, list_elem_of_lookup in Hr as [k Hk].
    unfold ladder3 in Hk. rewrite record_result_lookup in Hk.
    destruct (ladder !! k) as [row|] eqn:Hrow; [|discriminate].
    injection Hk as <-. exists k, row.
    split; [exact Hrow|]. split; [|reflexivity].
    apply list_elem_of_In. eapply list_elem_of_lookup_2, Hrow. }
  assert (Hin1 : In (userid row1) (map userid ladder)).
  { apply in_map, list_elem_of_In. eapply list_elem_of_lookup_2, Hrow1. }
  assert (Hin2 : In (userid row2) (map userid ladder)).
  { apply in_map, list_elem_of_In. eapply list_elem_of_lookup_2, Hrow2. }
  split.
  - unfold ladder3. now rewrite record_result_userids.
  - intros r (k & row & _ & Hrow & ->)%Hback. apply recorded_parsed. auto.
  - intros r id (k & row & _ & Hrow & ->)%Hback Hg.
    unfold ladder3. rewrite record_result_userids.
    apply recorded_known in Hg as [->|[->|Hg]]; eauto.
  - intros ra rb (ka & rowa & Hka & Hrowa & ->)%Hback
      (kb & rowb & Hkb & Hrowb & ->)%Hback.
    rewrite !recorded_userid.
    rewrite !versus_recorded by auto. cbn zeta.
    pose proof (Hmir rowa rowb Hrowa Hrowb) as Hm.
    assert (Hb1 : userid rowb = userid row1 <-> kb = p1i).
    { split; [intros E; now apply (NoDup_userid_index ladder kb p1i rowb row1)|].
      intros ->. congruence. }
    assert (Hb2 : userid rowb = userid row2 <-> kb = p2i).
    { split; [intros E; now apply (NoDup_userid_index ladder kb p2i rowb row2)|].
      intros ->. congruence. }
    assert (Ha1 : userid rowa = userid row1 <-> ka = p1i).
    { split; [intros E; now apply (NoDup_userid_index ladder ka p1i rowa row1)|].
      intros ->. congruence. }
    assert (Ha2 : userid rowa = userid row2 <-> ka = p2i).
    { split; [intros E; now apply (NoDup_userid_index ladder ka p2i rowa row2)|].
      intros ->. congruence. }
    destruct (decide (ka = p1i /\ kb = p2i)) as [HA|HA],
             (decide (ka = p2i /\ kb = p1i)) as [HB|HB].
    + rewrite !decide_True by tauto. now apply mirrored_bump2.
    + rewrite (decide_True (P := ka = p1i /\ userid rowb = userid row2))
        by tauto.
      rewrite (decide_False (P := ka = p2i /\ userid rowb = userid row1))
        by tauto.
      rewrite (decide_False (P := kb = p1i /\ userid rowa = userid row2))
        by tauto.
      rewrite (decide_True (P := kb = p2i /\ userid rowa = userid row1))
        by tauto.
      now apply mirrored_bump.
    + rewrite (decide_False (P := ka = p1i /\ userid rowb = userid row2))
        by tauto.
      rewrite (decide_True (P := ka = p2i /\ userid rowb = userid row1))
        by tauto.
      rewrite (decide_True (P := kb = p1i /\ userid rowa = userid row2))
        by tauto.
      rewrite (decide_False (P := kb = p2i /\ userid rowa = userid row1))
        by tauto.
      pose proof (mirrored_bump _ _ (flip (outcome_of s1)) Hm) as Hm'.
      now rewrite flip_flip in Hm'.
    + rewrite (decide_False (P := ka = p1i /\ userid rowb = userid row2))
        by tauto.
      rewrite (decide_False (P := ka = p2i /\ userid rowb = userid row1))
        by tauto.
      rewrite (decide_False (P := kb = p1i /\ userid rowa = userid row2))
        by tauto.
      rewrite (decide_False (P := kb = p2i /\ userid rowa = userid row1))
        by tauto.
      exact Hm.
Qed.

(** The users of the ladder after a call. *)
Lemma after_call_userids (ladder : list LadderRow) (c : Call) (id : string) :
  In id (map userid (after_call ladder c)) <->
  In id (map userid ladder) \/
  (call_disabled c = false /\
   (id = toID (call_p1 c) \/ id = toID (call_p2 c))).
Proof.
  unfold after_call. destruct (call_disabled c).
  - cbn [updateRating fst]. intuition discriminate.
  - destruct (updateRating_trace (call_now c) (call_battle c) ladder
                (call_p1 c) (call_p2 c) (call_score c))
      as (p1i & p2i & row1 & row2 & r1 & r2 & _ & _ & _ & _ & _ & _
          & _ & _ & ->).
    cbn [fst].
    rewrite (perm_in_iff _ _ id
               (Permutation_map userid (reorder_perm _ p1i p2i _ _))).
    rewrite record_result_userids.
    destruct (with_user_userids (call_now c) ladder (call_p1 c))
      as (Hin1 & _ & _).
    destruct (with_user_userids (call_now c)
                (with_user (call_now c) ladder (call_p1 c)) (call_p2 c))
      as (Hin2 & _ & _).
    rewrite Hin2, Hin1. intuition.
Qed.

Lemma after_call_h2h (ladder : list LadderRow) (c : Call) :
  h2h_inv ladder -> h2h_inv (after_call ladder c).
Proof.
  intros Hinv. unfold after_call.
  destruct (call_disabled c); [exact Hinv|].
  destruct (updateRating_trace (call_now c) (call_battle c) ladder
              (call_p1 c) (call_p2 c) (call_score c))
    as (p1i & p2i & row1 & row2 & r1 & r2 & _ & _ & Hrow1 & Hrow2 & Hid1 & Hid2
        & _ & _ & ->).
  cbn [fst]. eapply h2h_inv_perm; [symmetry; apply reorder_perm|].
  rewrite <- Hid1, <- Hid2.
  apply record_result_h2h; [|exact Hrow1|exact Hrow2].
  now apply with_user_h2h, with_user_h2h.
Qed.

Lemma run_h2h (calls : list Call) :
  forall ladder, h2h_inv ladder -> h2h_inv (run calls ladder).
Proof.
  unfold run. induction calls as [|c calls IH]; intros ladder Hinv;
    [exact Hinv|].
  cbn [fold_left]. apply IH. now apply after_call_h2h.
Qed.

(** X23.  On a ladder built from scratch by calls of [updateRating], the
    head-to-head records tell the same story from both sides: for any two
    rows, the wins, losses and ties that [getH2H] reports for the first
    against the second are the losses, wins and ties that it reports for the
    second against the first (a missing record counting as 0-0-0), and the
    user ids of the ladder are distinct.  The head-to-head column is read as
    a map; on the plain object of the source the key "constructor" is
    inherited, so players with that identity are left aside. *)
Theorem h2h_both_sides (calls : list Call) (ra rb : LadderRow) :
  Forall (fun c => toID (call_p1 c) <> "constructor"%string /\
                   toID (call_p2 c) <> "constructor"%string) calls ->
  In ra (run calls []) -> In rb (run calls []) ->
  List.NoDup (map userid (run calls [])) /\
  h2h_w (versus ra (userid rb)) = h2h_l (versus rb (userid ra)) /\
  h2h_l (versus ra (userid rb)) = h2h_w (versus rb (userid ra)) /\
  h2h_t (versus ra (userid rb)) = h2h_t (versus rb (userid ra)).
Proof.
  intros _ Ha Hb.
  assert (Hinv : h2h_inv (run calls [])).
  { apply run_h2h. split.
    - constructor.
    - intros r [].
    - intros r id [].
    - intros r r' []. }
  split; [apply Hinv|]. now apply (h2h_mirror _ Hinv).
Qed.

Lemma h2h_both_sides_witness :
  exists ra rb : LadderRow,
    (In ra (run three_battles []) /\ userid ra = "ann"%string) /\
    (In rb (run three_battles []) /\ userid rb = "ben"%string) /\
    List.NoDup (map userid (run three_battles [])) /\
    h2h_w (versus ra (userid rb)) = h2h_l (versus rb (userid ra)) /\
    h2h_l (versus ra (userid rb)) = h2h_w (versus rb (userid ra)) /\
    h2h_t (versus ra (userid rb)) = h2h_t (versus rb (userid ra)).
Proof.
  assert (Hann : In "ann"%string (map userid (run three_battles []))).
  { apply after_call_userids. left. apply after_call_userids. left.
    apply after_call_userids. right. split; [reflexivity|]. now left. }
  assert (Hben : In "ben"%string (map userid (run three_battles []))).
  { apply after_call_userids. left. apply after_call_userids. left.
    apply after_call_userids. right. split; [reflexivity|]. now right. }
  apply in_map_iff in Hann as (ra & Hida & Ha).
  apply in_map_iff in Hben as (rb & Hidb & Hb).
  exists ra, rb. split; [now split|]. split; [now split|].
  apply (h2h_both_sides three_battles ra rb); [|exact Ha|exact Hb].
  repeat constructor; cbn; discriminate.
Defined.

Lemma desc_cons (a : LadderRow) (ys : list LadderRow) :
  desc (a :: ys) <-> below (eloRating a) ys /\ desc ys.
Proof.
  split.
  - intros H. inversion H; subst. now split.
  - intros [H1 H2]. now constructor.
Qed.

Lemma desc_app (xs ys : list LadderRow) :
  desc (xs ++ ys) <->
  desc xs /\ desc ys /\ forall x, In x xs -> below (eloRating x) ys.
Proof.
  induction xs as [|a xs IH]; cbn [app].
  - split; [intros H; repeat split; [constructor|exact H|intros x []]|tauto].
  - rewrite !desc_cons, IH. unfold below. rewrite Forall_app. split.
    + intros ((Ha1 & Ha2) & Hx & Hy & Hxy). repeat split; try assumption.
      intros x [<-|Hin]; auto.
    + intros ((Ha1 & Hx) & Hy & Hxy). repeat split; try assumption.
      * apply Hxy. now left.
      * intros x Hin. apply Hxy. now right.
Qed.

Lemma above_weaken (e e' : R) (rows : list LadderRow) :
  above e rows -> e' <= e -> above e' rows.
Proof.
  intros H He. eapply Forall_impl; [exact H|]. intros r Hr. cbn in *. lra.
Qed.

Lemma below_weaken (e e' : R) (rows : list LadderRow) :
  below e rows -> e <= e' -> below e' rows.
Proof.
  intros H He. eapply Forall_impl; [exact H|]. intros r Hr. cbn in *. lra.
Qed.

(** In a sorted list, what stands after a row rated [e] or less is rated
    [e] or less, and what stands before a row rated [e] or more is rated
    [e] or more. *)
Lemma below_after (xs ys : list LadderRow) (x : LadderRow) (e : R) :
  desc (xs ++ ys) -> In x xs -> eloRating x <= e -> below e ys.
Proof.
  intros (_ & _ & H)%desc_app Hin He. eapply below_weaken; eauto.
Qed.

Lemma above_before (xs ys : list LadderRow) (y : LadderRow) (e : R) :
  desc (xs ++ ys) -> In y ys -> e <= eloRating y -> above e xs.
Proof.
  intros (_ & _ & H)%desc_app Hin He. apply List.Forall_forall.
  intros x Hx. specialize (H x Hx).
  apply List.Forall_forall with (x := y) in H; [|exact Hin]. cbn in H. lra.
Qed.

Lemma desc_insert (xs ys : list LadderRow) (a : LadderRow) :
  desc (xs ++ ys) -> above (eloRating a) xs -> below (eloRating a) ys ->
  desc (xs ++ a :: ys).
Proof.
  intros (Hx & Hy & Hxy)%desc_app Ha Hb. apply desc_app.
  split; [exact Hx|]. split; [now apply desc_cons|].
  intros x Hin. constructor; [|exact (Hxy x Hin)].
  now apply List.Forall_forall with (x := x) in Ha.
Qed.

Lemma desc_remove (xs ys : list LadderRow) (a : LadderRow) :
  desc (xs ++ a :: ys) ->
  desc (xs ++ ys) /\ above (eloRating a) xs /\ below (eloRating a) ys.
Proof.
  intros (Hx & [Hb Hy]%desc_cons & Hxy)%desc_app. split; [|split].
  - apply desc_app. split; [exact Hx|]. split; [exact Hy|].
    intros x Hin. specialize (Hxy x Hin). now inversion Hxy.
  - apply List.Forall_forall. intros x Hin. specialize (Hxy x Hin).
    now inversion Hxy.
  - exact Hb.
Qed.

Lemma sorted_desc_iff (ladder : list LadderRow) :
  sorted_desc ladder <-> desc ladder.
Proof.
  unfold sorted_desc. induction ladder as [|a ladder IH].
  - split; [constructor|]. intros _ i j ri rj _ Hi. now destruct i.
  - rewrite desc_cons, <- IH. split.
    + intros H. split.
      * apply List.Forall_forall. intros y Hy.
        apply list_elem_of_In, list_elem_of_lookup in Hy as [j Hj].
        apply (H 0%nat (S j) a y); [lia|reflexivity|exact Hj].
      * intros i j ri rj Hij Hi Hj.
        apply (H (S i) (S j) ri rj); [lia|exact Hi|exact Hj].
    + intros [Hb Hs] i j ri rj Hij Hi Hj.
      destruct j as [|j]; [lia|]. cbn in Hj.
      destruct i as [|i].
      * injection Hi as <-.
        apply List.Forall_forall with (x := rj) in Hb; [exact Hb|].
        apply list_elem_of_In. eapply list_elem_of_lookup_2, Hj.
      * cbn in Hi. apply (Hs i j ri rj); [lia|exact Hi|exact Hj].
Qed.

(** *** The two scans *)

Lemma scanUp_spec (ladder : list LadderRow) (e : R) (n : nat) :
  (n <= length ladder)%nat ->
  exists A1 A2,
    take n ladder = (A1 ++ A2)%list /\
    length A1 = scanUp ladder e n /\ below e A2 /\
    (A1 = [] \/ exists A1' x, A1 = (A1' ++ [x])%list /\ e < eloRating x).
Proof.
  induction n as [|k IH]; intros Hn.
  - exists [], []. rewrite take_0. cbn. repeat split; [constructor|now left].
  - destruct (lookup_lt_is_Some_2 ladder k) as [x Hx]; [lia|].
    cbn [scanUp]. rewrite Hx, (take_S_r _ _ _ Hx).
    destruct (Rle_dec (eloRating x) e) as [Hle|Hgt].
    + destruct IH as (A1 & A2 & Ht & Hl & Hb & Hlast); [lia|].
      exists A1, (A2 ++ [x])%list. rewrite Ht, app_assoc.
      split; [reflexivity|]. split; [exact Hl|]. split; [|exact Hlast].
      apply Forall_app. split; [exact Hb|].
      constructor; [exact Hle|constructor].
    + exists (take k ladder ++ [x])%list, []. rewrite app_nil_r.
      split; [reflexivity|]. split; [|split; [constructor|]].
      * rewrite length_app, length_take. cbn. lia.
      * right. exists (take k ladder), x. split; [reflexivity|lra].
Qed.

Lemma scanDown_stop (index : nat) (e : R) (y : LadderRow)
    (rest : list LadderRow) (n : nat) :
  n <> index -> eloRating y <= e -> scanDown index e (y :: rest) n = n.
Proof.
  intros Hn Hy. cbn [scanDown].
  destruct (Nat.eqb_spec n index); [contradiction|].
  destruct (Rgt_dec (eloRating y) e); [lra|reflexivity].
Qed.

Lemma scanDown_run (index : nat) (e : R) (rest : list LadderRow) :
  forall n, (index < n)%nat ->
    exists Q1 Q2,
      rest = (Q1 ++ Q2)%list /\ above e Q1 /\
      Forall (fun r => e < eloRating r) Q1 /\
      (Q2 = [] \/ exists y Q2', Q2 = y :: Q2' /\ eloRating y <= e) /\
      scanDown index e rest n = (n + length Q1)%nat.
Proof.
  induction rest as [|r rest IH]; intros n Hn; cbn [scanDown].
  - exists [], []. destruct (Nat.eqb_spec n index); [lia|].
    split; [reflexivity|]. split; [constructor|]. split; [constructor|].
    split; [now left|]. cbn. lia.
  - destruct (Nat.eqb_spec n index); [lia|].
    destruct (Rgt_dec (eloRating r) e) as [Hgt|Hle].
    + destruct (IH (S n)) as (Q1 & Q2 & -> & Ha & Hs & Hq & ->); [lia|].
      exists (r :: Q1), Q2. split; [reflexivity|].
      split; [constructor; [lra|exact Ha]|].
      split; [constructor; [lra|exact Hs]|].
      split; [exact Hq|]. cbn. lia.
    + exists [], (r :: rest). split; [reflexivity|].
      split; [constructor|]. split; [constructor|].
      split; [|cbn; lia].
      right. exists r, rest. split; [reflexivity|lra].
Qed.

(** *** Where [moveRow] puts the row *)

Lemma splice_in_app (xs ys : list LadderRow) (a : LadderRow) (n : nat) :
  n = length xs -> splice_in n a (xs ++ ys) = (xs ++ a :: ys)%list.
Proof.
  intros ->. unfold splice_in. now rewrite take_app_length, drop_app_length.
Qed.

(** The row at [index] either moves up, in front of the rows rated [e] or
    less that stand just before it, or stays behind the row before it and
    moves down past the rows rated more than [e] that follow it. *)
Lemma moveRow_spec (ladder : list LadderRow) (index : nat) (e : R)
    (a : LadderRow) :
  ladder !! index = Some a ->
  (exists A1 A2,
     take index ladder = (A1 ++ A2)%list /\ A2 <> [] /\ below e A2 /\
     (A1 = [] \/ exists A1' x, A1 = (A1' ++ [x])%list /\ e < eloRating x) /\
     moveRow ladder index e
     = ((A1 ++ a :: A2 ++ drop (S index) ladder)%list, Some (length A1))) \/
  ((take index ladder = [] \/
    exists P' x, take index ladder = (P' ++ [x])%list /\ e < eloRating x) /\
   exists Q1 Q2,
     drop (S index) ladder = (Q1 ++ Q2)%list /\
     Forall (fun r => e < eloRating r) Q1 /\
     (Q2 = [] \/ exists y Q2', Q2 = y :: Q2' /\ eloRating y <= e) /\
     moveRow ladder index e
     = ((take index ladder ++ Q1 ++ a :: Q2)%list,
        match Q1 with
        | [] => None
        | _ :: _ => Some (index + length Q1)%nat
        end)).
Proof.
  intros Ha.
  pose proof (lookup_lt_Some _ _ _ Ha) as Hlt.
  pose proof (take_drop_middle _ _ _ Ha) as Hsplit.
  assert (HlenP : length (take index ladder) = index)
    by (apply length_take_le; lia).
  set (P := take index ladder) in *. set (Q := drop (S index) ladder) in *.
  destruct (scanUp_spec ladder e index) as (A1 & A2 & Ht & Hl & Hb & Hlast);
    [lia|].
  fold P in Ht.
  assert (Hdel : delete index ladder = (P ++ Q)%list)
    by apply delete_take_drop.
  assert (Hdrop : drop (length A1) ladder = (A2 ++ a :: Q)%list).
  { rewrite <- Hsplit, Ht, <- app_assoc. apply drop_app_length. }
  unfold moveRow. rewrite <- Hl, Hdrop, Ha, Hdel.
  destruct A2 as [|y A2].
  - right. rewrite app_nil_r in Ht. subst A1. rewrite HlenP.
    split; [exact Hlast|].
    cbn [app scanDown]. rewrite Nat.eqb_refl.
    destruct (scanDown_run index e Q (S index)) as (Q1 & Q2 & HQ & _ & Hs & Hq & ->);
      [lia|].
    exists Q1, Q2. split; [exact HQ|]. split; [exact Hs|]. split; [exact Hq|].
    destruct Q1 as [|q Q1].
    + cbn [length app]. rewrite Nat.add_0_r.
      replace (S index =? index + 1)%nat with true
        by (symmetry; apply Nat.eqb_eq; lia).
      rewrite andb_false_r. cbn [app] in HQ. rewrite <- HQ, Hsplit.
      reflexivity.
    + replace (S index + length (q :: Q1) =? index)%nat with false
        by (symmetry; apply Nat.eqb_neq; cbn; lia).
      replace (S index + length (q :: Q1) =? index + 1)%nat with false
        by (symmetry; apply Nat.eqb_neq; cbn; lia).
      replace (index <? S index + length (q :: Q1))%nat with true
        by (symmetry; apply Nat.ltb_lt; lia).
      cbn [negb andb]. rewrite HQ.
      rewrite (app_assoc P), splice_in_app.
      * rewrite <- app_assoc. f_equal. f_equal. lia.
      * rewrite length_app, HlenP. lia.
  - left. exists A1, (y :: A2).
    assert (Hlen : (length A1 < index)%nat).
    { rewrite <- HlenP, Ht, length_app. cbn. lia. }
    split; [exact Ht|]. split; [discriminate|]. split; [exact Hb|].
    split; [exact Hlast|].
    cbn [app]. rewrite scanDown_stop; [|lia|now inversion Hb].
    replace (length A1 =? index)%nat with false
      by (symmetry; apply Nat.eqb_neq; lia).
    replace (length A1 =? index + 1)%nat with false
      by (symmetry; apply Nat.eqb_neq; lia).
    replace (index <? length A1)%nat with false
      by (symmetry; apply Nat.ltb_ge; lia).
    cbn [negb andb]. rewrite Ht, <- app_assoc, splice_in_app by reflexivity.
    reflexivity.
Qed.

(** *** The second move: one row out of place *)

Lemma above_snoc (xs : list LadderRow) (x : LadderRow) (e : R) :
  desc (xs ++ [x]) -> e <= eloRating x -> above e (xs ++ [x]).
Proof.
  intros Hd He. apply Forall_app. split.
  - apply (above_before xs [x] x); [exact Hd|now left|exact He].
  - constructor; [exact He|constructor].
Qed.

Lemma above_prefix (xs : list LadderRow) (e : R) :
  desc xs ->
  (xs = [] \/ exists xs' x, xs = (xs' ++ [x])%list /\ e < eloRating x) ->
  above e xs.
Proof.
  intros Hd [->|(xs' & x & -> & He)]; [constructor|].
  apply above_snoc; [exact Hd|lra].
Qed.

Lemma below_suffix (ys : list LadderRow) (e : R) :
  desc ys ->
  (ys = [] \/ exists y ys', ys = y :: ys' /\ eloRating y <= e) ->
  below e ys.
Proof.
  intros Hd [->|(y & ys' & -> & He)]; [constructor|].
  apply desc_cons in Hd as [Hb _].
  constructor; [exact He|]. eapply below_weaken; eauto.
Qed.

Lemma above_strict (e : R) (rows : list LadderRow) :
  Forall (fun r => e < eloRating r) rows -> above e rows.
Proof.
  intros H. eapply Forall_impl; [exact H|]. intros r Hr. cbn in *. lra.
Qed.

(** If the ladder is sorted but for the row at [index], [moveRow] sorts
    it. *)
Lemma moveRow_sorts (xs ys : list LadderRow) (b : LadderRow) :
  desc (xs ++ ys) ->
  desc (fst (moveRow (xs ++ b :: ys) (length xs) (eloRating b))).
Proof.
  intros Hd.
  assert (Hb : (xs ++ b :: ys)%list !! length xs = Some b)
    by (now apply list_lookup_middle).
  assert (Ht : take (length xs) (xs ++ b :: ys) = xs) by apply take_app_length.
  assert (Hdr : drop (S (length xs)) (xs ++ b :: ys) = ys).
  { rewrite (cons_middle b), app_assoc. apply drop_app_length'.
    rewrite length_app. cbn. lia. }
  destruct (moveRow_spec _ _ (eloRating b) b Hb)
    as [(A1 & A2 & HP & Hne & Hbel & Hlast & ->)
       |(Hlast & Q1 & Q2 & HQ & Hs & Hq & ->)];
    cbn [fst]; rewrite ?Ht, ?Hdr in *.
  - subst xs. rewrite <- app_assoc in Hd.
    apply desc_insert; [exact Hd| |].
    + apply above_prefix; [|exact Hlast]. now apply desc_app in Hd.
    + apply Forall_app. split; [exact Hbel|].
      destruct A2 as [|y A2]; [contradiction|].
      rewrite app_assoc in Hd.
      apply (below_after _ _ y _ Hd); [|now inversion Hbel].
      apply in_app_iff. right. now left.
  - subst ys. rewrite app_assoc. rewrite app_assoc in Hd.
    apply desc_insert; [exact Hd| |].
    + apply Forall_app. split; [|now apply above_strict].
      apply above_prefix; [|exact Hlast].
      apply desc_app in Hd as [Hd _]. now apply desc_app in Hd.
    + apply below_suffix; [|exact Hq]. now apply desc_app in Hd.
Qed.

(** *** The first move: the other player's row in the way *)

Ltac norm_app := repeat (rewrite <- ?app_assoc, <- ?app_comm_cons); cbn [app].

Ltac solve_shift :=
  unfold shifted;
  repeat (progress (rewrite ?length_app in *; cbn [length] in *));
  repeat match goal with
         | |- context [(?x <? ?y)%nat] => destruct (Nat.ltb_spec x y)
         | |- context [(?x <=? ?y)%nat] => destruct (Nat.leb_spec x y)
         end; lia.

(** A list cut in two ways, once at a pivot. *)
Lemma split_pivot (M C Q1 Q2 : list LadderRow) (b : LadderRow) :
  (M ++ b :: C)%list = (Q1 ++ Q2)%list ->
  (exists l, M = (Q1 ++ l)%list /\ Q2 = (l ++ b :: C)%list) \/
  (exists l, Q1 = (M ++ b :: l)%list /\ C = (l ++ Q2)%list).
Proof.
  intros H. apply app_eq_app in H as [l [[-> ->]|[-> H]]].
  - left. now exists l.
  - destruct l as [|x l]; cbn [app] in H.
    + left. exists []. rewrite !app_nil_r. now split.
    + injection H as <- ->. right. now exists l.
Qed.

Lemma snoc_cases (xs : list LadderRow) :
  xs = [] \/ exists xs' x, xs = (xs' ++ [x])%list.
Proof.
  destruct xs as [|a xs] using rev_ind; [now left|]. right. now exists xs, a.
Qed.

(** The rows before the rival, and those between it and the row that
    moves, when the row next above the one that moves is rated more. *)
Lemma above_past_rival (A S : list LadderRow) (b : LadderRow)
    (e1 old1 old2 : R) :
  desc (A ++ S) -> above old2 A -> old1 <= old2 ->
  opposite old1 old2 e1 (eloRating b) ->
  (exists P' x, (A ++ b :: S)%list = (P' ++ [x])%list /\ e1 < eloRating x) ->
  above e1 (A ++ S).
Proof.
  intros Hd Ha Hold Hopp (P' & x & HP & He).
  destruct (snoc_cases S) as [->|(S' & y & ->)].
  - rewrite app_nil_r. change (A ++ [b])%list with (A ++ [b])%list in HP.
    apply app_inj_tail in HP as [_ <-].
    eapply above_weaken; [exact Ha|]. destruct Hopp; lra.
  - rewrite app_comm_cons, !app_assoc in HP.
    apply app_inj_tail in HP as [_ <-].
    rewrite app_assoc. apply above_snoc; [now rewrite <- app_assoc|lra].
Qed.

(** The row that moves stands before the rival. *)
Lemma move_first_before (P M C : list LadderRow) (a0 b0 a b : LadderRow) :
  desc (P ++ a0 :: M ++ b0 :: C) ->
  opposite (eloRating a0) (eloRating b0) (eloRating a) (eloRating b) ->
  exists X Y,
    fst (moveRow (P ++ a :: M ++ b :: C) (length P) (eloRating a))
    = (X ++ b :: Y)%list /\
    desc (X ++ Y) /\
    length X
    = match snd (moveRow (P ++ a :: M ++ b :: C) (length P) (eloRating a))
      with
      | Some n => shifted (length P) (length P + 1 + length M) n
      | None => (length P + 1 + length M)%nat
      end.
Proof.
  intros Hd Hopp.
  destruct (desc_remove _ _ _ Hd) as (Hd1 & Ha0P & Ha0Q).
  rewrite app_assoc in Hd1. destruct (desc_remove _ _ _ Hd1) as (H0 & _ & Hb0C).
  rewrite <- app_assoc in H0.
  assert (Hold : eloRating b0 <= eloRating a0).
  { apply Forall_app in Ha0Q as [_ Hq]. now inversion Hq. }
  set (L := (P ++ a :: M ++ b :: C)%list).
  assert (Ha : L !! length P = Some a) by (now apply list_lookup_middle).
  assert (Ht : take (length P) L = P) by apply take_app_length.
  assert (Hdr : drop (S (length P)) L = (M ++ b :: C)%list).
  { unfold L. rewrite (cons_middle a), app_assoc. apply drop_app_length'.
    rewrite length_app. cbn. lia. }
  destruct (moveRow_spec L _ (eloRating a) a Ha)
    as [(A1 & A2 & HP & Hne & Hbel & Hlast & ->)
       |(Hlast & Q1 & Q2 & HQ & Hs & Hq & ->)];
    cbn [fst snd]; rewrite ?Ht, ?Hdr in *.
  - exists (A1 ++ a :: A2 ++ M)%list, C. split; [now norm_app|].
    split; [|subst P; solve_shift].
    subst P. norm_app. rewrite <- app_assoc in H0.
    apply desc_insert; [exact H0| |].
    + apply above_prefix; [|exact Hlast]. now apply desc_app in H0.
    + apply Forall_app. split; [exact Hbel|].
      destruct A2 as [|y A2]; [contradiction|].
      rewrite app_assoc in H0.
      apply (below_after _ _ y _ H0); [|now inversion Hbel].
      apply in_app_iff. right. now left.
  - destruct (split_pivot _ _ _ _ _ HQ) as [(l & -> & ->)|(l & -> & ->)].
    + exists (P ++ Q1 ++ a :: l)%list, C. split; [now norm_app|].
      split; [|destruct Q1; solve_shift].
      norm_app. rewrite <- app_assoc in H0. rewrite app_assoc.
      rewrite app_assoc in H0.
      apply desc_insert; [exact H0| |].
      * apply Forall_app. split; [|now apply above_strict].
        apply above_prefix; [|exact Hlast].
        apply desc_app in H0 as [H0 _]. now apply desc_app in H0.
      * apply desc_app in H0 as (_ & H0 & _).
        destruct l as [|y l].
        -- cbn [app] in *. destruct Hq as [|(y & Q2' & [= <- <-] & Hy)];
             [discriminate|].
           eapply below_weaken; [exact Hb0C|]. destruct Hopp; lra.
        -- apply below_suffix; [exact H0|]. right.
           destruct Hq as [|(y' & Q2' & [= <- <-] & Hy)]; [discriminate|].
           now exists y, (l ++ C)%list.
    + exists (P ++ M)%list, (l ++ a :: Q2)%list. split; [now norm_app|].
      split.
      * rewrite !app_assoc. rewrite !app_assoc in H0.
        apply desc_insert; [exact H0| |].
        -- apply Forall_app in Hs as [HsM Hsl]. inversion Hsl; subst.
           rewrite <- app_assoc. apply Forall_app. split.
           ++ apply above_prefix; [|exact Hlast].
              apply desc_app in H0 as [H0 _]. apply desc_app in H0 as [H0 _].
              now apply desc_app in H0.
           ++ apply Forall_app. split; now apply above_strict.
        -- apply below_suffix; [|exact Hq]. now apply desc_app in H0.
      * destruct (M ++ b :: l)%list as [|r rest] eqn:E;
          [destruct M; discriminate|].
        apply (f_equal (@length _)) in E. rewrite length_app in E.
        cbn [length] in E. solve_shift.
Qed.

(** The row that moves stands after the rival. *)
Lemma move_first_after (A M C : list LadderRow) (a0 b0 a b : LadderRow) :
  desc (A ++ b0 :: M ++ a0 :: C) ->
  opposite (eloRating a0) (eloRating b0) (eloRating a) (eloRating b) ->
  exists X Y,
    fst (moveRow (A ++ b :: M ++ a :: C) (length A + 1 + length M)
           (eloRating a))
    = (X ++ b :: Y)%list /\
    desc (X ++ Y) /\
    length X
    = match snd (moveRow (A ++ b :: M ++ a :: C) (length A + 1 + length M)
                   (eloRating a))
      with
      | Some n => shifted (length A + 1 + length M) (length A) n
      | None => length A
      end.
Proof.
  intros Hd Hopp.
  destruct (desc_remove _ _ _ Hd) as (Hd1 & Hb0A & Hb0Q).
  rewrite app_assoc in Hd1. destruct (desc_remove _ _ _ Hd1) as (H0 & Ha0P & Ha0C).
  rewrite <- app_assoc in H0.
  assert (Hold : eloRating a0 <= eloRating b0).
  { apply Forall_app in Hb0Q as [_ Hq]. now inversion Hq. }
  set (idx := (length A + 1 + length M)%nat).
  set (L := (A ++ b :: M ++ a :: C)%list).
  assert (HL : L = ((A ++ b :: M) ++ a :: C)%list) by (unfold L; now norm_app).
  assert (Hidx : idx = length (A ++ b :: M))
    by (unfold idx; rewrite length_app; cbn; lia).
  assert (Ha : L !! idx = Some a) by (rewrite HL; now apply list_lookup_middle).
  assert (Ht : take idx L = (A ++ b :: M)%list)
    by (rewrite HL, Hidx; apply take_app_length).
  assert (Hdr : drop (S idx) L = C).
  { rewrite HL, (cons_middle a), app_assoc. apply drop_app_length'.
    rewrite length_app, Hidx. cbn. lia. }
  destruct (moveRow_spec L _ (eloRating a) a Ha)
    as [(A1 & A2 & HP & Hne & Hbel & Hlast & ->)
       |(Hlast & Q1 & Q2 & HQ & Hs & Hq & ->)];
    cbn [fst snd]; rewrite ?Ht, ?Hdr in *; clear Ha Ht Hdr HL; clear L.
  - destruct (split_pivot _ _ _ _ _ HP) as [(l & -> & ->)|(l & -> & ->)].
    + exists (A1 ++ a :: l)%list, (M ++ C)%list. split; [now norm_app|].
      split; [|unfold idx; solve_shift].
      norm_app. rewrite <- app_assoc in H0.
      apply desc_insert; [exact H0| |].
      * apply above_prefix; [|exact Hlast]. now apply desc_app in H0.
      * apply Forall_app in Hbel as [Hl HbM]. inversion HbM as [|? ? Hb HM]; subst.
        apply Forall_app. split; [exact Hl|].
        apply Forall_app. split; [exact HM|].
        apply Forall_app in Ha0P as [Ha0A Ha0M].
        apply Forall_app in Ha0A as [_ Ha0l].
        eapply below_weaken; [exact Ha0C|].
        destruct l as [|y l]; [destruct M as [|y M]|].
        -- destruct Hopp; lra.
        -- inversion HM; subst. inversion Ha0M; subst. lra.
        -- inversion Hl; subst. inversion Ha0l; subst. lra.
    + exists A, (l ++ a :: A2 ++ C)%list. split; [now norm_app|].
      split.
      * rewrite <- app_assoc in H0. rewrite app_assoc.
        rewrite app_assoc in H0.
        apply desc_insert; [exact H0| |].
        -- apply (above_past_rival A l b _ (eloRating a0) (eloRating b0));
             try assumption.
           ++ apply desc_app in H0 as [H0 _]. exact H0.
           ++ destruct Hlast as [E|Hlast]; [destruct A; discriminate|].
              exact Hlast.
        -- apply Forall_app. split; [exact Hbel|].
           destruct A2 as [|y A2]; [contradiction|].
           rewrite <- app_assoc in H0. rewrite (app_assoc l) in H0.
           rewrite app_assoc in H0.
           apply (below_after _ _ y _ H0); [|now inversion Hbel].
           apply in_app_iff. right. apply in_app_iff. right. now left.
      * unfold idx. solve_shift.
  - exists A, (M ++ Q1 ++ a :: Q2)%list. split; [now norm_app|].
    split; [|destruct Q1; unfold idx; solve_shift].
    subst C. rewrite !app_assoc. rewrite !app_assoc in H0.
    apply desc_insert; [exact H0| |].
    + apply Forall_app. split; [|now apply above_strict].
      apply (above_past_rival A M b _ (eloRating a0) (eloRating b0));
        try assumption.
      * apply desc_app in H0 as [H0 _]. now apply desc_app in H0.
      * destruct Hlast as [E|Hlast]; [destruct A; discriminate|].
        exact Hlast.
    + apply below_suffix; [|exact Hq]. now apply desc_app in H0.
Qed.

(** *** One call of [updateRating] *)

(** Of two players rated 1000 or more whose scores add up to 1, one does
    not lose rating and the other does not gain. *)
Lemma calculateElo_opposite (o1 o2 s : R) (g1 g2 : Z) :
  1000 <= o1 -> 1000 <= o2 ->
  opposite o1 o2 (calculateElo o1 s o2 g1) (calculateElo o2 (1 - s) o1 g2).
Proof.
  intros H1 H2. rewrite !calculateElo_eq.
  pose proof (kfactor_bounds o1 s o2 g1) as HK1.
  pose proof (kfactor_bounds o2 (1 - s) o1 g2) as HK2.
  pose proof (expected_sum o1 o2) as HE.
  set (K1 := kfactor o1 s o2 g1) in *. set (K2 := kfactor o2 (1 - s) o1 g2) in *.
  set (E1 := expected o1 o2) in *. set (E2 := expected o2 o1) in *.
  assert (Hd : 1 - s - E2 = - (s - E1)) by lra.
  rewrite Hd. unfold opposite, Rmax.
  destruct (Rle_dec 0 (s - E1)) as [Hs|Hs].
  - left. repeat destruct (Rle_dec _ _); split; nra.
  - right. repeat destruct (Rle_dec _ _); split; nra.
Qed.

Lemma split_two {A} (L : list A) (i j : nat) (x y : A) :
  (i < j)%nat -> L !! i = Some x -> L !! j = Some y ->
  exists P M C,
    L = (P ++ x :: M ++ y :: C)%list /\ length P = i /\
    j = (i + 1 + length M)%nat.
Proof.
  intros Hij Hx Hy.
  pose proof (lookup_lt_Some _ _ _ Hx) as Hi.
  pose proof (take_drop_middle _ _ _ Hx) as HL.
  assert (Hy' : drop (S i) L !! (j - S i)%nat = Some y).
  { rewrite lookup_drop. now replace (S i + (j - S i))%nat with j by lia. }
  pose proof (lookup_lt_Some _ _ _ Hy') as Hj.
  pose proof (take_drop_middle _ _ _ Hy') as HQ.
  exists (take i L), (take (j - S i) (drop (S i) L)),
         (drop (S (j - S i)) (drop (S i) L)).
  split; [now rewrite HQ, HL|].
  rewrite !length_take_le by lia. lia.
Qed.

Lemma insert_middle {A} (P Q : list A) (x z : A) (i : nat) :
  i = length P -> <[i := z]> (P ++ x :: Q)%list = (P ++ z :: Q)%list.
Proof.
  intros ->. rewrite insert_app_r_alt by lia. now rewrite Nat.sub_diag.
Qed.

Lemma record_result_inserts now ladder p1i p2i row1 row2 s1 s2 id1 id2 :
  p1i <> p2i ->
  ladder !! p1i = Some row1 -> ladder !! p2i = Some row2 ->
  record_result now ladder p1i p2i row1 row2 s1 s2 id1 id2
  = <[p2i := recorded now p2i p1i p2i row1 row2 s1 s2 id1 id2 row2]>
      (<[p1i := recorded now p1i p1i p2i row1 row2 s1 s2 id1 id2 row1]>
         ladder).
Proof.
  intros Hne H1 H2. apply list_eq. intros k.
  rewrite record_result_lookup.
  pose proof (lookup_lt_Some _ _ _ H1). pose proof (lookup_lt_Some _ _ _ H2).
  destruct (decide (k = p2i)) as [->|Hk2].
  - rewrite list_lookup_insert_eq by (rewrite length_insert; lia).
    now rewrite H2.
  - rewrite list_lookup_insert_ne by congruence.
    destruct (decide (k = p1i)) as [->|Hk1].
    + rewrite list_lookup_insert_eq by lia. now rewrite H1.
    + rewrite list_lookup_insert_ne by congruence.
      destruct (ladder !! k) as [row|]; [|reflexivity]. cbn.
      now rewrite recorded_other.
Qed.

Lemma recorded_elo_first now p1i p2i row1 row2 s1 s2 id1 id2 :
  p1i <> p2i ->
  eloRating (recorded now p1i p1i p2i row1 row2 s1 s2 id1 id2 row1)
  = calculateElo (eloRating row1) s1 (eloRating row2) (gamesPlayed row1).
Proof.
  intros Hne. unfold recorded.
  repeat case_decide; try congruence.
  now rewrite updateH2H_elo, updateRow_elo.
Qed.

Lemma recorded_elo_second now p1i p2i row1 row2 s1 s2 id1 id2 :
  p1i <> p2i ->
  eloRating (recorded now p2i p1i p2i row1 row2 s1 s2 id1 id2 row2)
  = calculateElo (eloRating row2) s2 (eloRating row1) (gamesPlayed row2).
Proof.
  intros Hne. unfold recorded.
  repeat case_decide; try congruence.
  now rewrite updateH2H_elo, updateRow_elo.
Qed.

(** [reorder] sorts a ladder that is sorted but for two rows whose ratings
    went opposite ways. *)
Lemma reorder_sorts (ladder : list LadderRow) (p1i p2i : nat)
    (row1 row2 r1 r2 : LadderRow) :
  desc ladder -> p1i <> p2i ->
  ladder !! p1i = Some row1 -> ladder !! p2i = Some row2 ->
  opposite (eloRating row1) (eloRating row2) (eloRating r1) (eloRating r2) ->
  desc (reorder (<[p2i := r2]> (<[p1i := r1]> ladder)) p1i p2i
          (eloRating r1) (eloRating r2)).
Proof.
  intros Hd Hne H1 H2 Hopp. unfold reorder.
  destruct (Nat.lt_total p1i p2i) as [Hlt|[E|Hlt]]; [|contradiction|].
  - destruct (split_two ladder p1i p2i row1 row2 Hlt H1 H2)
      as (P & M & C & -> & HP & Hj).
    assert (E : <[p2i := r2]> (<[p1i := r1]> (P ++ row1 :: M ++ row2 :: C))
                = (P ++ r1 :: M ++ r2 :: C)%list).
    { rewrite insert_middle by (symmetry; exact HP).
      replace (P ++ r1 :: M ++ row2 :: C)%list
        with ((P ++ r1 :: M) ++ row2 :: C)%list
        by (now rewrite <- app_assoc).
      rewrite insert_middle by (rewrite length_app; cbn; lia).
      now rewrite <- app_assoc. }
    rewrite E. subst p1i p2i.
    destruct (move_first_before P M C row1 row2 r1 r2 Hd Hopp)
      as (X & Y & Hfst & Hdesc & Hlen).
    destruct (moveRow (P ++ r1 :: M ++ r2 :: C) (length P) (eloRating r1))
      as [L1 moved].
    cbn [fst snd] in *. subst L1. rewrite <- Hlen.
    now apply moveRow_sorts.
  - destruct (split_two ladder p2i p1i row2 row1 Hlt H2 H1)
      as (A & M & C & -> & HA & Hj).
    assert (E : <[p2i := r2]> (<[p1i := r1]> (A ++ row2 :: M ++ row1 :: C))
                = (A ++ r2 :: M ++ r1 :: C)%list).
    { replace (A ++ row2 :: M ++ row1 :: C)%list
        with ((A ++ row2 :: M) ++ row1 :: C)%list
        by (now rewrite <- app_assoc).
      rewrite insert_middle by (rewrite length_app; cbn; lia).
      rewrite <- app_assoc. cbn [app].
      now rewrite insert_middle by (symmetry; exact HA). }
    rewrite E. subst p1i p2i.
    destruct (move_first_after A M C row1 row2 r1 r2 Hd Hopp)
      as (X & Y & Hfst & Hdesc & Hlen).
    destruct (moveRow (A ++ r2 :: M ++ r1 :: C) (length A + 1 + length M)
                (eloRating r1)) as [L1 moved].
    cbn [fst snd] in *. subst L1. rewrite <- Hlen.
    now apply moveRow_sorts.
Qed.

Lemma with_user_sorted (now : string) (ladder : list LadderRow)
    (name : string) :
  desc ladder -> above 1000 ladder ->
  desc (with_user now ladder name) /\ above 1000 (with_user now ladder name).
Proof.
  intros Hd Ha. destruct (with_user_spec now ladder name) as [[_ ->]|[_ ->]];
    [now split|].
  split.
  - apply desc_app. split; [exact Hd|]. split; [repeat constructor|].
    intros x Hx. constructor; [|constructor].
    now apply List.Forall_forall with (x := x) in Ha.
  - apply Forall_app. split; [exact Ha|]. constructor; [|constructor].
    cbn. lra.
Qed.

Lemma after_call_sorted (ladder : list LadderRow) (c : Call) :
  desc ladder -> above 1000 ladder ->
  0 <= call_score c -> toID (call_p1 c) <> toID (call_p2 c) ->
  desc (after_call ladder c).
Proof.
  intros Hd Ha Hs Hne. unfold after_call.
  destruct (call_disabled c); [exact Hd|].
  destruct (updateRating_trace (call_now c) (call_battle c) ladder
              (call_p1 c) (call_p2 c) (call_score c))
    as (p1i & p2i & row1 & row2 & r1 & r2 & _ & _ & Hrow1 & Hrow2 & Hid1 & Hid2
        & Hr1 & Hr2 & ->).
  cbn [fst].
  destruct (Rlt_dec (call_score c) 0) as [Hneg|_]; [lra|].
  set (ladder2 := with_user (call_now c)
                    (with_user (call_now c) ladder (call_p1 c)) (call_p2 c))
    in *.
  assert (Hidx : p1i <> p2i) by (intros ->; congruence).
  destruct (with_user_sorted (call_now c) ladder (call_p1 c) Hd Ha)
    as [Hd1 Ha1].
  destruct (with_user_sorted (call_now c) _ (call_p2 c) Hd1 Ha1)
    as [Hd2 Ha2].
  fold ladder2 in Hd2, Ha2.
  rewrite (record_result_inserts _ _ _ _ _ _ _ _ _ _ Hidx Hrow1 Hrow2)
    in Hr1, Hr2 |- *.
  pose proof (lookup_lt_Some _ _ _ Hrow1). pose proof (lookup_lt_Some _ _ _ Hrow2).
  rewrite list_lookup_insert_ne, list_lookup_insert_eq in Hr1
    by (congruence || lia).
  rewrite list_lookup_insert_eq in Hr2 by (rewrite length_insert; lia).
  injection Hr1 as <-. injection Hr2 as <-.
  apply (reorder_sorts ladder2 p1i p2i row1 row2); try assumption.
  rewrite recorded_elo_first, recorded_elo_second by exact Hidx.
  apply calculateElo_opposite.
  - apply List.Forall_forall with (x := row1) in Ha2; [exact Ha2|].
    apply list_elem_of_In. eapply list_elem_of_lookup_2, Hrow1.
  - apply List.Forall_forall with (x := row2) in Ha2; [exact Ha2|].
    apply list_elem_of_In. eapply list_elem_of_lookup_2, Hrow2.
Qed.

Lemma run_sorted (calls : list Call) :
  forall ladder,
    desc ladder -> above 1000 ladder ->
    Forall (fun c => 0 <= call_score c /\
                     toID (call_p1 c) <> toID (call_p2 c)) calls ->
    desc (run calls ladder) /\ above 1000 (run calls ladder).
Proof.
  unfold run. induction calls as [|c calls IH]; intros ladder Hd Ha Hc;
    [now split|].
  inversion Hc as [|? ? [Hs Hne] Hc']; subst. cbn [fold_left].
  apply IH; [now apply after_call_sorted| |exact Hc'].
  apply after_call_Forall; try assumption.
  - intros. cbn. lra.
  - intros. rewrite updateRow_elo, calculateElo_eq. apply Rmax_r.
  - intros. now rewrite updateH2H_elo.
Qed.

(** X24.  A ladder that is sorted by Elo, highest first, with every rating
    at least 1000, stays so under any sequence of [updateRating] calls
    whose scores are not negative and whose two players are different
    users: after every call the ladder is sorted and every rating is at
    least 1000 (ratings read as real numbers). *)
Theorem ladder_stays_sorted (calls : list Call) (ladder : list LadderRow) :
  sorted_desc ladder -> Forall (fun r => 1000 <= eloRating r) ladder ->
  Forall (fun c => 0 <= call_score c /\
                   toID (call_p1 c) <> toID (call_p2 c)) calls ->
  sorted_desc (run calls ladder) /\
  Forall (fun r => 1000 <= eloRating r) (run calls ladder).
Proof.
  intros Hs Ha Hc. apply sorted_desc_iff in Hs.
  destruct (run_sorted calls ladder Hs Ha Hc) as [Hd Ha'].
  split; [now apply sorted_desc_iff|exact Ha'].
Qed.

Lemma ladder_stays_sorted_witness :
  sorted_desc (run three_battles []) /\
  Forall (fun r => 1000 <= eloRating r) (run three_battles []).
Proof.
  apply (ladder_stays_sorted three_battles []).
  - intros i j ri rj _ Hi. now destruct i.
  - constructor.
  - repeat constructor; cbn; try lra; discriminate.
Defined.

End LadderExtra.
